(** * Classic-C-Problems: the three coordinators and their invariants

    A shallow embedding of the synchronisation cores of

      - bounded-buffer/print_system_monitor.c        (Module PrintQueue)
      - dining-philosophers/video_studio_monitor.c   (Module Studio)
      - dining-philosophers/video_studio_sem.c       (Module StudioSem)
      - readers-writers/ecommerce_monitor.c          (Module Catalog)
      - readers-writers/ecommerce_mutex.c            (Module CatalogMutex)

    and of the threads that each program starts

      - bounded-buffer/print_system_monitor.c        (Module PrintQueueThreads)
      - dining-philosophers/video_studio_monitor.c   (Module StudioThreads)
      - dining-philosophers/video_studio_mutex.c     (Module StudioMutex)
      - dining-philosophers/video_studio_sem.c       (Module StudioSemThreads)
      - readers-writers/ecommerce_monitor.c          (Module CatalogThreads)
      - readers-writers/ecommerce_sem.c              (Module CatalogSem)

    Every function that runs between [pthread_mutex_lock] and the next
    [pthread_cond_wait] / [pthread_mutex_unlock] is one atomic step on the
    shared structure.  A call that reaches [pthread_cond_wait] is modelled by
    the outcome [Waits]: when the thread is woken it re-evaluates its loop
    test on the state it then finds, which is the same as running the step
    again on that state.  The threads of each program are modelled by the
    place each one has reached in its loop, and any thread may take the next
    step. *)

From Stdlib Require Import ZArith List Lia Bool String.
From stdpp Require Import base decidable list pretty.

Local Open Scope Z_scope.

(** ** C [int] and the outcome of a call *)

Definition INT_MAX : Z := 2147483647.
Definition INT_MIN : Z := -2147483648.

Definition int_range (z : Z) : Prop := INT_MIN <= z <= INT_MAX.

(** A call either runs to its return, or reaches a condition wait, or
    performs an operation C leaves undefined (signed overflow, an index
    outside its array). *)
Inductive outcome (A : Type) : Type :=
| Returns (a : A)
| Waits
| Undefined.

Arguments Returns {A} a.
Arguments Waits {A}.
Arguments Undefined {A}.

Definition bind {A B : Type} (o : outcome A) (k : A -> outcome B) : outcome B :=
  match o with
  | Returns a => k a
  | Waits => Waits
  | Undefined => Undefined
  end.

#[global] Instance outcome_bind : MBind outcome := fun A B k o => bind o k.

(** [a + b] on [int]. *)
Definition int_add (a b : Z) : outcome Z :=
  if decide (int_range (a + b)) then Returns (a + b) else Undefined.

(** [a - b] on [int]. *)
Definition int_sub (a b : Z) : outcome Z :=
  if decide (int_range (a - b)) then Returns (a - b) else Undefined.

(** An [int] used as a condition. *)
Definition truthy (z : Z) : bool := negb (z =? 0).

(** [a[i]] for an [int] index. *)
Definition read_at {A : Type} (a : list A) (i : Z) : outcome A :=
  if decide (0 <= i) then
    match a !! Z.to_nat i with
    | Some x => Returns x
    | None => Undefined
    end
  else Undefined.

(** [a[i] = x] for an [int] index. *)
Definition write_at {A : Type} (a : list A) (i : Z) (x : A) : outcome (list A) :=
  if decide (0 <= i < Z.of_nat (length a)) then Returns (<[Z.to_nat i := x]> a)
  else Undefined.

Lemma int_add_Returns a b r :
  int_add a b = Returns r -> r = a + b /\ int_range r.
Proof.
  unfold int_add. destruct (decide (int_range (a + b))); intros H.
  - injection H as <-. auto.
  - discriminate.
Qed.

Lemma int_sub_Returns a b r :
  int_sub a b = Returns r -> r = a - b /\ int_range r.
Proof.
  unfold int_sub. destruct (decide (int_range (a - b))); intros H.
  - injection H as <-. auto.
  - discriminate.
Qed.

Lemma int_add_small a b :
  int_range (a + b) -> int_add a b = Returns (a + b).
Proof. intros H. unfold int_add. destruct (decide _); [reflexivity | contradiction]. Qed.

Lemma int_sub_small a b :
  int_range (a - b) -> int_sub a b = Returns (a - b).
Proof. intros H. unfold int_sub. destruct (decide _); [reflexivity | contradiction]. Qed.

Lemma read_at_Returns {A} (a : list A) i x :
  read_at a i = Returns x <-> 0 <= i /\ a !! Z.to_nat i = Some x.
Proof.
  unfold read_at. destruct (decide (0 <= i)).
  - destruct (a !! Z.to_nat i) eqn:E; split.
    + intros H. injection H as <-. auto.
    + intros [_ H]. injection H as <-. reflexivity.
    + discriminate.
    + intros [_ H]. discriminate.
  - split; [discriminate | intros [H _]; contradiction].
Qed.

Lemma write_at_Returns {A} (a : list A) i x b :
  write_at a i x = Returns b <->
  0 <= i < Z.of_nat (length a) /\ b = <[Z.to_nat i := x]> a.
Proof.
  unfold write_at. destruct (decide _); split.
  - intros H. injection H as <-. auto.
  - intros [_ ->]. reflexivity.
  - discriminate.
  - intros [H _]. contradiction.
Qed.

Lemma truthy_false z : truthy z = false <-> z = 0.
Proof. unfold truthy. destruct (Z.eqb_spec z 0); simpl; split; congruence. Qed.

Lemma truthy_true z : truthy z = true <-> z <> 0.
Proof. unfold truthy. destruct (Z.eqb_spec z 0); simpl; split; congruence. Qed.

Lemma bind_Returns {A B} (o : outcome A) (k : A -> outcome B) b :
  o ≫= k = Returns b <-> exists a, o = Returns a /\ k a = Returns b.
Proof.
  unfold mbind, outcome_bind, bind. destruct o; split.
  - eauto.
  - intros (a' & E & H). injection E as ->. exact H.
  - discriminate.
  - intros (a' & E & _). discriminate.
  - discriminate.
  - intros (a' & E & _). discriminate.
Qed.

Lemma or_pos_false a b :
  (0 <? a) || (0 <? b) = false <-> a <= 0 /\ b <= 0.
Proof. rewrite orb_false_iff, !Z.ltb_ge. tauto. Qed.

Lemma or_pos_true a b :
  (0 <? a) || (0 <? b) = true <-> 0 < a \/ 0 < b.
Proof. rewrite orb_true_iff, !Z.ltb_lt. tauto. Qed.

(** How many entries of [l] are [x]. *)
Fixpoint tally {A : Type} `{EqDecision A} (x : A) (l : list A) : Z :=
  match l with
  | [] => 0
  | y :: l' => (if decide (y = x) then 1 else 0) + tally x l'
  end.

Lemma tally_nonneg {A : Type} `{EqDecision A} (x : A) l : 0 <= tally x l.
Proof. induction l as [| y l IH]; simpl; [lia |]. destruct (decide _); lia. Qed.

Lemma tally_replicate {A : Type} `{EqDecision A} (x y : A) n :
  tally x (replicate n y) = if decide (y = x) then Z.of_nat n else 0.
Proof.
  induction n as [| n IH]; simpl.
  - by destruct (decide _).
  - rewrite IH. destruct (decide _); lia.
Qed.

Lemma tally_insert {A : Type} `{EqDecision A} (x : A) l : forall i y z,
  l !! i = Some y ->
  tally x (<[i := z]> l) =
  tally x l - (if decide (y = x) then 1 else 0)
            + (if decide (z = x) then 1 else 0).
Proof.
  induction l as [| a l IH]; intros i y z Hy; [discriminate |].
  destruct i as [| i]; simpl in *.
  - injection Hy as ->. lia.
  - rewrite (IH i y z Hy). lia.
Qed.

Lemma tally_lookup {A : Type} `{EqDecision A} (x : A) l i :
  l !! i = Some x -> 0 < tally x l.
Proof.
  revert i. induction l as [| a l IH]; intros i Hx; [discriminate |].
  destruct i as [| i]; simpl in *.
  - injection Hx as ->. pose proof (tally_nonneg x l).
    destruct (decide (x = x)); [lia | contradiction].
  - specialize (IH i Hx). destruct (decide _); lia.
Qed.

(** * The print queue (bounded-buffer/print_system_monitor.c) *)

Module PrintQueue.

Definition BUFFER_SIZE : Z := 5.
Definition NUM_PRODUCERS : Z := 3.

Record Document : Type := mkDocument {
  id : Z;
  type : string;
  size : Z;
  producer_id : Z
}.

(** The shared fields of the monitor; the mutexes and condition variables
    are the atomicity of the steps below. *)
Record PrintQueueMonitor : Type := mkMonitor {
  buffer : list Document;
  count : Z;
  in_ : Z;
  out : Z;
  active_producers : Z;
  should_stop : Z
}.

(** A file-scope object starts zeroed. *)
Definition zero_document : Document :=
  {| id := 0; type := EmptyString; size := 0; producer_id := 0 |}.

Definition print_queue : PrintQueueMonitor :=
  {| buffer := replicate (Z.to_nat BUFFER_SIZE) zero_document;
     count := 0; in_ := 0; out := 0; active_producers := 0; should_stop := 0 |}.

Definition monitor_init (m : PrintQueueMonitor) : PrintQueueMonitor :=
  {| buffer := buffer m;
     count := 0; in_ := 0; out := 0;
     active_producers := NUM_PRODUCERS;
     should_stop := 0 |}.

(** [x % BUFFER_SIZE]: C's remainder truncates towards zero. *)
Definition next_index (x : Z) : outcome Z :=
  y ← int_add x 1; Returns (Z.rem y BUFFER_SIZE).

Definition monitor_insert (m : PrintQueueMonitor) (doc : Document)
  : outcome PrintQueueMonitor :=
  if (count m =? BUFFER_SIZE) && negb (truthy (should_stop m)) then Waits
  else if truthy (should_stop m) then Returns m
  else
    b ← write_at (buffer m) (in_ m) doc;
    i ← next_index (in_ m);
    c ← int_add (count m) 1;
    Returns {| buffer := b; count := c; in_ := i; out := out m;
               active_producers := active_producers m;
               should_stop := should_stop m |}.

(** [doc] is the content of [*doc] before the call; the result carries the
    monitor, the content of [*doc] after the call and the returned [int]. *)
Definition monitor_remove (m : PrintQueueMonitor) (doc : Document)
  : outcome (PrintQueueMonitor * Document * Z) :=
  if (count m =? 0) && negb (truthy (should_stop m)) then
    if active_producers m =? 0 then Returns (m, doc, 0) else Waits
  else if truthy (should_stop m) && (count m =? 0) then Returns (m, doc, 0)
  else
    d ← read_at (buffer m) (out m);
    o ← next_index (out m);
    c ← int_sub (count m) 1;
    Returns ({| buffer := buffer m; count := c; in_ := in_ m; out := o;
                active_producers := active_producers m;
                should_stop := should_stop m |}, d, 1).

(** The tail of [producer]: [print_queue.active_producers--]. *)
Definition producer_exit (m : PrintQueueMonitor) : outcome PrintQueueMonitor :=
  a ← int_sub (active_producers m) 1;
  Returns {| buffer := buffer m; count := count m; in_ := in_ m; out := out m;
             active_producers := a; should_stop := should_stop m |}.

(** [print_queue.should_stop = 1], the only write to the flag (in [main]). *)
Definition stop (m : PrintQueueMonitor) : PrintQueueMonitor :=
  {| buffer := buffer m; count := count m; in_ := in_ m; out := out m;
     active_producers := active_producers m; should_stop := 1 |}.

(** States reached from the initialised monitor by completed calls. *)
Inductive reachable : PrintQueueMonitor -> Prop :=
| reach_init : reachable (monitor_init print_queue)
| reach_insert m doc m' :
    reachable m -> monitor_insert m doc = Returns m' -> reachable m'
| reach_remove m doc m' doc' r :
    reachable m -> monitor_remove m doc = Returns (m', doc', r) -> reachable m'
| reach_producer_exit m m' :
    reachable m -> producer_exit m = Returns m' -> reachable m'
| reach_stop m :
    reachable m -> reachable (stop m).

(** The documents waiting in the buffer, oldest first: [count] slots
    starting at [out], wrapping at the end of the array. *)
Definition contents (m : PrintQueueMonitor) : list Document :=
  take (Z.to_nat (count m)) (rotate (Z.to_nat (out m)) (buffer m)).

(** What every reachable monitor satisfies. *)
Record well_formed (m : PrintQueueMonitor) : Prop := mkWf {
  wf_buffer : Z.of_nat (length (buffer m)) = BUFFER_SIZE;
  wf_count : 0 <= count m <= BUFFER_SIZE;
  wf_in : 0 <= in_ m < BUFFER_SIZE;
  wf_out : 0 <= out m < BUFFER_SIZE;
  wf_index : in_ m = (out m + count m) mod BUFFER_SIZE
}.

(** *** Inversion of the calls *)

Definition inserted (m : PrintQueueMonitor) (doc : Document) : PrintQueueMonitor :=
  {| buffer := <[Z.to_nat (in_ m) := doc]> (buffer m);
     count := count m + 1;
     in_ := Z.rem (in_ m + 1) BUFFER_SIZE;
     out := out m;
     active_producers := active_producers m;
     should_stop := should_stop m |}.

Definition removed (m : PrintQueueMonitor) : PrintQueueMonitor :=
  {| buffer := buffer m;
     count := count m - 1;
     in_ := in_ m;
     out := Z.rem (out m + 1) BUFFER_SIZE;
     active_producers := active_producers m;
     should_stop := should_stop m |}.

Lemma next_index_Returns x y :
  next_index x = Returns y -> y = Z.rem (x + 1) BUFFER_SIZE.
Proof.
  unfold next_index. intros H. apply bind_Returns in H as (a & Ha & H).
  apply int_add_Returns in Ha as [-> _]. injection H as <-. reflexivity.
Qed.

Lemma monitor_insert_inv m doc m' :
  monitor_insert m doc = Returns m' ->
  (should_stop m <> 0 /\ m' = m) \/
  (should_stop m = 0 /\ count m <> BUFFER_SIZE /\
   0 <= in_ m < Z.of_nat (length (buffer m)) /\ m' = inserted m doc).
Proof.
  unfold monitor_insert.
  destruct (truthy (should_stop m)) eqn:Hs; simpl.
  - rewrite andb_false_r. intros H. injection H as <-.
    left. split; [by apply truthy_true | reflexivity].
  - rewrite andb_true_r. destruct (Z.eqb_spec (count m) BUFFER_SIZE) as [|Hc];
      [discriminate |].
    intros H. right.
    apply bind_Returns in H as (b & Hb & H).
    apply bind_Returns in H as (i & Hi & H).
    apply bind_Returns in H as (c & Hc' & H).
    apply write_at_Returns in Hb as [Hin ->].
    apply next_index_Returns in Hi as ->.
    apply int_add_Returns in Hc' as [-> _].
    injection H as <-.
    repeat split; try (by apply truthy_false); try lia; done.
Qed.

Lemma monitor_remove_inv m doc m' doc' r :
  monitor_remove m doc = Returns (m', doc', r) ->
  (r = 0 /\ m' = m /\ doc' = doc /\ count m = 0 /\
   (should_stop m <> 0 \/ active_producers m = 0)) \/
  (r = 1 /\ count m <> 0 /\ 0 <= out m /\
   buffer m !! Z.to_nat (out m) = Some doc' /\ m' = removed m).
Proof.
  unfold monitor_remove.
  destruct (Z.eqb_spec (count m) 0) as [Hc|Hc]; simpl.
  - destruct (truthy (should_stop m)) eqn:Hs; simpl.
    + intros H. injection H as <- <- <-. left.
      repeat split; try done. left. by apply truthy_true.
    + destruct (Z.eqb_spec (active_producers m) 0) as [Ha|Ha]; [|discriminate].
      intros H. injection H as <- <- <-. left. repeat split; try done. by right.
  - rewrite andb_false_r. intros H. right.
    apply bind_Returns in H as (d & Hd & H).
    apply bind_Returns in H as (o & Ho & H).
    apply bind_Returns in H as (c & Hc' & H).
    apply read_at_Returns in Hd as [Hout Hd].
    apply next_index_Returns in Ho as ->.
    apply int_sub_Returns in Hc' as [-> _].
    injection H as <- <- <-.
    repeat split; done.
Qed.

Lemma producer_exit_inv m m' :
  producer_exit m = Returns m' ->
  buffer m' = buffer m /\ count m' = count m /\ in_ m' = in_ m /\
  out m' = out m /\ should_stop m' = should_stop m /\
  active_producers m' = active_producers m - 1.
Proof.
  unfold producer_exit. intros H.
  apply bind_Returns in H as (a & Ha & H).
  apply int_sub_Returns in Ha as [-> _]. injection H as <-. simpl. done.
Qed.

(** *** The representation invariant *)

Lemma BUFFER_SIZE_pos : 0 < BUFFER_SIZE.
Proof. reflexivity. Qed.

Lemma rem_step x : 0 <= x -> Z.rem (x + 1) BUFFER_SIZE = (x + 1) mod BUFFER_SIZE.
Proof. intros H. apply Z.rem_mod_nonneg; [lia | apply BUFFER_SIZE_pos]. Qed.

Lemma well_formed_init : well_formed (monitor_init print_queue).
Proof. split; simpl; try (unfold BUFFER_SIZE; lia); reflexivity. Qed.

Lemma well_formed_inserted m doc :
  well_formed m -> count m <> BUFFER_SIZE -> well_formed (inserted m doc).
Proof.
  intros [Hb Hc Hi Ho Hx] Hfull. pose proof BUFFER_SIZE_pos as HN.
  split; simpl.
  - by rewrite length_insert.
  - lia.
  - rewrite rem_step by lia. by apply Z.mod_pos_bound.
  - done.
  - rewrite rem_step by lia. rewrite Hx.
    rewrite Zplus_mod_idemp_l. f_equal. lia.
Qed.

Lemma well_formed_removed m :
  well_formed m -> count m <> 0 -> well_formed (removed m).
Proof.
  intros [Hb Hc Hi Ho Hx] Hempty. pose proof BUFFER_SIZE_pos as HN.
  split; simpl.
  - done.
  - lia.
  - done.
  - rewrite rem_step by lia. by apply Z.mod_pos_bound.
  - rewrite rem_step by lia. rewrite Hx.
    rewrite Zplus_mod_idemp_l. f_equal. lia.
Qed.

Lemma reachable_well_formed m : reachable m -> well_formed m.
Proof.
  induction 1 as [| m doc m' _ IH H | m doc m' doc' r _ IH H
                  | m m' _ IH H | m _ IH].
  - apply well_formed_init.
  - apply monitor_insert_inv in H as [[_ ->] | (_ & Hc & _ & ->)]; [done |].
    by apply well_formed_inserted.
  - apply monitor_remove_inv in H as [(_ & -> & _) | (_ & Hc & _ & _ & ->)];
      [done |].
    by apply well_formed_removed.
  - apply producer_exit_inv in H as (Hb & Hc & Hi & Ho & _ & _).
    destruct IH as [? ? ? ? ?]. split; rewrite ?Hb, ?Hc, ?Hi, ?Ho; done.
  - destruct IH as [? ? ? ? ?]. split; simpl; done.
Qed.

(** *** Index accounting *)

Definition doc (n : Z) : Document :=
  {| id := n; type := "Doc1"; size := 10; producer_id := 1 |}.

(** The monitor after five inserts and no remove: the buffer is full. *)
Definition full_queue : PrintQueueMonitor :=
  {| buffer := [doc 1; doc 2; doc 3; doc 4; doc 5];
     count := 5; in_ := 0; out := 0;
     active_producers := NUM_PRODUCERS; should_stop := 0 |}.

Lemma reachable_full_queue : reachable full_queue.
Proof.
  pose proof reach_init as H.
  apply (reach_insert _ (doc 1) _) with (2 := eq_refl) in H.
  apply (reach_insert _ (doc 2) _) with (2 := eq_refl) in H.
  apply (reach_insert _ (doc 3) _) with (2 := eq_refl) in H.
  apply (reach_insert _ (doc 4) _) with (2 := eq_refl) in H.
  apply (reach_insert _ (doc 5) _) with (2 := eq_refl) in H.
  exact H.
Qed.

(** C4, as stated: [count == (in - out) mod BUFFER_SIZE] in every reachable
    state.  It fails on the full buffer, where [count] is [BUFFER_SIZE] and
    the two indices coincide. *)
Lemma index_accounting_fails_when_full :
  ~ (forall m, reachable m -> count m = (in_ m - out m) mod BUFFER_SIZE).
Proof.
  intros H. specialize (H full_queue reachable_full_queue).
  vm_compute in H. discriminate.
Qed.

(** C4, amended: in every reachable state [0 <= count <= BUFFER_SIZE] and
    [count] is congruent to [in - out] modulo [BUFFER_SIZE] (equivalently
    [in == (out + count) mod BUFFER_SIZE]); so [count == (in - out) mod
    BUFFER_SIZE] whenever the buffer is not full, and [in == out] when it
    is. *)
Theorem index_accounting m :
  reachable m ->
  0 <= count m <= BUFFER_SIZE /\
  in_ m = (out m + count m) mod BUFFER_SIZE /\
  count m mod BUFFER_SIZE = (in_ m - out m) mod BUFFER_SIZE /\
  (count m < BUFFER_SIZE -> count m = (in_ m - out m) mod BUFFER_SIZE) /\
  (count m = BUFFER_SIZE -> in_ m = out m /\ (in_ m - out m) mod BUFFER_SIZE = 0).
Proof.
  intros Hr. destruct (reachable_well_formed m Hr) as [_ Hc Hi Ho Hx].
  pose proof BUFFER_SIZE_pos as HN.
  assert (Hcong : count m mod BUFFER_SIZE = (in_ m - out m) mod BUFFER_SIZE).
  { rewrite Hx at 1. rewrite Zminus_mod_idemp_l. f_equal. lia. }
  repeat split; try lia; try done.
  - intros Hlt. rewrite <- Hcong. symmetry. apply Z.mod_small. lia.
  - rewrite Hx, H. rewrite <- (Z.mul_1_l BUFFER_SIZE) at 1.
    rewrite Z_mod_plus_full. apply Z.mod_small. lia.
  - rewrite <- Hcong, H. apply Z_mod_same_full.
Qed.

Lemma index_accounting_witness :
  reachable full_queue /\
  (count full_queue = BUFFER_SIZE ->
   in_ full_queue = out full_queue /\
   (in_ full_queue - out full_queue) mod BUFFER_SIZE = 0).
Proof.
  split; [exact reachable_full_queue |].
  exact (proj2 (proj2 (proj2 (proj2
           (index_accounting full_queue reachable_full_queue))))).
Defined.

(** *** The frame of [monitor_insert] *)

(** The closed path of [monitor_insert] is taken, and returns, on every
    monitor whose flag is set. *)
Lemma monitor_insert_closed m d :
  should_stop m <> 0 -> monitor_insert m d = Returns m.
Proof.
  intros Hs. unfold monitor_insert.
  apply truthy_true in Hs. rewrite Hs. simpl. by rewrite andb_false_r.
Qed.

(** C10: a completed insert on an open channel writes [doc] at slot [in],
    advances [in], increments [count] and leaves [out], the two flags and
    every other slot as they were; on a channel marked closed the call
    returns at once with the monitor unchanged. *)
Theorem monitor_insert_frame m d :
  (should_stop m <> 0 -> monitor_insert m d = Returns m) /\
  (forall m',
     should_stop m = 0 -> monitor_insert m d = Returns m' ->
     buffer m' !! Z.to_nat (in_ m) = Some d /\
     (forall k, k <> Z.to_nat (in_ m) -> buffer m' !! k = buffer m !! k) /\
     length (buffer m') = length (buffer m) /\
     in_ m' = Z.rem (in_ m + 1) BUFFER_SIZE /\
     count m' = count m + 1 /\
     out m' = out m /\
     active_producers m' = active_producers m /\
     should_stop m' = should_stop m).
Proof.
  split; [apply monitor_insert_closed |].
  intros m' Hopen H.
  apply monitor_insert_inv in H as [[Hs _] | (_ & Hc & Hin & ->)];
    [contradiction |].
  simpl. repeat split.
  - apply list_lookup_insert_eq. lia.
  - intros k Hk. by apply list_lookup_insert_ne.
  - apply length_insert.
Qed.

Lemma monitor_insert_frame_witness :
  monitor_insert (stop full_queue) (doc 6) = Returns (stop full_queue) /\
  monitor_insert (removed full_queue) (doc 6) =
    Returns (inserted (removed full_queue) (doc 6)) /\
  out (inserted (removed full_queue) (doc 6)) = 1 /\
  buffer (inserted (removed full_queue) (doc 6)) !! 1%nat = Some (doc 2).
Proof.
  split.
  - apply (proj1 (monitor_insert_frame (stop full_queue) (doc 6))).
    discriminate.
  - split; [reflexivity |].
    destruct (proj2 (monitor_insert_frame (removed full_queue) (doc 6))
                (inserted (removed full_queue) (doc 6)) eq_refl eq_refl)
      as (_ & Hk & _ & _ & _ & Ho & _).
    split; [exact Ho |].
    rewrite Hk; [reflexivity | discriminate].
Defined.

(** *** [monitor_remove] on a closed or non-empty channel *)

Lemma monitor_remove_nonempty m d0 :
  well_formed m -> count m <> 0 ->
  exists d, buffer m !! Z.to_nat (out m) = Some d /\
            monitor_remove m d0 = Returns (removed m, d, 1).
Proof.
  intros [Hb Hc Hi Ho Hx] Hne.
  destruct (lookup_lt_is_Some_2 (buffer m) (Z.to_nat (out m))) as [d Hd]; [lia |].
  exists d. split; [done |].
  unfold monitor_remove.
  destruct (Z.eqb_spec (count m) 0) as [|_]; [contradiction |]. simpl.
  rewrite andb_false_r.
  assert (Hr : read_at (buffer m) (out m) = Returns d)
    by (apply read_at_Returns; split; [lia | done]).
  rewrite Hr. unfold next_index.
  rewrite int_add_small by (unfold int_range, INT_MIN, INT_MAX, BUFFER_SIZE in *; lia).
  rewrite int_sub_small by (unfold int_range, INT_MIN, INT_MAX, BUFFER_SIZE in *; lia).
  reflexivity.
Qed.

(** C7: with [count == 0] on a channel marked closed, or whose producers
    have all finished, [monitor_remove] returns 0 and removes nothing; with
    [count > 0] it returns 1 with the document at [out], having advanced
    [out] and decremented [count]. *)
Theorem monitor_remove_closed_or_item m d0 :
  (count m = 0 -> should_stop m <> 0 \/ active_producers m = 0 ->
   monitor_remove m d0 = Returns (m, d0, 0)) /\
  (well_formed m -> 0 < count m ->
   exists d m',
     monitor_remove m d0 = Returns (m', d, 1) /\
     buffer m !! Z.to_nat (out m) = Some d /\
     out m' = (out m + 1) mod BUFFER_SIZE /\
     count m' = count m - 1 /\
     buffer m' = buffer m /\ in_ m' = in_ m /\
     active_producers m' = active_producers m /\
     should_stop m' = should_stop m).
Proof.
  split.
  - intros Hc Hclosed. unfold monitor_remove. rewrite Hc. simpl.
    destruct (truthy (should_stop m)) eqn:Hs; simpl; [reflexivity |].
    apply truthy_false in Hs.
    destruct Hclosed as [Hstop | Ha]; [contradiction |].
    rewrite Ha. reflexivity.
  - intros Hwf Hpos.
    destruct (monitor_remove_nonempty m d0 Hwf) as (d & Hd & Hr); [lia |].
    exists d, (removed m). repeat split; try done.
    simpl. apply rem_step. destruct Hwf. lia.
Qed.

Lemma monitor_remove_closed_or_item_witness :
  monitor_remove (stop (monitor_init print_queue)) (doc 0)
    = Returns (stop (monitor_init print_queue), doc 0, 0) /\
  exists d m',
    monitor_remove (stop full_queue) (doc 0) = Returns (m', d, 1) /\
    buffer (stop full_queue) !! Z.to_nat (out (stop full_queue)) = Some d /\
    out m' = (out (stop full_queue) + 1) mod BUFFER_SIZE /\
    count m' = count (stop full_queue) - 1 /\
    buffer m' = buffer (stop full_queue) /\ in_ m' = in_ (stop full_queue) /\
    active_producers m' = active_producers (stop full_queue) /\
    should_stop m' = should_stop (stop full_queue).
Proof.
  split.
  - apply (proj1 (monitor_remove_closed_or_item
                    (stop (monitor_init print_queue)) (doc 0))).
    + reflexivity.
    + left. discriminate.
  - apply (proj2 (monitor_remove_closed_or_item (stop full_queue) (doc 0))).
    + apply reachable_well_formed, reach_stop, reachable_full_queue.
    + reflexivity.
Defined.

(** *** The buffer as a queue *)

Lemma rotate_small {A} (l : list A) (n : nat) :
  (n < length l)%nat -> rotate n l = drop n l ++ take n l.
Proof. intros H. unfold rotate. by rewrite Nat.mod_small. Qed.

(** Rotating one slot further moves the first element to the end. *)
Lemma rotate_next {A} (l : list A) (o : nat) (d : A) :
  l !! o = Some d ->
  exists t, rotate o l = d :: t /\ rotate (S o) l = t ++ [d].
Proof.
  intros Hd. pose proof (lookup_lt_Some _ _ _ Hd) as Hlt.
  exists (drop (S o) l ++ take o l). split.
  - rewrite rotate_small by done.
    by rewrite (drop_S _ _ _ Hd).
  - destruct (decide (S o = length l)) as [Heq | Hne].
    + unfold rotate. rewrite Heq, Nat.Div0.mod_same. simpl.
      rewrite drop_0, app_nil_r, <- Heq.
      rewrite drop_ge by lia. simpl.
      rewrite <- (take_drop o l) at 1. f_equal.
      rewrite (drop_S _ _ _ Hd). rewrite drop_ge by lia. done.
    + rewrite rotate_small by lia.
      rewrite (take_S_r _ _ _ Hd). by rewrite app_assoc.
Qed.

Lemma rotate_mod {A} (l : list A) (n : nat) :
  rotate (n mod length l) l = rotate n l.
Proof. unfold rotate. by rewrite Nat.Div0.mod_mod. Qed.

Lemma length_contents m :
  well_formed m -> Z.of_nat (length (contents m)) = count m.
Proof.
  intros [Hb Hc Hi Ho Hx]. unfold contents.
  rewrite length_take, length_rotate. lia.
Qed.

Lemma contents_init : contents (monitor_init print_queue) = [].
Proof. reflexivity. Qed.

Lemma contents_inserted m d :
  well_formed m -> count m <> BUFFER_SIZE ->
  contents (inserted m d) = contents m ++ [d].
Proof.
  intros [Hb Hc Hi Ho Hx] Hfull. pose proof BUFFER_SIZE_pos as HN.
  unfold contents. simpl.
  assert (Hidx : Z.to_nat (in_ m) =
                 rotate_nat_add (Z.to_nat (out m)) (Z.to_nat (count m))
                                (length (buffer m))).
  { unfold rotate_nat_add. rewrite Hx, Hb. f_equal. f_equal. lia. }
  rewrite Hidx, rotate_insert_l by lia.
  replace (Z.to_nat (count m + 1)) with (S (Z.to_nat (count m))) by lia.
  rewrite (take_S_r _ _ d).
  - f_equal. by rewrite take_insert_ge.
  - apply list_lookup_insert_eq. rewrite length_rotate. lia.
Qed.

Lemma contents_removed m d :
  well_formed m -> count m <> 0 ->
  buffer m !! Z.to_nat (out m) = Some d ->
  contents m = d :: contents (removed m).
Proof.
  intros [Hb Hc Hi Ho Hx] Hempty Hd. pose proof BUFFER_SIZE_pos as HN.
  unfold contents. simpl.
  destruct (rotate_next _ _ _ Hd) as (t & Ht & Ht').
  assert (Hlen : S (length t) = length (buffer m)).
  { rewrite <- (length_rotate (buffer m) (Z.to_nat (out m))), Ht. done. }
  rewrite rem_step by lia.
  replace (Z.to_nat ((out m + 1) mod BUFFER_SIZE))
    with (S (Z.to_nat (out m)) mod length (buffer m))%nat.
  2:{ apply Nat2Z.inj. rewrite Nat2Z.inj_mod, Hb, Z2Nat.id; [f_equal; lia |].
      apply Z.mod_pos_bound. lia. }
  rewrite rotate_mod, Ht, Ht'.
  replace (Z.to_nat (count m)) with (S (Z.to_nat (count m - 1))) by lia.
  simpl. f_equal. rewrite take_app_le by lia. done.
Qed.

(** *** The reference queue *)

(** A first-in first-out queue of capacity [BUFFER_SIZE], written from the
    words of the specification: insert waits while the queue is full and
    otherwise appends; remove waits while the queue is empty and otherwise
    takes the oldest item. *)
Definition fifo_insert (q : list Document) (d : Document)
  : outcome (list Document) :=
  if Z.of_nat (length q) =? BUFFER_SIZE then Waits else Returns (q ++ [d]).

Definition fifo_remove (q : list Document) : outcome (list Document * Document) :=
  match q with
  | [] => Waits
  | d :: q' => Returns (q', d)
  end.

(** A sequence of calls made one at a time, as one producer and one
    consumer do, and what the caller of each observes. *)
Inductive op : Type :=
| Insert (d : Document)
| Remove.

Inductive event : Type :=
| Blocked
| Inserted
| Removed (d : Document)
| NoItem
| Fault.

Fixpoint run_monitor (ops : list op) (m : PrintQueueMonitor) : list event :=
  match ops with
  | [] => []
  | Insert d :: ops' =>
      match monitor_insert m d with
      | Returns m' => Inserted :: run_monitor ops' m'
      | Waits => Blocked :: run_monitor ops' m
      | Undefined => [Fault]
      end
  | Remove :: ops' =>
      match monitor_remove m zero_document with
      | Returns (m', d, r) =>
          (if truthy r then Removed d else NoItem) :: run_monitor ops' m'
      | Waits => Blocked :: run_monitor ops' m
      | Undefined => [Fault]
      end
  end.

Fixpoint run_fifo (ops : list op) (q : list Document) : list event :=
  match ops with
  | [] => []
  | Insert d :: ops' =>
      match fifo_insert q d with
      | Returns q' => Inserted :: run_fifo ops' q'
      | Waits => Blocked :: run_fifo ops' q
      | Undefined => [Fault]
      end
  | Remove :: ops' =>
      match fifo_remove q with
      | Returns (q', d) => Removed d :: run_fifo ops' q'
      | Waits => Blocked :: run_fifo ops' q
      | Undefined => [Fault]
      end
  end.

(** The documents whose insert returned, and the documents handed out. *)
Fixpoint accepted (ops : list op) (evs : list event) : list Document :=
  match ops, evs with
  | Insert d :: ops', Inserted :: evs' => d :: accepted ops' evs'
  | _ :: ops', _ :: evs' => accepted ops' evs'
  | _, _ => []
  end.

Fixpoint delivered (evs : list event) : list Document :=
  match evs with
  | [] => []
  | Removed d :: evs' => d :: delivered evs'
  | _ :: evs' => delivered evs'
  end.

(** An open channel: not marked closed, and some producer still active. *)
Definition open (m : PrintQueueMonitor) : Prop :=
  should_stop m = 0 /\ active_producers m <> 0.

Lemma monitor_insert_open m d :
  well_formed m -> open m ->
  if decide (count m = BUFFER_SIZE) then monitor_insert m d = Waits
  else monitor_insert m d = Returns (inserted m d).
Proof.
  intros [Hb Hc Hi Ho Hx] [Hs Ha]. unfold monitor_insert.
  rewrite Hs. simpl. rewrite andb_true_r.
  destruct (decide (count m = BUFFER_SIZE)) as [-> | Hne].
  - by rewrite Z.eqb_refl.
  - destruct (Z.eqb_spec (count m) BUFFER_SIZE) as [|_]; [contradiction |].
    unfold write_at. destruct (decide _) as [_ | Hbad]; [| lia].
    unfold next_index.
    rewrite !int_add_small
      by (unfold int_range, INT_MIN, INT_MAX, BUFFER_SIZE in *; lia).
    unfold inserted. rewrite Hs. reflexivity.
Qed.

Lemma monitor_remove_open_empty m d0 :
  open m -> count m = 0 -> monitor_remove m d0 = Waits.
Proof.
  intros [Hs Ha] Hc. unfold monitor_remove. rewrite Hc, Hs. simpl.
  by destruct (Z.eqb_spec (active_producers m) 0).
Qed.

Lemma run_monitor_fifo ops : forall m,
  well_formed m -> open m -> run_monitor ops m = run_fifo ops (contents m).
Proof.
  induction ops as [| [d |] ops IH]; intros m Hwf Hopen; simpl.
  - reflexivity.
  - pose proof (monitor_insert_open m d Hwf Hopen) as Hi.
    unfold fifo_insert. rewrite (length_contents m Hwf).
    destruct (decide (count m = BUFFER_SIZE)) as [Hc | Hc].
    + rewrite Hi, Hc, Z.eqb_refl. f_equal. by apply IH.
    + rewrite Hi. destruct (Z.eqb_spec (count m) BUFFER_SIZE) as [|_];
        [contradiction |].
      f_equal. rewrite <- contents_inserted by done.
      apply IH; [by apply well_formed_inserted | exact Hopen].
  - destruct (decide (count m = 0)) as [Hc | Hc].
    + rewrite monitor_remove_open_empty by done.
      assert (Hnil : contents m = []).
      { apply length_zero_iff_nil. pose proof (length_contents m Hwf). lia. }
      rewrite Hnil. simpl. f_equal. rewrite <- Hnil. by apply IH.
    + destruct (monitor_remove_nonempty m zero_document Hwf Hc) as (d & Hd & Hr).
      rewrite Hr, (contents_removed m d Hwf Hc Hd). simpl. f_equal.
      apply IH; [by apply well_formed_removed | exact Hopen].
Qed.

Lemma run_fifo_order ops : forall q,
  exists rest,
    q ++ accepted ops (run_fifo ops q) = delivered (run_fifo ops q) ++ rest.
Proof.
  induction ops as [| [d |] ops IH]; intros q; simpl.
  - exists q. by rewrite app_nil_r.
  - unfold fifo_insert. destruct (_ =? _); simpl.
    + apply IH.
    + destruct (IH (q ++ [d])) as [rest H]. exists rest.
      rewrite <- H, <- app_assoc. done.
  - destruct q as [| d q]; simpl.
    + apply (IH []).
    + destruct (IH q) as [rest H]. exists rest. by rewrite H.
Qed.

(** C5: for every sequence of calls on the initialised channel, each call
    has the outcome it has on the reference queue of capacity
    [BUFFER_SIZE]; the documents handed out by [monitor_remove] are, in
    order, the first of the documents whose [monitor_insert] returned. *)
Theorem monitor_is_fifo ops :
  run_monitor ops (monitor_init print_queue) = run_fifo ops [] /\
  delivered (run_monitor ops (monitor_init print_queue))
    `prefix_of` accepted ops (run_monitor ops (monitor_init print_queue)).
Proof.
  assert (H : run_monitor ops (monitor_init print_queue) = run_fifo ops []).
  { rewrite <- contents_init. apply run_monitor_fifo.
    - apply well_formed_init.
    - split; [reflexivity | discriminate]. }
  split; [exact H |].
  rewrite H. destruct (run_fifo_order ops []) as [rest Hr].
  exists rest. exact Hr.
Qed.

(** The round trip of the specification: five inserts fill the channel, the
    sixth waits, a remove hands out the first document and the insert then
    completes. *)
Example round_trip :
  run_monitor [Insert (doc 1); Insert (doc 2); Insert (doc 3); Insert (doc 4);
               Insert (doc 5); Insert (doc 6); Remove; Insert (doc 6); Remove]
              (monitor_init print_queue)
  = [Inserted; Inserted; Inserted; Inserted; Inserted; Blocked;
     Removed (doc 1); Inserted; Removed (doc 2)].
Proof. reflexivity. Qed.

End PrintQueue.

(** * The editing studio (dining-philosophers/video_studio_monitor.c)

    dining-philosophers/video_studio_mutex.c is the same protocol under
    other names ([has_board], [test_editor], [take_boards], [put_boards]). *)

Module Studio.

Local Open Scope nat_scope.

Definition NUM_EDITORS : nat := 5.
Definition NUM_BOARDS : nat := 5.

Inductive EditorState : Type := THINKING | HUNGRY | EDITING.

#[global] Instance EditorState_eq_dec : EqDecision EditorState.
Proof. solve_decision. Defined.

(** Editor and board numbers are the [int]s 0 .. 4 handed out by [main];
    they are natural numbers here, and every statement below is about
    numbers below [NUM_EDITORS], which index inside both arrays. *)
Record StudioMonitor : Type := mkStudio {
  state : list EditorState;
  board_in_use : list Z;
  should_stop : Z
}.

(** A file-scope object starts zeroed; [THINKING] is the enumerator 0. *)
Definition studio : StudioMonitor :=
  {| state := replicate NUM_EDITORS THINKING;
     board_in_use := replicate NUM_BOARDS 0%Z;
     should_stop := 0%Z |}.

Definition monitor_init (s : StudioMonitor) : StudioMonitor :=
  {| state := foldl (fun st i => <[i := THINKING]> st) (state s) (seq 0 NUM_EDITORS);
     board_in_use :=
       foldl (fun b i => <[i := 0%Z]> b) (board_in_use s) (seq 0 NUM_BOARDS);
     should_stop := 0%Z |}.

Definition can_edit (s : StudioMonitor) (editor_id : nat) : bool :=
  let left_board := editor_id in
  let right_board := (editor_id + 1) mod NUM_BOARDS in
  bool_decide (state s !! editor_id = Some HUNGRY)
  && bool_decide (board_in_use s !! left_board = Some 0%Z)
  && bool_decide (board_in_use s !! right_board = Some 0%Z).

Definition try_to_edit (s : StudioMonitor) (editor_id : nat) : StudioMonitor :=
  if can_edit s editor_id then
    {| state := <[editor_id := EDITING]> (state s);
       board_in_use :=
         <[(editor_id + 1) mod NUM_BOARDS := 1%Z]>
           (<[editor_id := 1%Z]> (board_in_use s));
       should_stop := should_stop s |}
  else s.

(** [request_boards] from the lock to the wait loop. *)
Definition request_boards_enter (s : StudioMonitor) (editor_id : nat)
  : StudioMonitor :=
  try_to_edit
    {| state := <[editor_id := HUNGRY]> (state s);
       board_in_use := board_in_use s;
       should_stop := should_stop s |}
    editor_id.

(** The test of the wait loop of [request_boards]: the call returns, without
    writing anything further, once it finds the test false. *)
Definition request_boards_waits (s : StudioMonitor) (editor_id : nat) : bool :=
  bool_decide (state s !! editor_id = Some HUNGRY).

Definition release_boards (s : StudioMonitor) (editor_id : nat) : StudioMonitor :=
  let s1 :=
    {| state := <[editor_id := THINKING]> (state s);
       board_in_use :=
         <[(editor_id + 1) mod NUM_BOARDS := 0%Z]>
           (<[editor_id := 0%Z]> (board_in_use s));
       should_stop := should_stop s |} in
  let s2 := try_to_edit s1 ((editor_id + NUM_EDITORS - 1) mod NUM_EDITORS) in
  try_to_edit s2 ((editor_id + 1) mod NUM_EDITORS).

(** The calls of the [editor] threads: each thread alternates
    [request_boards] and [release_boards], so a request comes from an editor
    that is [THINKING] and a release from one whose request has returned,
    which is [EDITING]. *)
Inductive step : StudioMonitor -> StudioMonitor -> Prop :=
| step_request s i :
    i < NUM_EDITORS -> state s !! i = Some THINKING ->
    step s (request_boards_enter s i)
| step_release s i :
    i < NUM_EDITORS -> state s !! i = Some EDITING ->
    step s (release_boards s i).

Inductive reachable : StudioMonitor -> Prop :=
| reach_init : reachable (monitor_init studio)
| reach_step s s' : reachable s -> step s s' -> reachable s'.

Definition editing (s : StudioMonitor) (i : nat) : Prop :=
  state s !! i = Some EDITING.

Definition left_of (i : nat) : nat := (i + NUM_EDITORS - 1) mod NUM_EDITORS.
Definition right_of (i : nat) : nat := (i + 1) mod NUM_EDITORS.

(** Editor [i] holds board [b]: [b] is one of its two boards, it is
    [EDITING] and the board is flagged in use. *)
Definition holds (s : StudioMonitor) (i b : nat) : Prop :=
  editing s i /\ (b = i \/ b = right_of i) /\ board_in_use s !! b = Some 1%Z.

(** Editor 0 has asked for its boards and edits. *)
Definition editor0_editing : StudioMonitor :=
  request_boards_enter (monitor_init studio) 0.

(** Where each [editor] thread stands in its loop. *)
Inductive position : Type :=
| Planning      (* in [think] *)
| Requesting    (* inside [request_boards] *)
| Working.      (* [request_boards] has returned; in [edit] *)

Record threads : Type := mkThreads {
  monitor : StudioMonitor;
  positions : list position
}.

(** One thread runs its next stretch under the monitor lock. *)
Inductive thread_step : threads -> threads -> Prop :=
| editor_requests y i :
    positions y !! i = Some Planning ->
    thread_step y {| monitor := request_boards_enter (monitor y) i;
                     positions := <[i := Requesting]> (positions y) |}
| editor_returns y i :
    positions y !! i = Some Requesting ->
    request_boards_waits (monitor y) i = false ->
    thread_step y {| monitor := monitor y;
                     positions := <[i := Working]> (positions y) |}
| editor_releases y i :
    positions y !! i = Some Working ->
    thread_step y {| monitor := release_boards (monitor y) i;
                     positions := <[i := Planning]> (positions y) |}.

Inductive threads_reachable : threads -> Prop :=
| threads_init :
    threads_reachable {| monitor := monitor_init studio;
                         positions := replicate NUM_EDITORS Planning |}
| threads_step y y' :
    threads_reachable y -> thread_step y y' -> threads_reachable y'.

(** The state array follows the threads. *)
Record tracked (y : threads) : Prop := mkTracked {
  len_positions : length (positions y) = NUM_EDITORS;
  len_tracked : length (state (monitor y)) = NUM_EDITORS;
  at_planning : forall i,
    positions y !! i = Some Planning -> state (monitor y) !! i = Some THINKING;
  at_requesting : forall i,
    positions y !! i = Some Requesting ->
    state (monitor y) !! i = Some HUNGRY \/ state (monitor y) !! i = Some EDITING;
  at_working : forall i,
    positions y !! i = Some Working -> state (monitor y) !! i = Some EDITING
}.

(** The flags agree with the editor states. *)
Record consistent (s : StudioMonitor) : Prop := mkConsistent {
  len_state : length (state s) = NUM_EDITORS;
  len_boards : length (board_in_use s) = NUM_BOARDS;
  boards_match : forall b, b < NUM_BOARDS ->
    (board_in_use s !! b = Some 1%Z /\ (editing s b \/ editing s (left_of b))) \/
    (board_in_use s !! b = Some 0%Z /\ ~ editing s b /\ ~ editing s (left_of b));
  no_adjacent : forall i, i < NUM_EDITORS ->
    ~ (editing s i /\ editing s (right_of i))
}.

(** *** The ring *)

Lemma ring_facts i :
  i < NUM_EDITORS ->
  right_of i < NUM_EDITORS /\ left_of i < NUM_EDITORS /\
  right_of i <> i /\ left_of i <> i /\
  left_of (right_of i) = i /\ right_of (left_of i) = i.
Proof.
  unfold NUM_EDITORS. intros H.
  do 5 (destruct i as [| i]; [vm_compute; repeat split; (lia || discriminate) |]).
  lia.
Qed.

Lemma right_of_lt i : i < NUM_EDITORS -> right_of i < NUM_EDITORS.
Proof. intros H. apply (ring_facts i H). Qed.

Lemma left_of_lt i : i < NUM_EDITORS -> left_of i < NUM_EDITORS.
Proof. intros H. apply (ring_facts i H). Qed.

Lemma right_of_ne i : i < NUM_EDITORS -> right_of i <> i.
Proof. intros H. apply (ring_facts i H). Qed.

Lemma left_of_ne i : i < NUM_EDITORS -> left_of i <> i.
Proof. intros H. apply (ring_facts i H). Qed.

Lemma left_right i : i < NUM_EDITORS -> left_of (right_of i) = i.
Proof. intros H. apply (ring_facts i H). Qed.

Lemma right_left i : i < NUM_EDITORS -> right_of (left_of i) = i.
Proof. intros H. apply (ring_facts i H). Qed.

Lemma left_of_eq b i :
  b < NUM_EDITORS -> left_of b = i -> b = right_of i.
Proof. intros Hb <-. symmetry. by apply right_left. Qed.

Lemma right_of_eq j i :
  j < NUM_EDITORS -> right_of j = i -> j = left_of i.
Proof. intros Hj <-. symmetry. by apply left_right. Qed.

(** *** The invariant *)

Ltac ring_lia := unfold NUM_EDITORS, NUM_BOARDS in *; lia.

Lemma consistent_init : consistent (monitor_init studio).
Proof.
  split; try reflexivity.
  - intros b Hb. right. unfold NUM_BOARDS in Hb.
    do 5 (destruct b as [| b]; [repeat split; discriminate |]). lia.
  - intros i Hi [H _]. unfold NUM_EDITORS in Hi.
    do 5 (destruct i as [| i]; [discriminate |]). lia.
Qed.

Lemma free_board_no_editor s b :
  consistent s -> b < NUM_BOARDS -> board_in_use s !! b = Some 0%Z ->
  ~ editing s b /\ ~ editing s (left_of b).
Proof.
  intros Hc Hb H0. destruct (boards_match s Hc b Hb) as [[H1 _] | [_ H]].
  - rewrite H0 in H1. discriminate.
  - exact H.
Qed.

Lemma try_to_edit_consistent s i :
  i < NUM_EDITORS -> consistent s -> consistent (try_to_edit s i).
Proof.
  intros Hi Hc. unfold try_to_edit.
  destruct (can_edit s i) eqn:Hcan; [| exact Hc].
  unfold can_edit in Hcan.
  rewrite !andb_true_iff, !bool_decide_eq_true in Hcan.
  destruct Hcan as [[Hh Hl] Hr].
  change ((i + 1) mod NUM_BOARDS) with (right_of i) in *.
  pose proof (ring_facts i Hi) as (Hrlt & Hllt & Hrne & Hlne & Hlr & Hrl).
  destruct (free_board_no_editor s i Hc Hi Hl) as [Hni Hnl].
  destruct (free_board_no_editor s (right_of i) Hc Hrlt Hr) as [Hnr _].
  pose proof (len_state s Hc) as Hls. pose proof (len_boards s Hc) as Hlb.
  split; simpl.
  - by rewrite length_insert.
  - by rewrite !length_insert.
  - intros b Hb. unfold editing; simpl.
    destruct (decide (b = right_of i)) as [-> | Hne1].
    + left. split.
      * apply list_lookup_insert_eq. rewrite length_insert. ring_lia.
      * right. rewrite Hlr. apply list_lookup_insert_eq. ring_lia.
    + rewrite list_lookup_insert_ne by done.
      destruct (decide (b = i)) as [-> | Hne2].
      * left. split; [apply list_lookup_insert_eq; ring_lia |].
        left. apply list_lookup_insert_eq. ring_lia.
      * assert (left_of b <> i) by (intros E; by apply Hne1, left_of_eq).
        rewrite !list_lookup_insert_ne by done.
        by apply (boards_match s Hc).
  - intros j Hj. unfold editing; simpl. intros [E1 E2].
    destruct (decide (j = i)) as [-> | Hji].
    + rewrite list_lookup_insert_ne in E2 by done. contradiction.
    + rewrite list_lookup_insert_ne in E1 by done.
      destruct (decide (right_of j = i)) as [E | Hne].
      * apply right_of_eq in E; [| done]. subst j. contradiction.
      * rewrite list_lookup_insert_ne in E2 by done.
        by apply (no_adjacent s Hc j).
Qed.

(** Marking an editor that is not [EDITING] as [HUNGRY] changes no
    [EDITING] entry. *)
Lemma hungry_consistent s i :
  i < NUM_EDITORS -> consistent s -> ~ editing s i ->
  consistent {| state := <[i := HUNGRY]> (state s);
                board_in_use := board_in_use s;
                should_stop := should_stop s |}.
Proof.
  intros Hi Hc Hni.
  pose proof (len_state s Hc) as Hls.
  assert (Hed : forall j,
    <[i := HUNGRY]> (state s) !! j = Some EDITING <-> editing s j).
  { intros j. unfold editing. destruct (decide (j = i)) as [-> | Hne].
    - rewrite list_lookup_insert_eq by ring_lia. split; [discriminate | contradiction].
    - by rewrite list_lookup_insert_ne. }
  split; simpl.
  - by rewrite length_insert.
  - apply (len_boards s Hc).
  - intros b Hb. unfold editing; simpl. rewrite !Hed.
    by apply (boards_match s Hc).
  - intros j Hj. unfold editing; simpl. rewrite !Hed.
    by apply (no_adjacent s Hc).
Qed.

(** Freeing the two boards of an editor that is [EDITING]. *)
Lemma thinking_consistent s i :
  i < NUM_EDITORS -> consistent s -> editing s i ->
  consistent {| state := <[i := THINKING]> (state s);
                board_in_use :=
                  <[(i + 1) mod NUM_BOARDS := 0%Z]> (<[i := 0%Z]> (board_in_use s));
                should_stop := should_stop s |}.
Proof.
  intros Hi Hc Hei.
  change ((i + 1) mod NUM_BOARDS) with (right_of i).
  pose proof (ring_facts i Hi) as (Hrlt & Hllt & Hrne & Hlne & Hlr & Hrl).
  pose proof (len_state s Hc) as Hls. pose proof (len_boards s Hc) as Hlb.
  assert (Hnr : ~ editing s (right_of i)).
  { intros E. by apply (no_adjacent s Hc i Hi). }
  assert (Hnl : ~ editing s (left_of i)).
  { intros E. apply (no_adjacent s Hc (left_of i) Hllt). by rewrite Hrl. }
  assert (Hed : forall j,
    <[i := THINKING]> (state s) !! j = Some EDITING <-> j <> i /\ editing s j).
  { intros j. unfold editing. destruct (decide (j = i)) as [-> | Hne].
    - rewrite list_lookup_insert_eq by ring_lia.
      split; [discriminate | intros [? _]; contradiction].
    - rewrite list_lookup_insert_ne by done. tauto. }
  split; simpl.
  - by rewrite length_insert.
  - by rewrite !length_insert.
  - intros b Hb. unfold editing; simpl. rewrite !Hed.
    destruct (decide (b = right_of i)) as [-> | Hne1].
    + right. split; [apply list_lookup_insert_eq; rewrite length_insert; ring_lia |].
      rewrite Hlr. tauto.
    + rewrite list_lookup_insert_ne by done.
      destruct (decide (b = i)) as [-> | Hne2].
      * right. split; [apply list_lookup_insert_eq; ring_lia |]. tauto.
      * assert (left_of b <> i) by (intros E; by apply Hne1, left_of_eq).
        rewrite list_lookup_insert_ne by done.
        destruct (boards_match s Hc b Hb) as [[H1 H2] | [H1 H2]];
          [left | right]; (split; [exact H1 |]); tauto.
  - intros j Hj. unfold editing; simpl. rewrite !Hed.
    intros [[_ E1] [_ E2]]. by apply (no_adjacent s Hc j).
Qed.

Lemma request_boards_enter_consistent s i :
  i < NUM_EDITORS -> consistent s -> ~ editing s i ->
  consistent (request_boards_enter s i).
Proof.
  intros Hi Hc Hni. unfold request_boards_enter.
  apply try_to_edit_consistent; [done |]. by apply hungry_consistent.
Qed.

Lemma release_boards_consistent s i :
  i < NUM_EDITORS -> consistent s -> editing s i ->
  consistent (release_boards s i).
Proof.
  intros Hi Hc Hei. unfold release_boards.
  apply try_to_edit_consistent; [by apply right_of_lt |].
  apply try_to_edit_consistent; [by apply left_of_lt |].
  by apply thinking_consistent.
Qed.

Lemma step_consistent s s' : step s s' -> consistent s -> consistent s'.
Proof.
  intros [s0 i Hi Hs | s0 i Hi Hs] Hc.
  - apply request_boards_enter_consistent; try done.
    unfold editing. rewrite Hs. discriminate.
  - by apply release_boards_consistent.
Qed.

Lemma reachable_consistent s : reachable s -> consistent s.
Proof.
  induction 1 as [| s s' _ IH Hstep].
  - apply consistent_init.
  - by apply (step_consistent s s').
Qed.

(** *** The threads and the state array *)

Lemma length_state_try_to_edit s j :
  length (state (try_to_edit s j)) = length (state s).
Proof.
  unfold try_to_edit. destruct (can_edit s j); [| reflexivity].
  simpl. apply length_insert.
Qed.

(** [try_to_edit] writes the state array at one place only, and only to
    turn [HUNGRY] into [EDITING]. *)
Lemma state_try_to_edit s j k :
  state (try_to_edit s j) !! k = state s !! k \/
  (k = j /\ state s !! k = Some HUNGRY /\
   state (try_to_edit s j) !! k = Some EDITING).
Proof.
  unfold try_to_edit. destruct (can_edit s j) eqn:Hcan; [| by left].
  unfold can_edit in Hcan.
  rewrite !andb_true_iff, !bool_decide_eq_true in Hcan.
  destruct Hcan as [[Hh _] _]. simpl.
  destruct (decide (k = j)) as [-> | Hne].
  - right. repeat split; [exact Hh |].
    apply list_lookup_insert_eq. by apply (lookup_lt_Some _ _ HUNGRY).
  - left. by apply list_lookup_insert_ne.
Qed.

Lemma tracked_after s s' (ps : list position) :
  length ps = NUM_EDITORS -> length (state s') = NUM_EDITORS ->
  (forall k, ps !! k = Some Planning -> state s !! k = Some THINKING) ->
  (forall k, ps !! k = Some Requesting ->
             state s !! k = Some HUNGRY \/ state s !! k = Some EDITING) ->
  (forall k, ps !! k = Some Working -> state s !! k = Some EDITING) ->
  (forall k, state s' !! k = state s !! k \/
             (state s !! k = Some HUNGRY /\ state s' !! k = Some EDITING)) ->
  tracked {| monitor := s'; positions := ps |}.
Proof.
  intros Hlp Hls Hp Hq Hw Hchg. split; cbn [monitor positions]; try done.
  - intros k Hk. destruct (Hchg k) as [-> | [Hh _]]; [by apply Hp |].
    rewrite (Hp k Hk) in Hh. discriminate.
  - intros k Hk. destruct (Hchg k) as [-> | [_ He]]; [by apply Hq | by right].
  - intros k Hk. destruct (Hchg k) as [-> | [_ He]]; [by apply Hw | done].
Qed.

Lemma thread_step_tracked y y' : thread_step y y' -> tracked y -> tracked y'.
Proof.
  intros [y0 i Hi | y0 i Hi Hgo | y0 i Hi] [Hlp Hls Hp Hq Hw].
  - (* request *)
    pose proof (lookup_lt_Some _ _ _ Hi) as Hlt.
    set (s1 := {| state := <[i := HUNGRY]> (state (monitor y0));
                  board_in_use := board_in_use (monitor y0);
                  should_stop := should_stop (monitor y0) |}).
    apply (tracked_after s1).
    + by rewrite length_insert.
    + unfold request_boards_enter. fold s1.
      rewrite length_state_try_to_edit. simpl. by rewrite length_insert.
    + intros k Hk. destruct (decide (k = i)) as [-> | Hne].
      * rewrite list_lookup_insert_eq in Hk by done. discriminate.
      * rewrite list_lookup_insert_ne in Hk by done. simpl.
        rewrite list_lookup_insert_ne by done. by apply Hp.
    + intros k Hk. destruct (decide (k = i)) as [-> | Hne].
      * left. simpl. apply list_lookup_insert_eq. lia.
      * rewrite list_lookup_insert_ne in Hk by done. simpl.
        rewrite list_lookup_insert_ne by done. by apply Hq.
    + intros k Hk. destruct (decide (k = i)) as [-> | Hne].
      * rewrite list_lookup_insert_eq in Hk by done. discriminate.
      * rewrite list_lookup_insert_ne in Hk by done. simpl.
        rewrite list_lookup_insert_ne by done. by apply Hw.
    + intros k. unfold request_boards_enter. fold s1.
      destruct (state_try_to_edit s1 i k) as [H | (_ & H1 & H2)]; [by left | by right].
  - (* return *)
    pose proof (lookup_lt_Some _ _ _ Hi) as Hlt.
    unfold request_boards_waits in Hgo. apply bool_decide_eq_false in Hgo.
    apply (tracked_after (monitor y0)); try done.
    + by rewrite length_insert.
    + intros k Hk. destruct (decide (k = i)) as [-> | Hne].
      * rewrite list_lookup_insert_eq in Hk by done. discriminate.
      * rewrite list_lookup_insert_ne in Hk by done. by apply Hp.
    + intros k Hk. destruct (decide (k = i)) as [-> | Hne].
      * rewrite list_lookup_insert_eq in Hk by done. discriminate.
      * rewrite list_lookup_insert_ne in Hk by done. by apply Hq.
    + intros k Hk. destruct (decide (k = i)) as [-> | Hne].
      * destruct (Hq i Hi) as [H | H]; [contradiction | exact H].
      * rewrite list_lookup_insert_ne in Hk by done. by apply Hw.
    + intros k. by left.
  - (* release *)
    pose proof (lookup_lt_Some _ _ _ Hi) as Hlt.
    set (s1 := {| state := <[i := THINKING]> (state (monitor y0));
                  board_in_use :=
                    <[(i + 1) mod NUM_BOARDS := 0%Z]>
                      (<[i := 0%Z]> (board_in_use (monitor y0)));
                  should_stop := should_stop (monitor y0) |}).
    assert (Hrel : release_boards (monitor y0) i
                   = try_to_edit (try_to_edit s1 (left_of i)) (right_of i))
      by reflexivity.
    rewrite Hrel.
    apply (tracked_after s1).
    + by rewrite length_insert.
    + rewrite !length_state_try_to_edit. simpl. by rewrite length_insert.
    + intros k Hk. destruct (decide (k = i)) as [-> | Hne].
      * simpl. apply list_lookup_insert_eq. lia.
      * rewrite list_lookup_insert_ne in Hk by done. simpl.
        rewrite list_lookup_insert_ne by done. by apply Hp.
    + intros k Hk. destruct (decide (k = i)) as [-> | Hne].
      * rewrite list_lookup_insert_eq in Hk by done. discriminate.
      * rewrite list_lookup_insert_ne in Hk by done. simpl.
        rewrite list_lookup_insert_ne by done. by apply Hq.
    + intros k Hk. destruct (decide (k = i)) as [-> | Hne].
      * rewrite list_lookup_insert_eq in Hk by done. discriminate.
      * rewrite list_lookup_insert_ne in Hk by done. simpl.
        rewrite list_lookup_insert_ne by done. by apply Hw.
    + intros k.
      destruct (state_try_to_edit (try_to_edit s1 (left_of i)) (right_of i) k)
        as [H2 | (E2 & H2 & H2')];
      destruct (state_try_to_edit s1 (left_of i) k) as [H1 | (E1 & H1 & H1')].
      * left. by rewrite H2, H1.
      * right. rewrite H2. done.
      * right. rewrite <- H1. done.
      * exfalso. rewrite H1' in H2. discriminate.
Qed.

(** Every state the editor threads reach is one of the [reachable]
    states. *)
Lemma threads_reachable_tracked y :
  threads_reachable y -> tracked y /\ reachable (monitor y).
Proof.
  induction 1 as [| y y' _ [Ht Hr] Hstep].
  - split; [| apply reach_init].
    split; try reflexivity; cbn [monitor positions]; intros i Hi.
    + apply lookup_replicate in Hi as [_ Hi].
      change (state (monitor_init studio)) with (replicate NUM_EDITORS THINKING).
      by apply lookup_replicate.
    + apply lookup_replicate in Hi as [Hi _]. discriminate.
    + apply lookup_replicate in Hi as [Hi _]. discriminate.
  - split; [by apply (thread_step_tracked y y') |].
    destruct Ht as [Hlp Hls Hp Hq Hw].
    destruct Hstep as [y0 i Hi | y0 i Hi Hgo | y0 i Hi];
      pose proof (lookup_lt_Some _ _ _ Hi) as Hlt; cbn [monitor].
    + apply (reach_step (monitor y0)); [exact Hr |].
      apply step_request; [lia | by apply Hp].
    + exact Hr.
    + apply (reach_step (monitor y0)); [exact Hr |].
      apply step_release; [lia | by apply Hw].
Qed.

(** *** Mutual exclusion and pair atomicity in the monitor *)

Lemma editing_holds_both s i :
  consistent s -> i < NUM_EDITORS -> editing s i ->
  holds s i i /\ holds s i (right_of i).
Proof.
  intros Hc Hi He.
  pose proof (ring_facts i Hi) as (Hrlt & _ & _ & _ & Hlr & _).
  split; (split; [exact He |]); split; auto.
  - destruct (boards_match s Hc i Hi) as [[H _] | (_ & H & _)];
      [exact H | contradiction].
  - destruct (boards_match s Hc (right_of i) Hrlt) as [[H _] | (_ & _ & H)];
      [exact H |]. rewrite Hlr in H. contradiction.
Qed.

(** A successful test claims both boards and the state in one step; a
    failed test writes nothing. *)
Lemma try_to_edit_atomic s i :
  i < NUM_EDITORS -> consistent s ->
  (can_edit s i = false /\ try_to_edit s i = s) \/
  (can_edit s i = true /\
   board_in_use s !! i = Some 0%Z /\ board_in_use s !! right_of i = Some 0%Z /\
   holds (try_to_edit s i) i i /\ holds (try_to_edit s i) i (right_of i)).
Proof.
  intros Hi Hc. destruct (can_edit s i) eqn:Hcan.
  - right. split; [reflexivity |].
    assert (Hc' : consistent (try_to_edit s i)) by by apply try_to_edit_consistent.
    assert (He : editing (try_to_edit s i) i).
    { unfold try_to_edit, editing. rewrite Hcan. simpl.
      apply list_lookup_insert_eq. rewrite (len_state s Hc). done. }
    unfold can_edit in Hcan.
    rewrite !andb_true_iff, !bool_decide_eq_true in Hcan.
    destruct Hcan as [[_ Hl] Hr].
    split; [exact Hl |]. split; [exact Hr |].
    by apply editing_holds_both.
  - left. split; [reflexivity |]. unfold try_to_edit. by rewrite Hcan.
Qed.

Lemma consistent_zero_or_both s i :
  consistent s -> i < NUM_EDITORS ->
  (holds s i i /\ holds s i (right_of i)) \/ (forall b, ~ holds s i b).
Proof.
  intros Hc Hi.
  destruct (decide (state s !! i = Some EDITING)) as [He | Hne].
  - left. by apply editing_holds_both.
  - right. intros b [He _]. contradiction.
Qed.

Lemma consistent_exclusive s i j b :
  consistent s -> i < NUM_EDITORS -> j < NUM_EDITORS -> i <> j ->
  holds s i b -> holds s j b -> False.
Proof.
  intros Hc Hi Hj Hne (Hei & Hbi & _) (Hej & Hbj & _).
  destruct Hbi as [-> | ->], Hbj as [E | E].
  - by apply Hne.
  - apply (no_adjacent s Hc j Hj). rewrite <- E. done.
  - apply (no_adjacent s Hc i Hi). rewrite E. done.
  - apply Hne. rewrite <- (left_right i Hi), <- (left_right j Hj). by rewrite E.
Qed.

(** The monitor keeps the claim of mutual exclusion: in every state reached
    by the editor threads no board is held by two editors and no two
    neighbours are [EDITING] together. *)
Lemma monitor_mutual_exclusion s :
  reachable s ->
  (forall i j b, i < NUM_EDITORS -> j < NUM_EDITORS -> i <> j ->
                 ~ (holds s i b /\ holds s j b)) /\
  (forall i, i < NUM_EDITORS -> ~ (editing s i /\ editing s (right_of i))).
Proof.
  intros Hr. pose proof (reachable_consistent s Hr) as Hc. split.
  - intros i j b Hi Hj Hne [H1 H2]. by apply (consistent_exclusive s i j b).
  - apply (no_adjacent s Hc).
Qed.

Lemma reachable_editor0_editing : reachable editor0_editing.
Proof.
  apply (reach_step (monitor_init studio)).
  - apply reach_init.
  - apply step_request; [unfold NUM_EDITORS; lia | reflexivity].
Qed.

(** The ring scenario of the specification: editors 0 and 2 request and both
    edit; editor 1 requests and waits; when editor 0 releases, editor 1 is
    still next to editor 2 and goes on waiting; when editor 2 releases as
    well, editor 1 edits. *)
Example ring_scenario :
  let s1 := request_boards_enter (monitor_init studio) 0 in
  let s2 := request_boards_enter s1 2 in
  let s3 := request_boards_enter s2 1 in
  let s4 := release_boards s3 0 in
  let s5 := release_boards s4 2 in
  state s2 = [EDITING; THINKING; EDITING; THINKING; THINKING] /\
  board_in_use s2 = [1; 1; 1; 1; 0]%Z /\
  request_boards_waits s3 1 = true /\
  state s4 = [THINKING; HUNGRY; EDITING; THINKING; THINKING] /\
  state s5 = [THINKING; EDITING; THINKING; THINKING; THINKING] /\
  board_in_use s5 = [0; 1; 1; 0; 0]%Z.
Proof. repeat split. Qed.

End Studio.

(** * The editing studio with semaphores (dining-philosophers/video_studio_sem.c) *)

Module StudioSem.

Local Open Scope nat_scope.

Definition NUM_EDITORS : nat := 5.
Definition NUM_BOARDS : nat := 5.

Inductive EditorState : Type := THINKING | HUNGRY | EDITING.

#[global] Instance EditorState_eq_dec : EqDecision EditorState.
Proof. solve_decision. Defined.

(** A semaphore is its counter. *)
Record StudioControl : Type := mkControl {
  state : list EditorState;
  sem_editors : list Z;
  mutex : Z;
  boards : list Z
}.

(** [sem_wait] returns with the counter decremented when it is positive and
    blocks otherwise; [sem_post] increments it. *)
Definition sem_wait (v : Z) : outcome Z :=
  if decide (0 < v)%Z then Returns (v - 1)%Z else Waits.

Definition sem_post (v : Z) : Z := (v + 1)%Z.

Definition sem_wait_at (sems : list Z) (i : nat) : outcome (list Z) :=
  match sems !! i with
  | Some v => v' ← sem_wait v; Returns (<[i := v']> sems)
  | None => Undefined
  end.

Definition sem_post_at (sems : list Z) (i : nat) : list Z :=
  alter sem_post i sems.

Definition init_studio : StudioControl :=
  {| mutex := 1%Z;
     sem_editors := replicate NUM_EDITORS 0%Z;
     state := replicate NUM_EDITORS THINKING;
     boards := replicate NUM_BOARDS 1%Z |}.

Definition test_editor (s : StudioControl) (editor_id : nat) : StudioControl :=
  let left := editor_id in
  let right := (editor_id + 1) mod NUM_EDITORS in
  if bool_decide (state s !! editor_id = Some HUNGRY)
     && bool_decide (state s !! left <> Some EDITING)
     && bool_decide (state s !! right <> Some EDITING)
  then
    {| state := <[editor_id := EDITING]> (state s);
       sem_editors := sem_post_at (sem_editors s) editor_id;
       mutex := mutex s;
       boards := boards s |}
  else s.

(** [get_boards], one definition for each stretch between two waits:
    the section under [studio.mutex], then the three [sem_wait]s that follow
    it outside the mutex. *)
Definition get_boards_enter (s : StudioControl) (editor_id : nat)
  : outcome StudioControl :=
  m ← sem_wait (mutex s);
  let s1 :=
    test_editor
      {| state := <[editor_id := HUNGRY]> (state s);
         sem_editors := sem_editors s; mutex := m; boards := boards s |}
      editor_id in
  Returns {| state := state s1; sem_editors := sem_editors s1;
             mutex := sem_post (mutex s1); boards := boards s1 |}.

Definition get_boards_permit (s : StudioControl) (editor_id : nat)
  : outcome StudioControl :=
  e ← sem_wait_at (sem_editors s) editor_id;
  Returns {| state := state s; sem_editors := e; mutex := mutex s;
             boards := boards s |}.

Definition get_boards_first (s : StudioControl) (editor_id : nat)
  : outcome StudioControl :=
  b ← sem_wait_at (boards s) editor_id;
  Returns {| state := state s; sem_editors := sem_editors s; mutex := mutex s;
             boards := b |}.

Definition get_boards_second (s : StudioControl) (editor_id : nat)
  : outcome StudioControl :=
  b ← sem_wait_at (boards s) ((editor_id + 1) mod NUM_BOARDS);
  Returns {| state := state s; sem_editors := sem_editors s; mutex := mutex s;
             boards := b |}.

Definition put_boards (s : StudioControl) (editor_id : nat)
  : outcome StudioControl :=
  m ← sem_wait (mutex s);
  let s1 :=
    {| state := <[editor_id := THINKING]> (state s);
       sem_editors := sem_editors s;
       mutex := m;
       boards :=
         sem_post_at (sem_post_at (boards s) editor_id)
                     ((editor_id + 1) mod NUM_BOARDS) |} in
  let s2 := test_editor s1 ((editor_id + NUM_EDITORS - 1) mod NUM_EDITORS) in
  let s3 := test_editor s2 ((editor_id + 1) mod NUM_EDITORS) in
  Returns {| state := state s3; sem_editors := sem_editors s3;
             mutex := sem_post (mutex s3); boards := boards s3 |}.

(** Where each [editor] thread stands in its loop. *)
Inductive position : Type :=
| Planning        (* in [think], before [get_boards] *)
| Entered         (* past the mutex section, at [sem_wait(&sem_editors[id])] *)
| Permitted       (* at [sem_wait(&boards[id])] *)
| HasFirst        (* holds [boards[id]], at the second [sem_wait] *)
| HasBoth.        (* [get_boards] has returned; in [edit] *)

#[global] Instance position_eq_dec : EqDecision position.
Proof. solve_decision. Defined.

Record system : Type := mkSystem {
  control : StudioControl;
  positions : list position
}.

Definition start : system :=
  {| control := init_studio; positions := replicate NUM_EDITORS Planning |}.

(** One thread takes its next stretch. *)
Definition advance (y : system) (editor_id : nat) : outcome system :=
  match positions y !! editor_id with
  | Some Planning =>
      c ← get_boards_enter (control y) editor_id;
      Returns {| control := c; positions := <[editor_id := Entered]> (positions y) |}
  | Some Entered =>
      c ← get_boards_permit (control y) editor_id;
      Returns {| control := c; positions := <[editor_id := Permitted]> (positions y) |}
  | Some Permitted =>
      c ← get_boards_first (control y) editor_id;
      Returns {| control := c; positions := <[editor_id := HasFirst]> (positions y) |}
  | Some HasFirst =>
      c ← get_boards_second (control y) editor_id;
      Returns {| control := c; positions := <[editor_id := HasBoth]> (positions y) |}
  | Some HasBoth =>
      c ← put_boards (control y) editor_id;
      Returns {| control := c; positions := <[editor_id := Planning]> (positions y) |}
  | None => Undefined
  end.

Inductive reachable : system -> Prop :=
| reach_start : reachable start
| reach_advance y i y' :
    reachable y -> i < NUM_EDITORS -> advance y i = Returns y' -> reachable y'.

(** Editor [i] holds board [b]: it has passed the [sem_wait] on that board
    and not yet posted it. *)
Definition holds (y : system) (i b : nat) : Prop :=
  (b = i /\ (positions y !! i = Some HasFirst \/ positions y !! i = Some HasBoth)) \/
  (b = (i + 1) mod NUM_BOARDS /\ positions y !! i = Some HasBoth).

Definition editing (y : system) (i : nat) : Prop :=
  state (control y) !! i = Some EDITING.

(** One thread after the other takes its next stretch. *)
Fixpoint run (y : system) (ids : list nat) : outcome system :=
  match ids with
  | [] => Returns y
  | i :: ids' => y' ← advance y i; run y' ids'
  end.

Lemma run_reachable ids : forall y y',
  reachable y -> Forall (fun i => i < NUM_EDITORS) ids ->
  run y ids = Returns y' -> reachable y'.
Proof.
  induction ids as [| i ids IH]; intros y y' Hy Hids Hrun; simpl in Hrun.
  - injection Hrun as <-. exact Hy.
  - apply Forall_cons in Hids as [Hi Hids].
    apply bind_Returns in Hrun as (y1 & H1 & Hrun).
    apply (IH y1 y'); [| exact Hids | exact Hrun].
    by apply (reach_advance y i y1).
Qed.

(** Editor 0 asks for its boards and is let in; editor 1 asks next. The
    test of editor 1 reads [state[left]] with [left = editor_id], its own
    entry, and [state[2]]; it never reads [state[0]]. *)
Definition both_let_in : system :=
  {| control :=
       {| state := [EDITING; EDITING; THINKING; THINKING; THINKING];
          sem_editors := [1; 1; 0; 0; 0]%Z;
          mutex := 1%Z;
          boards := [1; 1; 1; 1; 1]%Z |};
     positions := [Entered; Entered; Planning; Planning; Planning] |}.

Lemma run_both_let_in : run start [0; 1] = Returns both_let_in.
Proof. reflexivity. Qed.

Lemma reachable_both_let_in : reachable both_let_in.
Proof.
  apply (run_reachable [0; 1] start); [apply reach_start | | reflexivity].
  repeat constructor.
Qed.

(** Editor 0, alone in the studio, has taken its first board and not yet
    the second. *)
Definition one_board : system :=
  {| control :=
       {| state := [EDITING; THINKING; THINKING; THINKING; THINKING];
          sem_editors := [0; 0; 0; 0; 0]%Z;
          mutex := 1%Z;
          boards := [0; 1; 1; 1; 1]%Z |};
     positions := [HasFirst; Planning; Planning; Planning; Planning] |}.

Lemma reachable_one_board : reachable one_board.
Proof.
  apply (run_reachable [0; 0; 0] start); [apply reach_start | | reflexivity].
  repeat constructor.
Qed.

Lemma one_board_holds_one :
  holds one_board 0 0 /\ ~ holds one_board 0 ((0 + 1) mod NUM_BOARDS).
Proof.
  split.
  - left. split; [reflexivity | left; reflexivity].
  - intros [[H _] | [_ H]]; discriminate.
Qed.

(** After both were let in, editor 1 takes boards 1 and 2; editor 0 takes
    board 0 and then waits for board 1 with board 0 in hand. *)
Example hold_and_wait :
  exists y, run both_let_in [1; 1; 1; 0; 0] = Returns y /\
            positions y !! 0 = Some HasFirst /\
            editing y 0 /\
            advance y 0 = Waits.
Proof. eexists. repeat split. Qed.

End StudioSem.

(** * The product catalogue (readers-writers/ecommerce_monitor.c) *)

Module Catalog.

Definition MAX_PRODUCTS : Z := 100.

Section Catalogue.

(** Prices are C [float]s. Their arithmetic is left open: [initial_price n]
    stands for [10.0 + n] and [scaled_price p n] for
    [p * (1 + (float) n / 100.0)]. *)
Context {float : Type}.
Variable zero_price : float.
Variable initial_price : Z -> float.
Variable scaled_price : float -> Z -> float.

Record Product : Type := mkProduct {
  id : Z;
  price : float;
  stock : Z
}.

Record CatalogMonitor : Type := mkCatalog {
  products : list Product;
  num_readers : Z;
  num_writers : Z;
  writer_waiting : Z;
  should_stop : Z
}.

Definition set_products (ps : list Product) (c : CatalogMonitor) : CatalogMonitor :=
  {| products := ps; num_readers := num_readers c; num_writers := num_writers c;
     writer_waiting := writer_waiting c; should_stop := should_stop c |}.

Definition set_num_readers (n : Z) (c : CatalogMonitor) : CatalogMonitor :=
  {| products := products c; num_readers := n; num_writers := num_writers c;
     writer_waiting := writer_waiting c; should_stop := should_stop c |}.

Definition set_num_writers (n : Z) (c : CatalogMonitor) : CatalogMonitor :=
  {| products := products c; num_readers := num_readers c; num_writers := n;
     writer_waiting := writer_waiting c; should_stop := should_stop c |}.

Definition set_writer_waiting (n : Z) (c : CatalogMonitor) : CatalogMonitor :=
  {| products := products c; num_readers := num_readers c;
     num_writers := num_writers c; writer_waiting := n;
     should_stop := should_stop c |}.

(** A file-scope object starts zeroed. *)
Definition catalog : CatalogMonitor :=
  {| products :=
       replicate (Z.to_nat MAX_PRODUCTS)
                 {| id := 0; price := zero_price; stock := 0 |};
     num_readers := 0; num_writers := 0; writer_waiting := 0; should_stop := 0 |}.

(** The loop of [monitor_init] from product [i] on, [n] products to go;
    [rand k] is what the [k]-th call of [rand()] returns. *)
Fixpoint init_products (rand : nat -> Z) (n i : nat) (ps : list Product)
  : list Product :=
  match n with
  | O => ps
  | S n' =>
      let p := {| id := Z.of_nat i + 1;
                  price := initial_price (Z.rem (rand (2 * i)%nat) 1000);
                  stock := Z.rem (rand (2 * i + 1)%nat) 50 |} in
      init_products rand n' (S i) (<[i := p]> ps)
  end.

Definition monitor_init (rand : nat -> Z) (c : CatalogMonitor) : CatalogMonitor :=
  {| num_readers := 0; num_writers := 0; writer_waiting := 0; should_stop := 0;
     products := init_products rand (Z.to_nat MAX_PRODUCTS) 0 (products c) |}.

Definition start_read (c : CatalogMonitor) : outcome CatalogMonitor :=
  if (0 <? num_writers c) || (0 <? writer_waiting c) then Waits
  else
    n ← int_add (num_readers c) 1;
    Returns (set_num_readers n c).

Definition end_read (c : CatalogMonitor) : outcome CatalogMonitor :=
  n ← int_sub (num_readers c) 1;
  Returns (set_num_readers n c).

(** [start_write] from the lock to the wait loop. *)
Definition start_write_enter (c : CatalogMonitor) : outcome CatalogMonitor :=
  w ← int_add (writer_waiting c) 1;
  Returns (set_writer_waiting w c).

(** [start_write] from the test of the wait loop to the unlock. *)
Definition start_write_resume (c : CatalogMonitor) : outcome CatalogMonitor :=
  if (0 <? num_readers c) || (0 <? num_writers c) then Waits
  else
    w ← int_sub (writer_waiting c) 1;
    n ← int_add (num_writers c) 1;
    Returns (set_num_writers n (set_writer_waiting w c)).

Definition end_write (c : CatalogMonitor) : outcome CatalogMonitor :=
  n ← int_sub (num_writers c) 1;
  Returns (set_num_writers n c).

(** What [writer] does to the catalogue between [start_write] and
    [end_write]; [r1], [r2], [r3] are the three values of [rand()]. *)
Definition writer_update (r1 r2 r3 : Z) (c : CatalogMonitor)
  : outcome CatalogMonitor :=
  let product_id := Z.rem r1 MAX_PRODUCTS in
  let price_change := Z.rem r2 20 - 10 in
  let stock_change := Z.rem r3 10 - 3 in
  p ← read_at (products c) product_id;
  st ← int_add (stock p) stock_change;
  let p' := {| id := id p;
               price := scaled_price (price p) price_change;
               stock := if st <? 0 then 0 else st |} in
  ps ← write_at (products c) product_id p';
  Returns (set_products ps c).

(** The states the reader and writer threads reach. [end_read] is called by
    a reader whose [start_read] has returned and [end_write] by the writer
    whose [start_write] has returned; a writer resumes [start_write] only
    after entering it. A writer that finds the gate free runs both
    stretches of [start_write] under one lock, which is the two steps taken
    one after the other. *)
Inductive reachable (rand : nat -> Z) : CatalogMonitor -> Prop :=
| reach_init : reachable rand (monitor_init rand catalog)
| reach_start_read c c' :
    reachable rand c -> start_read c = Returns c' -> reachable rand c'
| reach_end_read c c' :
    reachable rand c -> 0 < num_readers c -> end_read c = Returns c' ->
    reachable rand c'
| reach_start_write_enter c c' :
    reachable rand c -> start_write_enter c = Returns c' -> reachable rand c'
| reach_start_write_resume c c' :
    reachable rand c -> 0 < writer_waiting c ->
    start_write_resume c = Returns c' -> reachable rand c'
| reach_end_write c c' :
    reachable rand c -> 0 < num_writers c -> end_write c = Returns c' ->
    reachable rand c'
| reach_writer_update c c' r1 r2 r3 :
    reachable rand c -> 0 < num_writers c ->
    writer_update r1 r2 r3 c = Returns c' -> reachable rand c'.

(** The states reached when the four operations are invoked in any
    order, with no premise on the counters; [start_write] is its two
    stretches, run one after the other when it need not wait. *)
Inductive invoked (rand : nat -> Z) : CatalogMonitor -> Prop :=
| invoked_init : invoked rand (monitor_init rand catalog)
| invoked_start_read c c' :
    invoked rand c -> start_read c = Returns c' -> invoked rand c'
| invoked_end_read c c' :
    invoked rand c -> end_read c = Returns c' -> invoked rand c'
| invoked_start_write c c1 c' :
    invoked rand c -> start_write_enter c = Returns c1 ->
    start_write_resume c1 = Returns c' -> invoked rand c'
| invoked_end_write c c' :
    invoked rand c -> end_write c = Returns c' -> invoked rand c'.

(** Where each [reader] and [writer] thread stands in its loop. *)
Inductive reader_at : Type := ReaderOutside | ReaderInside.
Inductive writer_at : Type := WriterOutside | WriterWaiting | WriterInside.

#[global] Instance reader_at_eq_dec : EqDecision reader_at.
Proof. solve_decision. Defined.

#[global] Instance writer_at_eq_dec : EqDecision writer_at.
Proof. solve_decision. Defined.

Record threads : Type := mkThreads {
  gate : CatalogMonitor;
  readers : list reader_at;
  writers : list writer_at
}.

(** One thread runs its next stretch under the monitor lock: the loop of
    [reader] is [start_read; end_read], the loop of [writer] is
    [start_write; (update); end_write]. *)
Inductive thread_step : threads -> threads -> Prop :=
| reader_starts y i g :
    readers y !! i = Some ReaderOutside ->
    start_read (gate y) = Returns g ->
    thread_step y {| gate := g; readers := <[i := ReaderInside]> (readers y);
                     writers := writers y |}
| reader_ends y i g :
    readers y !! i = Some ReaderInside ->
    end_read (gate y) = Returns g ->
    thread_step y {| gate := g; readers := <[i := ReaderOutside]> (readers y);
                     writers := writers y |}
| writer_starts y j g1 g2 :
    writers y !! j = Some WriterOutside ->
    start_write_enter (gate y) = Returns g1 ->
    start_write_resume g1 = Returns g2 ->
    thread_step y {| gate := g2; readers := readers y;
                     writers := <[j := WriterInside]> (writers y) |}
| writer_waits y j g1 :
    writers y !! j = Some WriterOutside ->
    start_write_enter (gate y) = Returns g1 ->
    start_write_resume g1 = Waits ->
    thread_step y {| gate := g1; readers := readers y;
                     writers := <[j := WriterWaiting]> (writers y) |}
| writer_resumes y j g :
    writers y !! j = Some WriterWaiting ->
    start_write_resume (gate y) = Returns g ->
    thread_step y {| gate := g; readers := readers y;
                     writers := <[j := WriterInside]> (writers y) |}
| writer_updates y j r1 r2 r3 g :
    writers y !! j = Some WriterInside ->
    writer_update r1 r2 r3 (gate y) = Returns g ->
    thread_step y {| gate := g; readers := readers y; writers := writers y |}
| writer_ends y j g :
    writers y !! j = Some WriterInside ->
    end_write (gate y) = Returns g ->
    thread_step y {| gate := g; readers := readers y;
                     writers := <[j := WriterOutside]> (writers y) |}.

(** Any number of reader and writer threads, interleaved in any order. *)
Inductive threads_reachable (rand : nat -> Z) : threads -> Prop :=
| threads_init n m :
    threads_reachable rand
      {| gate := monitor_init rand catalog;
         readers := replicate n ReaderOutside;
         writers := replicate m WriterOutside |}
| threads_step y y' :
    threads_reachable rand y -> thread_step y y' -> threads_reachable rand y'.

(** The counters count the threads. *)
Record linked (y : threads) : Prop := mkLinked {
  readers_counted : num_readers (gate y) = tally ReaderInside (readers y);
  writers_counted : num_writers (gate y) = tally WriterInside (writers y);
  waiting_counted : writer_waiting (gate y) = tally WriterWaiting (writers y)
}.

(** The counters of the gate. *)
Record gate_ok (c : CatalogMonitor) : Prop := mkGateOk {
  readers_nonneg : 0 <= num_readers c;
  writers_range : 0 <= num_writers c <= 1;
  waiting_nonneg : 0 <= writer_waiting c;
  writer_alone : num_writers c = 1 -> num_readers c = 0
}.

Definition stock_ok (c : CatalogMonitor) : Prop :=
  Forall (fun p => 0 <= stock p) (products c).

(** *** Inversion of the calls *)

Lemma start_read_inv c c' :
  start_read c = Returns c' ->
  num_writers c <= 0 /\ writer_waiting c <= 0 /\
  c' = set_num_readers (num_readers c + 1) c.
Proof.
  unfold start_read. destruct (_ || _) eqn:Hg; [discriminate |].
  apply or_pos_false in Hg as [Hw Hq]. intros H.
  apply bind_Returns in H as (n & Hn & H).
  apply int_add_Returns in Hn as [-> _]. injection H as <-. done.
Qed.

Lemma end_read_inv c c' :
  end_read c = Returns c' -> c' = set_num_readers (num_readers c - 1) c.
Proof.
  unfold end_read. intros H. apply bind_Returns in H as (n & Hn & H).
  apply int_sub_Returns in Hn as [-> _]. injection H as <-. done.
Qed.

Lemma start_write_enter_inv c c' :
  start_write_enter c = Returns c' ->
  c' = set_writer_waiting (writer_waiting c + 1) c.
Proof.
  unfold start_write_enter. intros H. apply bind_Returns in H as (n & Hn & H).
  apply int_add_Returns in Hn as [-> _]. injection H as <-. done.
Qed.

Lemma start_write_resume_inv c c' :
  start_write_resume c = Returns c' ->
  num_readers c <= 0 /\ num_writers c <= 0 /\
  c' = set_num_writers (num_writers c + 1)
         (set_writer_waiting (writer_waiting c - 1) c).
Proof.
  unfold start_write_resume. destruct (_ || _) eqn:Hg; [discriminate |].
  apply or_pos_false in Hg as [Hr Hw]. intros H.
  apply bind_Returns in H as (w & Hw' & H).
  apply bind_Returns in H as (n & Hn & H).
  apply int_sub_Returns in Hw' as [-> _].
  apply int_add_Returns in Hn as [-> _]. injection H as <-. done.
Qed.

Lemma end_write_inv c c' :
  end_write c = Returns c' -> c' = set_num_writers (num_writers c - 1) c.
Proof.
  unfold end_write. intros H. apply bind_Returns in H as (n & Hn & H).
  apply int_sub_Returns in Hn as [-> _]. injection H as <-. done.
Qed.

Lemma writer_update_inv r1 r2 r3 c c' :
  writer_update r1 r2 r3 c = Returns c' ->
  exists p,
    products c !! Z.to_nat (Z.rem r1 MAX_PRODUCTS) = Some p /\
    c' = set_products
           (<[Z.to_nat (Z.rem r1 MAX_PRODUCTS) :=
                {| id := id p;
                   price := scaled_price (price p) (Z.rem r2 20 - 10);
                   stock := Z.max 0 (stock p + (Z.rem r3 10 - 3)) |}]>
              (products c)) c.
Proof.
  unfold writer_update. intros H.
  apply bind_Returns in H as (p & Hp & H).
  apply bind_Returns in H as (st & Hst & H).
  apply bind_Returns in H as (ps & Hps & H).
  apply read_at_Returns in Hp as [_ Hp].
  apply int_add_Returns in Hst as [-> _].
  apply write_at_Returns in Hps as [_ ->].
  injection H as <-. exists p. split; [exact Hp |].
  do 3 f_equal. destruct (Z.ltb_spec (stock p + (Z.rem r3 10 - 3)) 0); lia.
Qed.

(** *** The gate invariant *)

Lemma gate_ok_init rand : gate_ok (monitor_init rand catalog).
Proof. split; simpl; lia. Qed.

Lemma reachable_gate_ok rand c : reachable rand c -> gate_ok c.
Proof.
  induction 1 as [| c c' _ IH H | c c' _ IH Hpos H | c c' _ IH H
                  | c c' _ IH Hpos H | c c' _ IH Hpos H
                  | c c' r1 r2 r3 _ IH Hpos H].
  - apply gate_ok_init.
  - apply start_read_inv in H as (Hw & Hq & ->).
    destruct IH as [? ? ? ?]. split; simpl; lia.
  - apply end_read_inv in H as ->.
    destruct IH as [? ? ? ?]. split; simpl; lia.
  - apply start_write_enter_inv in H as ->.
    destruct IH as [? ? ? ?]. split; simpl; lia.
  - apply start_write_resume_inv in H as (Hr & Hw & ->).
    destruct IH as [? ? ? ?]. split; simpl; lia.
  - apply end_write_inv in H as ->.
    destruct IH as [? ? ? ?]. split; simpl; lia.
  - apply writer_update_inv in H as (p & _ & ->).
    destruct IH as [? ? ? ?]. split; simpl; done.
Qed.

(** *** The stock of every product *)

Lemma stock_ok_init_products rand n : forall i ps,
  (forall k, 0 <= rand k) ->
  Forall (fun p => 0 <= stock p) ps ->
  Forall (fun p => 0 <= stock p) (init_products rand n i ps).
Proof.
  induction n as [| n IH]; intros i ps Hrand Hps; simpl; [exact Hps |].
  apply IH; [exact Hrand |].
  apply Forall_insert; [exact Hps |]. simpl.
  apply Z.rem_nonneg; [lia | apply Hrand].
Qed.

Lemma stock_ok_init rand :
  (forall k, 0 <= rand k) -> stock_ok (monitor_init rand catalog).
Proof.
  intros Hrand. unfold stock_ok, monitor_init. cbn [products].
  apply stock_ok_init_products; [exact Hrand |].
  apply Forall_replicate. cbn [stock]. lia.
Qed.

Lemma stock_ok_writer_update r1 r2 r3 c c' :
  stock_ok c -> writer_update r1 r2 r3 c = Returns c' -> stock_ok c'.
Proof.
  intros Hc H. apply writer_update_inv in H as (p & _ & ->).
  unfold stock_ok. simpl. apply Forall_insert; [exact Hc |]. simpl. lia.
Qed.

Lemma reachable_stock_ok rand c :
  (forall k, 0 <= rand k) -> reachable rand c -> stock_ok c.
Proof.
  intros Hrand.
  induction 1 as [| c c' _ IH H | c c' _ IH Hpos H | c c' _ IH H
                  | c c' _ IH Hpos H | c c' _ IH Hpos H
                  | c c' r1 r2 r3 _ IH Hpos H].
  - by apply stock_ok_init.
  - apply start_read_inv in H as (_ & _ & ->). exact IH.
  - apply end_read_inv in H as ->. exact IH.
  - apply start_write_enter_inv in H as ->. exact IH.
  - apply start_write_resume_inv in H as (_ & _ & ->). exact IH.
  - apply end_write_inv in H as ->. exact IH.
  - by apply (stock_ok_writer_update r1 r2 r3 c c').
Qed.

(** The update is defined on a full catalogue whose stocks are far from
    the ends of [int]. *)
Lemma writer_update_returns r1 r2 r3 c :
  0 <= r1 -> 0 <= r3 ->
  Z.of_nat (length (products c)) = MAX_PRODUCTS ->
  Forall (fun p => 0 <= stock p <= INT_MAX - 6) (products c) ->
  exists c', writer_update r1 r2 r3 c = Returns c'.
Proof.
  intros Hr1 Hr3 Hlen Hst. unfold writer_update.
  assert (Hidx : 0 <= Z.rem r1 MAX_PRODUCTS < MAX_PRODUCTS).
  { split; [apply Z.rem_nonneg; [discriminate | lia] |].
    apply Z.rem_bound_pos; [lia | reflexivity]. }
  destruct (lookup_lt_is_Some_2 (products c) (Z.to_nat (Z.rem r1 MAX_PRODUCTS)))
    as [p Hp]; [lia |].
  assert (Hread : read_at (products c) (Z.rem r1 MAX_PRODUCTS) = Returns p)
    by (apply read_at_Returns; split; [lia | done]).
  rewrite Hread. cbn [mbind outcome_bind bind].
  assert (Hp' : 0 <= stock p <= INT_MAX - 6).
  { rewrite Forall_forall in Hst. apply Hst. by eapply list_elem_of_lookup_2. }
  assert (Hch : 0 <= Z.rem r3 10 < 10).
  { split; [apply Z.rem_nonneg; [discriminate | lia] |].
    apply Z.rem_bound_pos; [lia | reflexivity]. }
  rewrite int_add_small
    by (unfold int_range, INT_MIN, INT_MAX in *; lia).
  cbn [mbind outcome_bind bind].
  unfold write_at. destruct (decide _) as [_ | Hbad]; [| lia].
  eexists. reflexivity.
Qed.

(** *** The threads and the counters *)

(** Every state the threads reach is one of the [reachable] states, and in
    it the three counters are the numbers of readers inside, of writers
    inside and of writers waiting. *)
Lemma threads_reachable_linked rand y :
  threads_reachable rand y -> linked y /\ reachable rand (gate y).
Proof.
  induction 1 as [n m | y y' _ [[Hr Hw Hq] Hreach] Hstep].
  - split; [| apply reach_init].
    split; cbn [gate readers writers]; rewrite tally_replicate;
      (destruct (decide _); [discriminate | reflexivity]).
  - destruct Hstep as [y i g Hi H | y i g Hi H | y j g1 g2 Hj H1 H2
                       | y j g1 Hj H1 H2 | y j g Hj H | y j r1 r2 r3 g Hj H
                       | y j g Hj H]; cbn [gate readers writers] in *.
    + split; [| by apply (reach_start_read rand (gate y))].
      apply start_read_inv in H as (_ & _ & ->).
      split; cbn [gate readers writers]; try done.
      rewrite (tally_insert _ _ _ _ _ Hi). simpl. lia.
    + assert (Hpos : 0 < num_readers (gate y))
        by (rewrite Hr; by apply (tally_lookup _ _ i)).
      split; [| by apply (reach_end_read rand (gate y))].
      apply end_read_inv in H as ->.
      split; cbn [gate readers writers]; try done.
      rewrite (tally_insert _ _ _ _ _ Hi). simpl. lia.
    + pose proof (tally_nonneg WriterWaiting (writers y)) as Hnn.
      assert (Hr1 : reachable rand g1)
        by by apply (reach_start_write_enter rand (gate y)).
      apply start_write_enter_inv in H1 as ->.
      split; [| apply (reach_start_write_resume rand _ g2 Hr1);
                [simpl; lia | exact H2]].
      apply start_write_resume_inv in H2 as (_ & _ & ->).
      split; cbn [gate readers writers]; simpl; try done.
      * rewrite (tally_insert _ _ _ _ _ Hj). simpl. lia.
      * rewrite (tally_insert _ _ _ _ _ Hj). simpl. lia.
    + split; [| by apply (reach_start_write_enter rand (gate y))].
      apply start_write_enter_inv in H1 as ->.
      split; cbn [gate readers writers]; simpl; try done.
      * rewrite (tally_insert _ _ _ _ _ Hj). simpl. lia.
      * rewrite (tally_insert _ _ _ _ _ Hj). simpl. lia.
    + assert (Hpos : 0 < writer_waiting (gate y))
        by (rewrite Hq; by apply (tally_lookup _ _ j)).
      split; [| by apply (reach_start_write_resume rand (gate y))].
      apply start_write_resume_inv in H as (_ & _ & ->).
      split; cbn [gate readers writers]; simpl; try done.
      * rewrite (tally_insert _ _ _ _ _ Hj). simpl. lia.
      * rewrite (tally_insert _ _ _ _ _ Hj). simpl. lia.
    + assert (Hpos : 0 < num_writers (gate y))
        by (rewrite Hw; by apply (tally_lookup _ _ j)).
      split; [| by apply (reach_writer_update rand (gate y) g r1 r2 r3)].
      apply writer_update_inv in H as (p & _ & ->).
      split; cbn [gate readers writers]; simpl; done.
    + assert (Hpos : 0 < num_writers (gate y))
        by (rewrite Hw; by apply (tally_lookup _ _ j)).
      split; [| by apply (reach_end_write rand (gate y))].
      apply end_write_inv in H as ->.
      split; cbn [gate readers writers]; simpl; try done.
      * rewrite (tally_insert _ _ _ _ _ Hj). simpl. lia.
      * rewrite (tally_insert _ _ _ _ _ Hj). simpl. lia.
Qed.

(** At most one writer thread is between [start_write] and [end_write], and
    while one is there no reader thread is between [start_read] and
    [end_read]. *)
Lemma threads_exclusive rand y :
  threads_reachable rand y ->
  tally WriterInside (writers y) <= 1 /\
  (0 < tally WriterInside (writers y) -> tally ReaderInside (readers y) = 0).
Proof.
  intros Hy. destruct (threads_reachable_linked rand y Hy) as [[Hr Hw _] Hreach].
  destruct (reachable_gate_ok rand _ Hreach) as [Hn Hrange _ Halone].
  rewrite <- Hr, <- Hw. lia.
Qed.

(** *** Exclusivity *)

(** C2, amended: in every [reachable] state, where [end_read] is called
    with a reader inside, [end_write] and the update with a writer inside
    and [start_write] is resumed with a writer waiting, and so in every
    state that any number of reader and writer threads reach in any
    interleaving ([threads_reachable_linked]), [num_writers] is 0 or 1, an
    active writer excludes every reader and an active reader excludes the
    writer. *)
Theorem gate_exclusive rand c :
  reachable rand c ->
  (num_writers c = 0 \/ num_writers c = 1) /\
  (num_writers c = 1 -> num_readers c = 0) /\
  (0 < num_readers c -> num_writers c = 0).
Proof.
  intros Hr. destruct (reachable_gate_ok rand c Hr) as [Hn Hw _ Halone].
  repeat split; lia.
Qed.

(** *** Stock *)

(** C9: the writer's update returns on a full catalogue whose stocks are
    non-negative and far from the end of [int], and it stores
    [max 0 (stock + change)], so it keeps every stock non-negative; the
    stocks are non-negative after [monitor_init] and in every state reached
    from it. ([writer] in ecommerce_mutex.c and ecommerce_sem.c performs
    the same update.) *)
Theorem stock_never_negative rand :
  (forall k, 0 <= rand k) ->
  (forall r1 r2 r3 c,
     0 <= r1 -> 0 <= r3 ->
     Z.of_nat (length (products c)) = MAX_PRODUCTS ->
     Forall (fun p => 0 <= stock p <= INT_MAX - 6) (products c) ->
     exists c' p p',
       writer_update r1 r2 r3 c = Returns c' /\
       stock_ok c' /\
       products c !! Z.to_nat (Z.rem r1 MAX_PRODUCTS) = Some p /\
       products c' !! Z.to_nat (Z.rem r1 MAX_PRODUCTS) = Some p' /\
       stock p' = Z.max 0 (stock p + (Z.rem r3 10 - 3))) /\
  (forall r1 r2 r3 c c',
     stock_ok c -> writer_update r1 r2 r3 c = Returns c' ->
     stock_ok c' /\
     exists p p',
       products c !! Z.to_nat (Z.rem r1 MAX_PRODUCTS) = Some p /\
       products c' !! Z.to_nat (Z.rem r1 MAX_PRODUCTS) = Some p' /\
       stock p' = Z.max 0 (stock p + (Z.rem r3 10 - 3))) /\
  stock_ok (monitor_init rand catalog) /\
  (forall c, reachable rand c -> stock_ok c).
Proof.
  intros Hrand.
  assert (Hupd : forall r1 r2 r3 c c',
            stock_ok c -> writer_update r1 r2 r3 c = Returns c' ->
            stock_ok c' /\
            exists p p',
              products c !! Z.to_nat (Z.rem r1 MAX_PRODUCTS) = Some p /\
              products c' !! Z.to_nat (Z.rem r1 MAX_PRODUCTS) = Some p' /\
              stock p' = Z.max 0 (stock p + (Z.rem r3 10 - 3))).
  { intros r1 r2 r3 c c' Hc H. split.
    + by apply (stock_ok_writer_update r1 r2 r3 c c').
    + apply writer_update_inv in H as (p & Hp & ->).
      exists p. eexists. split; [exact Hp |]. split.
      * cbn [products set_products]. apply list_lookup_insert_eq.
        by apply (lookup_lt_Some _ _ p).
      * reflexivity. }
  split; [| split; [exact Hupd | split]].
  - intros r1 r2 r3 c Hr1 Hr3 Hlen Hst.
    destruct (writer_update_returns r1 r2 r3 c Hr1 Hr3 Hlen Hst) as [c' Hc'].
    assert (Hok : stock_ok c).
    { unfold stock_ok. apply (Forall_impl _ _ _ Hst). intros p Hp. lia. }
    destruct (Hupd r1 r2 r3 c c' Hok Hc') as (Hok' & p & p' & Hp & Hp' & E).
    by exists c', p, p'.
  - by apply stock_ok_init.
  - intros c Hr. by apply (reachable_stock_ok rand c).
Qed.

End Catalogue.

Arguments Product : clear implicits.
Arguments CatalogMonitor : clear implicits.
Arguments threads : clear implicits.

(** A run with prices left out: a reader enters, a writer enters
    [start_write] and waits behind it, the reader leaves and the writer is
    let in. *)
Definition sample_rand (k : nat) : Z := Z.of_nat k.

Definition no_price (_ : Z) : unit := tt.
Definition same_price (_ : unit) (_ : Z) : unit := tt.

Definition sample_init : CatalogMonitor unit :=
  monitor_init no_price sample_rand (catalog tt).

Definition sample_reading : CatalogMonitor unit := set_num_readers 1 sample_init.

Definition sample_writer_waiting : CatalogMonitor unit :=
  set_writer_waiting 1 sample_reading.

Definition sample_writing : CatalogMonitor unit :=
  set_num_writers 1 sample_init.

Lemma reachable_sample_writer_waiting :
  reachable tt no_price same_price sample_rand sample_writer_waiting.
Proof.
  pose proof (reach_init tt no_price same_price sample_rand) as H.
  apply (reach_start_read _ _ _ _ _ sample_reading) in H; [| reflexivity].
  apply (reach_start_write_enter _ _ _ _ _ sample_writer_waiting) in H;
    [| reflexivity].
  exact H.
Qed.

Lemma reachable_sample_writing :
  reachable tt no_price same_price sample_rand sample_writing.
Proof.
  pose proof reachable_sample_writer_waiting as H.
  apply (reach_end_read _ _ _ _ _ (set_writer_waiting 1 sample_init)) in H;
    [| reflexivity | reflexivity].
  apply (reach_start_write_resume _ _ _ _ _ sample_writing) in H;
    [| reflexivity | reflexivity].
  exact H.
Qed.

Lemma gate_exclusive_witness :
  reachable tt no_price same_price sample_rand sample_writing /\
  num_writers sample_writing = 1 /\ num_readers sample_writing = 0.
Proof.
  split; [exact reachable_sample_writing |].
  split; [reflexivity |].
  exact (proj1 (proj2 (gate_exclusive tt no_price same_price sample_rand
                         sample_writing reachable_sample_writing)) eq_refl).
Defined.

(** C2, as stated: the four operations invoked in any order. [end_write]
    tests nothing, so invoked on the initial state it returns as usual and
    leaves [num_writers] at -1. *)
Lemma gate_exclusive_needs_discipline :
  ~ (forall c,
       invoked tt no_price sample_rand c ->
       (num_writers c = 0 \/ num_writers c = 1) /\
       (num_writers c = 1 -> num_readers c = 0) /\
       (0 < num_readers c -> num_writers c = 0)).
Proof.
  intros H.
  assert (Hi : invoked tt no_price sample_rand
                 (set_num_writers (-1) sample_init)).
  { apply (invoked_end_write _ _ _ sample_init);
      [apply invoked_init | reflexivity]. }
  destruct (H _ Hi) as [[H0 | H1] _]; discriminate.
Qed.

(** The catalogue of [sample_writing]: a hundred products, the first with
    a stock of 1, every stock below 50. *)
Lemma sample_writing_full :
  Z.of_nat (length (products sample_writing)) = MAX_PRODUCTS.
Proof. vm_compute. reflexivity. Qed.

Lemma sample_writing_stocks :
  Forall (fun p => 0 <= stock p <= INT_MAX - 6) (products sample_writing).
Proof.
  apply Forall_lookup_2. intros i p Hp.
  assert (Hall : forallb (fun p => (0 <=? stock p) && (stock p <=? INT_MAX - 6))
                   (products sample_writing) = true)
    by (vm_compute; reflexivity).
  rewrite forallb_forall in Hall.
  assert (Hin : In p (products sample_writing)).
  { apply list_elem_of_In. by apply (list_elem_of_lookup_2 _ i). }
  specialize (Hall p Hin). apply andb_true_iff in Hall as [H1 H2].
  apply Z.leb_le in H1, H2. lia.
Qed.

Lemma sample_writing_first :
  products sample_writing !! 0%nat = Some {| id := 1; price := tt; stock := 1 |}.
Proof. vm_compute. reflexivity. Qed.

(** A writer inside updates product 0, whose stock is 1, with a change of
    -3: the update returns and the stock stored is 0. *)
Lemma stock_never_negative_witness :
  (forall k, 0 <= sample_rand k) /\
  (exists c' p',
     writer_update same_price 0 0 0 sample_writing = Returns c' /\
     stock_ok c' /\
     products c' !! 0%nat = Some p' /\
     stock p' = 0) /\
  stock_ok (monitor_init no_price sample_rand (catalog tt)) /\
  stock_ok sample_writing.
Proof.
  assert (Hrand : forall k, 0 <= sample_rand k)
    by (intros k; unfold sample_rand; lia).
  split; [exact Hrand |].
  destruct (stock_never_negative tt no_price same_price sample_rand Hrand)
    as (Hret & _ & Hinit & Hreach).
  split; [| split; [exact Hinit | apply Hreach; exact reachable_sample_writing]].
  destruct (Hret 0 0 0 sample_writing (Z.le_refl 0) (Z.le_refl 0)
              sample_writing_full sample_writing_stocks)
    as (c' & p & p' & Hc' & Hok & Hp & Hp' & E).
  change (Z.to_nat (Z.rem 0 MAX_PRODUCTS)) with 0%nat in Hp, Hp'.
  rewrite sample_writing_first in Hp. injection Hp as <-.
  exists c', p'. split; [exact Hc' |]. split; [exact Hok |].
  split; [exact Hp' | exact E].
Defined.

End Catalog.

(** * The catalogue with two mutexes (readers-writers/ecommerce_mutex.c)

    The entry and exit protocols written inside [reader] and [writer];
    readers-writers/ecommerce_sem.c has the same protocols on binary
    semaphores. *)

Module CatalogMutex.

Section Catalogue.

Context {float : Type}.

(** A mutex is its locked flag. *)
Record Catalog : Type := mkCatalog {
  products : list (Catalog.Product float);
  num_readers : Z;
  mutex : bool;
  write_mutex : bool
}.

(** Where a reader stands when its entry protocol stops running: past it,
    or inside it at [pthread_mutex_lock(&catalog.write_mutex)] with
    [catalog.mutex] still locked. *)
Inductive entry : Type :=
| Entered (c : Catalog)
| AtWriteMutex (c : Catalog).

(** The entry protocol of [reader] from its first lock on. *)
Definition reader_entry (c : Catalog) : outcome entry :=
  if mutex c then Waits
  else
    n ← int_add (num_readers c) 1;
    if n =? 1 then
      if write_mutex c then
        Returns (AtWriteMutex {| products := products c; num_readers := n;
                                 mutex := true; write_mutex := write_mutex c |})
      else
        Returns (Entered {| products := products c; num_readers := n;
                            mutex := false; write_mutex := true |})
    else
      Returns (Entered {| products := products c; num_readers := n;
                          mutex := false; write_mutex := write_mutex c |}).

(** The entry protocol of [reader] from the lock of [write_mutex] on. *)
Definition reader_entry_resume (c : Catalog) : outcome Catalog :=
  if write_mutex c then Waits
  else Returns {| products := products c; num_readers := num_readers c;
                  mutex := false; write_mutex := true |}.

(** The exit protocol of [reader]. *)
Definition reader_exit (c : Catalog) : outcome Catalog :=
  if mutex c then Waits
  else
    n ← int_sub (num_readers c) 1;
    Returns {| products := products c; num_readers := n; mutex := false;
               write_mutex := if n =? 0 then false else write_mutex c |}.

(** The entry and exit protocols of [writer]. *)
Definition writer_entry (c : Catalog) : outcome Catalog :=
  if write_mutex c then Waits
  else Returns {| products := products c; num_readers := num_readers c;
                  mutex := mutex c; write_mutex := true |}.

Definition writer_exit (c : Catalog) : Catalog :=
  {| products := products c; num_readers := num_readers c;
     mutex := mutex c; write_mutex := false |}.



End Catalogue.

Arguments Catalog : clear implicits.
Arguments entry : clear implicits.



End CatalogMutex.

(** * The ring and the gate across their variants *)

(** C1, on the semaphore variant: editors 0 and 1 are neighbours, they call
    [get_boards] one after the other, and both are [EDITING] in the state
    array. [test_editor] takes [left = editor_id] where the left neighbour
    is [(editor_id + NUM_EDITORS - 1) % NUM_EDITORS], so the test never
    reads the state of the left neighbour. *)
Theorem sem_neighbours_edit_together :
  StudioSem.run StudioSem.start [0; 1]%nat = Returns StudioSem.both_let_in /\
  StudioSem.reachable StudioSem.both_let_in /\
  StudioSem.editing StudioSem.both_let_in 0 /\
  StudioSem.editing StudioSem.both_let_in 1 /\
  ((0 + 1) mod StudioSem.NUM_EDITORS = 1)%nat.
Proof.
  split; [exact StudioSem.run_both_let_in |].
  split; [exact StudioSem.reachable_both_let_in |].
  repeat split.
Qed.

(** C6, as stated, on the semaphore variant: [get_boards] takes the two
    board semaphores one after the other, outside the mutex, so an editor
    that has taken the first holds exactly one board. *)
Lemma sem_holds_one_board :
  ~ (forall y i,
       StudioSem.reachable y -> (i < StudioSem.NUM_EDITORS)%nat ->
       (StudioSem.holds y i i /\
        StudioSem.holds y i ((i + 1) mod StudioSem.NUM_BOARDS)%nat) \/
       (~ StudioSem.holds y i i /\
        ~ StudioSem.holds y i ((i + 1) mod StudioSem.NUM_BOARDS)%nat)).
Proof.
  intros H.
  destruct StudioSem.one_board_holds_one as [H0 H1].
  destruct (H StudioSem.one_board 0%nat StudioSem.reachable_one_board)
    as [[_ Hb] | [Ha _]].
  - unfold StudioSem.NUM_EDITORS. lia.
  - by apply H1.
  - by apply Ha.
Qed.


(** C8, as stated: [end_write] with no active writer returns as usual and
    leaves [num_writers] at -1; [release_boards] for editor 1, which never
    asked for its boards, returns as usual and frees board 1 under editor 0,
    which is editing with it, so that editor 1 is let in next to editor 0
    when it asks. *)
Lemma contract_violations_unchecked :
  Catalog.end_write Catalog.sample_init
    = Returns (Catalog.set_num_writers (-1) Catalog.sample_init) /\
  ~ Catalog.gate_ok (Catalog.set_num_writers (-1) Catalog.sample_init) /\
  Studio.consistent Studio.editor0_editing /\
  ~ Studio.editing Studio.editor0_editing 1 /\
  Studio.editing (Studio.release_boards Studio.editor0_editing 1) 0 /\
  Studio.board_in_use (Studio.release_boards Studio.editor0_editing 1) !! 1%nat = Some 0 /\
  ~ Studio.consistent (Studio.release_boards Studio.editor0_editing 1) /\
  Studio.state
    (Studio.request_boards_enter
       (Studio.release_boards Studio.editor0_editing 1) 1)
  = [Studio.EDITING; Studio.EDITING; Studio.THINKING; Studio.THINKING;
     Studio.THINKING].
Proof.
  split; [reflexivity |].
  split; [intros [_ [H _] _ _]; simpl in H; lia |].
  split; [apply Studio.reachable_consistent, Studio.reachable_editor0_editing |].
  split; [discriminate |].
  split; [reflexivity |].
  split; [reflexivity |].
  split; [| reflexivity].
  intros Hc.
  destruct (Studio.boards_match _ Hc 1%nat) as [[H _] | (_ & _ & H)].
  - unfold Studio.NUM_BOARDS. lia.
  - discriminate.
  - apply H. reflexivity.
Qed.

(** C8, amended: [end_write] and [release_boards] have no failing path;
    [end_write] subtracts one from [num_writers] whatever its value and
    [release_boards] does not read the state of the editor it is called for.
    Called as the threads call them, [end_write] by the active writer and
    [release_boards] by an editor that is [EDITING], they keep the
    invariants of the gate and of the ring. *)
Theorem valid_calls_keep_invariants {float : Type} :
  (forall c : Catalog.CatalogMonitor float,
     int_range (Catalog.num_writers c - 1) ->
     Catalog.end_write c =
       Returns (Catalog.set_num_writers (Catalog.num_writers c - 1) c)) /\
  (forall c : Catalog.CatalogMonitor float,
     Catalog.gate_ok c -> Catalog.num_writers c = 1 ->
     exists c', Catalog.end_write c = Returns c' /\
                Catalog.gate_ok c' /\ Catalog.num_writers c' = 0) /\
  (forall s i v,
     Studio.release_boards
       {| Studio.state := <[i := v]> (Studio.state s);
          Studio.board_in_use := Studio.board_in_use s;
          Studio.should_stop := Studio.should_stop s |} i
     = Studio.release_boards s i) /\
  (forall s i,
     (i < Studio.NUM_EDITORS)%nat -> Studio.consistent s ->
     Studio.editing s i -> Studio.consistent (Studio.release_boards s i)).
Proof.
  split; [| split; [| split]].
  - intros c Hr. unfold Catalog.end_write. by rewrite int_sub_small.
  - intros c [Hn Hw Hq Ha] H1. eexists. split.
    + unfold Catalog.end_write. rewrite int_sub_small; [reflexivity |].
      unfold int_range, INT_MIN, INT_MAX. lia.
    + split; [| simpl; lia]. split; simpl; lia.
  - intros s i v. unfold Studio.release_boards. cbn [Studio.state
      Studio.board_in_use Studio.should_stop].
    by rewrite list_insert_insert_eq.
  - intros s i Hi Hc He. by apply Studio.release_boards_consistent.
Qed.

Lemma valid_calls_keep_invariants_witness :
  (exists c', Catalog.end_write Catalog.sample_writing = Returns c' /\
              Catalog.gate_ok c' /\ Catalog.num_writers c' = 0) /\
  Studio.consistent (Studio.release_boards Studio.editor0_editing 0).
Proof.
  destruct (@valid_calls_keep_invariants unit) as (_ & Hgate & _ & Hring).
  split.
  - apply Hgate; [| reflexivity].
    apply (Catalog.reachable_gate_ok tt Catalog.no_price Catalog.same_price
             Catalog.sample_rand).
    exact Catalog.reachable_sample_writing.
  - apply Hring.
    + unfold Studio.NUM_EDITORS. lia.
    + apply Studio.reachable_consistent, Studio.reachable_editor0_editing.
    + reflexivity.
Defined.

(** * Thread systems: counters, sums over the threads, a thread that has
    not returned *)


(** [a * b] on [int]. *)
Definition int_mul (a b : Z) : outcome Z :=
  if decide (int_range (a * b)) then Returns (a * b) else Undefined.

(** The sum of [f] over [l]. *)
Fixpoint total {A : Type} (f : A -> Z) (l : list A) : Z :=
  match l with
  | [] => 0
  | x :: l' => f x + total f l'
  end.

Lemma total_insert {A : Type} (f : A -> Z) l : forall i y z,
  l !! i = Some y -> total f (<[i := z]> l) = total f l - f y + f z.
Proof.
  induction l as [| a l IH]; intros i y z Hy; [discriminate |].
  destruct i as [| i]; simpl in *.
  - injection Hy as ->. lia.
  - rewrite (IH i y z Hy). lia.
Qed.

Lemma total_replicate {A : Type} (f : A -> Z) n x :
  total f (replicate n x) = Z.of_nat n * f x.
Proof. induction n as [| n IH]; simpl; [lia |]. rewrite IH. lia. Qed.

Lemma total_bounds {A : Type} (f : A -> Z) (lo hi : Z) l :
  Forall (fun x => lo <= f x <= hi) l ->
  Z.of_nat (length l) * lo <= total f l <= Z.of_nat (length l) * hi.
Proof.
  induction 1 as [| x l Hx _ IH]; simpl; [lia |].
  rewrite Nat2Z.inj_succ. lia.
Qed.

Lemma total_nonneg {A : Type} (f : A -> Z) l :
  Forall (fun x => 0 <= f x) l -> 0 <= total f l.
Proof. induction 1 as [| b l Hb _ IH]; simpl; lia. Qed.

Lemma total_lookup_le {A : Type} (f : A -> Z) l i x :
  Forall (fun x => 0 <= f x) l -> l !! i = Some x -> f x <= total f l.
Proof.
  intros Hall. revert i. induction Hall as [| a l Ha Hl IH]; intros i Hx;
    [discriminate |].
  destruct i as [| i]; simpl in *.
  - injection Hx as ->. pose proof (total_nonneg f l Hl). lia.
  - specialize (IH i Hx). lia.
Qed.

Lemma unfinished_thread {A : Type} (P : A -> Prop) `{forall x, Decision (P x)} l :
  ~ Forall P l -> exists i x, l !! i = Some x /\ ~ P x.
Proof.
  intros Hn. apply not_Forall_Exists in Hn; [| done].
  apply Exists_exists in Hn as (x & Hx & Hp).
  apply list_elem_of_lookup in Hx as [i Hi]. by exists i, x.
Qed.

(** ** Condition variables

    A thread inside [pthread_cond_wait] is asleep until a signal, a
    broadcast or a spurious wake-up; [asleep] tells whether a thread is
    there and [wake] puts it back at the test of its wait loop. *)

Section Waking.

Context {A : Type} (asleep : A -> bool) (wake : A -> A).

(** Some of the sleepers have woken. *)
Definition woken (l l' : list A) : Prop :=
  Forall2 (fun x x' => x' = x \/ (asleep x = true /\ x' = wake x)) l l'.

(** [pthread_cond_signal]: one sleeper wakes, if there is one. *)
Inductive signalled : list A -> list A -> Prop :=
| signal_nobody l : Forall (fun x => asleep x = false) l -> signalled l l
| signal_one l i x :
    l !! i = Some x -> asleep x = true -> signalled l (<[i := wake x]> l).

(** The signal that wakes the first sleeper. *)
Fixpoint signal_first (l : list A) : list A :=
  match l with
  | [] => []
  | x :: l' => if asleep x then wake x :: l' else x :: signal_first l'
  end.

(** [pthread_cond_broadcast]: every sleeper wakes. *)
Definition broadcast (l : list A) : list A :=
  (fun x => if asleep x then wake x else x) <$> l.

Lemma woken_refl l : woken l l.
Proof. induction l as [| x l IH]; constructor; [by left | exact IH]. Qed.

Lemma woken_insert l i x :
  l !! i = Some x -> asleep x = true -> woken l (<[i := wake x]> l).
Proof.
  intros Hi Hx. apply Forall2_same_length_lookup.
  split; [by rewrite length_insert |]. intros j y z Hy Hz.
  destruct (decide (j = i)) as [-> | Hne].
  - rewrite list_lookup_insert_eq in Hz by (by apply (lookup_lt_Some _ _ x)).
    rewrite Hi in Hy. injection Hy as <-. injection Hz as <-. by right.
  - rewrite list_lookup_insert_ne in Hz by done. left.
    rewrite Hy in Hz. by injection Hz as ->.
Qed.

Lemma signalled_woken l l' : signalled l l' -> woken l l'.
Proof.
  intros [l0 _ | l0 i x Hi Hx]; [apply woken_refl | by apply woken_insert].
Qed.

Lemma broadcast_woken l : woken l (broadcast l).
Proof.
  induction l as [| x l IH]; [constructor |].
  constructor; [| exact IH].
  destruct (asleep x) eqn:Hx; [right; by split | by left].
Qed.

Lemma signal_first_signalled l : signalled l (signal_first l).
Proof.
  induction l as [| x l IH]; simpl; [by constructor |].
  destruct (asleep x) eqn:Hx.
  - apply (signal_one (x :: l) 0 x); done.
  - remember (signal_first l) as l' eqn:E. clear E.
    destruct IH as [l Hall | l i z Hi Hz].
    + apply signal_nobody. by constructor.
    + apply (signal_one (x :: l) (S i) z); done.
Qed.

Lemma broadcast_awake l :
  (forall x, asleep (wake x) = false) ->
  Forall (fun x => asleep x = false) (broadcast l).
Proof.
  intros Hw. unfold broadcast. apply Forall_fmap, Forall_forall.
  intros x _. simpl. destruct (asleep x) eqn:Hx; [apply Hw | exact Hx].
Qed.

Lemma woken_length l l' : woken l l' -> length l' = length l.
Proof. intros H. symmetry. eapply Forall2_length, H. Qed.

Lemma woken_total (f : A -> Z) l l' :
  (forall x, asleep x = true -> f (wake x) = f x) ->
  woken l l' -> total f l' = total f l.
Proof.
  intros Hf. induction 1 as [| x x' l l' [-> | [Hx ->]] _ IH]; simpl;
    rewrite ?Hf by done; lia.
Qed.

Lemma woken_total_le (f : A -> Z) (d : Z) l l' :
  0 <= d -> (forall x, asleep x = true -> f (wake x) <= f x + d) ->
  woken l l' -> total f l' <= total f l + d * Z.of_nat (length l).
Proof.
  intros Hd Hf. induction 1 as [| x x' l l' [-> | [Hx ->]] _ IH]; simpl length;
    cbn [total]; rewrite ?Nat2Z.inj_succ; [lia | nia |].
  specialize (Hf x Hx). nia.
Qed.

Lemma woken_Forall (P : A -> Prop) l l' :
  (forall x, asleep x = true -> P x -> P (wake x)) ->
  woken l l' -> Forall P l -> Forall P l'.
Proof.
  intros HP. induction 1 as [| x x' l l' [-> | [Hx ->]] _ IH];
    intros Hall; [done | |];
    apply Forall_cons in Hall as [H1 H2]; constructor; auto.
Qed.

Lemma woken_Exists (P : A -> Prop) l l' :
  (forall x, asleep x = true -> P (wake x) -> P x) ->
  woken l l' -> Exists P l' -> Exists P l.
Proof.
  intros HP. induction 1 as [| x x' l l' [-> | [Hx ->]] _ IH];
    intros Hex; [done | |];
    apply Exists_cons in Hex as [H1 | H2];
    [by left | right; auto | left; auto | right; auto].
Qed.

Lemma woken_lookup l l' i x' :
  woken l l' -> l' !! i = Some x' ->
  exists x, l !! i = Some x /\ (x' = x \/ (asleep x = true /\ x' = wake x)).
Proof.
  intros Hw Hi. destruct (Forall2_lookup_r _ _ _ _ _ Hw Hi) as (x & Hx & HR).
  by exists x.
Qed.

Lemma woken_lookup_l l l' i x :
  woken l l' -> l !! i = Some x ->
  exists x', l' !! i = Some x' /\ (x' = x \/ (asleep x = true /\ x' = wake x)).
Proof.
  intros Hw Hi. destruct (Forall2_lookup_l _ _ _ _ _ Hw Hi) as (x' & Hx & HR).
  by exists x'.
Qed.

Lemma woken_fmap {B : Type} (h : A -> B) l l' :
  (forall x, asleep x = true -> h (wake x) = h x) ->
  woken l l' -> h <$> l' = h <$> l.
Proof.
  intros Hh. induction 1 as [| x x' l l' [-> | [Hx ->]] _ IH];
    [done | |]; rewrite !fmap_cons, IH; [done |].
  by rewrite (Hh x Hx).
Qed.

Lemma woken_trans l1 l2 l3 :
  (forall x, asleep (wake x) = false) ->
  woken l1 l2 -> woken l2 l3 -> woken l1 l3.
Proof.
  intros Hw H12. revert l3.
  induction H12 as [| x x' l l' Hx _ IH]; intros l3 H23;
    inversion H23 as [| y y' m m' Hy Hm]; subst; constructor; [| by apply IH].
  destruct Hx as [-> | [Hx ->]]; [exact Hy |].
  destruct Hy as [-> | [Hy _]]; [by right |].
  rewrite Hw in Hy. discriminate.
Qed.

(** Waking the thread at place [j], if it sleeps there. *)
Lemma woken_alter l (j : nat) :
  (forall x, asleep x = false -> wake x = x) ->
  woken l (alter wake j l).
Proof.
  intros Hid. revert j. induction l as [| x l IH]; intros j; [constructor |].
  destruct j as [| j].
  - change (alter wake 0%nat (x :: l)) with (wake x :: l).
    constructor; [| apply woken_refl].
    destruct (asleep x) eqn:Hx; [by right | left; by apply Hid].
  - change (alter wake (S j) (x :: l)) with (x :: alter wake j l).
    constructor; [by left | apply IH].
Qed.

Lemma total_alter_le (f : A -> Z) (d : Z) l (j : nat) :
  0 <= d -> (forall x, f (wake x) <= f x + d) ->
  total f (alter wake j l) <= total f l + d.
Proof.
  intros Hd Hf. revert j. induction l as [| x l IH]; intros j; [simpl; lia |].
  destruct j as [| j].
  - change (alter wake 0%nat (x :: l)) with (wake x :: l). simpl.
    specialize (Hf x). lia.
  - change (alter wake (S j) (x :: l)) with (x :: alter wake j l). simpl.
    specialize (IH j). lia.
Qed.

End Waking.

Lemma Exists_insert_not {A : Type} (P : A -> Prop) l (j : nat) c :
  ~ P c -> Exists P (<[j := c]> l) -> Exists P l.
Proof.
  intros Hc. rewrite !Exists_exists. intros (x & Hx & Hp).
  apply list_elem_of_lookup in Hx as [k Hk].
  destruct (decide (k = j)) as [-> | Hne].
  - destruct (decide (j < length l)%nat) as [Hlt | Hge].
    + rewrite list_lookup_insert_eq in Hk by done. injection Hk as <-.
      contradiction.
    + rewrite list_insert_ge in Hk by lia.
      exists x. split; [by eapply list_elem_of_lookup_2 | done].
  - rewrite list_lookup_insert_ne in Hk by done.
    exists x. split; [by eapply list_elem_of_lookup_2 | done].
Qed.

Lemma Exists_lookup {A : Type} (P : A -> Prop) l (j : nat) c :
  l !! j = Some c -> P c -> Exists P l.
Proof.
  intros Hj Hp. apply Exists_exists. exists c.
  split; [by eapply list_elem_of_lookup_2 | done].
Qed.

Lemma Forall_not_Exists {A : Type} (P : A -> Prop) l :
  Forall (fun x => ~ P x) l -> ~ Exists P l.
Proof.
  intros Hall Hex. apply Exists_exists in Hex as (x & Hx & Hp).
  rewrite Forall_forall in Hall. by apply (Hall x).
Qed.

Lemma total_zero {A : Type} (f : A -> Z) l :
  Forall (fun x => f x = 0) l -> total f l = 0.
Proof. induction 1 as [| x l Hx _ IH]; simpl; lia. Qed.

Lemma out_not_asleep {A : Type} (done : A -> Prop) (asleep : A -> bool) l :
  Forall (fun x => done x \/ asleep x = true) l ->
  ~ Exists (fun x => asleep x = true) l -> Forall done l.
Proof.
  intros Hall Hno. apply Forall_forall. intros x Hx.
  rewrite Forall_forall in Hall. destruct (Hall x Hx) as [Hd | Hs]; [done |].
  exfalso. apply Hno. apply Exists_exists. by exists x.
Qed.

Lemma Forall_eq_replicate {A : Type} (x : A) l :
  Forall (fun y => y = x) l -> l = replicate (length l) x.
Proof. induction 1 as [| y l -> _ IH]; simpl; [done |]. by rewrite <- IH. Qed.

(** * The threads of the print queue (bounded-buffer/print_system_monitor.c)

    [producer], [consumer] and the part of [main] that starts them. *)

Module PrintQueueThreads.

Import PrintQueue.

Definition NUM_CONSUMERS : Z := 2.
Definition MAX_DOCUMENTS : Z := 10.
Definition MAX_TYPE_LENGTH : nat := 20.

(** [snprintf(type, n, "Doc%d", p)]: the text cut to [n - 1] characters. *)
Definition snprintf_Doc (n : nat) (p : Z) : string :=
  substring 0 (n - 1) ("Doc" +:+ pretty p).

(** The document [producer] builds in its loop; [r] is the value of
    [rand()]. *)
Definition new_document (producer_id docs_produced r : Z) : outcome Document :=
  a ← int_mul producer_id MAX_DOCUMENTS;
  i ← int_add a docs_produced;
  s ← int_add (Z.rem r 100) 1;
  Returns {| id := i;
             type := snprintf_Doc MAX_TYPE_LENGTH producer_id;
             size := s;
             producer_id := producer_id |}.

(** Where a [producer] stands, with its [docs_produced]. *)
Inductive producer_at : Type :=
| ProducerTest (docs_produced : Z)                  (* at the loop test *)
| ProducerInsert (docs_produced : Z) (d : Document)
    (* in [monitor_insert], at the test of the wait loop *)
| ProducerAsleep (docs_produced : Z) (d : Document)
    (* in [monitor_insert], in [pthread_cond_wait] on [not_full] *)
| ProducerLeaving (docs_produced : Z)               (* past the loop *)
| ProducerDone (docs_produced : Z).                 (* returned *)

(** Where a [consumer] stands, with its [docs_consumed] and its [doc]. *)
Inductive consumer_at : Type :=
| ConsumerTest (docs_consumed : Z) (d : Document)   (* at the loop test *)
| ConsumerRemove (docs_consumed : Z) (d : Document)
    (* in [monitor_remove], at the test of the wait loop *)
| ConsumerAsleep (docs_consumed : Z) (d : Document)
    (* in [monitor_remove], in [pthread_cond_wait] on [not_empty] *)
| ConsumerFailed (docs_consumed : Z) (d : Document) (* [monitor_remove] gave 0 *)
| ConsumerDone (docs_consumed : Z).                 (* returned *)

Definition producer_asleep (p : producer_at) : bool :=
  match p with ProducerAsleep _ _ => true | _ => false end.

Definition consumer_asleep (c : consumer_at) : bool :=
  match c with ConsumerAsleep _ _ => true | _ => false end.

(** A thread that wakes is back at the test of its wait loop. *)
Definition wake_producer (p : producer_at) : producer_at :=
  match p with ProducerAsleep k d => ProducerInsert k d | _ => p end.

Definition wake_consumer (c : consumer_at) : consumer_at :=
  match c with ConsumerAsleep n d => ConsumerRemove n d | _ => c end.

(** The monitor, the threads, and the two lists the program prints as it
    goes: the documents stored, in the order [monitor_insert] stored them,
    and the documents handed out, in the order [monitor_remove] returned
    them. *)
Record system : Type := mkSystem {
  queue : PrintQueueMonitor;
  producers : list producer_at;
  consumers : list consumer_at;
  inserted : list Document;
  delivered : list Document
}.

(** [main] up to the joins: [monitor_init], then the threads; producer [i]
    gets the identifier [i + 1]. The [doc] of a consumer is written before
    it is read, so its first content plays no part. *)
Definition start : system :=
  {| queue := monitor_init print_queue;
     producers := replicate (Z.to_nat NUM_PRODUCERS) (ProducerTest 0);
     consumers := replicate (Z.to_nat NUM_CONSUMERS) (ConsumerTest 0 zero_document);
     inserted := [];
     delivered := [] |}.

Definition set_producer (y : system) (i : nat) (p : producer_at) : system :=
  {| queue := queue y; producers := <[i := p]> (producers y);
     consumers := consumers y; inserted := inserted y;
     delivered := delivered y |}.

Definition set_consumer (y : system) (j : nat) (c : consumer_at) : system :=
  {| queue := queue y; producers := producers y;
     consumers := <[j := c]> (consumers y); inserted := inserted y;
     delivered := delivered y |}.

(** One thread runs up to its next call, test or wait. The loop tests read
    [should_stop], [count] and [active_producers] without the lock. A
    completed [monitor_insert] signals [not_empty], a completed
    [monitor_remove] signals [not_full], and a producer that leaves
    broadcasts [not_empty]. *)
Inductive step : system -> system -> Prop :=
| producer_goes_on y i k r d :
    producers y !! i = Some (ProducerTest k) ->
    k < MAX_DOCUMENTS -> truthy (should_stop (queue y)) = false ->
    0 <= r <= INT_MAX ->
    new_document (Z.of_nat i + 1) k r = Returns d ->
    step y (set_producer y i (ProducerInsert k d))
| producer_leaves_loop y i k :
    producers y !! i = Some (ProducerTest k) ->
    ~ (k < MAX_DOCUMENTS /\ truthy (should_stop (queue y)) = false) ->
    step y (set_producer y i (ProducerLeaving k))
| producer_inserts y i k d q k' cs :
    producers y !! i = Some (ProducerInsert k d) ->
    monitor_insert (queue y) d = Returns q ->
    int_add k 1 = Returns k' ->
    (if truthy (should_stop (queue y)) then cs = consumers y
     else signalled consumer_asleep wake_consumer (consumers y) cs) ->
    step y {| queue := q;
              producers := <[i := ProducerTest k']> (producers y);
              consumers := cs;
              inserted := if truthy (should_stop (queue y)) then inserted y
                          else inserted y ++ [d];
              delivered := delivered y |}
| producer_sleeps y i k d :
    producers y !! i = Some (ProducerInsert k d) ->
    monitor_insert (queue y) d = Waits ->
    step y (set_producer y i (ProducerAsleep k d))
| producer_exits y i k q :
    producers y !! i = Some (ProducerLeaving k) ->
    producer_exit (queue y) = Returns q ->
    step y {| queue := q;
              producers := <[i := ProducerDone k]> (producers y);
              consumers := broadcast consumer_asleep wake_consumer (consumers y);
              inserted := inserted y; delivered := delivered y |}
| consumer_goes_on y j n d :
    consumers y !! j = Some (ConsumerTest n d) ->
    truthy (should_stop (queue y)) = false \/ 0 < count (queue y) ->
    step y (set_consumer y j (ConsumerRemove n d))
| consumer_leaves_loop y j n d :
    consumers y !! j = Some (ConsumerTest n d) ->
    ~ (truthy (should_stop (queue y)) = false \/ 0 < count (queue y)) ->
    step y (set_consumer y j (ConsumerDone n))
| consumer_removes y j n d q d' r n' ps :
    consumers y !! j = Some (ConsumerRemove n d) ->
    monitor_remove (queue y) d = Returns (q, d', r) ->
    truthy r = true ->
    int_add n 1 = Returns n' ->
    signalled producer_asleep wake_producer (producers y) ps ->
    step y {| queue := q; producers := ps;
              consumers := <[j := ConsumerTest n' d']> (consumers y);
              inserted := inserted y;
              delivered := delivered y ++ [d'] |}
| consumer_fails y j n d q d' r :
    consumers y !! j = Some (ConsumerRemove n d) ->
    monitor_remove (queue y) d = Returns (q, d', r) ->
    truthy r = false ->
    step y {| queue := q; producers := producers y;
              consumers := <[j := ConsumerFailed n d']> (consumers y);
              inserted := inserted y; delivered := delivered y |}
| consumer_sleeps y j n d :
    consumers y !! j = Some (ConsumerRemove n d) ->
    monitor_remove (queue y) d = Waits ->
    step y (set_consumer y j (ConsumerAsleep n d))
| consumer_retries y j n d :
    consumers y !! j = Some (ConsumerFailed n d) ->
    active_producers (queue y) <> 0 ->
    step y (set_consumer y j (ConsumerTest n d))
| consumer_breaks y j n d :
    consumers y !! j = Some (ConsumerFailed n d) ->
    active_producers (queue y) = 0 ->
    step y (set_consumer y j (ConsumerDone n)).

(** A spurious wake-up, which [pthread_cond_wait] allows at any time. *)
Inductive wakes : system -> system -> Prop :=
| producer_wakes y i k d :
    producers y !! i = Some (ProducerAsleep k d) ->
    wakes y (set_producer y i (ProducerInsert k d))
| consumer_wakes y j n d :
    consumers y !! j = Some (ConsumerAsleep n d) ->
    wakes y (set_consumer y j (ConsumerRemove n d)).

Inductive reachable : system -> Prop :=
| reach_start : reachable start
| reach_step y y' : reachable y -> step y y' -> reachable y'
| reach_wakes y y' : reachable y -> wakes y y' -> reachable y'.

(** [n] steps and [w] spurious wake-ups lead from one state to another. *)
Inductive run : nat -> nat -> system -> system -> Prop :=
| run_nil y : run 0 0 y y
| run_step n w y y1 y2 : step y y1 -> run n w y1 y2 -> run (S n) w y y2
| run_wakes n w y y1 y2 : wakes y y1 -> run n w y1 y2 -> run n (S w) y y2.

(** The same steps as functions, to run a schedule: the next step of
    producer [i], with [r] for [rand()], and the next step of consumer
    [j]. *)
Definition advance_producer (y : system) (i : nat) (r : Z) : option system :=
  match producers y !! i with
  | Some (ProducerTest k) =>
      if decide (k < MAX_DOCUMENTS /\ truthy (should_stop (queue y)) = false)
      then
        match new_document (Z.of_nat i + 1) k r with
        | Returns d =>
            if decide (0 <= r <= INT_MAX)
            then Some (set_producer y i (ProducerInsert k d)) else None
        | _ => None
        end
      else Some (set_producer y i (ProducerLeaving k))
  | Some (ProducerInsert k d) =>
      match monitor_insert (queue y) d, int_add k 1 with
      | Returns q, Returns k' =>
          Some {| queue := q;
                  producers := <[i := ProducerTest k']> (producers y);
                  consumers :=
                    if truthy (should_stop (queue y)) then consumers y
                    else signal_first consumer_asleep wake_consumer (consumers y);
                  inserted := if truthy (should_stop (queue y)) then inserted y
                              else inserted y ++ [d];
                  delivered := delivered y |}
      | Waits, _ => Some (set_producer y i (ProducerAsleep k d))
      | _, _ => None
      end
  | Some (ProducerLeaving k) =>
      match producer_exit (queue y) with
      | Returns q =>
          Some {| queue := q;
                  producers := <[i := ProducerDone k]> (producers y);
                  consumers :=
                    broadcast consumer_asleep wake_consumer (consumers y);
                  inserted := inserted y; delivered := delivered y |}
      | _ => None
      end
  | _ => None
  end.

Definition advance_consumer (y : system) (j : nat) : option system :=
  match consumers y !! j with
  | Some (ConsumerTest n d) =>
      if decide (truthy (should_stop (queue y)) = false \/ 0 < count (queue y))
      then Some (set_consumer y j (ConsumerRemove n d))
      else Some (set_consumer y j (ConsumerDone n))
  | Some (ConsumerRemove n d) =>
      match monitor_remove (queue y) d with
      | Returns (q, d', r) =>
          if truthy r then
            match int_add n 1 with
            | Returns n' =>
                Some {| queue := q;
                        producers :=
                          signal_first producer_asleep wake_producer
                            (producers y);
                        consumers := <[j := ConsumerTest n' d']> (consumers y);
                        inserted := inserted y;
                        delivered := delivered y ++ [d'] |}
            | _ => None
            end
          else
            Some {| queue := q; producers := producers y;
                    consumers := <[j := ConsumerFailed n d']> (consumers y);
                    inserted := inserted y; delivered := delivered y |}
      | Waits => Some (set_consumer y j (ConsumerAsleep n d))
      | Undefined => None
      end
  | Some (ConsumerFailed n d) =>
      if decide (active_producers (queue y) = 0)
      then Some (set_consumer y j (ConsumerDone n))
      else Some (set_consumer y j (ConsumerTest n d))
  | _ => None
  end.

(** A schedule names the thread that runs next: [inl i] is producer [i],
    [inr j] consumer [j]; [rand()] returns [r] throughout. *)
Fixpoint schedule (r : Z) (ids : list (nat + nat)) (y : system) : option system :=
  match ids with
  | [] => Some y
  | inl i :: ids' =>
      match advance_producer y i r with
      | Some y' => schedule r ids' y'
      | None => None
      end
  | inr j :: ids' =>
      match advance_consumer y j with
      | Some y' => schedule r ids' y'
      | None => None
      end
  end.

(** Producer [i] stores its ten documents while consumer 0 takes each one
    at once, and then returns. *)
Definition producer_turn (i : nat) : list (nat + nat) :=
  mjoin (replicate (Z.to_nat MAX_DOCUMENTS) [inl i; inl i; inr 0%nat; inr 0%nat])
  ++ [inl i; inl i].

(** The three producers one after the other, then the two consumers find
    the buffer empty and return. *)
Definition whole_run : list (nat + nat) :=
  producer_turn 0 ++ producer_turn 1 ++ producer_turn 2
  ++ [inr 0%nat; inr 0%nat; inr 0%nat; inr 1%nat; inr 1%nat; inr 1%nat].

(** The two consumers find the buffer empty and sleep; producer 0 stores
    three documents, which wakes them, and consumer 0 takes the first
    document. *)
Definition early_run : list (nat + nat) :=
  [inr 0%nat; inr 0%nat; inr 1%nat; inr 1%nat;
   inl 0%nat; inl 0%nat; inl 0%nat; inl 0%nat; inl 0%nat; inl 0%nat;
   inr 0%nat].

(** The two consumers find the buffer empty and sleep. *)
Definition sleepy_run : list (nat + nat) :=
  [inr 0%nat; inr 0%nat; inr 1%nat; inr 1%nat].

Definition after (ids : list (nat + nat)) : system :=
  default start (schedule 7 ids start).

Definition producer_done (p : producer_at) : Prop :=
  match p with ProducerDone _ => True | _ => False end.

Definition consumer_done (c : consumer_at) : Prop :=
  match c with ConsumerDone _ => True | _ => False end.

(** 1 for a producer that has not yet run [active_producers--]. *)
Definition registered (p : producer_at) : Z :=
  match p with ProducerDone _ => 0 | _ => 1 end.

Definition docs_produced (p : producer_at) : Z :=
  match p with
  | ProducerTest k | ProducerInsert k _ | ProducerAsleep k _
  | ProducerLeaving k | ProducerDone k => k
  end.

Definition docs_consumed (c : consumer_at) : Z :=
  match c with
  | ConsumerTest n _ | ConsumerRemove n _ | ConsumerAsleep n _
  | ConsumerFailed n _ | ConsumerDone n => n
  end.

(** The counter of a producer fits the place it has reached. *)
Definition producer_ok (p : producer_at) : Prop :=
  match p with
  | ProducerTest k => 0 <= k <= MAX_DOCUMENTS
  | ProducerInsert k _ | ProducerAsleep k _ => 0 <= k < MAX_DOCUMENTS
  | ProducerLeaving k | ProducerDone k => k = MAX_DOCUMENTS
  end.

(** The document a producer is about to store. *)
Definition pending (p : producer_at) : option (Z * Document) :=
  match p with
  | ProducerInsert k d | ProducerAsleep k d => Some (k, d)
  | _ => None
  end.

(** 1 for a thread at the test of its wait loop, awake. *)
Definition at_insert (p : producer_at) : Z :=
  match p with ProducerInsert _ _ => 1 | _ => 0 end.

Definition at_remove (c : consumer_at) : Z :=
  match c with ConsumerRemove _ _ => 1 | _ => 0 end.

(** A consumer that has seen [monitor_remove] fail, or has returned. *)
Definition gave_up (c : consumer_at) : Prop :=
  match c with ConsumerFailed _ _ | ConsumerDone _ => True | _ => False end.

#[global] Instance producer_done_dec p : Decision (producer_done p).
Proof. destruct p; simpl; apply _. Defined.

#[global] Instance consumer_done_dec c : Decision (consumer_done c).
Proof. destruct c; simpl; apply _. Defined.

#[global] Instance gave_up_dec c : Decision (gave_up c).
Proof. destruct c; simpl; apply _. Defined.

(** A bound on the steps this thread still takes, leaving aside the
    documents it has yet to pass on and the times it is woken. *)
Definition producer_steps (p : producer_at) : Z :=
  match p with
  | ProducerTest k => 3 * (MAX_DOCUMENTS - k) + 2 + NUM_CONSUMERS
  | ProducerInsert k _ => 3 * (MAX_DOCUMENTS - k) + 1 + NUM_CONSUMERS
  | ProducerAsleep k _ => 3 * (MAX_DOCUMENTS - k) + NUM_CONSUMERS
  | ProducerLeaving _ => 1 + NUM_CONSUMERS
  | ProducerDone _ => 0
  end.

Definition consumer_steps (c : consumer_at) : Z :=
  match c with
  | ConsumerTest _ _ => 4
  | ConsumerRemove _ _ => 3
  | ConsumerAsleep _ _ => 2
  | ConsumerFailed _ _ => 1
  | ConsumerDone _ => 0
  end.

(** A bound on the steps left to the whole program. *)
Definition steps_left (y : system) : Z :=
  total producer_steps (producers y) + total consumer_steps (consumers y)
  + 3 * (NUM_PRODUCERS * MAX_DOCUMENTS - Z.of_nat (length (delivered y))).

(** Document [d] is the [k]-th document of producer [i], for a [k] the
    producer has already passed. *)
Definition made_by (ps : list producer_at) (d : Document) : Prop :=
  exists i p k,
    ps !! i = Some p /\ 0 <= k < docs_produced p /\
    id d = (Z.of_nat i + 1) * MAX_DOCUMENTS + k.

(** What every state of the running program satisfies. *)
Record sound (y : system) : Prop := mkSound {
  s_wf : well_formed (queue y);
  s_open : should_stop (queue y) = 0;
  s_producers : length (producers y) = Z.to_nat NUM_PRODUCERS;
  s_active : active_producers (queue y) = total registered (producers y);
  s_ranges : Forall producer_ok (producers y);
  s_history : inserted y = delivered y ++ contents (queue y);
  s_produced : Z.of_nat (length (inserted y)) = total docs_produced (producers y);
  s_consumed : Z.of_nat (length (delivered y)) = total docs_consumed (consumers y);
  s_consumers : length (consumers y) = Z.to_nat NUM_CONSUMERS;
  s_counts : Forall (fun c => 0 <= docs_consumed c) (consumers y);
  s_gave_up : Exists gave_up (consumers y) ->
              active_producers (queue y) = 0 /\ count (queue y) = 0;
  s_made : Forall (made_by (producers y)) (inserted y);
  s_pending : forall i p k d,
    producers y !! i = Some p -> pending p = Some (k, d) ->
    id d = (Z.of_nat i + 1) * MAX_DOCUMENTS + k;
  s_distinct : NoDup (id <$> inserted y)
}.

(** Nobody sleeps through what it waits for: a consumer sleeps only while
    producers are left and each document in the buffer has a consumer awake
    in [monitor_remove] to take it; a producer sleeps only while each free
    slot has a producer awake in [monitor_insert] to fill it. *)
Record alert (y : system) : Prop := mkAlert {
  a_consumers : Exists (fun c => consumer_asleep c = true) (consumers y) ->
    active_producers (queue y) <> 0 /\
    count (queue y) <= total at_remove (consumers y);
  a_producers : Exists (fun p => producer_asleep p = true) (producers y) ->
    BUFFER_SIZE - count (queue y) <= total at_insert (producers y)
}.


(** *** The calls on a sound monitor *)

Lemma registered_range p : 0 <= registered p <= 1.
Proof. destruct p; simpl; lia. Qed.

Lemma registered_done p : registered p = 0 <-> producer_done p.
Proof. destruct p; simpl; split; (lia || tauto || discriminate). Qed.

Lemma producer_ok_range p : producer_ok p -> 0 <= docs_produced p <= MAX_DOCUMENTS.
Proof. destruct p; simpl; unfold MAX_DOCUMENTS; intros; lia. Qed.

Lemma new_document_Returns p k r d :
  new_document p k r = Returns d ->
  id d = p * MAX_DOCUMENTS + k /\ size d = Z.rem r 100 + 1 /\ producer_id d = p.
Proof.
  unfold new_document. intros H.
  apply bind_Returns in H as (a & Ha & H).
  apply bind_Returns in H as (i & Hi & H).
  apply bind_Returns in H as (s & Hs & H).
  unfold int_mul in Ha. destruct (decide _); [| discriminate].
  injection Ha as <-.
  apply int_add_Returns in Hi as [-> _].
  apply int_add_Returns in Hs as [-> _].
  injection H as <-. done.
Qed.

Lemma new_document_defined p k r :
  0 <= p <= 1000 -> 0 <= k <= MAX_DOCUMENTS -> 0 <= r <= INT_MAX ->
  exists d, new_document p k r = Returns d.
Proof.
  intros Hp Hk Hr. unfold new_document, int_mul.
  assert (H100 : 0 <= Z.rem r 100 < 100).
  { split; [apply Z.rem_nonneg; lia | apply Z.rem_bound_pos; lia]. }
  unfold MAX_DOCUMENTS, INT_MAX in *.
  destruct (decide _) as [_ | Hbad];
    [| exfalso; apply Hbad; unfold int_range, INT_MIN, INT_MAX; lia].
  cbn [mbind outcome_bind bind].
  rewrite !int_add_small by (unfold int_range, INT_MIN, INT_MAX; lia).
  eexists. reflexivity.
Qed.

Lemma contents_same q q' :
  buffer q' = buffer q -> count q' = count q -> out q' = out q ->
  contents q' = contents q.
Proof. intros Hb Hc Ho. unfold contents. by rewrite Hb, Hc, Ho. Qed.

Lemma made_by_insert ps i p p' d :
  ps !! i = Some p -> docs_produced p <= docs_produced p' ->
  made_by ps d -> made_by (<[i := p']> ps) d.
Proof.
  intros Hi Hle (i0 & p0 & k0 & H0 & Hk & Hid).
  destruct (decide (i0 = i)) as [-> | Hne].
  - exists i, p', k0. rewrite list_lookup_insert_eq
      by (by apply (lookup_lt_Some _ _ p)).
    rewrite Hi in H0. injection H0 as <-. split; [done |]. split; [lia | done].
  - exists i0, p0, k0. by rewrite list_lookup_insert_ne.
Qed.

Lemma gave_up_insert cs j c :
  ~ gave_up c -> Exists gave_up (<[j := c]> cs) -> Exists gave_up cs.
Proof.
  intros Hc. rewrite !Exists_exists. intros (x & Hx & Hg).
  apply list_elem_of_lookup in Hx as [k Hk].
  destruct (decide (k = j)) as [-> | Hne].
  - destruct (decide (j < length cs)%nat) as [Hlt | Hge].
    + rewrite list_lookup_insert_eq in Hk by done. injection Hk as <-.
      contradiction.
    + rewrite list_insert_ge in Hk by lia.
      exists x. split; [by eapply list_elem_of_lookup_2 | done].
  - rewrite list_lookup_insert_ne in Hk by done.
    exists x. split; [by eapply list_elem_of_lookup_2 | done].
Qed.

Lemma gave_up_lookup cs j c :
  cs !! j = Some c -> gave_up c -> Exists gave_up cs.
Proof.
  intros Hj Hg. apply Exists_exists. exists c.
  split; [by eapply list_elem_of_lookup_2 | done].
Qed.

Lemma sound_start : sound start.
Proof.
  split; try reflexivity.
  - apply well_formed_init.
  - apply Forall_replicate. simpl. unfold MAX_DOCUMENTS. lia.
  - apply Forall_replicate. simpl. lia.
  - intros H. exfalso. apply Exists_exists in H as (c & Hc & Hg).
    apply elem_of_replicate in Hc as [-> _]. exact Hg.
  - constructor.
  - intros i p k d H Hp. apply lookup_replicate in H as [-> _]. discriminate.
  - constructor.
Qed.

Lemma alert_start : alert start.
Proof.
  split; intros H; exfalso; apply Exists_exists in H as (x & Hx & Hs);
    apply elem_of_replicate in Hx as [-> _]; discriminate.
Qed.

(** *** Waking changes no counter *)

Lemma wake_producer_registered p : registered (wake_producer p) = registered p.
Proof. by destruct p. Qed.

Lemma wake_producer_docs p : docs_produced (wake_producer p) = docs_produced p.
Proof. by destruct p. Qed.

Lemma wake_producer_ok p : producer_ok p -> producer_ok (wake_producer p).
Proof. by destruct p. Qed.

Lemma wake_producer_pending p : pending (wake_producer p) = pending p.
Proof. by destruct p. Qed.

Lemma wake_consumer_docs c : docs_consumed (wake_consumer c) = docs_consumed c.
Proof. by destruct c. Qed.

Lemma wake_consumer_gave_up c : gave_up (wake_consumer c) -> gave_up c.
Proof. by destruct c. Qed.

Lemma woken_made_by ps ps' d :
  woken producer_asleep wake_producer ps ps' -> made_by ps d -> made_by ps' d.
Proof.
  intros Hw (i & p & k & Hi & Hk & Hid).
  destruct (woken_lookup_l _ _ _ _ _ _ Hw Hi) as (p' & Hi' & [-> | [Hp ->]]).
  - by exists i, p, k.
  - exists i, (wake_producer p), k. split; [done |]. split; [| done].
    by rewrite wake_producer_docs.
Qed.

Lemma sound_woken y ps cs :
  sound y ->
  woken producer_asleep wake_producer (producers y) ps ->
  woken consumer_asleep wake_consumer (consumers y) cs ->
  sound {| queue := queue y; producers := ps; consumers := cs;
           inserted := inserted y; delivered := delivered y |}.
Proof.
  intros [Hwf Hopen Hlen Hact Hrng Hhist Hprod Hcons Hclen Hcnt Hgu Hmade
          Hpend Hdist] Hp Hc.
  split; cbn [queue producers consumers inserted delivered]; try done.
  - by rewrite (woken_length _ _ _ _ Hp).
  - by rewrite (woken_total _ _ registered _ _
                  (fun p _ => wake_producer_registered p) Hp).
  - apply (woken_Forall _ _ _ _ _ (fun p _ => wake_producer_ok p) Hp Hrng).
  - by rewrite (woken_total _ _ docs_produced _ _
                  (fun p _ => wake_producer_docs p) Hp).
  - by rewrite (woken_total _ _ docs_consumed _ _
                  (fun c _ => wake_consumer_docs c) Hc).
  - by rewrite (woken_length _ _ _ _ Hc).
  - apply (woken_Forall _ _ (fun c => 0 <= docs_consumed c) _ _
             (fun c _ H => eq_ind_r (fun z => 0 <= z) H (wake_consumer_docs c))
             Hc Hcnt).
  - intros Hex. apply Hgu.
    apply (woken_Exists _ _ gave_up _ _
             (fun c _ => wake_consumer_gave_up c) Hc Hex).
  - eapply Forall_impl; [exact Hmade |]. intros d. by apply woken_made_by.
  - intros i p' k d Hi Hpd.
    destruct (woken_lookup _ _ _ _ _ _ Hp Hi) as (p & Hi0 & [-> | [Hs ->]]).
    + by apply (Hpend i p k d).
    + apply (Hpend i p k d Hi0). by rewrite <- wake_producer_pending.
Qed.


(** *** Every step keeps the program sound *)

Lemma registered_lookup ps i p :
  ps !! i = Some p -> registered p <= total registered ps.
Proof.
  apply total_lookup_le. apply Forall_forall. intros x _.
  apply registered_range.
Qed.

Lemma sound_producer_goes_on y i k r d :
  sound y ->
  producers y !! i = Some (ProducerTest k) -> k < MAX_DOCUMENTS ->
  new_document (Z.of_nat i + 1) k r = Returns d ->
  sound (set_producer y i (ProducerInsert k d)).
Proof.
  intros [Hwf Hopen Hlen Hact Hrng Hhist Hprod Hcons Hclen Hcnt Hgu Hmade
          Hpend Hdist] Hi Hk Hnew.
  pose proof (lookup_lt_Some _ _ _ Hi) as Hlt.
  pose proof (Forall_lookup_1 _ _ _ _ Hrng Hi) as Hok. simpl in Hok.
  split; cbn [queue producers consumers inserted delivered set_producer];
    try done.
  - by rewrite length_insert.
  - rewrite (total_insert _ _ _ _ _ Hi). simpl. lia.
  - apply Forall_insert; [done |]. simpl. lia.
  - rewrite (total_insert _ _ _ _ _ Hi). simpl. lia.
  - eapply Forall_impl; [exact Hmade |]. intros d0.
    apply (made_by_insert _ _ _ _ _ Hi). simpl. lia.
  - intros i' p' k' d' H' Hp'. destruct (decide (i' = i)) as [-> | Hne].
    + rewrite list_lookup_insert_eq in H' by done. injection H' as <-.
      injection Hp' as <- <-.
      by apply new_document_Returns in Hnew as [Hid _].
    + rewrite list_lookup_insert_ne in H' by done.
      by apply (Hpend i' p' k' d').
Qed.

Lemma sound_producer_leaves_loop y i k :
  sound y ->
  producers y !! i = Some (ProducerTest k) ->
  ~ (k < MAX_DOCUMENTS /\ truthy (should_stop (queue y)) = false) ->
  sound (set_producer y i (ProducerLeaving k)).
Proof.
  intros [Hwf Hopen Hlen Hact Hrng Hhist Hprod Hcons Hclen Hcnt Hgu Hmade
          Hpend Hdist] Hi Hk.
  pose proof (lookup_lt_Some _ _ _ Hi) as Hlt.
  pose proof (Forall_lookup_1 _ _ _ _ Hrng Hi) as Hok. simpl in Hok.
  assert (Hmax : k = MAX_DOCUMENTS).
  { destruct (decide (k < MAX_DOCUMENTS)) as [Hlt' | Hge]; [| lia].
    exfalso. apply Hk. split; [done |]. apply truthy_false. done. }
  split; cbn [queue producers consumers inserted delivered set_producer];
    try done.
  - by rewrite length_insert.
  - rewrite (total_insert _ _ _ _ _ Hi). simpl. lia.
  - apply Forall_insert; [done |]. simpl. lia.
  - rewrite (total_insert _ _ _ _ _ Hi). simpl. lia.
  - eapply Forall_impl; [exact Hmade |]. intros d0.
    apply (made_by_insert _ _ _ _ _ Hi). simpl. lia.
  - intros i' p' k' d' H' Hp'. destruct (decide (i' = i)) as [-> | Hne].
    + rewrite list_lookup_insert_eq in H' by done. injection H' as <-.
      discriminate.
    + rewrite list_lookup_insert_ne in H' by done.
      by apply (Hpend i' p' k' d').
Qed.

(** The identifiers of two documents of the producers differ unless they
    are the same document of the same producer. *)
Lemma document_ids_differ (i i' : nat) (k k' : Z) :
  0 <= k < MAX_DOCUMENTS -> 0 <= k' < MAX_DOCUMENTS ->
  (Z.of_nat i + 1) * MAX_DOCUMENTS + k = (Z.of_nat i' + 1) * MAX_DOCUMENTS + k' ->
  i = i' /\ k = k'.
Proof. unfold MAX_DOCUMENTS. lia. Qed.

Lemma sound_producer_inserts y i k d q k' :
  sound y ->
  producers y !! i = Some (ProducerInsert k d) ->
  monitor_insert (queue y) d = Returns q ->
  int_add k 1 = Returns k' ->
  sound {| queue := q;
           producers := <[i := ProducerTest k']> (producers y);
           consumers := consumers y;
           inserted := if truthy (should_stop (queue y)) then inserted y
                       else inserted y ++ [d];
           delivered := delivered y |}.
Proof.
  intros [Hwf Hopen Hlen Hact Hrng Hhist Hprod Hcons Hclen Hcnt Hgu Hmade
          Hpend Hdist] Hi Hins Hk'.
  pose proof (lookup_lt_Some _ _ _ Hi) as Hlt.
  pose proof (Forall_lookup_1 _ _ _ _ Hrng Hi) as Hok. simpl in Hok.
  apply int_add_Returns in Hk' as [-> _].
  apply monitor_insert_inv in Hins as [[Hs _] | (_ & Hfull & _ & ->)];
    [contradiction |].
  assert (Hstop : truthy (should_stop (queue y)) = false)
    by by apply truthy_false.
  rewrite Hstop.
  split; cbn [queue producers consumers inserted delivered]; try done.
  - by apply well_formed_inserted.
  - by rewrite length_insert.
  - rewrite (total_insert _ _ _ _ _ Hi). simpl. lia.
  - apply Forall_insert; [done |]. simpl. lia.
  - rewrite contents_inserted by done. rewrite Hhist. by rewrite app_assoc.
  - rewrite length_app, (total_insert _ _ _ _ _ Hi). simpl. lia.
  - intros Hex. exfalso. destruct (Hgu Hex) as [Ha _].
    simpl in Ha. rewrite Hact in Ha.
    pose proof (registered_lookup _ _ _ Hi) as Hreg. simpl in Hreg. lia.
  - apply Forall_app. split.
    + eapply Forall_impl; [exact Hmade |]. intros d0.
      apply (made_by_insert _ _ _ _ _ Hi). simpl. lia.
    + constructor; [| constructor].
      exists i, (ProducerTest (k + 1)), k.
      rewrite list_lookup_insert_eq by done. split; [done |].
      split; [simpl; lia | by apply (Hpend i _ k d Hi)].
  - intros i' p' k' d' H' Hp'. destruct (decide (i' = i)) as [-> | Hne].
    + rewrite list_lookup_insert_eq in H' by done. injection H' as <-.
      discriminate.
    + rewrite list_lookup_insert_ne in H' by done.
      by apply (Hpend i' p' k' d').
  - rewrite fmap_app. apply NoDup_app. split; [done |]. split.
    + intros x Hx Hx'. apply list_elem_of_singleton in Hx'. subst x.
      apply list_elem_of_fmap in Hx as (d0 & Hid & Hd0).
      rewrite Forall_forall in Hmade.
      destruct (Hmade d0 Hd0) as (i0 & p0 & k0 & H0 & Hk0 & Hid0).
      pose proof (Forall_lookup_1 _ _ _ _ Hrng H0) as Hok0.
      apply producer_ok_range in Hok0.
      rewrite (Hpend i _ k d Hi eq_refl), Hid0 in Hid.
      apply document_ids_differ in Hid as [-> ->]; [| lia | lia].
      rewrite Hi in H0. injection H0 as <-. simpl in Hk0. lia.
    + apply NoDup_singleton.
Qed.

(** A producer that goes to sleep keeps its document and its counter. *)
Lemma sound_producer_sleeps y i k d :
  sound y ->
  producers y !! i = Some (ProducerInsert k d) ->
  sound (set_producer y i (ProducerAsleep k d)).
Proof.
  intros [Hwf Hopen Hlen Hact Hrng Hhist Hprod Hcons Hclen Hcnt Hgu Hmade
          Hpend Hdist] Hi.
  pose proof (lookup_lt_Some _ _ _ Hi) as Hlt.
  pose proof (Forall_lookup_1 _ _ _ _ Hrng Hi) as Hok. simpl in Hok.
  split; cbn [queue producers consumers inserted delivered set_producer];
    try done.
  - by rewrite length_insert.
  - rewrite (total_insert _ _ _ _ _ Hi). simpl. lia.
  - apply Forall_insert; [done |]. simpl. lia.
  - rewrite (total_insert _ _ _ _ _ Hi). simpl. lia.
  - eapply Forall_impl; [exact Hmade |]. intros d0.
    apply (made_by_insert _ _ _ _ _ Hi). simpl. lia.
  - intros i' p' k' d' H' Hp'. destruct (decide (i' = i)) as [-> | Hne].
    + rewrite list_lookup_insert_eq in H' by done. injection H' as <-.
      injection Hp' as <- <-. by apply (Hpend i _ k d Hi).
    + rewrite list_lookup_insert_ne in H' by done.
      by apply (Hpend i' p' k' d').
Qed.

Lemma sound_producer_exits y i k q :
  sound y ->
  producers y !! i = Some (ProducerLeaving k) ->
  producer_exit (queue y) = Returns q ->
  sound {| queue := q;
           producers := <[i := ProducerDone k]> (producers y);
           consumers := consumers y;
           inserted := inserted y; delivered := delivered y |}.
Proof.
  intros [Hwf Hopen Hlen Hact Hrng Hhist Hprod Hcons Hclen Hcnt Hgu Hmade
          Hpend Hdist] Hi Hexit.
  pose proof (lookup_lt_Some _ _ _ Hi) as Hlt.
  pose proof (Forall_lookup_1 _ _ _ _ Hrng Hi) as Hok. simpl in Hok.
  pose proof (registered_lookup _ _ _ Hi) as Hreg. simpl in Hreg.
  apply producer_exit_inv in Hexit as (Hb & Hc & Hin & Ho & Hs & Ha).
  split; cbn [queue producers consumers inserted delivered]; try done.
  - destruct Hwf as [? ? ? ? ?]. split; rewrite ?Hb, ?Hc, ?Hin, ?Ho; done.
  - by rewrite Hs.
  - by rewrite length_insert.
  - rewrite Ha, Hact, (total_insert _ _ _ _ _ Hi). simpl. lia.
  - apply Forall_insert; [done |]. simpl. lia.
  - by rewrite (contents_same (queue y) q).
  - rewrite (total_insert _ _ _ _ _ Hi). simpl. lia.
  - intros Hex. exfalso. destruct (Hgu Hex) as [Ha0 _]. lia.
  - eapply Forall_impl; [exact Hmade |]. intros d0.
    apply (made_by_insert _ _ _ _ _ Hi). simpl. lia.
  - intros i' p' k' d' H' Hp'. destruct (decide (i' = i)) as [-> | Hne].
    + rewrite list_lookup_insert_eq in H' by done. injection H' as <-.
      discriminate.
    + rewrite list_lookup_insert_ne in H' by done.
      by apply (Hpend i' p' k' d').
Qed.

(** A consumer moves on without touching the monitor or its counter. *)
Lemma sound_set_consumer y j c c' :
  sound y ->
  consumers y !! j = Some c ->
  docs_consumed c' = docs_consumed c ->
  (gave_up c' -> active_producers (queue y) = 0 /\ count (queue y) = 0) ->
  sound (set_consumer y j c').
Proof.
  intros [Hwf Hopen Hlen Hact Hrng Hhist Hprod Hcons Hclen Hcnt Hgu Hmade
          Hpend Hdist] Hj Hn Hgive.
  pose proof (lookup_lt_Some _ _ _ Hj) as Hlt.
  pose proof (Forall_lookup_1 _ _ _ _ Hcnt Hj) as Hnn. simpl in Hnn.
  split; cbn [queue producers consumers inserted delivered set_consumer];
    try done.
  - rewrite (total_insert _ _ _ _ _ Hj). lia.
  - by rewrite length_insert.
  - apply Forall_insert; [done |]. lia.
  - intros Hex. destruct (decide (gave_up c')) as [Hg | Hg].
    + by apply Hgive.
    + apply Hgu. by apply (gave_up_insert _ j c').
Qed.

Lemma sound_consumer_removes y j n d q d' r n' :
  sound y ->
  consumers y !! j = Some (ConsumerRemove n d) ->
  monitor_remove (queue y) d = Returns (q, d', r) ->
  truthy r = true ->
  int_add n 1 = Returns n' ->
  sound {| queue := q; producers := producers y;
           consumers := <[j := ConsumerTest n' d']> (consumers y);
           inserted := inserted y;
           delivered := delivered y ++ [d'] |}.
Proof.
  intros [Hwf Hopen Hlen Hact Hrng Hhist Hprod Hcons Hclen Hcnt Hgu Hmade
          Hpend Hdist] Hj Hrem Hr Hn'.
  pose proof (lookup_lt_Some _ _ _ Hj) as Hlt.
  pose proof (Forall_lookup_1 _ _ _ _ Hcnt Hj) as Hnn. simpl in Hnn.
  apply int_add_Returns in Hn' as [-> _].
  apply monitor_remove_inv in Hrem
    as [(-> & _) | (_ & Hne & _ & Hd' & ->)]; [discriminate |].
  split; cbn [queue producers consumers inserted delivered]; try done.
  - by apply well_formed_removed.
  - rewrite Hhist, (contents_removed _ d') by done. by rewrite <- app_assoc.
  - rewrite length_app, (total_insert _ _ _ _ _ Hj). simpl. lia.
  - by rewrite length_insert.
  - apply Forall_insert; [done |]. simpl. lia.
  - intros Hex. exfalso.
    apply gave_up_insert in Hex; [| simpl; tauto].
    destruct (Hgu Hex) as [_ Hc]. contradiction.
Qed.

Lemma sound_consumer_fails y j n d q d' r :
  sound y ->
  consumers y !! j = Some (ConsumerRemove n d) ->
  monitor_remove (queue y) d = Returns (q, d', r) ->
  truthy r = false ->
  sound {| queue := q; producers := producers y;
           consumers := <[j := ConsumerFailed n d']> (consumers y);
           inserted := inserted y; delivered := delivered y |}.
Proof.
  intros Hy Hj Hrem Hr.
  apply monitor_remove_inv in Hrem
    as [(_ & -> & _ & Hc & Hclosed) | (-> & _)]; [| discriminate].
  apply (sound_set_consumer y j (ConsumerRemove n d)); try done.
  intros _. split; [| done].
  destruct Hclosed as [Hs | Ha]; [| done].
  exfalso. apply Hs. apply (s_open y Hy).
Qed.

Lemma monitor_insert_Waits m d :
  well_formed m -> should_stop m = 0 -> active_producers m <> 0 ->
  monitor_insert m d = Waits -> count m = BUFFER_SIZE.
Proof.
  intros Hwf Hs Ha Hw.
  pose proof (monitor_insert_open m d Hwf (conj Hs Ha)) as Hins.
  destruct (decide (count m = BUFFER_SIZE)) as [Hc | Hc]; [done |].
  rewrite Hins in Hw. discriminate.
Qed.

Lemma monitor_remove_Waits m d :
  well_formed m -> should_stop m = 0 ->
  monitor_remove m d = Waits -> count m = 0 /\ active_producers m <> 0.
Proof.
  intros Hwf Hs Hw.
  destruct (decide (count m = 0)) as [Hc | Hc].
  - split; [done |]. intros Ha.
    unfold monitor_remove in Hw. rewrite Hc, Hs, Ha in Hw. discriminate.
  - destruct (monitor_remove_nonempty m d Hwf Hc) as (d' & _ & Hrem).
    rewrite Hrem in Hw. discriminate.
Qed.

Lemma step_sound y y' : step y y' -> sound y -> sound y'.
Proof.
  intros Hstep Hy.
  destruct Hstep as [y i k r d Hi Hk Hs Hr Hnew | y i k Hi Hk
                     | y i k d q k' cs Hi Hins Hk' Hsig | y i k d Hi Hw
                     | y i k q Hi Hexit
                     | y j n d Hj Hgo | y j n d Hj Hgo
                     | y j n d q d' r n' ps Hj Hrem Hr Hn' Hsig
                     | y j n d q d' r Hj Hrem Hr
                     | y j n d Hj Hw
                     | y j n d Hj Ha | y j n d Hj Ha].
  - by apply (sound_producer_goes_on y i k r d).
  - by apply (sound_producer_leaves_loop y i k).
  - rewrite (proj2 (truthy_false _) (s_open y Hy)) in Hsig.
    apply (sound_woken _ _ cs (sound_producer_inserts y i k d q k' Hy Hi Hins Hk')).
    + apply woken_refl.
    + by apply signalled_woken.
  - by apply sound_producer_sleeps.
  - apply (sound_woken _ _ _ (sound_producer_exits y i k q Hy Hi Hexit)).
    + apply woken_refl.
    + apply broadcast_woken.
  - by apply (sound_set_consumer y j (ConsumerTest n d)).
  - exfalso. apply Hgo. left. apply truthy_false, (s_open y Hy).
  - apply (sound_woken _ ps _
             (sound_consumer_removes y j n d q d' r n' Hy Hj Hrem Hr Hn')).
    + by apply signalled_woken.
    + apply woken_refl.
  - by apply (sound_consumer_fails y j n d q d' r).
  - by apply (sound_set_consumer y j (ConsumerRemove n d)).
  - exfalso. apply Ha. apply (s_gave_up y Hy).
    by apply (gave_up_lookup _ j (ConsumerFailed n d)).
  - apply (sound_set_consumer y j (ConsumerFailed n d)); try done.
    intros _. apply (s_gave_up y Hy).
    by apply (gave_up_lookup _ j (ConsumerFailed n d)).
Qed.

Lemma wakes_sound y y' : wakes y y' -> sound y -> sound y'.
Proof.
  intros [y0 i k d Hi | y0 j n d Hj] Hy.
  - apply (sound_woken y0 _ _ Hy).
    + by apply (woken_insert producer_asleep wake_producer _ i
                  (ProducerAsleep k d)).
    + apply woken_refl.
  - by apply (sound_set_consumer y0 j (ConsumerAsleep n d)).
Qed.

(** *** Every step keeps the sleepers covered *)

Lemma at_insert_nonneg ps : 0 <= total at_insert ps.
Proof. apply total_nonneg, Forall_forall. intros p _. destruct p; simpl; lia. Qed.

Lemma at_remove_nonneg cs : 0 <= total at_remove cs.
Proof. apply total_nonneg, Forall_forall. intros c _. destruct c; simpl; lia. Qed.

Lemma producer_awake_insert ps i p :
  producer_asleep p = false ->
  Exists (fun p => producer_asleep p = true) (<[i := p]> ps) ->
  Exists (fun p => producer_asleep p = true) ps.
Proof. intros Hp. apply Exists_insert_not. by rewrite Hp. Qed.

Lemma consumer_awake_insert cs j c :
  consumer_asleep c = false ->
  Exists (fun c => consumer_asleep c = true) (<[j := c]> cs) ->
  Exists (fun c => consumer_asleep c = true) cs.
Proof. intros Hc. apply Exists_insert_not. by rewrite Hc. Qed.

(** After a signal a sleeper is left only if one has just woken. *)
Lemma signalled_consumers cs cs' :
  signalled consumer_asleep wake_consumer cs cs' ->
  Exists (fun c => consumer_asleep c = true) cs' ->
  Exists (fun c => consumer_asleep c = true) cs /\
  total at_remove cs' = total at_remove cs + 1.
Proof.
  intros [l Hall | l j c Hj Hc] Hex.
  - exfalso. revert Hex. apply Forall_not_Exists.
    eapply Forall_impl; [exact Hall |]. intros c Hc. by rewrite Hc.
  - split; [by apply (Exists_lookup _ _ j c) |].
    rewrite (total_insert _ _ _ _ _ Hj). destruct c; try discriminate.
    simpl. lia.
Qed.

Lemma signalled_producers ps ps' :
  signalled producer_asleep wake_producer ps ps' ->
  Exists (fun p => producer_asleep p = true) ps' ->
  Exists (fun p => producer_asleep p = true) ps /\
  total at_insert ps' = total at_insert ps + 1.
Proof.
  intros [l Hall | l i p Hi Hp] Hex.
  - exfalso. revert Hex. apply Forall_not_Exists.
    eapply Forall_impl; [exact Hall |]. intros p Hp. by rewrite Hp.
  - split; [by apply (Exists_lookup _ _ i p) |].
    rewrite (total_insert _ _ _ _ _ Hi). destruct p; try discriminate.
    simpl. lia.
Qed.

Lemma step_alert y y' : step y y' -> sound y -> alert y -> alert y'.
Proof.
  intros Hstep Hy [Jc Kp].
  pose proof (s_open y Hy) as Hopen. pose proof (s_wf y Hy) as Hwf.
  destruct Hstep as [y i k r d Hi Hk Hs Hr Hnew | y i k Hi Hk
                     | y i k d q k' cs Hi Hins Hk' Hsig | y i k d Hi Hw
                     | y i k q Hi Hexit
                     | y j n d Hj Hgo | y j n d Hj Hgo
                     | y j n d q d' r n' ps Hj Hrem Hr Hn' Hsig
                     | y j n d q d' r Hj Hrem Hr
                     | y j n d Hj Hw
                     | y j n d Hj Ha | y j n d Hj Ha];
    split; cbn [queue producers consumers set_producer set_consumer];
    try exact Jc; try exact Kp.
  - (* producer_goes_on *)
    intros Hex. apply producer_awake_insert in Hex; [| done].
    rewrite (total_insert _ _ _ _ _ Hi). simpl. specialize (Kp Hex). lia.
  - (* producer_leaves_loop *)
    intros Hex. apply producer_awake_insert in Hex; [| done].
    rewrite (total_insert _ _ _ _ _ Hi). simpl. specialize (Kp Hex). lia.
  - (* producer_inserts, the consumers *)
    rewrite (proj2 (truthy_false _) Hopen) in Hsig.
    apply monitor_insert_inv in Hins as [[Hs _] | (_ & _ & _ & ->)];
      [contradiction |].
    intros Hex. destruct (signalled_consumers _ _ Hsig Hex) as [Hex0 ->].
    destruct (Jc Hex0) as [Ha Hc]. simpl. split; [done | lia].
  - (* producer_inserts, the producers *)
    apply monitor_insert_inv in Hins as [[Hs _] | (_ & _ & _ & ->)];
      [contradiction |].
    intros Hex. apply producer_awake_insert in Hex; [| done].
    rewrite (total_insert _ _ _ _ _ Hi). simpl. specialize (Kp Hex). lia.
  - (* producer_sleeps *)
    intros _. rewrite (total_insert _ _ _ _ _ Hi). simpl.
    pose proof (registered_lookup _ _ _ Hi) as Hreg. simpl in Hreg.
    rewrite <- (s_active y Hy) in Hreg.
    rewrite (monitor_insert_Waits _ d Hwf Hopen) by (done || lia).
    assert (H1 : at_insert (ProducerInsert k d) <= total at_insert (producers y)).
    { apply (total_lookup_le at_insert _ i); [| done].
      apply Forall_forall. intros p _. destruct p; simpl; lia. }
    simpl in H1. lia.
  - (* producer_exits, the consumers *)
    intros Hex. exfalso. revert Hex. apply Forall_not_Exists.
    eapply Forall_impl;
      [apply (broadcast_awake consumer_asleep wake_consumer);
       intros c; by destruct c |].
    intros c Hc. simpl in Hc. by rewrite Hc.
  - (* producer_exits, the producers *)
    apply producer_exit_inv in Hexit as (_ & Hc & _).
    intros Hex. apply producer_awake_insert in Hex; [| done].
    rewrite (total_insert _ _ _ _ _ Hi), Hc. simpl. specialize (Kp Hex). lia.
  - (* consumer_goes_on *)
    intros Hex. apply consumer_awake_insert in Hex; [| done].
    rewrite (total_insert _ _ _ _ _ Hj). simpl.
    destruct (Jc Hex) as [Ha Hc]. split; [done | lia].
  - (* consumer_leaves_loop *)
    exfalso. apply Hgo. left. by apply truthy_false.
  - (* consumer_removes, the consumers *)
    apply monitor_remove_inv in Hrem
      as [(-> & _) | (_ & Hne & _ & Hd' & ->)]; [discriminate |].
    intros Hex. apply consumer_awake_insert in Hex; [| done].
    rewrite (total_insert _ _ _ _ _ Hj). simpl.
    destruct (Jc Hex) as [Ha Hc]. split; [done | lia].
  - (* consumer_removes, the producers *)
    apply monitor_remove_inv in Hrem
      as [(-> & _) | (_ & Hne & _ & Hd' & ->)]; [discriminate |].
    intros Hex. destruct (signalled_producers _ _ Hsig Hex) as [Hex0 ->].
    specialize (Kp Hex0). simpl. lia.
  - (* consumer_fails, the consumers *)
    apply monitor_remove_inv in Hrem
      as [(_ & -> & _ & Hc & Hclosed) | (-> & _)]; [| discriminate].
    intros Hex. apply consumer_awake_insert in Hex; [| done].
    destruct (Jc Hex) as [Ha _]. destruct Hclosed; contradiction.
  - (* consumer_fails, the producers *)
    apply monitor_remove_inv in Hrem
      as [(_ & -> & _ & Hc & Hclosed) | (-> & _)]; [| discriminate].
    exact Kp.
  - (* consumer_sleeps *)
    intros _. destruct (monitor_remove_Waits _ d Hwf Hopen Hw) as [Hc Ha].
    split; [done |]. rewrite Hc. apply at_remove_nonneg.
  - (* consumer_retries *)
    exfalso. apply Ha. apply (s_gave_up y Hy).
    by apply (gave_up_lookup _ j (ConsumerFailed n d)).
  - (* consumer_breaks *)
    intros Hex. apply consumer_awake_insert in Hex; [| done].
    rewrite (total_insert _ _ _ _ _ Hj). simpl.
    destruct (Jc Hex) as [Ha' Hc]. split; [done | lia].
Qed.

Lemma wakes_alert y y' : wakes y y' -> alert y -> alert y'.
Proof.
  intros [y0 i k d Hi | y0 j n d Hj] [Jc Kp];
    split; cbn [queue producers consumers set_producer set_consumer];
    try exact Jc; try exact Kp.
  - intros Hex. apply producer_awake_insert in Hex; [| done].
    rewrite (total_insert _ _ _ _ _ Hi). simpl. specialize (Kp Hex). lia.
  - intros Hex. apply consumer_awake_insert in Hex; [| done].
    rewrite (total_insert _ _ _ _ _ Hj). simpl.
    destruct (Jc Hex) as [Ha Hc]. split; [done | lia].
Qed.

Lemma reachable_sound y : reachable y -> sound y /\ alert y.
Proof.
  induction 1 as [| y y' _ [IH1 IH2] Hstep | y y' _ [IH1 IH2] Hw].
  - split; [apply sound_start | apply alert_start].
  - split; [by apply (step_sound y y') | by apply (step_alert y y')].
  - split; [by apply (wakes_sound y y') | by apply (wakes_alert y y')].
Qed.


(** *** What the program hands out *)

Lemma registered_zero ps :
  total registered ps = 0 -> Forall producer_done ps.
Proof.
  induction ps as [| p ps IH]; simpl; intros H; [constructor |].
  pose proof (registered_range p).
  assert (0 <= total registered ps)
    by (apply total_nonneg, Forall_forall; intros x _; apply registered_range).
  constructor; [apply registered_done; lia | apply IH; lia].
Qed.

Lemma registered_all_done ps :
  Forall producer_done ps -> total registered ps = 0.
Proof.
  induction 1 as [| p ps Hp _ IH]; simpl; [done |].
  apply registered_done in Hp. lia.
Qed.

Lemma produced_all_done ps :
  Forall producer_ok ps -> Forall producer_done ps ->
  total docs_produced ps = Z.of_nat (length ps) * MAX_DOCUMENTS.
Proof.
  induction 1 as [| p ps Hp _ IH]; intros Hd; simpl; [lia |].
  apply Forall_cons in Hd as [Hd Hds]. rewrite (IH Hds).
  destruct p; simpl in *; try contradiction. lia.
Qed.

Lemma delivered_bound y :
  sound y ->
  Z.of_nat (length (delivered y)) <= NUM_PRODUCERS * MAX_DOCUMENTS.
Proof.
  intros Hy.
  pose proof (f_equal length (s_history y Hy)) as Hlen.
  rewrite length_app in Hlen.
  pose proof (s_produced y Hy) as Hp.
  pose proof (total_bounds docs_produced 0 MAX_DOCUMENTS (producers y)) as Hb.
  rewrite (s_producers y Hy) in Hb.
  assert (Forall (fun x => 0 <= docs_produced x <= MAX_DOCUMENTS) (producers y)).
  { eapply Forall_impl; [apply (s_ranges y Hy) |]. apply producer_ok_range. }
  specialize (Hb H). unfold NUM_PRODUCERS, MAX_DOCUMENTS in *. lia.
Qed.

(** Every document handed out was stored before, the documents are handed
    out in the order in which they were stored, none is handed out twice,
    and the documents stored and not yet handed out are the ones waiting in
    the buffer. *)
Theorem documents_in_order y :
  reachable y ->
  inserted y = delivered y ++ contents (queue y) /\
  NoDup (id <$> delivered y) /\
  Forall (made_by (producers y)) (delivered y).
Proof.
  intros Hr. pose proof (proj1 (reachable_sound y Hr)) as Hy.
  pose proof (s_history y Hy) as Hh. split; [exact Hh |]. split.
  - pose proof (s_distinct y Hy) as Hd. rewrite Hh, fmap_app in Hd.
    by apply NoDup_app in Hd as [Hd _].
  - pose proof (s_made y Hy) as Hm. rewrite Hh in Hm.
    by apply Forall_app in Hm as [Hm _].
Qed.

Lemma sound_consumer_done y j n :
  sound y ->
  consumers y !! j = Some (ConsumerDone n) ->
  Forall producer_done (producers y) /\
  delivered y = inserted y /\
  Z.of_nat (length (delivered y)) = NUM_PRODUCERS * MAX_DOCUMENTS.
Proof.
  intros Hy Hj.
  destruct (s_gave_up y Hy) as [Ha Hc].
  { by apply (gave_up_lookup _ j (ConsumerDone n)). }
  assert (Hdone : Forall producer_done (producers y)).
  { apply registered_zero. by rewrite <- (s_active y Hy). }
  assert (Hnil : contents (queue y) = []).
  { apply length_zero_iff_nil.
    pose proof (length_contents _ (s_wf y Hy)). lia. }
  pose proof (s_history y Hy) as Hh. rewrite Hnil, app_nil_r in Hh.
  split; [exact Hdone |]. split; [done |].
  rewrite <- Hh, (s_produced y Hy).
  rewrite (produced_all_done _ (s_ranges y Hy) Hdone), (s_producers y Hy).
  reflexivity.
Qed.

(** A consumer returns only when every producer has returned and the buffer
    is empty: by then all thirty documents have been handed out, in the
    order in which they were stored. *)
Theorem consumer_returns_last y j n :
  reachable y ->
  consumers y !! j = Some (ConsumerDone n) ->
  Forall producer_done (producers y) /\
  delivered y = inserted y /\
  Z.of_nat (length (delivered y)) = NUM_PRODUCERS * MAX_DOCUMENTS.
Proof.
  intros Hr. apply sound_consumer_done. by apply reachable_sound in Hr as [Hy _].
Qed.

(** *** The program does not stop half way *)

Definition finished (y : system) : Prop :=
  Forall producer_done (producers y) /\ Forall consumer_done (consumers y).

Lemma monitor_remove_over m d :
  count m = 0 -> should_stop m = 0 -> active_producers m = 0 ->
  monitor_remove m d = Returns (m, d, 0).
Proof.
  intros Hc Hs Ha. unfold monitor_remove. by rewrite Hc, Hs, Ha.
Qed.

(** A thread that is awake and has not returned can run: a call that
    cannot go on puts the thread to sleep, which is a step too. *)
Lemma producer_awake_steps y i p :
  sound y -> producers y !! i = Some p ->
  ~ producer_done p -> producer_asleep p = false ->
  exists y', step y y'.
Proof.
  intros Hy Hi Hnd Haw.
  pose proof (s_open y Hy) as Hopen.
  pose proof (lookup_lt_Some _ _ _ Hi) as Hlt.
  rewrite (s_producers y Hy) in Hlt.
  pose proof (Forall_lookup_1 _ _ _ _ (s_ranges y Hy) Hi) as Hok.
  pose proof (registered_lookup _ _ _ Hi) as Hreg.
  rewrite <- (s_active y Hy) in Hreg.
  destruct p as [k | k d | k d | k | k]; simpl in *;
    [| | discriminate | | by destruct Hnd].
  - destruct (decide (k < MAX_DOCUMENTS)) as [Hk | Hk].
    + destruct (new_document_defined (Z.of_nat i + 1) k 0) as [d Hd].
      { unfold NUM_PRODUCERS in Hlt. lia. }
      { lia. }
      { unfold INT_MAX. lia. }
      eexists. apply (producer_goes_on y i k 0 d Hi Hk);
        [by apply truthy_false | unfold INT_MAX; lia | exact Hd].
    + eexists. apply (producer_leaves_loop y i k Hi). tauto.
  - pose proof (monitor_insert_open (queue y) d (s_wf y Hy)) as Hins.
    assert (Ho : open (queue y)) by (split; [done | lia]).
    destruct (decide (count (queue y) = BUFFER_SIZE)) as [Hfull | Hfull].
    + eexists. apply (producer_sleeps y i k d Hi). by apply Hins.
    + eexists.
      apply (producer_inserts y i k d (PrintQueue.inserted (queue y) d) (k + 1)
               (signal_first consumer_asleep wake_consumer (consumers y)) Hi).
      * by apply Hins.
      * apply int_add_small.
        unfold int_range, INT_MIN, INT_MAX, MAX_DOCUMENTS in *. lia.
      * rewrite (proj2 (truthy_false _) Hopen). apply signal_first_signalled.
  - assert (Ha : int_range (active_producers (queue y) - 1)).
    { pose proof (total_bounds registered 0 1 (producers y)) as Hb.
      rewrite (s_active y Hy).
      assert (Forall (fun x => 0 <= registered x <= 1) (producers y))
        by (apply Forall_forall; intros x _; apply registered_range).
      specialize (Hb H). rewrite (s_producers y Hy) in Hb.
      unfold int_range, INT_MIN, INT_MAX, NUM_PRODUCERS in *. lia. }
    eexists. eapply (producer_exits y i k _ Hi).
    unfold producer_exit. by rewrite int_sub_small.
Qed.

Lemma consumer_awake_steps y j c :
  sound y -> consumers y !! j = Some c ->
  ~ consumer_done c -> consumer_asleep c = false ->
  exists y', step y y'.
Proof.
  intros Hy Hj Hnd Haw.
  pose proof (s_open y Hy) as Hopen.
  destruct c as [n d | n d | n d | n d | n];
    [| | discriminate | | by destruct Hnd].
  - eexists. apply (consumer_goes_on y j n d Hj). left. by apply truthy_false.
  - assert (Hn : int_range (n + 1)).
    { pose proof (Forall_lookup_1 _ _ _ _ (s_counts y Hy) Hj) as Hn0.
      pose proof (total_lookup_le docs_consumed _ _ _ (s_counts y Hy) Hj) as Hle.
      pose proof (delivered_bound y Hy) as Hb.
      rewrite (s_consumed y Hy) in Hb. simpl in *.
      unfold int_range, INT_MIN, INT_MAX, NUM_PRODUCERS, MAX_DOCUMENTS in *. lia. }
    destruct (decide (count (queue y) = 0)) as [Hc | Hc].
    + destruct (decide (active_producers (queue y) = 0)) as [Ha | Ha].
      * eexists. eapply (consumer_fails y j n d _ _ _ Hj
                           (monitor_remove_over _ d Hc Hopen Ha)). reflexivity.
      * eexists. apply (consumer_sleeps y j n d Hj).
        by apply monitor_remove_open_empty.
    + destruct (monitor_remove_nonempty _ d (s_wf y Hy) Hc) as (d' & _ & Hrem).
      eexists.
      apply (consumer_removes y j n d (removed (queue y)) d' 1 (n + 1)
               (signal_first producer_asleep wake_producer (producers y))
               Hj Hrem);
        [reflexivity | by apply int_add_small | apply signal_first_signalled].
  - destruct (decide (active_producers (queue y) = 0)) as [Ha | Ha].
    + eexists. by apply (consumer_breaks y j n d).
    + eexists. by apply (consumer_retries y j n d).
Qed.

Definition producer_out (p : producer_at) : Prop :=
  producer_done p \/ producer_asleep p = true.

Definition consumer_out (c : consumer_at) : Prop :=
  consumer_done c \/ consumer_asleep c = true.

(** The threads that have not returned are never all asleep. *)
Lemma somebody_awake y :
  sound y -> alert y -> ~ finished y ->
  ~ (Forall producer_out (producers y) /\ Forall consumer_out (consumers y)).
Proof.
  intros Hy [Jc Kp] Hnot [Hps Hcs].
  assert (Hti : total at_insert (producers y) = 0).
  { apply total_zero. eapply Forall_impl; [exact Hps |].
    intros p [Hd | Hs]; destruct p; (done || discriminate). }
  assert (Htr : total at_remove (consumers y) = 0).
  { apply total_zero. eapply Forall_impl; [exact Hcs |].
    intros c [Hd | Hs]; destruct c; (done || discriminate). }
  pose proof (s_wf y Hy) as [_ Hcount _ _ _].
  destruct (decide (Exists (fun p => producer_asleep p = true) (producers y)))
    as [Hpa | Hpa];
    destruct (decide (Exists (fun c => consumer_asleep c = true) (consumers y)))
      as [Hca | Hca].
  - specialize (Kp Hpa). destruct (Jc Hca) as [_ Hc].
    unfold BUFFER_SIZE in *. lia.
  - specialize (Kp Hpa).
    pose proof (out_not_asleep consumer_done consumer_asleep _ Hcs Hca) as Hcd.
    destruct (lookup_lt_is_Some_2 (consumers y) 0) as [c Hc].
    { rewrite (s_consumers y Hy). unfold NUM_CONSUMERS. lia. }
    pose proof (Forall_lookup_1 _ _ _ _ Hcd Hc) as Hdone.
    destruct (s_gave_up y Hy) as [_ H0].
    { apply (gave_up_lookup _ 0%nat c Hc). by destruct c. }
    unfold BUFFER_SIZE in *. lia.
  - pose proof (out_not_asleep producer_done producer_asleep _ Hps Hpa) as Hpd.
    destruct (Jc Hca) as [Ha _]. apply Ha.
    rewrite (s_active y Hy). by apply registered_all_done.
  - apply Hnot. split.
    + by apply (out_not_asleep producer_done producer_asleep).
    + by apply (out_not_asleep consumer_done consumer_asleep).
Qed.

#[global] Instance producer_out_dec p : Decision (producer_out p).
Proof. unfold producer_out. apply _. Defined.

#[global] Instance consumer_out_dec c : Decision (consumer_out c).
Proof. unfold consumer_out. apply _. Defined.

Lemma sound_can_step y :
  sound y -> alert y -> ~ finished y -> exists y', step y y'.
Proof.
  intros Hy Ha Hnot.
  pose proof (somebody_awake y Hy Ha Hnot) as Hawake.
  destruct (decide (Forall producer_out (producers y))) as [Hps | Hps].
  - assert (Hcs : ~ Forall consumer_out (consumers y)) by tauto.
    apply unfinished_thread in Hcs as (j & c & Hj & Hc); [| apply _].
    apply (consumer_awake_steps y j c Hy Hj).
    + intros Hd. apply Hc. by left.
    + destruct (consumer_asleep c) eqn:Hs; [| done].
      exfalso. apply Hc. by right.
  - apply unfinished_thread in Hps as (i & p & Hi & Hp); [| apply _].
    apply (producer_awake_steps y i p Hy Hi).
    + intros Hd. apply Hp. by left.
    + destruct (producer_asleep p) eqn:Hs; [| done].
      exfalso. apply Hp. by right.
Qed.

(** While a thread has not returned, some thread is awake and can run: the
    producers and the consumers never all wait for each other, and no
    thread sleeps through the signal it waits for. *)
Theorem never_stuck y :
  reachable y -> ~ finished y -> exists y', step y y'.
Proof.
  intros Hr. destruct (reachable_sound y Hr) as [Hy Ha].
  by apply sound_can_step.
Qed.

(** *** The program stops *)

Lemma producer_steps_nonneg p : producer_ok p -> 0 <= producer_steps p.
Proof. destruct p; simpl; unfold MAX_DOCUMENTS, NUM_CONSUMERS; lia. Qed.

Lemma steps_left_nonneg y : sound y -> 0 <= steps_left y.
Proof.
  intros Hy. unfold steps_left.
  pose proof (delivered_bound y Hy).
  assert (0 <= total producer_steps (producers y)).
  { apply total_nonneg. eapply Forall_impl; [apply (s_ranges y Hy) |].
    apply producer_steps_nonneg. }
  assert (0 <= total consumer_steps (consumers y)).
  { apply total_nonneg, Forall_forall. intros c _. destruct c; simpl; lia. }
  lia.
Qed.

(** A signal gives one sleeper one more step to take. *)
Lemma signalled_consumer_steps cs cs' :
  signalled consumer_asleep wake_consumer cs cs' ->
  total consumer_steps cs' <= total consumer_steps cs + 1.
Proof.
  intros [l _ | l j c Hj Hc]; [lia |].
  rewrite (total_insert _ _ _ _ _ Hj). destruct c; try discriminate.
  simpl. lia.
Qed.

Lemma signalled_producer_steps ps ps' :
  signalled producer_asleep wake_producer ps ps' ->
  total producer_steps ps' <= total producer_steps ps + 1.
Proof.
  intros [l _ | l i p Hi Hp]; [lia |].
  rewrite (total_insert _ _ _ _ _ Hi). destruct p; try discriminate.
  simpl. lia.
Qed.

Lemma broadcast_consumer_steps cs :
  total consumer_steps (broadcast consumer_asleep wake_consumer cs)
  <= total consumer_steps cs + Z.of_nat (length cs).
Proof.
  pose proof (woken_total_le consumer_asleep wake_consumer consumer_steps 1
                cs (broadcast consumer_asleep wake_consumer cs)) as H.
  rewrite Z.mul_1_l in H. apply H; [lia | | apply broadcast_woken].
  intros c Hc. destruct c; simpl in *; first [discriminate Hc | lia].
Qed.

Lemma step_decreases y y' :
  sound y -> step y y' -> steps_left y' < steps_left y.
Proof.
  intros Hy Hstep. unfold steps_left.
  pose proof (s_open y Hy) as Hopen.
  destruct Hstep as [y i k r d Hi Hk Hs Hr Hnew | y i k Hi Hk
                     | y i k d q k' cs Hi Hins Hk' Hsig | y i k d Hi Hw
                     | y i k q Hi Hexit
                     | y j n d Hj Hgo | y j n d Hj Hgo
                     | y j n d q d' r n' ps Hj Hrem Hr Hn' Hsig
                     | y j n d q d' r Hj Hrem Hr
                     | y j n d Hj Hw
                     | y j n d Hj Ha | y j n d Hj Ha];
    cbn [queue producers consumers inserted delivered set_producer set_consumer].
  - rewrite (total_insert _ _ _ _ _ Hi). simpl. lia.
  - pose proof (Forall_lookup_1 _ _ _ _ (s_ranges y Hy) Hi) as Hok.
    rewrite (total_insert _ _ _ _ _ Hi). simpl in *. lia.
  - apply int_add_Returns in Hk' as [-> _].
    rewrite (proj2 (truthy_false _) Hopen) in Hsig.
    pose proof (signalled_consumer_steps _ _ Hsig).
    rewrite (total_insert _ _ _ _ _ Hi). simpl. lia.
  - rewrite (total_insert _ _ _ _ _ Hi). simpl. lia.
  - pose proof (broadcast_consumer_steps (consumers y)) as Hb.
    rewrite (s_consumers y Hy) in Hb.
    rewrite (total_insert _ _ _ _ _ Hi). simpl.
    unfold NUM_CONSUMERS in *. lia.
  - rewrite (total_insert _ _ _ _ _ Hj). simpl. lia.
  - rewrite (total_insert _ _ _ _ _ Hj). simpl. lia.
  - pose proof (signalled_producer_steps _ _ Hsig).
    rewrite (total_insert _ _ _ _ _ Hj), length_app. simpl. lia.
  - rewrite (total_insert _ _ _ _ _ Hj). simpl. lia.
  - rewrite (total_insert _ _ _ _ _ Hj). simpl. lia.
  - exfalso. apply Ha. apply (s_gave_up y Hy).
    by apply (gave_up_lookup _ j (ConsumerFailed n d)).
  - rewrite (total_insert _ _ _ _ _ Hj). simpl. lia.
Qed.

Lemma wakes_steps_left y y' : wakes y y' -> steps_left y' = steps_left y + 1.
Proof.
  intros [y0 i k d Hi | y0 j n d Hj]; unfold steps_left;
    cbn [queue producers consumers inserted delivered set_producer set_consumer].
  - rewrite (total_insert _ _ _ _ _ Hi). simpl. lia.
  - rewrite (total_insert _ _ _ _ _ Hj). simpl. lia.
Qed.

Lemma run_sound n w y y' : run n w y y' -> sound y -> sound y'.
Proof.
  induction 1 as [| n w y y1 y2 Hstep _ IH | n w y y1 y2 Hw _ IH]; [done | |];
    intros Hy; apply IH.
  - by apply (step_sound y y1).
  - by apply (wakes_sound y y1).
Qed.

Lemma run_steps_left n w y y' :
  run n w y y' -> sound y ->
  Z.of_nat n + steps_left y' <= steps_left y + Z.of_nat w.
Proof.
  induction 1 as [| n w y y1 y2 Hstep _ IH | n w y y1 y2 Hw _ IH];
    intros Hy; [lia | |].
  - pose proof (step_decreases y y1 Hy Hstep).
    specialize (IH (step_sound y y1 Hstep Hy)). lia.
  - pose proof (wakes_steps_left y y1 Hw).
    specialize (IH (wakes_sound y y1 Hw Hy)). lia.
Qed.

(** Whatever the order in which the threads run, the program takes at most
    200 steps besides one for each spurious wake-up: no run goes on for
    ever. *)
Theorem runs_end n w y :
  run n w start y -> (n <= 200 + w)%nat.
Proof.
  intros Hrun.
  pose proof (run_steps_left n w start y Hrun sound_start) as Hle.
  pose proof (steps_left_nonneg y (run_sound n w start y Hrun sound_start)).
  assert (steps_left start = 200) by reflexivity. lia.
Qed.

(** *** Running a schedule *)

Lemma advance_producer_step y i r y' :
  advance_producer y i r = Some y' -> step y y'.
Proof.
  unfold advance_producer. intros H.
  destruct (producers y !! i) as [[k | k d | k d | k | k] |] eqn:Hi;
    try discriminate.
  - destruct (decide _) as [[Hk Hs] | Hno].
    + destruct (new_document _ _ _) as [d | |] eqn:Hd; try discriminate.
      destruct (decide _) as [Hr |]; [| discriminate].
      injection H as <-. by apply (producer_goes_on y i k r d).
    + injection H as <-. by apply (producer_leaves_loop y i k).
  - destruct (monitor_insert _ _) as [q | |] eqn:Hq; try discriminate.
    + destruct (int_add k 1) as [k' | |] eqn:Hk; try discriminate.
      injection H as <-. apply (producer_inserts y i k d q k'); try done.
      destruct (truthy _); [done | apply signal_first_signalled].
    + injection H as <-. by apply (producer_sleeps y i k d).
  - destruct (producer_exit _) as [q | |] eqn:Hq; try discriminate.
    injection H as <-. by apply (producer_exits y i k q).
Qed.

Lemma advance_consumer_step y j y' :
  advance_consumer y j = Some y' -> step y y'.
Proof.
  unfold advance_consumer. intros H.
  destruct (consumers y !! j) as [[n d | n d | n d | n d | n] |] eqn:Hj;
    try discriminate.
  - destruct (decide _) as [Hgo | Hno]; injection H as <-.
    + by apply (consumer_goes_on y j n d).
    + by apply (consumer_leaves_loop y j n d).
  - destruct (monitor_remove _ _) as [[[q d'] r] | |] eqn:Hq; try discriminate.
    + destruct (truthy r) eqn:Hr.
      * destruct (int_add n 1) as [n' | |] eqn:Hn; try discriminate.
        injection H as <-.
        apply (consumer_removes y j n d q d' r n'); try done.
        apply signal_first_signalled.
      * injection H as <-. by apply (consumer_fails y j n d q d' r).
    + injection H as <-. by apply (consumer_sleeps y j n d).
  - destruct (decide _) as [Ha | Ha]; injection H as <-.
    + by apply (consumer_breaks y j n d).
    + by apply (consumer_retries y j n d).
Qed.

Lemma schedule_reachable r ids : forall y y',
  reachable y -> schedule r ids y = Some y' -> reachable y'.
Proof.
  induction ids as [| [i | j] ids IH]; intros y y' Hy H; simpl in H.
  - by injection H as <-.
  - destruct (advance_producer y i r) as [y1 |] eqn:H1; [| discriminate].
    apply (IH y1 y'); [| done].
    apply (reach_step y y1 Hy). by apply (advance_producer_step y i r).
  - destruct (advance_consumer y j) as [y1 |] eqn:H1; [| discriminate].
    apply (IH y1 y'); [| done].
    apply (reach_step y y1 Hy). by apply (advance_consumer_step y j).
Qed.

Lemma schedule_run r ids : forall y y',
  schedule r ids y = Some y' -> run (length ids) 0 y y'.
Proof.
  induction ids as [| [i | j] ids IH]; intros y y' H; simpl in H.
  - injection H as <-. constructor.
  - destruct (advance_producer y i r) as [y1 |] eqn:H1; [| discriminate].
    apply (run_step _ _ y y1); [by apply (advance_producer_step y i r) |].
    by apply IH.
  - destruct (advance_consumer y j) as [y1 |] eqn:H1; [| discriminate].
    apply (run_step _ _ y y1); [by apply (advance_consumer_step y j) |].
    by apply IH.
Qed.

Lemma whole_run_runs : schedule 7 whole_run start = Some (after whole_run).
Proof. vm_compute. reflexivity. Qed.

Lemma early_run_runs : schedule 7 early_run start = Some (after early_run).
Proof. vm_compute. reflexivity. Qed.

Lemma reachable_after_whole_run : reachable (after whole_run).
Proof. exact (schedule_reachable 7 whole_run _ _ reach_start whole_run_runs). Qed.

Lemma reachable_after_early_run : reachable (after early_run).
Proof. exact (schedule_reachable 7 early_run _ _ reach_start early_run_runs). Qed.

Lemma sleepy_run_runs : schedule 7 sleepy_run start = Some (after sleepy_run).
Proof. vm_compute. reflexivity. Qed.

Lemma reachable_after_sleepy_run : reachable (after sleepy_run).
Proof. exact (schedule_reachable 7 sleepy_run _ _ reach_start sleepy_run_runs). Qed.

(** *** Where the program stops, and what no call does *)

Lemma finished_no_step y y' : finished y -> ~ step y y'.
Proof.
  intros [Hp Hc] Hstep.
  destruct Hstep as [y i k r d Hi _ _ _ _ | y i k Hi _
                     | y i k d q k' cs Hi _ _ _ | y i k d Hi _
                     | y i k q Hi _
                     | y j n d Hj _ | y j n d Hj _
                     | y j n d q d' r n' ps Hj _ _ _ _
                     | y j n d q d' r Hj _ _
                     | y j n d Hj _
                     | y j n d Hj _ | y j n d Hj _];
    first [ exact (Forall_lookup_1 _ _ _ _ Hp Hi)
          | exact (Forall_lookup_1 _ _ _ _ Hc Hj) ].
Qed.

(** When no thread can run any more, every thread has returned, and the
    thirty documents have been handed out in the order in which they were
    stored, each one once. *)
Theorem halts_with_all_printed y :
  reachable y -> (forall y', ~ step y y') ->
  finished y /\
  delivered y = inserted y /\
  Z.of_nat (length (delivered y)) = NUM_PRODUCERS * MAX_DOCUMENTS /\
  NoDup (id <$> delivered y).
Proof.
  intros Hr Hhalt. destruct (reachable_sound y Hr) as [Hy Ha].
  assert (Hfin : finished y).
  { destruct (decide (finished y)) as [Hfin | Hnot]; [done |].
    destruct (sound_can_step y Hy Ha Hnot) as [y' Hstep].
    destruct (Hhalt y' Hstep). }
  split; [exact Hfin |].
  destruct (lookup_lt_is_Some_2 (consumers y) 0) as [c Hc].
  { rewrite (s_consumers y Hy). unfold NUM_CONSUMERS. lia. }
  pose proof (Forall_lookup_1 _ _ _ _ (proj2 Hfin) Hc) as Hdone.
  destruct c as [? ? | ? ? | ? ? | ? ? | n]; try contradiction.
  destruct (sound_consumer_done y 0%nat n Hy Hc) as (_ & Heq & Hlen).
  split; [exact Heq |]. split; [exact Hlen |].
  pose proof (s_distinct y Hy) as Hd.
  rewrite (s_history y Hy), fmap_app in Hd.
  by apply NoDup_app in Hd as [Hd _].
Qed.

(** A call has defined behaviour: it returns or waits, without an index
    out of the buffer and without a sum past [INT_MAX]. *)
Definition defined {A : Type} (o : outcome A) : Prop := o <> Undefined.

(** No call of a thread that is awake has undefined behaviour, whatever the
    interleaving:
    [monitor_insert] and [monitor_remove] index the buffer within its five
    slots, and the counters [docs_produced], [docs_consumed], [count],
    [active_producers] and the document id stay within [int]. *)
Theorem calls_are_defined y :
  reachable y ->
  (forall i k r, producers y !! i = Some (ProducerTest k) ->
     k < MAX_DOCUMENTS -> 0 <= r <= INT_MAX ->
     defined (new_document (Z.of_nat i + 1) k r)) /\
  (forall i k d, producers y !! i = Some (ProducerInsert k d) ->
     defined (monitor_insert (queue y) d) /\ defined (int_add k 1)) /\
  (forall i k, producers y !! i = Some (ProducerLeaving k) ->
     defined (producer_exit (queue y))) /\
  (forall j n d, consumers y !! j = Some (ConsumerRemove n d) ->
     defined (monitor_remove (queue y) d) /\ defined (int_add n 1)).
Proof.
  intros Hr. pose proof (proj1 (reachable_sound y Hr)) as Hy.
  pose proof (s_open y Hy) as Hopen. unfold defined.
  split; [| split; [| split]].
  - intros i k r Hi Hk Hrand.
    pose proof (lookup_lt_Some _ _ _ Hi) as Hlt.
    rewrite (s_producers y Hy) in Hlt.
    pose proof (Forall_lookup_1 _ _ _ _ (s_ranges y Hy) Hi) as Hok.
    simpl in Hok.
    assert (Hd : exists d, new_document (Z.of_nat i + 1) k r = Returns d).
    { apply new_document_defined; [unfold NUM_PRODUCERS in Hlt; lia | lia | done]. }
    destruct Hd as [d ->]. done.
  - intros i k d Hi.
    pose proof (Forall_lookup_1 _ _ _ _ (s_ranges y Hy) Hi) as Hok.
    pose proof (registered_lookup _ _ _ Hi) as Hreg.
    rewrite <- (s_active y Hy) in Hreg. simpl in Hok, Hreg.
    split.
    + pose proof (monitor_insert_open (queue y) d (s_wf y Hy)) as Hins.
      assert (Ho : open (queue y)) by (split; [done | lia]).
      destruct (decide (count (queue y) = BUFFER_SIZE));
        by rewrite (Hins Ho).
    + rewrite int_add_small; [done |].
      unfold int_range, INT_MIN, INT_MAX, MAX_DOCUMENTS in *. lia.
  - intros i k Hi.
    assert (Ha : int_range (active_producers (queue y) - 1)).
    { pose proof (total_bounds registered 0 1 (producers y)) as Hb.
      rewrite (s_active y Hy).
      assert (Forall (fun x => 0 <= registered x <= 1) (producers y))
        by (apply Forall_forall; intros x _; apply registered_range).
      specialize (Hb H). rewrite (s_producers y Hy) in Hb.
      unfold int_range, INT_MIN, INT_MAX, NUM_PRODUCERS in *. lia. }
    unfold producer_exit. by rewrite int_sub_small.
  - intros j n d Hj. split.
    + destruct (decide (count (queue y) = 0)) as [Hc | Hc].
      * unfold monitor_remove. rewrite Hc, Hopen. simpl.
        by destruct (active_producers (queue y) =? 0).
      * destruct (monitor_remove_nonempty _ d (s_wf y Hy) Hc) as (d' & _ & ->).
        done.
    + pose proof (Forall_lookup_1 _ _ _ _ (s_counts y Hy) Hj) as Hn0.
      pose proof (total_lookup_le docs_consumed _ _ _ (s_counts y Hy) Hj) as Hle.
      pose proof (delivered_bound y Hy) as Hb.
      rewrite (s_consumed y Hy) in Hb. simpl in *.
      rewrite int_add_small; [done |].
      unfold int_range, INT_MIN, INT_MAX, NUM_PRODUCERS, MAX_DOCUMENTS in *. lia.
Qed.

(** *** The properties on three runs *)

Lemma early_run_threads :
  producers (after early_run)
  = [ProducerTest 3; ProducerTest 0; ProducerTest 0] /\
  length (delivered (after early_run)) = 1%nat.
Proof. vm_compute. split; reflexivity. Qed.

Lemma sleepy_run_threads :
  producers (after sleepy_run) = replicate 3 (ProducerTest 0) /\
  consumers (after sleepy_run)
  = replicate 2 (ConsumerAsleep 0 zero_document).
Proof. vm_compute. split; reflexivity. Qed.

Lemma whole_run_threads :
  producers (after whole_run) = replicate 3 (ProducerDone 10) /\
  consumers (after whole_run) = [ConsumerDone 30; ConsumerDone 0].
Proof. vm_compute. split; reflexivity. Qed.

Lemma early_run_producer :
  producers (after early_run) !! 0%nat = Some (ProducerTest 3).
Proof. by rewrite (proj1 early_run_threads). Qed.

Lemma whole_run_consumer :
  consumers (after whole_run) !! 1%nat = Some (ConsumerDone 0).
Proof. by rewrite (proj2 whole_run_threads). Qed.

Lemma sleepy_run_unfinished : ~ finished (after sleepy_run).
Proof.
  intros [Hp _]. rewrite (proj1 sleepy_run_threads) in Hp.
  exact (Forall_lookup_1 _ _ 0%nat (ProducerTest 0) Hp eq_refl).
Qed.

Lemma whole_run_finished : finished (after whole_run).
Proof.
  unfold finished.
  rewrite (proj1 whole_run_threads), (proj2 whole_run_threads).
  split; repeat constructor.
Qed.

Lemma whole_run_halts y' : ~ step (after whole_run) y'.
Proof. apply finished_no_step, whole_run_finished. Qed.

Lemma documents_in_order_witness :
  reachable (after early_run) /\
  inserted (after early_run)
  = delivered (after early_run) ++ contents (queue (after early_run)) /\
  NoDup (id <$> delivered (after early_run)) /\
  Forall (made_by (producers (after early_run))) (delivered (after early_run)).
Proof.
  split; [exact reachable_after_early_run |].
  exact (documents_in_order _ reachable_after_early_run).
Defined.

Lemma consumer_returns_last_witness :
  reachable (after whole_run) /\
  consumers (after whole_run) !! 1%nat = Some (ConsumerDone 0) /\
  Forall producer_done (producers (after whole_run)) /\
  delivered (after whole_run) = inserted (after whole_run) /\
  Z.of_nat (length (delivered (after whole_run))) = NUM_PRODUCERS * MAX_DOCUMENTS.
Proof.
  split; [exact reachable_after_whole_run |].
  split; [exact whole_run_consumer |].
  exact (consumer_returns_last _ 1%nat 0 reachable_after_whole_run
           whole_run_consumer).
Defined.

Lemma never_stuck_witness :
  reachable (after sleepy_run) /\ ~ finished (after sleepy_run) /\
  exists y', step (after sleepy_run) y'.
Proof.
  split; [exact reachable_after_sleepy_run |].
  split; [exact sleepy_run_unfinished |].
  exact (never_stuck _ reachable_after_sleepy_run sleepy_run_unfinished).
Defined.

Lemma whole_run_length : run 132 0 start (after whole_run).
Proof. exact (schedule_run 7 whole_run _ _ whole_run_runs). Qed.

Lemma runs_end_witness :
  run 132 0 start (after whole_run) /\ (132 <= 200 + 0)%nat.
Proof.
  split; [exact whole_run_length |].
  exact (runs_end 132 0 _ whole_run_length).
Defined.

Lemma halts_with_all_printed_witness :
  reachable (after whole_run) /\
  (forall y', ~ step (after whole_run) y') /\
  finished (after whole_run) /\
  delivered (after whole_run) = inserted (after whole_run) /\
  Z.of_nat (length (delivered (after whole_run))) = NUM_PRODUCERS * MAX_DOCUMENTS /\
  NoDup (id <$> delivered (after whole_run)).
Proof.
  split; [exact reachable_after_whole_run |].
  split; [exact whole_run_halts |].
  exact (halts_with_all_printed _ reachable_after_whole_run whole_run_halts).
Defined.

Lemma rand_7 : 0 <= 7 <= INT_MAX.
Proof. unfold INT_MAX. lia. Qed.

Lemma calls_are_defined_witness :
  reachable (after early_run) /\
  producers (after early_run) !! 0%nat = Some (ProducerTest 3) /\
  defined (new_document (Z.of_nat 0 + 1) 3 7).
Proof.
  split; [exact reachable_after_early_run |].
  split; [exact early_run_producer |].
  exact (proj1 (calls_are_defined _ reachable_after_early_run) 0%nat 3 7
           early_run_producer eq_refl rand_7).
Defined.

End PrintQueueThreads.

(** * The editor threads of the studio (dining-philosophers/video_studio_monitor.c)

    [editor] and the part of [main] that starts the five threads. *)

Module StudioThreads.

Import Studio.

Local Open Scope nat_scope.

Definition NUM_EDITS : Z := 3.

(** Where an [editor] stands, with its loop counter [i]. *)
Inductive editor_at : Type :=
| EditorTest (i : Z)    (* at the loop test *)
| EditorThinks (i : Z)  (* in [think] *)
| EditorWaits (i : Z)   (* in [request_boards], at the test of the wait loop *)
| EditorAsleep (i : Z)  (* in [request_boards], in [pthread_cond_wait] *)
| EditorEdits (i : Z)   (* in [edit] *)
| EditorDone (i : Z).   (* returned *)

(** The monitor and the five threads. *)
Record crew : Type := mkCrew {
  shared : StudioMonitor;
  editors : list editor_at
}.

(** [main] has called [monitor_init] and started every thread. *)
Definition start : crew :=
  {| shared := monitor_init studio;
     editors := replicate NUM_EDITORS (EditorTest 0) |}.

Definition set_editor (y : crew) (e : nat) (p : editor_at) : crew :=
  {| shared := shared y; editors := <[e := p]> (editors y) |}.

(** [try_to_edit] signals [can_edit[editor_id]] when it lets the editor
    in; only that editor ever waits on this condition, so the signal wakes
    it if it sleeps. *)
Definition editor_asleep (p : editor_at) : bool :=
  match p with EditorAsleep _ => true | _ => false end.

Definition wake_editor (p : editor_at) : editor_at :=
  match p with EditorAsleep i => EditorWaits i | _ => p end.

Definition try_to_edit_signals (s : StudioMonitor) (editor_id : nat)
  (l : list editor_at) : list editor_at :=
  if can_edit s editor_id then alter wake_editor editor_id l else l.

(** [release_boards] up to the two calls of [try_to_edit]. *)
Definition release_boards_frees (s : StudioMonitor) (editor_id : nat)
  : StudioMonitor :=
  {| state := <[editor_id := THINKING]> (state s);
     board_in_use :=
       <[(editor_id + 1) mod NUM_BOARDS := 0%Z]>
         (<[editor_id := 0%Z]> (board_in_use s));
     should_stop := should_stop s |}.

(** The signals of the two calls of [try_to_edit] in [release_boards]. *)
Definition release_boards_signals (s : StudioMonitor) (editor_id : nat)
  (l : list editor_at) : list editor_at :=
  let s1 := release_boards_frees s editor_id in
  let left := (editor_id + NUM_EDITORS - 1) mod NUM_EDITORS in
  let right := (editor_id + 1) mod NUM_EDITORS in
  try_to_edit_signals (try_to_edit s1 left) right
    (try_to_edit_signals s1 left l).

(** One thread runs up to its next test, call, wait or return. *)
Inductive step : crew -> crew -> Prop :=
| loop_goes_on y e i :
    editors y !! e = Some (EditorTest i) ->
    (i < NUM_EDITS)%Z -> truthy (should_stop (shared y)) = false ->
    step y (set_editor y e (EditorThinks i))
| loop_ends y e i :
    editors y !! e = Some (EditorTest i) ->
    ~ ((i < NUM_EDITS)%Z /\ truthy (should_stop (shared y)) = false) ->
    step y (set_editor y e (EditorDone i))
| request_enters y e i :
    editors y !! e = Some (EditorThinks i) ->
    step y {| shared := request_boards_enter (shared y) e;
              editors := <[e := EditorWaits i]> (editors y) |}
| request_sleeps y e i :
    editors y !! e = Some (EditorWaits i) ->
    request_boards_waits (shared y) e = true ->
    step y (set_editor y e (EditorAsleep i))
| request_returns y e i :
    editors y !! e = Some (EditorWaits i) ->
    request_boards_waits (shared y) e = false ->
    step y (set_editor y e (EditorEdits i))
| release_returns y e i i' :
    editors y !! e = Some (EditorEdits i) ->
    int_add i 1 = Returns i' ->
    step y {| shared := release_boards (shared y) e;
              editors :=
                release_boards_signals (shared y) e
                  (<[e := EditorTest i']> (editors y)) |}.

(** A spurious wake-up, which [pthread_cond_wait] allows at any time. *)
Inductive wakes : crew -> crew -> Prop :=
| editor_wakes y e i :
    editors y !! e = Some (EditorAsleep i) ->
    wakes y (set_editor y e (EditorWaits i)).

Inductive reachable : crew -> Prop :=
| reach_start : reachable start
| reach_step y y' : reachable y -> step y y' -> reachable y'
| reach_wakes y y' : reachable y -> wakes y y' -> reachable y'.

(** [n] steps and [w] spurious wake-ups lead from one state to another. *)
Inductive run : nat -> nat -> crew -> crew -> Prop :=
| run_nil y : run 0 0 y y
| run_step n w y y1 y2 : step y y1 -> run n w y1 y2 -> run (S n) w y y2
| run_wakes n w y y1 y2 : wakes y y1 -> run n w y1 y2 -> run n (S w) y y2.

(** The same steps as a function: the next step of editor [e]. *)
Definition advance (y : crew) (e : nat) : option crew :=
  match editors y !! e with
  | Some (EditorTest i) =>
      if decide ((i < NUM_EDITS)%Z /\ truthy (should_stop (shared y)) = false)
      then Some (set_editor y e (EditorThinks i))
      else Some (set_editor y e (EditorDone i))
  | Some (EditorThinks i) =>
      Some {| shared := request_boards_enter (shared y) e;
              editors := <[e := EditorWaits i]> (editors y) |}
  | Some (EditorWaits i) =>
      if request_boards_waits (shared y) e
      then Some (set_editor y e (EditorAsleep i))
      else Some (set_editor y e (EditorEdits i))
  | Some (EditorEdits i) =>
      match int_add i 1 with
      | Returns i' =>
          Some {| shared := release_boards (shared y) e;
                  editors :=
                    release_boards_signals (shared y) e
                      (<[e := EditorTest i']> (editors y)) |}
      | _ => None
      end
  | _ => None
  end.

(** A schedule names the editor that runs next. *)
Fixpoint schedule (ids : list nat) (y : crew) : option crew :=
  match ids with
  | [] => Some y
  | e :: ids' =>
      match advance y e with
      | Some y' => schedule ids' y'
      | None => None
      end
  end.

(** Editor [e] makes its three edits and returns. *)
Definition editor_turn (e : nat) : list nat :=
  replicate (4 * Z.to_nat NUM_EDITS + 1) e.

(** The five editors one after the other. *)
Definition whole_run : list nat :=
  editor_turn 0 ++ editor_turn 1 ++ editor_turn 2 ++ editor_turn 3
  ++ editor_turn 4.

(** Editors 0 and 2 edit, editor 1 has asked for its boards and sleeps. *)
Definition crowded_run : list nat := [0; 0; 0; 2; 2; 2; 1; 1; 1].

Definition after (ids : list nat) : crew := default start (schedule ids start).

Definition editor_done (p : editor_at) : Prop :=
  match p with EditorDone _ => True | _ => False end.

#[global] Instance editor_done_dec p : Decision (editor_done p).
Proof. destruct p; simpl; apply _. Defined.

Definition finished (y : crew) : Prop := Forall editor_done (editors y).

(** The place of a thread in the coarser view of [Studio.threads]. *)
Definition position_of (p : editor_at) : position :=
  match p with
  | EditorWaits _ | EditorAsleep _ => Requesting
  | EditorEdits _ => Working
  | _ => Planning
  end.

Definition threads_of (y : crew) : threads :=
  {| monitor := shared y; positions := position_of <$> editors y |}.

(** The counters stay within the loop bound. *)
Definition editor_ok (p : editor_at) : Prop :=
  match p with
  | EditorTest i => (0 <= i <= NUM_EDITS)%Z
  | EditorThinks i | EditorWaits i | EditorAsleep i | EditorEdits i =>
      (0 <= i < NUM_EDITS)%Z
  | EditorDone i => i = NUM_EDITS
  end.

Record counted (y : crew) : Prop := mkCounted {
  c_open : should_stop (shared y) = 0%Z;
  c_editors : length (editors y) = NUM_EDITORS;
  c_ranges : Forall editor_ok (editors y)
}.

(** A bound on the steps an editor still takes, leaving aside the times
    it is woken. *)
Definition editor_steps (p : editor_at) : Z :=
  match p with
  | EditorTest i => 7 * (NUM_EDITS - i) + 1
  | EditorThinks i => 7 * (NUM_EDITS - i)
  | EditorWaits i => 7 * (NUM_EDITS - i) - 1
  | EditorAsleep i => 7 * (NUM_EDITS - i) - 2
  | EditorEdits i => 7 * (NUM_EDITS - i) - 3
  | EditorDone _ => 0
  end%Z.

Definition steps_left (y : crew) : Z := total editor_steps (editors y).

(** Every [HUNGRY] editor outside [skip] has a neighbour that is
    [EDITING]. *)
Definition eager_but (skip : nat -> Prop) (s : StudioMonitor) : Prop :=
  forall k, k < NUM_EDITORS -> ~ skip k -> state s !! k = Some HUNGRY ->
    editing s (left_of k) \/ editing s (right_of k).

Definition eager (s : StudioMonitor) : Prop := eager_but (fun _ => False) s.

#[global] Instance editing_dec s i : Decision (editing s i).
Proof. unfold editing. apply _. Defined.

(** *** A waiting editor has a neighbour that edits *)

Lemma editing_try_to_edit s j k :
  editing s k -> editing (try_to_edit s j) k.
Proof.
  unfold editing. intros He.
  destruct (state_try_to_edit s j k) as [-> | (_ & _ & ->)]; done.
Qed.

Lemma refused_beside_editing s j :
  consistent s -> j < NUM_EDITORS ->
  state (try_to_edit s j) !! j = Some HUNGRY ->
  editing s (left_of j) \/ editing s (right_of j).
Proof.
  intros Hc Hj Hh.
  pose proof (ring_facts j Hj) as (Hrlt & Hllt & Hrne & Hlne & Hlr & Hrl).
  assert (Hs : state s !! j = Some HUNGRY).
  { destruct (state_try_to_edit s j j) as [<- | (_ & _ & E)]; [done |].
    rewrite E in Hh. discriminate. }
  assert (Hcan : can_edit s j = false).
  { destruct (can_edit s j) eqn:Hcan; [| done].
    unfold try_to_edit in Hh. rewrite Hcan in Hh. simpl in Hh.
    rewrite list_lookup_insert_eq in Hh; [discriminate |].
    rewrite (len_state s Hc). done. }
  unfold can_edit in Hcan.
  rewrite !andb_false_iff, !bool_decide_eq_false in Hcan.
  change ((j + 1) mod NUM_BOARDS) with (right_of j) in Hcan.
  assert (Hne : ~ editing s j) by (unfold editing; rewrite Hs; discriminate).
  destruct Hcan as [[Hno | Hno] | Hno].
  - contradiction.
  - destruct (boards_match s Hc j Hj) as [[_ [He | He]] | [H0 _]];
      [contradiction | by left | contradiction].
  - destruct (boards_match s Hc (right_of j) Hrlt) as [[_ [He | He]] | [H0 _]];
      [by right | rewrite Hlr in He; contradiction | contradiction].
Qed.

(** [try_to_edit j] settles editor [j] and unsettles nobody. *)
Lemma try_to_edit_eager s j (skip : nat -> Prop) :
  consistent s -> j < NUM_EDITORS -> eager_but skip s ->
  eager_but (fun k => skip k /\ k <> j) (try_to_edit s j).
Proof.
  intros Hc Hj He k Hk Hskip Hh.
  destruct (decide (k = j)) as [-> | Hne].
  - destruct (refused_beside_editing s j Hc Hj Hh) as [E | E];
      [left | right]; by apply editing_try_to_edit.
  - assert (Hs : state s !! k = Some HUNGRY).
    { destruct (state_try_to_edit s j k) as [<- | (E & _)]; [done | contradiction]. }
    destruct (He k Hk) as [E | E]; [tauto | done | |];
      [left | right]; by apply editing_try_to_edit.
Qed.

Lemma eager_request_boards_enter s i :
  consistent s -> i < NUM_EDITORS -> state s !! i = Some THINKING ->
  eager s -> eager (request_boards_enter s i).
Proof.
  intros Hc Hi Ht He. unfold request_boards_enter.
  set (s1 := {| state := <[i := HUNGRY]> (state s);
                board_in_use := board_in_use s;
                should_stop := should_stop s |}).
  assert (Hni : ~ editing s i) by (unfold editing; rewrite Ht; discriminate).
  assert (Hed : forall j, editing s j -> editing s1 j).
  { intros j E. unfold editing, s1; simpl.
    destruct (decide (j = i)) as [-> | Hne]; [contradiction |].
    by rewrite list_lookup_insert_ne. }
  assert (H1 : eager_but (fun k => k = i) s1).
  { intros k Hk Hne Hh. unfold s1 in Hh; simpl in Hh.
    rewrite list_lookup_insert_ne in Hh by done.
    destruct (He k Hk) as [E | E]; [tauto | done | |]; [left | right];
      by apply Hed. }
  pose proof (try_to_edit_eager s1 i _ (hungry_consistent s i Hi Hc Hni) Hi H1)
    as H2.
  intros k Hk _ Hh. apply (H2 k Hk); [| done]. intros [E1 E2]. by apply E2.
Qed.

Lemma eager_release_boards s i :
  consistent s -> i < NUM_EDITORS -> editing s i ->
  eager s -> eager (release_boards s i).
Proof.
  intros Hc Hi Hei He. unfold release_boards.
  set (s1 := {| state := <[i := THINKING]> (state s);
                board_in_use :=
                  <[(i + 1) mod NUM_BOARDS := 0%Z]>
                    (<[i := 0%Z]> (board_in_use s));
                should_stop := should_stop s |}).
  pose proof (ring_facts i Hi) as (Hrlt & Hllt & Hrne & Hlne & Hlr & Hrl).
  pose proof (thinking_consistent s i Hi Hc Hei) as Hc1. fold s1 in Hc1.
  assert (Hed : forall j, j <> i -> editing s j -> editing s1 j).
  { intros j Hne E. unfold editing, s1; simpl.
    by rewrite list_lookup_insert_ne. }
  assert (H1 : eager_but (fun k => k = left_of i \/ k = right_of i) s1).
  { intros k Hk Hskip Hh. unfold s1 in Hh; simpl in Hh.
    destruct (decide (k = i)) as [-> | Hne].
    { rewrite list_lookup_insert_eq in Hh; [discriminate |].
      rewrite (len_state s Hc). done. }
    rewrite list_lookup_insert_ne in Hh by done.
    destruct (He k Hk) as [E | E]; [tauto | done | |]; [left | right];
      apply Hed; try done.
    - intros E'. apply Hskip. right. by apply left_of_eq.
    - intros E'. apply Hskip. left. by apply right_of_eq. }
  pose proof (try_to_edit_eager s1 (left_of i) _ Hc1 Hllt H1) as H2.
  pose proof (try_to_edit_eager _ (right_of i) _
                (try_to_edit_consistent s1 (left_of i) Hllt Hc1) Hrlt H2) as H3.
  change ((i + NUM_EDITORS - 1) mod NUM_EDITORS) with (left_of i).
  change ((i + 1) mod NUM_EDITORS) with (right_of i).
  intros k Hk _ Hh. apply (H3 k Hk); [| done]. tauto.
Qed.

Lemma reachable_eager s : Studio.reachable s -> eager s.
Proof.
  induction 1 as [| s s' Hr IH Hstep].
  - intros k Hk _ Hh. unfold NUM_EDITORS in Hk.
    do 5 (destruct k as [| k]; [discriminate |]). lia.
  - pose proof (reachable_consistent s Hr) as Hc.
    destruct Hstep as [s i Hi Hs | s i Hi Hs].
    + by apply eager_request_boards_enter.
    + by apply eager_release_boards.
Qed.

(** An editor waits in [request_boards] only while a neighbour edits: once
    both neighbours have released, the editor is no longer [HUNGRY]. *)
Theorem waits_only_beside_editing s e :
  Studio.reachable s -> e < NUM_EDITORS -> state s !! e = Some HUNGRY ->
  editing s (left_of e) \/ editing s (right_of e).
Proof.
  intros Hr He Hh. apply (reachable_eager s Hr e He); [tauto | exact Hh].
Qed.

(** The flags follow the states: a board is flagged in use exactly when one
    of the two editors it lies between is [EDITING]. *)
Theorem boards_follow_states s b :
  Studio.reachable s -> b < NUM_BOARDS ->
  board_in_use s !! b
  = Some (if decide (editing s b \/ editing s (left_of b)) then 1%Z else 0%Z).
Proof.
  intros Hr Hb. pose proof (reachable_consistent s Hr) as Hc.
  destruct (boards_match s Hc b Hb) as [[H1 He] | (H0 & Hn1 & Hn2)].
  - rewrite H1. by rewrite decide_True.
  - rewrite H0. rewrite decide_False; [done | tauto].
Qed.

(** Of three editors that are [EDITING] two are the same one: at most two
    editors edit at a time. *)
Theorem at_most_two_edit s i j k :
  Studio.reachable s ->
  i < NUM_EDITORS -> j < NUM_EDITORS -> k < NUM_EDITORS ->
  editing s i -> editing s j -> editing s k ->
  i = j \/ j = k \/ i = k.
Proof.
  intros Hr Hi Hj Hk Ei Ej Ek. pose proof (reachable_consistent s Hr) as Hc.
  assert (H0 := no_adjacent s Hc 0). assert (H1 := no_adjacent s Hc 1).
  assert (H2 := no_adjacent s Hc 2). assert (H3 := no_adjacent s Hc 3).
  assert (H4 := no_adjacent s Hc 4).
  unfold NUM_EDITORS in *.
  change (right_of 0) with 1 in H0. change (right_of 1) with 2 in H1.
  change (right_of 2) with 3 in H2. change (right_of 3) with 4 in H3.
  change (right_of 4) with 0 in H4.
  assert (L0 : 0 < 5) by lia. assert (L1 : 1 < 5) by lia.
  assert (L2 : 2 < 5) by lia. assert (L3 : 3 < 5) by lia.
  assert (L4 : 4 < 5) by lia.
  specialize (H0 L0). specialize (H1 L1). specialize (H2 L2).
  specialize (H3 L3). specialize (H4 L4).
  assert (Hfive : forall n, n < 5 -> n = 0 \/ n = 1 \/ n = 2 \/ n = 3 \/ n = 4)
    by (intros n Hn; lia).
  destruct (Hfive i Hi) as [-> | [-> | [-> | [-> | ->]]]];
    destruct (Hfive j Hj) as [-> | [-> | [-> | [-> | ->]]]];
    destruct (Hfive k Hk) as [-> | [-> | [-> | [-> | ->]]]];
    first [lia | tauto].
Qed.

(** *** The threads keep to the protocol *)

Lemma should_stop_try_to_edit s j :
  should_stop (try_to_edit s j) = should_stop s.
Proof. unfold try_to_edit. by destruct (can_edit s j). Qed.

Lemma should_stop_request_boards_enter s i :
  should_stop (request_boards_enter s i) = should_stop s.
Proof. unfold request_boards_enter. by rewrite should_stop_try_to_edit. Qed.

Lemma should_stop_release_boards s i :
  should_stop (release_boards s i) = should_stop s.
Proof. unfold release_boards. by rewrite !should_stop_try_to_edit. Qed.

Lemma counted_start : counted start.
Proof.
  split; try reflexivity. apply Forall_replicate. simpl. unfold NUM_EDITS. lia.
Qed.

Lemma wake_editor_awake p : editor_asleep (wake_editor p) = false.
Proof. by destruct p. Qed.

Lemma wake_editor_id p : editor_asleep p = false -> wake_editor p = p.
Proof. by destruct p. Qed.

Lemma wake_editor_ok p : editor_ok p -> editor_ok (wake_editor p).
Proof. by destruct p. Qed.

Lemma wake_editor_position p : position_of (wake_editor p) = position_of p.
Proof. by destruct p. Qed.

Lemma try_to_edit_signals_woken s j l :
  woken editor_asleep wake_editor l (try_to_edit_signals s j l).
Proof.
  unfold try_to_edit_signals. destruct (can_edit s j); [| apply woken_refl].
  apply woken_alter, wake_editor_id.
Qed.

Lemma release_boards_signals_woken s e l :
  woken editor_asleep wake_editor l (release_boards_signals s e l).
Proof.
  unfold release_boards_signals.
  eapply woken_trans;
    [apply wake_editor_awake | apply try_to_edit_signals_woken
     | apply try_to_edit_signals_woken].
Qed.

Lemma step_counted y y' : step y y' -> counted y -> counted y'.
Proof.
  intros Hstep [Ho Hl Hr].
  destruct Hstep as [y e i He Hi Hs | y e i He Hno | y e i He
                     | y e i He Hw | y e i He Hgo | y e i i' He Hi'];
    pose proof (Forall_lookup_1 _ _ _ _ Hr He) as Hok; simpl in Hok;
    split; cbn [shared editors set_editor];
    rewrite ?(woken_length _ _ _ _ (release_boards_signals_woken _ _ _)),
      ?length_insert, ?should_stop_request_boards_enter,
      ?should_stop_release_boards; try done;
    try (apply (woken_Forall _ _ _ _ _ (fun p _ => wake_editor_ok p)
                  (release_boards_signals_woken _ _ _)));
    apply Forall_insert; try done; simpl.
  all: unfold NUM_EDITS in *.
  - lia.
  - assert (Hs : truthy (should_stop (shared y)) = false)
      by (rewrite Ho; reflexivity).
    assert (~ (i < 3)%Z) by tauto. lia.
  - apply int_add_Returns in Hi' as [-> _]. lia.
Qed.

Lemma wakes_counted y y' : wakes y y' -> counted y -> counted y'.
Proof.
  intros [y0 e i He] [Ho Hl Hr].
  pose proof (Forall_lookup_1 _ _ _ _ Hr He) as Hok.
  split; cbn [shared editors set_editor]; rewrite ?length_insert; try done.
  by apply Forall_insert.
Qed.

Lemma reachable_counted y : reachable y -> counted y.
Proof.
  induction 1 as [| y y' _ IH Hstep | y y' _ IH Hw]; [apply counted_start | |].
  - by apply (step_counted y y').
  - by apply (wakes_counted y y').
Qed.

Lemma positions_insert_same (l : list editor_at) (e : nat) p q :
  l !! e = Some p -> position_of q = position_of p ->
  position_of <$> <[e := q]> l = position_of <$> l.
Proof.
  intros He Hq. rewrite list_fmap_insert, Hq.
  apply list_insert_id. by rewrite list_lookup_fmap, He.
Qed.

(** A step of [editor] is a step of [Studio.threads], or one that the
    coarser view does not see. *)
Lemma step_threads y y' :
  step y y' ->
  thread_step (threads_of y) (threads_of y') \/ threads_of y' = threads_of y.
Proof.
  intros [y0 e i He Hi Hs | y0 e i He Hno | y0 e i He
          | y0 e i He Hw | y0 e i He Hgo | y0 e i i' He Hi'];
    unfold threads_of, set_editor; cbn [shared editors].
  - right. by rewrite (positions_insert_same _ e (EditorTest i)).
  - right. by rewrite (positions_insert_same _ e (EditorTest i)).
  - left. rewrite list_fmap_insert.
    pose proof (editor_requests {| monitor := shared y0;
                                   positions := position_of <$> editors y0 |} e)
      as H.
    cbn [monitor positions] in H. apply H.
    by rewrite list_lookup_fmap, He.
  - right. by rewrite (positions_insert_same _ e (EditorWaits i)).
  - left. rewrite list_fmap_insert.
    pose proof (editor_returns {| monitor := shared y0;
                                  positions := position_of <$> editors y0 |} e)
      as H.
    cbn [monitor positions] in H. apply H; [| exact Hgo].
    by rewrite list_lookup_fmap, He.
  - left.
    rewrite (woken_fmap _ _ position_of _ _
               (fun p _ => wake_editor_position p)
               (release_boards_signals_woken _ _ _)).
    rewrite list_fmap_insert.
    pose proof (editor_releases {| monitor := shared y0;
                                   positions := position_of <$> editors y0 |} e)
      as H.
    cbn [monitor positions] in H. apply H.
    by rewrite list_lookup_fmap, He.
Qed.

Lemma wakes_threads y y' : wakes y y' -> threads_of y' = threads_of y.
Proof.
  intros [y0 e i He]. unfold threads_of, set_editor; cbn [shared editors].
  by rewrite (positions_insert_same _ e (EditorAsleep i)).
Qed.

Lemma reachable_threads y : reachable y -> threads_reachable (threads_of y).
Proof.
  induction 1 as [| y y' _ IH Hstep | y y' _ IH Hw]; [apply threads_init | |].
  - destruct (step_threads y y' Hstep) as [Ht | ->]; [| exact IH].
    by apply (threads_step (threads_of y)).
  - by rewrite (wakes_threads y y' Hw).
Qed.

(** *** A sleeper is [HUNGRY] *)

Definition sleepers_hungry (y : crew) : Prop :=
  forall e i, editors y !! e = Some (EditorAsleep i) ->
              state (shared y) !! e = Some HUNGRY.

Lemma wake_editor_not_asleep p i : wake_editor p <> EditorAsleep i.
Proof. by destruct p. Qed.

(** An editor that sleeps on after [try_to_edit j] slept before, and its
    state is what it was. *)
Lemma try_to_edit_signals_asleep s j l k i :
  try_to_edit_signals s j l !! k = Some (EditorAsleep i) ->
  l !! k = Some (EditorAsleep i) /\
  state (try_to_edit s j) !! k = state s !! k.
Proof.
  unfold try_to_edit_signals, try_to_edit.
  destruct (can_edit s j) eqn:Hcan; [| done].
  intros Hk. destruct (decide (k = j)) as [-> | Hne].
  - rewrite list_lookup_alter_eq in Hk.
    destruct (l !! j) as [p |]; [| discriminate].
    injection Hk as Hk. by apply wake_editor_not_asleep in Hk.
  - rewrite list_lookup_alter_ne in Hk by done. split; [done |].
    simpl. by rewrite list_lookup_insert_ne.
Qed.

Lemma step_sleepers_hungry y y' :
  step y y' -> sleepers_hungry y -> sleepers_hungry y'.
Proof.
  intros Hstep Hy.
  destruct Hstep as [y e i He Hi Hs | y e i He Hno | y e i He
                     | y e i He Hw | y e i He Hgo | y e i i' He Hi'];
    intros k n Hk; cbn [shared editors set_editor] in *.
  - destruct (decide (k = e)) as [-> | Hne].
    + rewrite list_lookup_insert_eq in Hk by (by apply (lookup_lt_Some _ _ _ He)).
      discriminate.
    + rewrite list_lookup_insert_ne in Hk by done. by apply (Hy k n).
  - destruct (decide (k = e)) as [-> | Hne].
    + rewrite list_lookup_insert_eq in Hk by (by apply (lookup_lt_Some _ _ _ He)).
      discriminate.
    + rewrite list_lookup_insert_ne in Hk by done. by apply (Hy k n).
  - destruct (decide (k = e)) as [-> | Hne].
    + rewrite list_lookup_insert_eq in Hk by (by apply (lookup_lt_Some _ _ _ He)).
      discriminate.
    + rewrite list_lookup_insert_ne in Hk by done.
      unfold request_boards_enter.
      destruct (state_try_to_edit
                  {| state := <[e := HUNGRY]> (state (shared y));
                     board_in_use := board_in_use (shared y);
                     should_stop := should_stop (shared y) |} e k)
        as [-> | (E & _)]; [| contradiction].
      simpl. rewrite list_lookup_insert_ne by done. by apply (Hy k n).
  - destruct (decide (k = e)) as [-> | Hne].
    + unfold request_boards_waits in Hw. by apply bool_decide_eq_true in Hw.
    + rewrite list_lookup_insert_ne in Hk by done. by apply (Hy k n).
  - destruct (decide (k = e)) as [-> | Hne].
    + rewrite list_lookup_insert_eq in Hk by (by apply (lookup_lt_Some _ _ _ He)).
      discriminate.
    + rewrite list_lookup_insert_ne in Hk by done. by apply (Hy k n).
  - unfold release_boards_signals in Hk.
    apply try_to_edit_signals_asleep in Hk as [Hk H2].
    apply try_to_edit_signals_asleep in Hk as [Hk H1].
    destruct (decide (k = e)) as [-> | Hne].
    + rewrite list_lookup_insert_eq in Hk by (by apply (lookup_lt_Some _ _ _ He)).
      discriminate.
    + rewrite list_lookup_insert_ne in Hk by done.
      change (release_boards (shared y) e)
        with (try_to_edit
                (try_to_edit (release_boards_frees (shared y) e)
                   ((e + NUM_EDITORS - 1) mod NUM_EDITORS))
                ((e + 1) mod NUM_EDITORS)).
      rewrite H2, H1. simpl. rewrite list_lookup_insert_ne by done.
      by apply (Hy k n).
Qed.

Lemma reachable_sleepers_hungry y : reachable y -> sleepers_hungry y.
Proof.
  induction 1 as [| y y' _ IH Hstep | y y' _ IH Hw].
  - intros e i H. apply lookup_replicate in H as [H _]. discriminate.
  - by apply (step_sleepers_hungry y y').
  - destruct Hw as [y0 e i He]. intros k n Hk.
    cbn [shared editors set_editor] in *.
    destruct (decide (k = e)) as [-> | Hne].
    + rewrite list_lookup_insert_eq in Hk by (by apply (lookup_lt_Some _ _ _ He)).
      discriminate.
    + rewrite list_lookup_insert_ne in Hk by done. by apply (IH k n).
Qed.

(** What the threads see of the monitor: the state array follows them, the
    flags follow the state array, and nobody waits without cause. *)
Record sound (y : crew) : Prop := mkSound {
  s_counted : counted y;
  s_consistent : consistent (shared y);
  s_eager : eager (shared y);
  s_idle : forall e p, editors y !! e = Some p ->
    position_of p = Planning -> state (shared y) !! e = Some THINKING;
  s_waiting : forall e i, editors y !! e = Some (EditorWaits i) ->
    state (shared y) !! e = Some HUNGRY \/ editing (shared y) e;
  s_asleep : sleepers_hungry y;
  s_editing : forall e i, editors y !! e = Some (EditorEdits i) ->
    editing (shared y) e
}.

Lemma crew_reachable_sound y : reachable y -> sound y.
Proof.
  intros Hr.
  destruct (threads_reachable_tracked _ (reachable_threads y Hr))
    as [[_ _ Hp Hq Hw] Hm].
  cbn [monitor positions threads_of] in *.
  split.
  - by apply reachable_counted.
  - by apply reachable_consistent.
  - by apply reachable_eager.
  - intros e p He Hpos. apply Hp. by rewrite list_lookup_fmap, He, <- Hpos.
  - intros e i He. apply Hq. by rewrite list_lookup_fmap, He.
  - by apply reachable_sleepers_hungry.
  - intros e i He. apply Hw. by rewrite list_lookup_fmap, He.
Qed.

(** *** The editors do not wait for each other for ever *)

Definition editor_out (p : editor_at) : Prop :=
  editor_done p \/ editor_asleep p = true.

#[global] Instance editor_out_dec p : Decision (editor_out p).
Proof. unfold editor_out. apply _. Defined.

(** An editor that is awake and has not returned can run: a request that
    cannot go on puts the editor to sleep, which is a step too. *)
Lemma editor_awake_steps y e p :
  sound y -> editors y !! e = Some p -> ~ editor_out p -> exists y', step y y'.
Proof.
  intros Hy He Hp.
  pose proof (Forall_lookup_1 _ _ _ _ (c_ranges y (s_counted y Hy)) He) as Hok.
  destruct p as [i | i | i | i | i | i].
  - destruct (decide ((i < NUM_EDITS)%Z
                      /\ truthy (should_stop (shared y)) = false)) as [[Hi Hs] | Hno].
    + eexists. by apply (loop_goes_on y e i).
    + eexists. by apply (loop_ends y e i).
  - eexists. by apply (request_enters y e i).
  - destruct (request_boards_waits (shared y) e) eqn:Hw.
    + eexists. by apply (request_sleeps y e i).
    + eexists. by apply (request_returns y e i).
  - exfalso. apply Hp. by right.
  - eexists. apply (release_returns y e i (i + 1)%Z He).
    apply int_add_small. simpl in Hok.
    unfold int_range, INT_MIN, INT_MAX, NUM_EDITS in *. lia.
  - exfalso. apply Hp. by left.
Qed.

(** The editors that have not returned are never all asleep: beside a
    sleeper somebody edits. *)
Lemma crew_somebody_awake y :
  sound y -> ~ finished y -> ~ Forall editor_out (editors y).
Proof.
  intros Hy Hnot Hout.
  apply unfinished_thread in Hnot as (e & p & He & Hp); [| apply _].
  pose proof (lookup_lt_Some _ _ _ He) as Hlt.
  rewrite (c_editors y (s_counted y Hy)) in Hlt.
  pose proof (ring_facts e Hlt) as (Hrlt & Hllt & _).
  destruct (Forall_lookup_1 _ _ _ _ Hout He) as [Hd | Hs]; [contradiction |].
  destruct p as [i | i | i | i | i | i]; try discriminate.
  pose proof (s_asleep y Hy e i He) as Hh.
  assert (Hno : forall n, n < NUM_EDITORS -> ~ editing (shared y) n).
  { intros n Hn Hed. unfold editing in Hed.
    destruct (lookup_lt_is_Some_2 (editors y) n) as [q Hq].
    { by rewrite (c_editors y (s_counted y Hy)). }
    destruct (Forall_lookup_1 _ _ _ _ Hout Hq) as [Hd | Hs'].
    - destruct q; try contradiction.
      rewrite (s_idle y Hy n _ Hq eq_refl) in Hed. discriminate.
    - destruct q; try discriminate.
      rewrite (s_asleep y Hy n _ Hq) in Hed. discriminate. }
  destruct (s_eager y Hy e Hlt) as [E | E]; [tauto | done | |].
  - by apply (Hno (left_of e)).
  - by apply (Hno (right_of e)).
Qed.

Lemma crew_sound_can_step y : sound y -> ~ finished y -> exists y', step y y'.
Proof.
  intros Hy Hnot.
  pose proof (crew_somebody_awake y Hy Hnot) as Hawake.
  apply unfinished_thread in Hawake as (e & p & He & Hp); [| apply _].
  by apply (editor_awake_steps y e p).
Qed.

(** While an editor has not returned, some editor is awake and can run: the
    editors never all wait in [request_boards], and no editor sleeps
    through the signal that lets it in. *)
Theorem editors_never_stuck y :
  reachable y -> ~ finished y -> exists y', step y y'.
Proof.
  intros Hr. apply crew_sound_can_step. by apply crew_reachable_sound.
Qed.

(** *** The program stops *)

Lemma editor_steps_nonneg p : editor_ok p -> (0 <= editor_steps p)%Z.
Proof. destruct p; simpl; unfold NUM_EDITS; lia. Qed.

Lemma wake_editor_steps p : (editor_steps (wake_editor p) <= editor_steps p + 1)%Z.
Proof. destruct p; simpl; lia. Qed.

Lemma try_to_edit_signals_steps s j l :
  (total editor_steps (try_to_edit_signals s j l) <= total editor_steps l + 1)%Z.
Proof.
  unfold try_to_edit_signals. destruct (can_edit s j); [| lia].
  apply total_alter_le; [lia | apply wake_editor_steps].
Qed.

Lemma crew_step_decreases y y' :
  counted y -> step y y' -> (steps_left y' < steps_left y)%Z.
Proof.
  intros [Ho Hl Hr] Hstep. unfold steps_left.
  destruct Hstep as [y e i He Hi Hs | y e i He Hno | y e i He
                     | y e i He Hw | y e i He Hgo | y e i i' He Hi'];
    pose proof (Forall_lookup_1 _ _ _ _ Hr He) as Hok; simpl in Hok;
    cbn [shared editors set_editor].
  - rewrite (total_insert _ _ _ _ _ He); simpl. lia.
  - rewrite (total_insert _ _ _ _ _ He); simpl. lia.
  - rewrite (total_insert _ _ _ _ _ He); simpl. lia.
  - rewrite (total_insert _ _ _ _ _ He); simpl. lia.
  - rewrite (total_insert _ _ _ _ _ He); simpl. lia.
  - apply int_add_Returns in Hi' as [-> _].
    unfold release_boards_signals. cbv zeta.
    pose proof (try_to_edit_signals_steps
                  (try_to_edit (release_boards_frees (shared y) e)
                     ((e + NUM_EDITORS - 1) mod NUM_EDITORS))
                  ((e + 1) mod NUM_EDITORS)
                  (try_to_edit_signals (release_boards_frees (shared y) e)
                     ((e + NUM_EDITORS - 1) mod NUM_EDITORS)
                     (<[e := EditorTest (i + 1)]> (editors y)))) as H2.
    pose proof (try_to_edit_signals_steps (release_boards_frees (shared y) e)
                  ((e + NUM_EDITORS - 1) mod NUM_EDITORS)
                  (<[e := EditorTest (i + 1)]> (editors y))) as H1.
    rewrite (total_insert _ _ _ _ _ He) in H1. cbn [editor_steps] in H1. lia.
Qed.

Lemma crew_wakes_steps_left y y' :
  wakes y y' -> steps_left y' = (steps_left y + 1)%Z.
Proof.
  intros [y0 e i He]. unfold steps_left. cbn [shared editors set_editor].
  rewrite (total_insert _ _ _ _ _ He). simpl. lia.
Qed.

Lemma run_counted n w y y' : run n w y y' -> counted y -> counted y'.
Proof.
  induction 1 as [| n w y y1 y2 Hstep _ IH | n w y y1 y2 Hw _ IH]; [done | |];
    intros Hy; apply IH.
  - by apply (step_counted y y1).
  - by apply (wakes_counted y y1).
Qed.

Lemma crew_run_steps_left n w y y' :
  run n w y y' -> counted y ->
  (Z.of_nat n + steps_left y' <= steps_left y + Z.of_nat w)%Z.
Proof.
  induction 1 as [| n w y y1 y2 Hstep _ IH | n w y y1 y2 Hw _ IH];
    intros Hy; [lia | |].
  - pose proof (crew_step_decreases y y1 Hy Hstep).
    specialize (IH (step_counted y y1 Hstep Hy)). lia.
  - pose proof (crew_wakes_steps_left y y1 Hw).
    specialize (IH (wakes_counted y y1 Hw Hy)). lia.
Qed.

(** Whatever the order in which the editors run, the program takes at most
    110 steps besides one for each spurious wake-up. *)
Theorem editors_runs_end n w y : run n w start y -> n <= 110 + w.
Proof.
  intros Hrun.
  pose proof (crew_run_steps_left n w start y Hrun counted_start) as Hle.
  pose proof (run_counted n w start y Hrun counted_start) as [_ _ Hr].
  assert (0 <= steps_left y)%Z.
  { apply total_nonneg. eapply Forall_impl; [exact Hr |].
    apply editor_steps_nonneg. }
  assert (steps_left start = 110%Z) by reflexivity. lia.
Qed.

Lemma crew_finished_no_step y y' : finished y -> ~ step y y'.
Proof.
  intros Hf Hstep.
  destruct Hstep as [y e i He _ _ | y e i He _ | y e i He
                     | y e i He _ | y e i He _ | y e i i' He _];
    exact (Forall_lookup_1 _ _ _ _ Hf He).
Qed.

(** When no editor can run any more, every editor has returned after its
    three edits, every editor is [THINKING] and every board is free. *)
Theorem halts_with_all_edited y :
  reachable y -> (forall y', ~ step y y') ->
  editors y = replicate NUM_EDITORS (EditorDone NUM_EDITS) /\
  state (shared y) = replicate NUM_EDITORS THINKING /\
  board_in_use (shared y) = replicate NUM_BOARDS 0%Z.
Proof.
  intros Hr Hhalt. pose proof (crew_reachable_sound y Hr) as Hy.
  pose proof (s_counted y Hy) as [Ho Hl Hok].
  pose proof (s_consistent y Hy) as Hc.
  assert (Hfin : finished y).
  { destruct (decide (finished y)) as [Hfin | Hnot]; [done |].
    destruct (crew_sound_can_step y Hy Hnot) as [y' Hstep].
    destruct (Hhalt y' Hstep). }
  assert (Hdone : forall e, e < NUM_EDITORS ->
                            editors y !! e = Some (EditorDone NUM_EDITS)).
  { intros e He.
    destruct (lookup_lt_is_Some_2 (editors y) e) as [p Hp]; [by rewrite Hl |].
    pose proof (Forall_lookup_1 _ _ _ _ Hfin Hp) as Hd.
    pose proof (Forall_lookup_1 _ _ _ _ Hok Hp) as Hi.
    destruct p; try contradiction. simpl in Hi. by subst. }
  assert (Hth : forall e, e < NUM_EDITORS ->
                          state (shared y) !! e = Some THINKING).
  { intros e He. by apply (s_idle y Hy e _ (Hdone e He)). }
  split; [| split].
  - apply list_eq. intros e. destruct (decide (e < NUM_EDITORS)) as [He | He].
    + rewrite (Hdone e He). symmetry. by apply lookup_replicate.
    + rewrite !lookup_ge_None_2; [done | rewrite length_replicate; lia | lia].
  - apply list_eq. intros e. destruct (decide (e < NUM_EDITORS)) as [He | He].
    + rewrite (Hth e He). symmetry. by apply lookup_replicate.
    + rewrite !lookup_ge_None_2; [done | rewrite length_replicate; lia |].
      rewrite (len_state _ Hc). lia.
  - apply list_eq. intros b. destruct (decide (b < NUM_BOARDS)) as [Hb | Hb].
    + destruct (boards_match _ Hc b Hb) as [[_ [E | E]] | [-> _]].
      * unfold editing in E. rewrite (Hth b Hb) in E. discriminate.
      * unfold editing in E. rewrite (Hth _ (left_of_lt b Hb)) in E.
        discriminate.
      * symmetry. by apply lookup_replicate.
    + rewrite !lookup_ge_None_2; [done | rewrite length_replicate; lia |].
      rewrite (len_boards _ Hc). lia.
Qed.

(** *** Running a schedule *)

Lemma advance_step y e y' : advance y e = Some y' -> step y y'.
Proof.
  unfold advance. intros H.
  destruct (editors y !! e) as [[i | i | i | i | i | i] |] eqn:He;
    try discriminate.
  - destruct (decide _) as [[Hi Hs] | Hno]; injection H as <-.
    + by apply (loop_goes_on y e i).
    + by apply (loop_ends y e i).
  - injection H as <-. by apply (request_enters y e i).
  - destruct (request_boards_waits (shared y) e) eqn:Hw; injection H as <-.
    + by apply (request_sleeps y e i).
    + by apply (request_returns y e i).
  - destruct (int_add i 1) as [i' | |] eqn:Hi; try discriminate.
    injection H as <-. by apply (release_returns y e i i').
Qed.

Lemma step_advance y y' : step y y' -> exists e, advance y e = Some y'.
Proof.
  intros [y0 e i He Hi Hs | y0 e i He Hno | y0 e i He
          | y0 e i He Hw | y0 e i He Hgo | y0 e i i' He Hi'];
    exists e; unfold advance; rewrite He.
  - by rewrite decide_True.
  - by rewrite decide_False.
  - reflexivity.
  - by rewrite Hw.
  - by rewrite Hgo.
  - by rewrite Hi'.
Qed.

Lemma crew_schedule_reachable ids : forall y y',
  reachable y -> schedule ids y = Some y' -> reachable y'.
Proof.
  induction ids as [| e ids IH]; intros y y' Hy H; simpl in H.
  - by injection H as <-.
  - destruct (advance y e) as [y1 |] eqn:H1; [| discriminate].
    apply (IH y1 y'); [| done].
    apply (reach_step y y1 Hy). by apply (advance_step y e).
Qed.

Lemma crew_schedule_run ids : forall y y',
  schedule ids y = Some y' -> run (length ids) 0 y y'.
Proof.
  induction ids as [| e ids IH]; intros y y' H; simpl in H.
  - injection H as <-. constructor.
  - destruct (advance y e) as [y1 |] eqn:H1; [| discriminate].
    apply (run_step _ _ y y1); [by apply (advance_step y e) |].
    by apply IH.
Qed.

Lemma crew_whole_run_runs : schedule whole_run start = Some (after whole_run).
Proof. vm_compute. reflexivity. Qed.

Lemma crowded_run_runs : schedule crowded_run start = Some (after crowded_run).
Proof. vm_compute. reflexivity. Qed.

Lemma crew_reachable_after_whole_run : reachable (after whole_run).
Proof. exact (crew_schedule_reachable whole_run _ _ reach_start crew_whole_run_runs). Qed.

Lemma reachable_after_crowded_run : reachable (after crowded_run).
Proof. exact (crew_schedule_reachable crowded_run _ _ reach_start crowded_run_runs). Qed.

Lemma crowded_run_state :
  state (shared (after crowded_run))
  = [EDITING; HUNGRY; EDITING; THINKING; THINKING] /\
  editors (after crowded_run)
  = [EditorEdits 0; EditorAsleep 0; EditorEdits 0; EditorTest 0; EditorTest 0].
Proof. vm_compute. split; reflexivity. Qed.

Lemma whole_run_editors :
  editors (after whole_run) = replicate NUM_EDITORS (EditorDone NUM_EDITS).
Proof. vm_compute. reflexivity. Qed.

Lemma crowded_run_monitor : Studio.reachable (shared (after crowded_run)).
Proof.
  exact (proj2 (threads_reachable_tracked _
                  (reachable_threads _ reachable_after_crowded_run))).
Qed.

Lemma crowded_run_hungry : state (shared (after crowded_run)) !! 1 = Some HUNGRY.
Proof. by rewrite (proj1 crowded_run_state). Qed.

Lemma crowded_run_editing_0 : editing (shared (after crowded_run)) 0.
Proof. unfold editing. by rewrite (proj1 crowded_run_state). Qed.

Lemma crowded_run_editing_2 : editing (shared (after crowded_run)) 2.
Proof. unfold editing. by rewrite (proj1 crowded_run_state). Qed.

Lemma crowded_run_unfinished : ~ finished (after crowded_run).
Proof.
  unfold finished. rewrite (proj2 crowded_run_state). intros H.
  exact (Forall_lookup_1 _ _ 0 (EditorEdits 0) H eq_refl).
Qed.

Lemma crew_whole_run_halts y' : ~ step (after whole_run) y'.
Proof.
  apply crew_finished_no_step. unfold finished. rewrite whole_run_editors.
  by apply Forall_replicate.
Qed.

Lemma crew_whole_run_length : run 65 0 start (after whole_run).
Proof. exact (crew_schedule_run whole_run _ _ crew_whole_run_runs). Qed.

Lemma one_lt_NUM_EDITORS : 1 < NUM_EDITORS.
Proof. unfold NUM_EDITORS. lia. Qed.

Lemma two_lt_NUM_EDITORS : 2 < NUM_EDITORS.
Proof. unfold NUM_EDITORS. lia. Qed.

Lemma zero_lt_NUM_EDITORS : 0 < NUM_EDITORS.
Proof. unfold NUM_EDITORS. lia. Qed.

Lemma waits_only_beside_editing_witness :
  Studio.reachable (shared (after crowded_run)) /\
  state (shared (after crowded_run)) !! 1 = Some HUNGRY /\
  (editing (shared (after crowded_run)) (left_of 1) \/
   editing (shared (after crowded_run)) (right_of 1)).
Proof.
  split; [exact crowded_run_monitor |].
  split; [exact crowded_run_hungry |].
  exact (waits_only_beside_editing _ 1 crowded_run_monitor one_lt_NUM_EDITORS
           crowded_run_hungry).
Defined.

Lemma boards_follow_states_witness :
  Studio.reachable (shared (after crowded_run)) /\
  board_in_use (shared (after crowded_run)) !! 1
  = Some (if decide (editing (shared (after crowded_run)) 1 \/
                     editing (shared (after crowded_run)) (left_of 1))
          then 1%Z else 0%Z).
Proof.
  split; [exact crowded_run_monitor |].
  exact (boards_follow_states _ 1 crowded_run_monitor one_lt_NUM_EDITORS).
Defined.

Lemma at_most_two_edit_witness :
  editing (shared (after crowded_run)) 0 /\
  editing (shared (after crowded_run)) 2 /\
  (0 = 2 \/ 2 = 0 \/ 0 = 0).
Proof.
  split; [exact crowded_run_editing_0 |].
  split; [exact crowded_run_editing_2 |].
  exact (at_most_two_edit _ 0 2 0 crowded_run_monitor
           zero_lt_NUM_EDITORS two_lt_NUM_EDITORS zero_lt_NUM_EDITORS
           crowded_run_editing_0 crowded_run_editing_2 crowded_run_editing_0).
Defined.

Lemma editors_never_stuck_witness :
  reachable (after crowded_run) /\ ~ finished (after crowded_run) /\
  exists y', step (after crowded_run) y'.
Proof.
  split; [exact reachable_after_crowded_run |].
  split; [exact crowded_run_unfinished |].
  exact (editors_never_stuck _ reachable_after_crowded_run
           crowded_run_unfinished).
Defined.

Lemma editors_runs_end_witness :
  run 65 0 start (after whole_run) /\ 65 <= 110 + 0.
Proof.
  split; [exact crew_whole_run_length |].
  exact (editors_runs_end 65 0 _ crew_whole_run_length).
Defined.

Lemma halts_with_all_edited_witness :
  reachable (after whole_run) /\
  (forall y', ~ step (after whole_run) y') /\
  editors (after whole_run) = replicate NUM_EDITORS (EditorDone NUM_EDITS) /\
  state (shared (after whole_run)) = replicate NUM_EDITORS THINKING /\
  board_in_use (shared (after whole_run)) = replicate NUM_BOARDS 0%Z.
Proof.
  split; [exact crew_reachable_after_whole_run |].
  split; [exact crew_whole_run_halts |].
  exact (halts_with_all_edited _ crew_reachable_after_whole_run crew_whole_run_halts).
Defined.

End StudioThreads.

(** * The studio with a mutex (dining-philosophers/video_studio_mutex.c) *)

Module StudioMutex.

Local Open Scope nat_scope.

Definition NUM_EDITORS : nat := 5.
Definition NUM_BOARDS : nat := 5.
Definition NUM_EDITS : Z := 3.

Inductive EditorState : Type := THINKING | HUNGRY | EDITING.

#[global] Instance EditorState_eq_dec : EqDecision EditorState.
Proof. solve_decision. Defined.

Record StudioControl : Type := mkControl {
  state : list EditorState;
  has_board : list Z
}.

(** A file-scope object starts zeroed; [THINKING] is the enumerator 0. *)
Definition studio : StudioControl :=
  {| state := replicate NUM_EDITORS THINKING;
     has_board := replicate NUM_BOARDS 0%Z |}.

Definition init_studio (s : StudioControl) : StudioControl :=
  {| state := foldl (fun st i => <[i := THINKING]> st) (state s) (seq 0 NUM_EDITORS);
     has_board :=
       foldl (fun b i => <[i := 0%Z]> b) (has_board s) (seq 0 NUM_BOARDS) |}.

Definition can_edit (s : StudioControl) (editor_id : nat) : bool :=
  let left := editor_id in
  let right := (editor_id + 1) mod NUM_BOARDS in
  bool_decide (state s !! editor_id = Some HUNGRY)
  && bool_decide (has_board s !! left = Some 0%Z)
  && bool_decide (has_board s !! right = Some 0%Z).

Definition test_editor (s : StudioControl) (editor_id : nat) : StudioControl :=
  if can_edit s editor_id then
    {| state := <[editor_id := EDITING]> (state s);
       has_board :=
         <[(editor_id + 1) mod NUM_BOARDS := 1%Z]>
           (<[editor_id := 1%Z]> (has_board s)) |}
  else s.

(** [take_boards] from the lock to the wait loop. *)
Definition take_boards_enter (s : StudioControl) (editor_id : nat)
  : StudioControl :=
  test_editor
    {| state := <[editor_id := HUNGRY]> (state s);
       has_board := has_board s |}
    editor_id.

(** The test of the wait loop of [take_boards]. *)
Definition take_boards_waits (s : StudioControl) (editor_id : nat) : bool :=
  bool_decide (state s !! editor_id = Some HUNGRY).

Definition put_boards (s : StudioControl) (editor_id : nat) : StudioControl :=
  let s1 :=
    {| state := <[editor_id := THINKING]> (state s);
       has_board :=
         <[(editor_id + 1) mod NUM_BOARDS := 0%Z]>
           (<[editor_id := 0%Z]> (has_board s)) |} in
  let s2 := test_editor s1 ((editor_id + NUM_EDITORS - 1) mod NUM_EDITORS) in
  test_editor s2 ((editor_id + 1) mod NUM_EDITORS).

(** [test_editor] signals [cond[editor_id]] when it lets the editor in;
    only that editor ever waits on this condition. *)
Definition test_editor_signals (s : StudioControl) (editor_id : nat)
  (l : list StudioThreads.editor_at) : list StudioThreads.editor_at :=
  if can_edit s editor_id then alter StudioThreads.wake_editor editor_id l
  else l.

(** [put_boards] up to the two calls of [test_editor]. *)
Definition put_boards_frees (s : StudioControl) (editor_id : nat)
  : StudioControl :=
  {| state := <[editor_id := THINKING]> (state s);
     has_board :=
       <[(editor_id + 1) mod NUM_BOARDS := 0%Z]>
         (<[editor_id := 0%Z]> (has_board s)) |}.

(** The signals of the two calls of [test_editor] in [put_boards]. *)
Definition put_boards_signals (s : StudioControl) (editor_id : nat)
  (l : list StudioThreads.editor_at) : list StudioThreads.editor_at :=
  let s1 := put_boards_frees s editor_id in
  let left := (editor_id + NUM_EDITORS - 1) mod NUM_EDITORS in
  let right := (editor_id + 1) mod NUM_EDITORS in
  test_editor_signals (test_editor s1 left) right
    (test_editor_signals s1 left l).

(** The five [editor] threads; the places of a thread are those of the
    monitor variant. *)
Record crew : Type := mkCrew {
  shared : StudioControl;
  editors : list StudioThreads.editor_at
}.

Definition start : crew :=
  {| shared := init_studio studio;
     editors := replicate NUM_EDITORS (StudioThreads.EditorTest 0) |}.

Definition set_editor (y : crew) (e : nat) (p : StudioThreads.editor_at) : crew :=
  {| shared := shared y; editors := <[e := p]> (editors y) |}.

(** The next step of editor [e]: up to its next test, call, wait or
    return; an editor that sleeps takes no step. *)
Definition advance (y : crew) (e : nat) : option crew :=
  match editors y !! e with
  | Some (StudioThreads.EditorTest i) =>
      if decide (i < NUM_EDITS)%Z
      then Some (set_editor y e (StudioThreads.EditorThinks i))
      else Some (set_editor y e (StudioThreads.EditorDone i))
  | Some (StudioThreads.EditorThinks i) =>
      Some {| shared := take_boards_enter (shared y) e;
              editors := <[e := StudioThreads.EditorWaits i]> (editors y) |}
  | Some (StudioThreads.EditorWaits i) =>
      if take_boards_waits (shared y) e
      then Some (set_editor y e (StudioThreads.EditorAsleep i))
      else Some (set_editor y e (StudioThreads.EditorEdits i))
  | Some (StudioThreads.EditorEdits i) =>
      match int_add i 1 with
      | Returns i' =>
          Some {| shared := put_boards (shared y) e;
                  editors :=
                    put_boards_signals (shared y) e
                      (<[e := StudioThreads.EditorTest i']> (editors y)) |}
      | _ => None
      end
  | _ => None
  end.

Definition step (y y' : crew) : Prop := exists e, advance y e = Some y'.

(** A spurious wake-up of editor [e]. *)
Definition wakes (y y' : crew) : Prop :=
  exists e i, editors y !! e = Some (StudioThreads.EditorAsleep i) /\
              y' = set_editor y e (StudioThreads.EditorWaits i).

Inductive reachable : crew -> Prop :=
| reach_start : reachable start
| reach_step y y' : reachable y -> step y y' -> reachable y'
| reach_wakes y y' : reachable y -> wakes y y' -> reachable y'.

Fixpoint schedule (ids : list nat) (y : crew) : option crew :=
  match ids with
  | [] => Some y
  | e :: ids' =>
      match advance y e with
      | Some y' => schedule ids' y'
      | None => None
      end
  end.

Definition after (ids : list nat) : crew := default start (schedule ids start).

Definition editing (s : StudioControl) (i : nat) : Prop :=
  state s !! i = Some EDITING.

#[global] Instance editing_dec s i : Decision (editing s i).
Proof. unfold editing. apply _. Defined.

Definition finished (y : crew) : Prop :=
  Forall StudioThreads.editor_done (editors y).

(** The same studio as the monitor variant sees it. *)
Definition state_of (x : EditorState) : Studio.EditorState :=
  match x with
  | THINKING => Studio.THINKING
  | HUNGRY => Studio.HUNGRY
  | EDITING => Studio.EDITING
  end.

Definition to_monitor (s : StudioControl) : Studio.StudioMonitor :=
  {| Studio.state := state_of <$> state s;
     Studio.board_in_use := has_board s;
     Studio.should_stop := 0%Z |}.

Definition to_monitor_crew (y : crew) : StudioThreads.crew :=
  {| StudioThreads.shared := to_monitor (shared y);
     StudioThreads.editors := editors y |}.

(** *** The mutex variant takes the steps of the monitor variant *)

#[global] Instance state_of_inj : Inj (=) (=) state_of.
Proof. intros [] [] H; (done || discriminate). Qed.

Lemma lookup_state_of (l : list EditorState) (i : nat) x :
  (state_of <$> l) !! i = Some (state_of x) <-> l !! i = Some x.
Proof.
  rewrite list_lookup_fmap. destruct (l !! i) as [z |]; simpl.
  - split; intros H; injection H as H.
    + by apply (inj state_of) in H as ->.
    + by rewrite H.
  - split; discriminate.
Qed.

Lemma can_edit_to_monitor s i :
  Studio.can_edit (to_monitor s) i = can_edit s i.
Proof.
  unfold Studio.can_edit, can_edit, to_monitor; simpl.
  change Studio.HUNGRY with (state_of HUNGRY).
  by rewrite (bool_decide_ext _ _ (lookup_state_of (state s) i HUNGRY)).
Qed.

Lemma test_editor_to_monitor s i :
  to_monitor (test_editor s i) = Studio.try_to_edit (to_monitor s) i.
Proof.
  unfold Studio.try_to_edit, test_editor.
  rewrite can_edit_to_monitor. destruct (can_edit s i); [| done].
  unfold to_monitor; simpl. by rewrite list_fmap_insert.
Qed.

Lemma take_boards_enter_to_monitor s i :
  to_monitor (take_boards_enter s i)
  = Studio.request_boards_enter (to_monitor s) i.
Proof.
  unfold take_boards_enter, Studio.request_boards_enter.
  rewrite test_editor_to_monitor. f_equal.
  unfold to_monitor; simpl. by rewrite list_fmap_insert.
Qed.

Lemma take_boards_waits_to_monitor s i :
  Studio.request_boards_waits (to_monitor s) i = take_boards_waits s i.
Proof.
  unfold Studio.request_boards_waits, take_boards_waits.
  apply bool_decide_ext. apply (lookup_state_of (state s) i HUNGRY).
Qed.

Lemma put_boards_to_monitor s i :
  to_monitor (put_boards s i) = Studio.release_boards (to_monitor s) i.
Proof.
  unfold put_boards, Studio.release_boards.
  rewrite !test_editor_to_monitor. do 2 f_equal.
  unfold to_monitor; simpl. by rewrite list_fmap_insert.
Qed.

Lemma test_editor_signals_to_monitor s j l :
  StudioThreads.try_to_edit_signals (to_monitor s) j l
  = test_editor_signals s j l.
Proof.
  unfold StudioThreads.try_to_edit_signals, test_editor_signals.
  by rewrite can_edit_to_monitor.
Qed.

Lemma put_boards_frees_to_monitor s e :
  to_monitor (put_boards_frees s e)
  = StudioThreads.release_boards_frees (to_monitor s) e.
Proof.
  unfold to_monitor, put_boards_frees, StudioThreads.release_boards_frees.
  simpl. by rewrite list_fmap_insert.
Qed.

Lemma put_boards_signals_to_monitor s e l :
  StudioThreads.release_boards_signals (to_monitor s) e l
  = put_boards_signals s e l.
Proof.
  unfold StudioThreads.release_boards_signals, put_boards_signals. cbv zeta.
  rewrite <- put_boards_frees_to_monitor, <- test_editor_to_monitor.
  by rewrite !test_editor_signals_to_monitor.
Qed.

Lemma advance_to_monitor y e :
  StudioThreads.advance (to_monitor_crew y) e = to_monitor_crew <$> advance y e.
Proof.
  unfold StudioThreads.advance, advance, to_monitor_crew.
  cbn [StudioThreads.shared StudioThreads.editors].
  destruct (editors y !! e) as [[i | i | i | i | i | i] |]; try done.
  - change (Studio.should_stop (to_monitor (shared y))) with 0%Z.
    change StudioThreads.NUM_EDITS with NUM_EDITS.
    destruct (decide (i < NUM_EDITS)%Z) as [Hi | Hi].
    + by rewrite decide_True.
    + rewrite decide_False; [done | tauto].
  - simpl. by rewrite take_boards_enter_to_monitor.
  - rewrite take_boards_waits_to_monitor.
    by destruct (take_boards_waits (shared y) e).
  - destruct (int_add i 1) as [i' | |]; try done.
    simpl. by rewrite put_boards_to_monitor, put_boards_signals_to_monitor.
Qed.

(** The mutex variant is the monitor variant under other names: it starts
    in the same state and each editor takes the same steps, so [test_editor],
    [take_boards] and [put_boards] are [try_to_edit], [request_boards] and
    [release_boards]. *)
Theorem mutex_variant_steps_as_monitor :
  to_monitor_crew start = StudioThreads.start /\
  forall y e,
    StudioThreads.advance (to_monitor_crew y) e
    = to_monitor_crew <$> advance y e.
Proof.
  split; [reflexivity | apply advance_to_monitor].
Qed.

Lemma reachable_to_monitor y :
  reachable y -> StudioThreads.reachable (to_monitor_crew y).
Proof.
  induction 1 as [| y y' _ IH [e He] | y y' _ IH (e & i & He & ->)];
    [apply StudioThreads.reach_start | |].
  - apply (StudioThreads.reach_step (to_monitor_crew y)); [exact IH |].
    apply (StudioThreads.advance_step _ e).
    by rewrite advance_to_monitor, He.
  - apply (StudioThreads.reach_wakes (to_monitor_crew y)); [exact IH |].
    by apply (StudioThreads.editor_wakes (to_monitor_crew y) e i).
Qed.

Lemma editing_to_monitor s i :
  Studio.editing (to_monitor s) i <-> editing s i.
Proof. apply (lookup_state_of (state s) i EDITING). Qed.

(** In the mutex variant two neighbours never edit together, and a board is
    flagged in [has_board] exactly when one of its two editors is
    [EDITING]. *)
Theorem mutex_editors_exclude y :
  reachable y ->
  (forall i, i < NUM_EDITORS ->
     ~ (editing (shared y) i /\ editing (shared y) ((i + 1) mod NUM_EDITORS))) /\
  (forall b, b < NUM_BOARDS ->
     has_board (shared y) !! b
     = Some (if decide (editing (shared y) b \/
                        editing (shared y) ((b + NUM_EDITORS - 1) mod NUM_EDITORS))
             then 1%Z else 0%Z)).
Proof.
  intros Hr.
  pose proof (StudioThreads.crew_reachable_sound _ (reachable_to_monitor y Hr)) as Hy.
  pose proof (StudioThreads.s_consistent _ Hy) as Hc.
  cbn [StudioThreads.shared to_monitor_crew] in Hc.
  split.
  - intros i Hi [E1 E2].
    apply (Studio.no_adjacent _ Hc i Hi).
    split; by apply editing_to_monitor.
  - intros b Hb.
    change (has_board (shared y))
      with (Studio.board_in_use (to_monitor (shared y))).
    destruct (Studio.boards_match _ Hc b Hb) as [[H1 He] | (H0 & Hn1 & Hn2)].
    + rewrite H1. rewrite decide_True; [done |].
      destruct He as [E | E]; [left | right]; by apply editing_to_monitor.
    + rewrite H0. rewrite decide_False; [done |].
      intros [E | E]; [apply Hn1 | apply Hn2]; by apply editing_to_monitor.
Qed.

(** In the mutex variant too some editor is awake and can run while one
    has not returned. *)
Theorem mutex_editors_never_stuck y :
  reachable y -> ~ finished y -> exists e y', advance y e = Some y'.
Proof.
  intros Hr Hnot.
  pose proof (StudioThreads.crew_reachable_sound _ (reachable_to_monitor y Hr)) as Hy.
  destruct (StudioThreads.crew_sound_can_step _ Hy Hnot) as [z Hz].
  apply StudioThreads.step_advance in Hz as [e He].
  rewrite advance_to_monitor in He.
  destruct (advance y e) as [y' |] eqn:Ha; [| discriminate].
  by exists e, y'.
Qed.

(** *** The properties on a run *)

(** Editors 0 and 2 edit, editor 1 has asked for its boards and sleeps. *)
Definition crowded_run : list nat := [0; 0; 0; 2; 2; 2; 1; 1; 1].

Lemma mutex_schedule_reachable ids : forall y y',
  reachable y -> schedule ids y = Some y' -> reachable y'.
Proof.
  induction ids as [| e ids IH]; intros y y' Hy H; simpl in H.
  - by injection H as <-.
  - destruct (advance y e) as [y1 |] eqn:H1; [| discriminate].
    apply (IH y1 y'); [| done].
    apply (reach_step y y1 Hy). by exists e.
Qed.

Lemma mutex_crowded_run_runs : schedule crowded_run start = Some (after crowded_run).
Proof. vm_compute. reflexivity. Qed.

Lemma mutex_reachable_after_crowded_run : reachable (after crowded_run).
Proof. exact (mutex_schedule_reachable crowded_run _ _ reach_start mutex_crowded_run_runs). Qed.

Lemma mutex_crowded_run_state :
  state (shared (after crowded_run))
  = [EDITING; HUNGRY; EDITING; THINKING; THINKING] /\
  has_board (shared (after crowded_run)) = [1; 1; 1; 1; 0]%Z /\
  editors (after crowded_run)
  = [StudioThreads.EditorEdits 0; StudioThreads.EditorAsleep 0;
     StudioThreads.EditorEdits 0; StudioThreads.EditorTest 0;
     StudioThreads.EditorTest 0].
Proof. vm_compute. repeat split; reflexivity. Qed.

Lemma mutex_crowded_run_unfinished : ~ finished (after crowded_run).
Proof.
  unfold finished. rewrite (proj2 (proj2 mutex_crowded_run_state)). intros H.
  exact (Forall_lookup_1 _ _ 0 (StudioThreads.EditorEdits 0) H eq_refl).
Qed.

Lemma mutex_editors_exclude_witness :
  reachable (after crowded_run) /\
  ~ (editing (shared (after crowded_run)) 0 /\
     editing (shared (after crowded_run)) ((0 + 1) mod NUM_EDITORS)).
Proof.
  split; [exact mutex_reachable_after_crowded_run |].
  apply (proj1 (mutex_editors_exclude _ mutex_reachable_after_crowded_run) 0).
  unfold NUM_EDITORS. lia.
Defined.

Lemma mutex_editors_never_stuck_witness :
  reachable (after crowded_run) /\ ~ finished (after crowded_run) /\
  exists e y', advance (after crowded_run) e = Some y'.
Proof.
  split; [exact mutex_reachable_after_crowded_run |].
  split; [exact mutex_crowded_run_unfinished |].
  exact (mutex_editors_never_stuck _ mutex_reachable_after_crowded_run
           mutex_crowded_run_unfinished).
Defined.

End StudioMutex.

(** * The threads of the catalogue (readers-writers/ecommerce_monitor.c)

    [reader], [writer] and the part of [main] that starts them, with the
    signals of [end_read] and [end_write]. *)

Module CatalogThreads.

Definition NUM_READERS : Z := 5.
Definition NUM_WRITERS : Z := 2.
Definition NUM_READS : Z := 5.
Definition NUM_WRITES : Z := 3.

(** Where a [reader] stands, with its loop counter [i]. *)
Inductive reader_place : Type :=
| ReaderTest (i : Z)    (* at the loop test *)
| ReaderStarts (i : Z)  (* in [start_read], at the test of the wait loop *)
| ReaderAsleep (i : Z)  (* in [start_read], in [pthread_cond_wait] on [can_read] *)
| ReaderReads (i : Z)   (* past [start_read], before it reads a product *)
| ReaderEnds (i : Z)    (* at [end_read] *)
| ReaderDone (i : Z).   (* returned *)

(** Where a [writer] stands, with its loop counter [i]. *)
Inductive writer_place : Type :=
| WriterTest (i : Z)    (* at the loop test *)
| WriterCalls (i : Z)   (* at [start_write] *)
| WriterWaits (i : Z)   (* in [start_write], at the test of the wait loop *)
| WriterAsleep (i : Z)  (* in [start_write], in [pthread_cond_wait] on [can_write] *)
| WriterWrites (i : Z)  (* past [start_write], before it updates a product *)
| WriterWrote (i : Z)   (* at [end_write] *)
| WriterDone (i : Z).   (* returned *)

Definition reader_asleep (p : reader_place) : bool :=
  match p with ReaderAsleep _ => true | _ => false end.

Definition writer_asleep (p : writer_place) : bool :=
  match p with WriterAsleep _ => true | _ => false end.

Definition wake_reader (p : reader_place) : reader_place :=
  match p with ReaderAsleep i => ReaderStarts i | _ => p end.

Definition wake_writer (p : writer_place) : writer_place :=
  match p with WriterAsleep i => WriterWaits i | _ => p end.

Definition reader_done (p : reader_place) : Prop :=
  match p with ReaderDone _ => True | _ => False end.

Definition writer_done (p : writer_place) : Prop :=
  match p with WriterDone _ => True | _ => False end.

#[global] Instance reader_done_dec p : Decision (reader_done p).
Proof. destruct p; simpl; apply _. Defined.

#[global] Instance writer_done_dec p : Decision (writer_done p).
Proof. destruct p; simpl; apply _. Defined.

(** 1 for a reader counted in [num_readers]. *)
Definition reading (p : reader_place) : Z :=
  match p with ReaderReads _ | ReaderEnds _ => 1 | _ => 0 end.

(** 1 for a writer counted in [num_writers]. *)
Definition writing (p : writer_place) : Z :=
  match p with WriterWrites _ | WriterWrote _ => 1 | _ => 0 end.

(** 1 for a writer counted in [writer_waiting]. *)
Definition queueing (p : writer_place) : Z :=
  match p with WriterWaits _ | WriterAsleep _ => 1 | _ => 0 end.

(** 1 for a writer awake at the test of its wait loop. *)
Definition at_resume (p : writer_place) : Z :=
  match p with WriterWaits _ => 1 | _ => 0 end.

(** The updates a writer has made. *)
Definition updates (p : writer_place) : Z :=
  match p with
  | WriterTest i | WriterCalls i | WriterWaits i | WriterAsleep i
  | WriterWrites i | WriterDone i => i
  | WriterWrote i => i + 1
  end.

Definition reader_ok (p : reader_place) : Prop :=
  match p with
  | ReaderTest i => 0 <= i <= NUM_READS
  | ReaderStarts i | ReaderAsleep i | ReaderReads i | ReaderEnds i =>
      0 <= i < NUM_READS
  | ReaderDone i => i = NUM_READS
  end.

Definition writer_ok (p : writer_place) : Prop :=
  match p with
  | WriterTest i => 0 <= i <= NUM_WRITES
  | WriterCalls i | WriterWaits i | WriterAsleep i | WriterWrites i
  | WriterWrote i => 0 <= i < NUM_WRITES
  | WriterDone i => i = NUM_WRITES
  end.

(** A bound on the steps a thread still takes, leaving aside the times it
    is woken. *)
Definition reader_steps (p : reader_place) : Z :=
  match p with
  | ReaderTest i => 6 * (NUM_READS - i) + 1
  | ReaderStarts i => 6 * (NUM_READS - i)
  | ReaderAsleep i => 6 * (NUM_READS - i) - 1
  | ReaderReads i => 6 * (NUM_READS - i) - 2
  | ReaderEnds i => 6 * (NUM_READS - i) - 3
  | ReaderDone _ => 0
  end.

Definition writer_steps (p : writer_place) : Z :=
  match p with
  | WriterTest i => 11 * (NUM_WRITES - i) + 1
  | WriterCalls i => 11 * (NUM_WRITES - i)
  | WriterWaits i => 11 * (NUM_WRITES - i) - 1
  | WriterAsleep i => 11 * (NUM_WRITES - i) - 2
  | WriterWrites i => 11 * (NUM_WRITES - i) - 3
  | WriterWrote i => 11 * (NUM_WRITES - i) - 4
  | WriterDone _ => 0
  end.

Section Threads.

Context {float : Type}.
Variable zero_price : float.
Variable initial_price : Z -> float.
Variable scaled_price : float -> Z -> float.

(** What [rand()] returns to [monitor_init]. *)
Variable rand : nat -> Z.

(** The monitor and the threads. *)
Record shop : Type := mkShop {
  gate : Catalog.CatalogMonitor float;
  readers : list reader_place;
  writers : list writer_place
}.

(** [main] has called [monitor_init] and started every thread. *)
Definition start : shop :=
  {| gate := Catalog.monitor_init initial_price rand (Catalog.catalog zero_price);
     readers := replicate (Z.to_nat NUM_READERS) (ReaderTest 0);
     writers := replicate (Z.to_nat NUM_WRITERS) (WriterTest 0) |}.

Definition set_reader (y : shop) (j : nat) (p : reader_place) : shop :=
  {| gate := gate y; readers := <[j := p]> (readers y); writers := writers y |}.

Definition set_writer (y : shop) (j : nat) (p : writer_place) : shop :=
  {| gate := gate y; readers := readers y; writers := <[j := p]> (writers y) |}.

(** One thread runs up to its next test, call, wait or return. The last
    reader out signals [can_write]; a writer that leaves signals
    [can_write] when a writer waits and broadcasts [can_read] otherwise. *)
Inductive step : shop -> shop -> Prop :=
| reader_goes_on y j i :
    readers y !! j = Some (ReaderTest i) ->
    i < NUM_READS -> truthy (Catalog.should_stop (gate y)) = false ->
    step y (set_reader y j (ReaderStarts i))
| reader_leaves_loop y j i :
    readers y !! j = Some (ReaderTest i) ->
    ~ (i < NUM_READS /\ truthy (Catalog.should_stop (gate y)) = false) ->
    step y (set_reader y j (ReaderDone i))
| reader_enters y j i g :
    readers y !! j = Some (ReaderStarts i) ->
    Catalog.start_read (gate y) = Returns g ->
    step y {| gate := g; readers := <[j := ReaderReads i]> (readers y);
              writers := writers y |}
| reader_sleeps y j i :
    readers y !! j = Some (ReaderStarts i) ->
    Catalog.start_read (gate y) = Waits ->
    step y (set_reader y j (ReaderAsleep i))
| reader_reads y j i r p :
    readers y !! j = Some (ReaderReads i) ->
    0 <= r <= INT_MAX ->
    read_at (Catalog.products (gate y)) (Z.rem r Catalog.MAX_PRODUCTS)
    = Returns p ->
    step y (set_reader y j (ReaderEnds i))
| reader_ends y j i g i' ws :
    readers y !! j = Some (ReaderEnds i) ->
    Catalog.end_read (gate y) = Returns g ->
    int_add i 1 = Returns i' ->
    (if Catalog.num_readers g =? 0
     then signalled writer_asleep wake_writer (writers y) ws
     else ws = writers y) ->
    step y {| gate := g; readers := <[j := ReaderTest i']> (readers y);
              writers := ws |}
| writer_goes_on y j i :
    writers y !! j = Some (WriterTest i) ->
    i < NUM_WRITES -> truthy (Catalog.should_stop (gate y)) = false ->
    step y (set_writer y j (WriterCalls i))
| writer_leaves_loop y j i :
    writers y !! j = Some (WriterTest i) ->
    ~ (i < NUM_WRITES /\ truthy (Catalog.should_stop (gate y)) = false) ->
    step y (set_writer y j (WriterDone i))
| writer_enters y j i g :
    writers y !! j = Some (WriterCalls i) ->
    Catalog.start_write_enter (gate y) = Returns g ->
    step y {| gate := g; readers := readers y;
              writers := <[j := WriterWaits i]> (writers y) |}
| writer_resumes y j i g :
    writers y !! j = Some (WriterWaits i) ->
    Catalog.start_write_resume (gate y) = Returns g ->
    step y {| gate := g; readers := readers y;
              writers := <[j := WriterWrites i]> (writers y) |}
| writer_sleeps y j i :
    writers y !! j = Some (WriterWaits i) ->
    Catalog.start_write_resume (gate y) = Waits ->
    step y (set_writer y j (WriterAsleep i))
| writer_updates y j i r1 r2 r3 g :
    writers y !! j = Some (WriterWrites i) ->
    0 <= r1 <= INT_MAX -> 0 <= r2 <= INT_MAX -> 0 <= r3 <= INT_MAX ->
    Catalog.writer_update scaled_price r1 r2 r3 (gate y) = Returns g ->
    step y {| gate := g; readers := readers y;
              writers := <[j := WriterWrote i]> (writers y) |}
| writer_ends y j i g i' rs ws :
    writers y !! j = Some (WriterWrote i) ->
    Catalog.end_write (gate y) = Returns g ->
    int_add i 1 = Returns i' ->
    (if 0 <? Catalog.writer_waiting g
     then rs = readers y /\
          signalled writer_asleep wake_writer
            (<[j := WriterTest i']> (writers y)) ws
     else rs = broadcast reader_asleep wake_reader (readers y) /\
          ws = <[j := WriterTest i']> (writers y)) ->
    step y {| gate := g; readers := rs; writers := ws |}.

(** A spurious wake-up, which [pthread_cond_wait] allows at any time. *)
Inductive wakes : shop -> shop -> Prop :=
| reader_wakes y j i :
    readers y !! j = Some (ReaderAsleep i) ->
    wakes y (set_reader y j (ReaderStarts i))
| writer_wakes y j i :
    writers y !! j = Some (WriterAsleep i) ->
    wakes y (set_writer y j (WriterWaits i)).

Inductive reachable : shop -> Prop :=
| reach_start : reachable start
| reach_step y y' : reachable y -> step y y' -> reachable y'
| reach_wakes y y' : reachable y -> wakes y y' -> reachable y'.

(** [n] steps and [w] spurious wake-ups lead from one state to another. *)
Inductive run : nat -> nat -> shop -> shop -> Prop :=
| run_nil y : run 0 0 y y
| run_step n w y y1 y2 : step y y1 -> run n w y1 y2 -> run (S n) w y y2
| run_wakes n w y y1 y2 : wakes y y1 -> run n w y1 y2 -> run n (S w) y y2.

(** The same steps as functions, to run a schedule; [r] is what [rand()]
    returns to the thread. *)
Definition advance_reader (y : shop) (j : nat) (r : Z) : option shop :=
  match readers y !! j with
  | Some (ReaderTest i) =>
      if decide (i < NUM_READS /\ truthy (Catalog.should_stop (gate y)) = false)
      then Some (set_reader y j (ReaderStarts i))
      else Some (set_reader y j (ReaderDone i))
  | Some (ReaderStarts i) =>
      match Catalog.start_read (gate y) with
      | Returns g =>
          Some {| gate := g; readers := <[j := ReaderReads i]> (readers y);
                  writers := writers y |}
      | Waits => Some (set_reader y j (ReaderAsleep i))
      | Undefined => None
      end
  | Some (ReaderReads i) =>
      if decide (0 <= r <= INT_MAX) then
        match read_at (Catalog.products (gate y)) (Z.rem r Catalog.MAX_PRODUCTS) with
        | Returns _ => Some (set_reader y j (ReaderEnds i))
        | _ => None
        end
      else None
  | Some (ReaderEnds i) =>
      match Catalog.end_read (gate y), int_add i 1 with
      | Returns g, Returns i' =>
          Some {| gate := g; readers := <[j := ReaderTest i']> (readers y);
                  writers :=
                    if Catalog.num_readers g =? 0
                    then signal_first writer_asleep wake_writer (writers y)
                    else writers y |}
      | _, _ => None
      end
  | _ => None
  end.

Definition advance_writer (y : shop) (j : nat) (r : Z) : option shop :=
  match writers y !! j with
  | Some (WriterTest i) =>
      if decide (i < NUM_WRITES /\ truthy (Catalog.should_stop (gate y)) = false)
      then Some (set_writer y j (WriterCalls i))
      else Some (set_writer y j (WriterDone i))
  | Some (WriterCalls i) =>
      match Catalog.start_write_enter (gate y) with
      | Returns g =>
          Some {| gate := g; readers := readers y;
                  writers := <[j := WriterWaits i]> (writers y) |}
      | _ => None
      end
  | Some (WriterWaits i) =>
      match Catalog.start_write_resume (gate y) with
      | Returns g =>
          Some {| gate := g; readers := readers y;
                  writers := <[j := WriterWrites i]> (writers y) |}
      | Waits => Some (set_writer y j (WriterAsleep i))
      | Undefined => None
      end
  | Some (WriterWrites i) =>
      if decide (0 <= r <= INT_MAX) then
        match Catalog.writer_update scaled_price r r r (gate y) with
        | Returns g =>
            Some {| gate := g; readers := readers y;
                    writers := <[j := WriterWrote i]> (writers y) |}
        | _ => None
        end
      else None
  | Some (WriterWrote i) =>
      match Catalog.end_write (gate y), int_add i 1 with
      | Returns g, Returns i' =>
          if 0 <? Catalog.writer_waiting g
          then Some {| gate := g; readers := readers y;
                       writers :=
                         signal_first writer_asleep wake_writer
                           (<[j := WriterTest i']> (writers y)) |}
          else Some {| gate := g;
                       readers := broadcast reader_asleep wake_reader (readers y);
                       writers := <[j := WriterTest i']> (writers y) |}
      | _, _ => None
      end
  | _ => None
  end.

(** A schedule names the thread that runs next: [inl j] is reader [j],
    [inr j] writer [j]. *)
Fixpoint schedule (r : Z) (ids : list (nat + nat)) (y : shop) : option shop :=
  match ids with
  | [] => Some y
  | inl j :: ids' =>
      match advance_reader y j r with
      | Some y' => schedule r ids' y'
      | None => None
      end
  | inr j :: ids' =>
      match advance_writer y j r with
      | Some y' => schedule r ids' y'
      | None => None
      end
  end.

Definition finished (y : shop) : Prop :=
  Forall reader_done (readers y) /\ Forall writer_done (writers y).

Definition steps_left (y : shop) : Z :=
  total reader_steps (readers y) + total writer_steps (writers y).

(** The catalogue keeps its hundred products, product [k] with the
    identifier [k + 1], and no stock has grown by more than six for each
    update made. *)
Record stocked (y : shop) : Prop := mkStocked {
  k_length : Z.of_nat (length (Catalog.products (gate y))) = Catalog.MAX_PRODUCTS;
  k_ids : forall (k : nat) p,
    Catalog.products (gate y) !! k = Some p -> Catalog.id p = Z.of_nat k + 1;
  k_stock : Forall (fun p => 0 <= Catalog.stock p
                             <= 49 + 6 * total updates (writers y))
                   (Catalog.products (gate y))
}.

(** The counters count the threads, and a writer is alone. *)
Record sound (y : shop) : Prop := mkSound {
  s_open : Catalog.should_stop (gate y) = 0;
  s_readers : length (readers y) = Z.to_nat NUM_READERS;
  s_writers : length (writers y) = Z.to_nat NUM_WRITERS;
  s_reading : Catalog.num_readers (gate y) = total reading (readers y);
  s_writing : Catalog.num_writers (gate y) = total writing (writers y);
  s_queueing : Catalog.writer_waiting (gate y) = total queueing (writers y);
  s_alone : Catalog.num_writers (gate y) <= 1 /\
            (0 < Catalog.num_writers (gate y) ->
             Catalog.num_readers (gate y) = 0);
  s_reader_ok : Forall reader_ok (readers y);
  s_writer_ok : Forall writer_ok (writers y);
  s_stocked : stocked y
}.

(** Nobody sleeps through what it waits for: a reader sleeps only while a
    writer writes or waits; a writer sleeps only while somebody is inside
    or a writer is awake at the test of its wait loop. *)
Record alert (y : shop) : Prop := mkAlert {
  a_readers : Exists (fun p => reader_asleep p = true) (readers y) ->
    0 < Catalog.num_writers (gate y) + Catalog.writer_waiting (gate y);
  a_writers : Exists (fun p => writer_asleep p = true) (writers y) ->
    0 < Catalog.num_readers (gate y) + Catalog.num_writers (gate y)
        + total at_resume (writers y)
}.

(** A call has defined behaviour: it returns or waits. *)
Definition defined {A : Type} (o : outcome A) : Prop := o <> Undefined.

(** *** Waking changes no counter *)

Lemma wake_reader_reading p : reading (wake_reader p) = reading p.
Proof. by destruct p. Qed.

Lemma wake_reader_ok p : reader_ok p -> reader_ok (wake_reader p).
Proof. by destruct p. Qed.

Lemma wake_reader_awake p : reader_asleep (wake_reader p) = false.
Proof. by destruct p. Qed.

Lemma wake_writer_writing p : writing (wake_writer p) = writing p.
Proof. by destruct p. Qed.

Lemma wake_writer_queueing p : queueing (wake_writer p) = queueing p.
Proof. by destruct p. Qed.

Lemma wake_writer_updates p : updates (wake_writer p) = updates p.
Proof. by destruct p. Qed.

Lemma wake_writer_ok p : writer_ok p -> writer_ok (wake_writer p).
Proof. by destruct p. Qed.

Lemma reading_nonneg rs : 0 <= total reading rs.
Proof. apply total_nonneg, Forall_forall. intros p _. destruct p; simpl; lia. Qed.

Lemma writing_nonneg ws : 0 <= total writing ws.
Proof. apply total_nonneg, Forall_forall. intros p _. destruct p; simpl; lia. Qed.

Lemma queueing_nonneg ws : 0 <= total queueing ws.
Proof. apply total_nonneg, Forall_forall. intros p _. destruct p; simpl; lia. Qed.

Lemma at_resume_nonneg ws : 0 <= total at_resume ws.
Proof. apply total_nonneg, Forall_forall. intros p _. destruct p; simpl; lia. Qed.

Lemma updates_bounds ws :
  Forall writer_ok ws ->
  0 <= total updates ws <= Z.of_nat (length ws) * NUM_WRITES.
Proof.
  intros Hok.
  pose proof (total_bounds updates 0 NUM_WRITES ws) as H. rewrite Z.mul_0_r in H.
  apply H. eapply Forall_impl; [exact Hok |].
  intros p. destruct p; simpl; unfold NUM_WRITES; lia.
Qed.

(** *** The catalogue after [monitor_init] *)

Lemma length_init_products n : forall i ps,
  length (Catalog.init_products initial_price rand n i ps) = length ps.
Proof.
  induction n as [| n IH]; intros i ps; simpl; [done |].
  by rewrite IH, length_insert.
Qed.

(** The loop writes the [n] products from [i] on and no other. *)
Lemma lookup_init_products n : forall (i : nat) ps (k : nat),
  (i + n <= length ps)%nat ->
  Catalog.init_products initial_price rand n i ps !! k
  = if decide (i <= k < i + n)%nat
    then Some {| Catalog.id := Z.of_nat k + 1;
                 Catalog.price :=
                   initial_price (Z.rem (rand (2 * k)%nat) 1000);
                 Catalog.stock := Z.rem (rand (2 * k + 1)%nat) 50 |}
    else ps !! k.
Proof.
  induction n as [| n IH]; intros i ps k Hlen; simpl.
  - rewrite decide_False by lia. done.
  - rewrite IH by (rewrite length_insert; lia).
    destruct (decide (S i <= k < S i + n)%nat) as [Hk | Hk].
    + rewrite decide_True by lia. done.
    + destruct (decide (k = i)) as [-> | Hne].
      * rewrite decide_True by lia.
        rewrite list_lookup_insert_eq by lia. done.
      * rewrite decide_False by lia.
        by rewrite list_lookup_insert_ne.
Qed.

Hypothesis rand_nonneg : forall k, 0 <= rand k.

Lemma stocked_start : stocked start.
Proof.
  assert (Hlen : length (Catalog.products (gate start)) = 100%nat).
  { unfold start; cbn [gate Catalog.monitor_init Catalog.products].
    rewrite length_init_products. unfold Catalog.catalog.
    cbn [Catalog.products]. by rewrite length_replicate. }
  assert (Hlook : forall (k : nat) p,
            Catalog.products (gate start) !! k = Some p ->
            Catalog.id p = Z.of_nat k + 1 /\ 0 <= Catalog.stock p <= 49).
  { intros k p Hk.
    pose proof (lookup_lt_Some _ _ _ Hk) as Hlt. rewrite Hlen in Hlt.
    unfold start in Hk; cbn [gate Catalog.monitor_init Catalog.products] in Hk.
    rewrite lookup_init_products in Hk.
    - rewrite decide_True in Hk
        by (unfold Catalog.MAX_PRODUCTS; simpl; lia).
      injection Hk as <-. cbn [Catalog.id Catalog.stock]. split; [done |].
      assert (Hrem : forall m, 0 <= Z.rem (rand m) 50 < 50).
      { intros m. split; [apply Z.rem_nonneg; [lia | apply rand_nonneg] |].
        apply Z.rem_bound_pos; [apply rand_nonneg | lia]. }
      match goal with |- context [rand ?m] => specialize (Hrem m) end. lia.
    - unfold Catalog.catalog. cbn [Catalog.products].
      rewrite length_replicate. lia. }
  split.
  - rewrite Hlen. reflexivity.
  - intros k p Hk. by apply Hlook.
  - apply Forall_lookup. intros k p Hk.
    destruct (Hlook k p Hk) as [_ Hs].
    change (total updates (writers start)) with 0. lia.
Qed.

Lemma shop_sound_start : sound start.
Proof.
  split; try reflexivity.
  - split; simpl; [lia | done].
  - apply Forall_replicate. simpl. unfold NUM_READS. lia.
  - apply Forall_replicate. simpl. unfold NUM_WRITES. lia.
  - apply stocked_start.
Qed.

Lemma shop_alert_start : alert start.
Proof.
  split; intros H; exfalso; apply Exists_exists in H as (x & Hx & Hs);
    apply elem_of_replicate in Hx as [-> _]; discriminate.
Qed.

(** *** Every step keeps the counters right *)

Lemma stocked_same y y' :
  Catalog.products (gate y') = Catalog.products (gate y) ->
  total updates (writers y') = total updates (writers y) ->
  stocked y -> stocked y'.
Proof.
  intros Hp Hu [Hl Hi Hs]. split; rewrite ?Hp, ?Hu; done.
Qed.

Lemma shop_sound_woken y rs ws :
  sound y ->
  woken reader_asleep wake_reader (readers y) rs ->
  woken writer_asleep wake_writer (writers y) ws ->
  sound {| gate := gate y; readers := rs; writers := ws |}.
Proof.
  intros [Ho Hlr Hlw Hr Hw Hq Ha Hrok Hwok Hst] Hwr Hww.
  split; cbn [gate readers writers]; try done.
  - by rewrite (woken_length _ _ _ _ Hwr).
  - by rewrite (woken_length _ _ _ _ Hww).
  - by rewrite (woken_total _ _ reading _ _ (fun p _ => wake_reader_reading p) Hwr).
  - by rewrite (woken_total _ _ writing _ _ (fun p _ => wake_writer_writing p) Hww).
  - by rewrite (woken_total _ _ queueing _ _
                  (fun p _ => wake_writer_queueing p) Hww).
  - apply (woken_Forall _ _ _ _ _ (fun p _ => wake_reader_ok p) Hwr Hrok).
  - apply (woken_Forall _ _ _ _ _ (fun p _ => wake_writer_ok p) Hww Hwok).
  - apply (stocked_same y); [done | | done]. cbn [writers].
    by rewrite (woken_total _ _ updates _ _ (fun p _ => wake_writer_updates p) Hww).
Qed.

Lemma sound_reader_moves y j p p' :
  sound y -> readers y !! j = Some p ->
  reading p' = reading p -> reader_ok p' ->
  sound (set_reader y j p').
Proof.
  intros [Ho Hlr Hlw Hr Hw Hq Ha Hrok Hwok Hst] Hj Hrd Hok.
  split; cbn [gate readers writers set_reader]; try done.
  - by rewrite length_insert.
  - rewrite (total_insert _ _ _ _ _ Hj). lia.
  - by apply Forall_insert.
  - by apply (stocked_same y).
Qed.

Lemma sound_writer_moves y j p p' :
  sound y -> writers y !! j = Some p ->
  writing p' = writing p -> queueing p' = queueing p ->
  updates p' = updates p -> writer_ok p' ->
  sound (set_writer y j p').
Proof.
  intros [Ho Hlr Hlw Hr Hw Hq Ha Hrok Hwok Hst] Hj Hwr Hqu Hup Hok.
  split; cbn [gate readers writers set_writer]; try done.
  - by rewrite length_insert.
  - rewrite (total_insert _ _ _ _ _ Hj). lia.
  - rewrite (total_insert _ _ _ _ _ Hj). lia.
  - by apply Forall_insert.
  - apply (stocked_same y); [done | | done]. cbn [writers set_writer].
    rewrite (total_insert _ _ _ _ _ Hj). lia.
Qed.

Lemma sound_reader_enters y j i g :
  sound y -> readers y !! j = Some (ReaderStarts i) ->
  Catalog.start_read (gate y) = Returns g ->
  sound {| gate := g; readers := <[j := ReaderReads i]> (readers y);
           writers := writers y |}.
Proof.
  intros [Ho Hlr Hlw Hr Hw Hq Ha Hrok Hwok Hst] Hj Hg.
  pose proof (Forall_lookup_1 _ _ _ _ Hrok Hj) as Hok.
  pose proof (writing_nonneg (writers y)).
  apply Catalog.start_read_inv in Hg as (Hnw & Hnq & ->).
  split; cbn [gate readers writers]; simpl; try done.
  - by rewrite length_insert.
  - rewrite (total_insert _ _ _ _ _ Hj). simpl. lia.
  - split; [lia |]. intros Hpos. lia.
  - by apply Forall_insert.
  - by apply (stocked_same y).
Qed.

Lemma sound_reader_ends y j i g :
  sound y -> readers y !! j = Some (ReaderEnds i) ->
  Catalog.end_read (gate y) = Returns g ->
  sound {| gate := g; readers := <[j := ReaderTest (i + 1)]> (readers y);
           writers := writers y |}.
Proof.
  intros [Ho Hlr Hlw Hr Hw Hq Ha Hrok Hwok Hst] Hj Hg.
  pose proof (Forall_lookup_1 _ _ _ _ Hrok Hj) as Hok. simpl in Hok.
  assert (Hin : reading (ReaderEnds i) <= total reading (readers y)).
  { apply (total_lookup_le reading _ j); [| done].
    apply Forall_forall. intros p _. destruct p; simpl; lia. }
  simpl in Hin.
  apply Catalog.end_read_inv in Hg as ->.
  split; cbn [gate readers writers]; simpl; try done.
  - by rewrite length_insert.
  - rewrite (total_insert _ _ _ _ _ Hj). simpl. lia.
  - destruct Ha as [Ha1 Ha2]. split; [done |]. intros Hpos.
    specialize (Ha2 Hpos). lia.
  - apply Forall_insert; [done |]. simpl. lia.
  - by apply (stocked_same y).
Qed.

Lemma sound_writer_enters y j i g :
  sound y -> writers y !! j = Some (WriterCalls i) ->
  Catalog.start_write_enter (gate y) = Returns g ->
  sound {| gate := g; readers := readers y;
           writers := <[j := WriterWaits i]> (writers y) |}.
Proof.
  intros [Ho Hlr Hlw Hr Hw Hq Ha Hrok Hwok Hst] Hj Hg.
  pose proof (Forall_lookup_1 _ _ _ _ Hwok Hj) as Hok.
  apply Catalog.start_write_enter_inv in Hg as ->.
  split; cbn [gate readers writers]; simpl; try done.
  - by rewrite length_insert.
  - rewrite (total_insert _ _ _ _ _ Hj). simpl. lia.
  - rewrite (total_insert _ _ _ _ _ Hj). simpl. lia.
  - by apply Forall_insert.
  - apply (stocked_same y); [done | | done]. cbn [writers].
    rewrite (total_insert _ _ _ _ _ Hj). simpl. lia.
Qed.

Lemma sound_writer_resumes y j i g :
  sound y -> writers y !! j = Some (WriterWaits i) ->
  Catalog.start_write_resume (gate y) = Returns g ->
  sound {| gate := g; readers := readers y;
           writers := <[j := WriterWrites i]> (writers y) |}.
Proof.
  intros [Ho Hlr Hlw Hr Hw Hq Ha Hrok Hwok Hst] Hj Hg.
  pose proof (Forall_lookup_1 _ _ _ _ Hwok Hj) as Hok.
  pose proof (reading_nonneg (readers y)).
  pose proof (writing_nonneg (writers y)).
  apply Catalog.start_write_resume_inv in Hg as (Hnr & Hnw & ->).
  split; cbn [gate readers writers]; simpl; try done.
  - by rewrite length_insert.
  - rewrite (total_insert _ _ _ _ _ Hj). simpl. lia.
  - rewrite (total_insert _ _ _ _ _ Hj). simpl. lia.
  - split; lia.
  - by apply Forall_insert.
  - apply (stocked_same y); [done | | done]. cbn [writers].
    rewrite (total_insert _ _ _ _ _ Hj). simpl. lia.
Qed.

Lemma sound_writer_updates y j i r1 r2 r3 g :
  sound y -> writers y !! j = Some (WriterWrites i) ->
  0 <= r3 ->
  Catalog.writer_update scaled_price r1 r2 r3 (gate y) = Returns g ->
  sound {| gate := g; readers := readers y;
           writers := <[j := WriterWrote i]> (writers y) |}.
Proof.
  intros [Ho Hlr Hlw Hr Hw Hq Ha Hrok Hwok [Hl Hi Hs]] Hj Hr3 Hg.
  pose proof (Forall_lookup_1 _ _ _ _ Hwok Hj) as Hok.
  apply Catalog.writer_update_inv in Hg as (p & Hp & ->).
  pose proof (lookup_lt_Some _ _ _ Hp) as Hlt.
  assert (Hch : 0 <= Z.rem r3 10 < 10).
  { split; [apply Z.rem_nonneg; lia | apply Z.rem_bound_pos; lia]. }
  assert (Hu : total updates (<[j := WriterWrote i]> (writers y))
               = total updates (writers y) + 1).
  { rewrite (total_insert _ _ _ _ _ Hj). simpl. lia. }
  split; cbn [gate readers writers]; simpl; try done.
  - by rewrite length_insert.
  - rewrite (total_insert _ _ _ _ _ Hj). simpl. lia.
  - rewrite (total_insert _ _ _ _ _ Hj). simpl. lia.
  - by apply Forall_insert.
  - split; cbn [gate writers]; simpl.
    + by rewrite length_insert.
    + intros k q Hk.
      destruct (decide (k = Z.to_nat (Z.rem r1 Catalog.MAX_PRODUCTS)))
        as [-> | Hne].
      * rewrite list_lookup_insert_eq in Hk by done. injection Hk as <-.
        simpl. by apply Hi.
      * rewrite list_lookup_insert_ne in Hk by done. by apply Hi.
    + rewrite Hu. apply Forall_insert.
      * eapply Forall_impl; [exact Hs |]. intros q Hsq. simpl in Hsq. lia.
      * simpl. pose proof (Forall_lookup_1 _ _ _ _ Hs Hp) as Hsp.
        simpl in Hsp. lia.
Qed.

Lemma sound_writer_ends y j i g :
  sound y -> writers y !! j = Some (WriterWrote i) ->
  Catalog.end_write (gate y) = Returns g ->
  sound {| gate := g; readers := readers y;
           writers := <[j := WriterTest (i + 1)]> (writers y) |}.
Proof.
  intros [Ho Hlr Hlw Hr Hw Hq Ha Hrok Hwok Hst] Hj Hg.
  pose proof (Forall_lookup_1 _ _ _ _ Hwok Hj) as Hok. simpl in Hok.
  pose proof (writing_nonneg (<[j := WriterTest (i + 1)]> (writers y))) as Hnn.
  rewrite (total_insert _ _ _ _ _ Hj) in Hnn. simpl in Hnn.
  apply Catalog.end_write_inv in Hg as ->.
  split; cbn [gate readers writers]; simpl; try done.
  - by rewrite length_insert.
  - rewrite (total_insert _ _ _ _ _ Hj). simpl. lia.
  - rewrite (total_insert _ _ _ _ _ Hj). simpl. lia.
  - destruct Ha as [Ha1 Ha2]. split; [lia |]. intros Hpos. lia.
  - apply Forall_insert; [done |]. simpl. lia.
  - apply (stocked_same y); [done | | done]. cbn [writers].
    rewrite (total_insert _ _ _ _ _ Hj). simpl. lia.
Qed.

Lemma loop_ends_at (i n : Z) c :
  Catalog.should_stop (float := float) c = 0 -> 0 <= i <= n ->
  ~ (i < n /\ truthy (Catalog.should_stop c) = false) -> i = n.
Proof.
  intros Ho Hi Hno. destruct (decide (i < n)) as [Hlt | Hge]; [| lia].
  exfalso. apply Hno. split; [done |]. by apply truthy_false.
Qed.

Lemma shop_step_sound y y' : step y y' -> sound y -> sound y'.
Proof.
  intros Hstep Hy.
  destruct Hstep as [y j i Hj Hi Hs | y j i Hj Hno | y j i g Hj Hg
                     | y j i Hj Hw | y j i r p Hj Hr Hp
                     | y j i g i' ws Hj Hg Hi' Hsig
                     | y j i Hj Hi Hs | y j i Hj Hno | y j i g Hj Hg
                     | y j i g Hj Hg | y j i Hj Hw
                     | y j i r1 r2 r3 g Hj Hr1 Hr2 Hr3 Hg
                     | y j i g i' rs ws Hj Hg Hi' Hsig].
  - pose proof (Forall_lookup_1 _ _ _ _ (s_reader_ok y Hy) Hj) as Hok.
    apply (sound_reader_moves y j _ _ Hy Hj); [done |]. simpl in *. lia.
  - pose proof (Forall_lookup_1 _ _ _ _ (s_reader_ok y Hy) Hj) as Hok.
    apply (sound_reader_moves y j _ _ Hy Hj); [done |]. simpl in *.
    by apply (loop_ends_at i NUM_READS (gate y) (s_open y Hy)).
  - by apply sound_reader_enters.
  - pose proof (Forall_lookup_1 _ _ _ _ (s_reader_ok y Hy) Hj) as Hok.
    by apply (sound_reader_moves y j _ _ Hy Hj).
  - pose proof (Forall_lookup_1 _ _ _ _ (s_reader_ok y Hy) Hj) as Hok.
    by apply (sound_reader_moves y j _ _ Hy Hj).
  - apply int_add_Returns in Hi' as [-> _].
    apply (shop_sound_woken _ _ ws (sound_reader_ends y j i g Hy Hj Hg));
      [apply woken_refl |]. cbn [writers].
    destruct (Catalog.num_readers g =? 0);
      [by apply signalled_woken | subst ws; apply woken_refl].
  - pose proof (Forall_lookup_1 _ _ _ _ (s_writer_ok y Hy) Hj) as Hok.
    apply (sound_writer_moves y j _ _ Hy Hj); try done. simpl in *. lia.
  - pose proof (Forall_lookup_1 _ _ _ _ (s_writer_ok y Hy) Hj) as Hok.
    apply (sound_writer_moves y j _ _ Hy Hj); try done. simpl in *.
    by apply (loop_ends_at i NUM_WRITES (gate y) (s_open y Hy)).
  - by apply sound_writer_enters.
  - by apply sound_writer_resumes.
  - pose proof (Forall_lookup_1 _ _ _ _ (s_writer_ok y Hy) Hj) as Hok.
    by apply (sound_writer_moves y j _ _ Hy Hj).
  - apply (sound_writer_updates y j i r1 r2 r3 g Hy Hj); [lia | done].
  - apply int_add_Returns in Hi' as [-> _].
    pose proof (sound_writer_ends y j i g Hy Hj Hg) as Hy1.
    destruct (0 <? Catalog.writer_waiting g); destruct Hsig as [-> Hws].
    + apply (shop_sound_woken _ _ ws Hy1); [apply woken_refl |].
      by apply signalled_woken.
    + subst ws. apply (shop_sound_woken _ _ _ Hy1);
        [apply broadcast_woken | apply woken_refl].
Qed.

Lemma shop_wakes_sound y y' : wakes y y' -> sound y -> sound y'.
Proof.
  intros [y0 j i Hj | y0 j i Hj] Hy.
  - pose proof (Forall_lookup_1 _ _ _ _ (s_reader_ok _ Hy) Hj) as Hok.
    by apply (sound_reader_moves y0 j _ _ Hy Hj).
  - pose proof (Forall_lookup_1 _ _ _ _ (s_writer_ok _ Hy) Hj) as Hok.
    by apply (sound_writer_moves y0 j _ _ Hy Hj).
Qed.

(** *** The calls of a sound shop *)

Lemma counters_small y :
  sound y ->
  0 <= Catalog.num_readers (gate y) <= NUM_READERS /\
  0 <= Catalog.num_writers (gate y) <= NUM_WRITERS /\
  0 <= Catalog.writer_waiting (gate y) <= NUM_WRITERS.
Proof.
  intros Hy.
  rewrite (s_reading y Hy), (s_writing y Hy), (s_queueing y Hy).
  pose proof (total_bounds reading 0 1 (readers y)) as Hr.
  pose proof (total_bounds writing 0 1 (writers y)) as Hw.
  pose proof (total_bounds queueing 0 1 (writers y)) as Hq.
  rewrite (s_readers y Hy) in Hr. rewrite (s_writers y Hy) in Hw, Hq.
  unfold NUM_READERS, NUM_WRITERS in *.
  split; [| split]; [apply Hr | apply Hw | apply Hq];
    apply Forall_forall; intros p _; destruct p; simpl; lia.
Qed.

Lemma start_read_cases y :
  sound y ->
  (Catalog.start_read (gate y) = Waits /\
   0 < Catalog.num_writers (gate y) + Catalog.writer_waiting (gate y)) \/
  (Catalog.start_read (gate y)
   = Returns (Catalog.set_num_readers (Catalog.num_readers (gate y) + 1) (gate y))
   /\ Catalog.num_writers (gate y) = 0 /\ Catalog.writer_waiting (gate y) = 0).
Proof.
  intros Hy. pose proof (counters_small y Hy) as (Hr & Hw & Hq).
  unfold Catalog.start_read.
  destruct ((0 <? Catalog.num_writers (gate y))
            || (0 <? Catalog.writer_waiting (gate y))) eqn:Hg.
  - left. split; [done |]. apply or_pos_true in Hg. lia.
  - right. apply or_pos_false in Hg.
    rewrite int_add_small
      by (unfold int_range, INT_MIN, INT_MAX, NUM_READERS in *; lia).
    split; [done | lia].
Qed.

Lemma start_write_resume_cases y :
  sound y -> 0 < Catalog.writer_waiting (gate y) ->
  (Catalog.start_write_resume (gate y) = Waits /\
   0 < Catalog.num_readers (gate y) + Catalog.num_writers (gate y)) \/
  (exists g, Catalog.start_write_resume (gate y) = Returns g).
Proof.
  intros Hy Hpos. pose proof (counters_small y Hy) as (Hr & Hw & Hq).
  unfold Catalog.start_write_resume.
  destruct ((0 <? Catalog.num_readers (gate y))
            || (0 <? Catalog.num_writers (gate y))) eqn:Hg.
  - left. split; [done |]. apply or_pos_true in Hg. lia.
  - right. apply or_pos_false in Hg.
    rewrite int_sub_small
      by (unfold int_range, INT_MIN, INT_MAX, NUM_WRITERS in *; lia).
    cbn [mbind outcome_bind bind].
    rewrite int_add_small
      by (unfold int_range, INT_MIN, INT_MAX, NUM_WRITERS in *; lia).
    eexists. reflexivity.
Qed.

Lemma queueing_lookup ws j p :
  ws !! j = Some p -> queueing p <= total queueing ws.
Proof.
  apply total_lookup_le. apply Forall_forall. intros x _.
  destruct x; simpl; lia.
Qed.

Lemma asleep_queueing ws :
  Exists (fun p => writer_asleep p = true) ws -> 0 < total queueing ws.
Proof.
  intros H. apply Exists_exists in H as (p & Hp & Hs).
  apply list_elem_of_lookup in Hp as [j Hj].
  pose proof (queueing_lookup ws j p Hj). destruct p; try discriminate.
  simpl in *. lia.
Qed.

(** *** Every step keeps the sleepers covered *)

Lemma reader_awake_insert rs j p :
  reader_asleep p = false ->
  Exists (fun p => reader_asleep p = true) (<[j := p]> rs) ->
  Exists (fun p => reader_asleep p = true) rs.
Proof. intros Hp. apply Exists_insert_not. by rewrite Hp. Qed.

Lemma writer_awake_insert ws j p :
  writer_asleep p = false ->
  Exists (fun p => writer_asleep p = true) (<[j := p]> ws) ->
  Exists (fun p => writer_asleep p = true) ws.
Proof. intros Hp. apply Exists_insert_not. by rewrite Hp. Qed.

Lemma signalled_writers ws ws' :
  signalled writer_asleep wake_writer ws ws' ->
  Exists (fun p => writer_asleep p = true) ws' ->
  0 < total at_resume ws'.
Proof.
  intros [l Hall | l j p Hj Hp] Hex.
  - exfalso. revert Hex. apply Forall_not_Exists.
    eapply Forall_impl; [exact Hall |]. intros p Hp. by rewrite Hp.
  - pose proof (at_resume_nonneg l).
    assert (at_resume p <= total at_resume l).
    { apply (total_lookup_le at_resume _ j); [| done].
      apply Forall_forall. intros x _. destruct x; simpl; lia. }
    rewrite (total_insert _ _ _ _ _ Hj). destruct p; try discriminate.
    simpl in *. lia.
Qed.

Lemma shop_step_alert y y' : step y y' -> sound y -> alert y -> alert y'.
Proof.
  intros Hstep Hy [Ar Aw].
  pose proof (counters_small y Hy) as (Hr & Hw & Hq).
  pose proof (counters_small y' (shop_step_sound y y' Hstep Hy)) as (Hr' & Hw' & Hq').
  pose proof (at_resume_nonneg (writers y)) as Hres.
  destruct Hstep as [y j i Hj Hi Hs | y j i Hj Hno | y j i g Hj Hg
                     | y j i Hj Hwt | y j i r p Hj Hrd Hp
                     | y j i g i' ws Hj Hg Hi' Hsig
                     | y j i Hj Hi Hs | y j i Hj Hno | y j i g Hj Hg
                     | y j i g Hj Hg | y j i Hj Hwt
                     | y j i r1 r2 r3 g Hj Hr1 Hr2 Hr3 Hg
                     | y j i g i' rs ws Hj Hg Hi' Hsig];
    cbn [gate readers writers set_reader set_writer] in *;
    split; cbn [gate readers writers set_reader set_writer];
    try exact Ar; try exact Aw.
  - intros Hex. apply reader_awake_insert in Hex; [| done]. by apply Ar.
  - intros Hex. apply reader_awake_insert in Hex; [| done]. by apply Ar.
  - (* reader_enters *)
    intros Hex. apply reader_awake_insert in Hex; [| done].
    apply Catalog.start_read_inv in Hg as (Hnw & Hnq & ->). simpl.
    by apply Ar.
  - intros _. apply Catalog.start_read_inv in Hg as (Hnw & Hnq & ->).
    simpl in *. pose proof (at_resume_nonneg (writers y)). lia.
  - (* reader_sleeps *)
    intros _. destruct (start_read_cases y Hy) as [[_ Hpos] | [Hret _]];
      [done |]. rewrite Hret in Hwt. discriminate.
  - intros Hex. apply reader_awake_insert in Hex; [| done]. by apply Ar.
  - (* reader_ends *)
    intros Hex. apply reader_awake_insert in Hex; [| done].
    apply Catalog.end_read_inv in Hg as ->. simpl. by apply Ar.
  - intros Hex. destruct (Z.eqb_spec (Catalog.num_readers g) 0) as [Hz | Hnz].
    + pose proof (signalled_writers _ _ Hsig Hex). lia.
    + subst ws. pose proof (at_resume_nonneg (writers y)). lia.
  - (* writer_goes_on *)
    intros Hex. apply writer_awake_insert in Hex; [| done].
    rewrite (total_insert _ _ _ _ _ Hj). simpl. specialize (Aw Hex). lia.
  - intros Hex. apply writer_awake_insert in Hex; [| done].
    rewrite (total_insert _ _ _ _ _ Hj). simpl. specialize (Aw Hex). lia.
  - (* writer_enters *)
    intros _. apply Catalog.start_write_enter_inv in Hg as ->. simpl in *. lia.
  - intros _. rewrite (total_insert _ _ _ _ _ Hj). simpl. lia.
  - (* writer_resumes *)
    intros _. apply Catalog.start_write_resume_inv in Hg as (_ & _ & ->).
    simpl in *. lia.
  - intros _. apply Catalog.start_write_resume_inv in Hg as (_ & _ & ->).
    simpl in *. pose proof (at_resume_nonneg (<[j := WriterWrites i]> (writers y))).
    lia.
  - (* writer_sleeps *)
    intros _. rewrite (total_insert _ _ _ _ _ Hj). simpl.
    pose proof (queueing_lookup _ _ _ Hj) as Hin. simpl in Hin.
    rewrite <- (s_queueing y Hy) in Hin.
    destruct (start_write_resume_cases y Hy) as [[_ Hpos] | [g Hret]];
      [lia | | rewrite Hret in Hwt; discriminate].
    assert (at_resume (WriterWaits i) <= total at_resume (writers y)).
    { apply (total_lookup_le at_resume _ j); [| done].
      apply Forall_forall. intros x _. destruct x; simpl; lia. }
    simpl in *. lia.
  - (* writer_updates *)
    intros Hex. apply Catalog.writer_update_inv in Hg as (p & _ & ->). simpl.
    by apply Ar.
  - intros Hex. apply writer_awake_insert in Hex; [| done].
    apply Catalog.writer_update_inv in Hg as (p & _ & ->). simpl.
    rewrite (total_insert _ _ _ _ _ Hj). simpl. specialize (Aw Hex). lia.
  - (* writer_ends *)
    intros Hex. destruct (Z.ltb_spec 0 (Catalog.writer_waiting g)) as [Hpos | Hz];
      destruct Hsig as [-> Hws].
    + lia.
    + exfalso. revert Hex. apply Forall_not_Exists.
      eapply Forall_impl;
        [apply (broadcast_awake reader_asleep wake_reader), wake_reader_awake |].
      intros p Hp. simpl in Hp. by rewrite Hp.
  - intros Hex. destruct (Z.ltb_spec 0 (Catalog.writer_waiting g)) as [Hpos | Hz];
      destruct Hsig as [-> Hws].
    + pose proof (signalled_writers _ _ Hws Hex). lia.
    + subst ws. apply asleep_queueing in Hex.
      pose proof (sound_writer_ends y j i g Hy Hj Hg) as Hy1.
      apply int_add_Returns in Hi' as [-> _].
      pose proof (s_queueing _ Hy1) as Hq1. cbn [gate writers] in Hq1. lia.
Qed.

Lemma shop_wakes_alert y y' : wakes y y' -> sound y -> alert y -> alert y'.
Proof.
  intros [y0 j i Hj | y0 j i Hj] Hy [Ar Aw];
    pose proof (counters_small y0 Hy) as (Hr & Hw & Hq);
    split; cbn [gate readers writers set_reader set_writer];
    try exact Ar; try exact Aw.
  - intros Hex. apply reader_awake_insert in Hex; [| done]. by apply Ar.
  - intros _. rewrite (total_insert _ _ _ _ _ Hj). simpl.
    pose proof (at_resume_nonneg (writers y0)). lia.
Qed.

Lemma shop_reachable_sound y : reachable y -> sound y /\ alert y.
Proof.
  induction 1 as [| y y' _ [IH1 IH2] Hstep | y y' _ [IH1 IH2] Hw].
  - split; [apply shop_sound_start | apply shop_alert_start].
  - split; [by apply (shop_step_sound y y') | by apply (shop_step_alert y y')].
  - split; [by apply (shop_wakes_sound y y') | by apply (shop_wakes_alert y y')].
Qed.

(** *** The threads do not wait for each other for ever *)

Definition reader_out (p : reader_place) : Prop :=
  reader_done p \/ reader_asleep p = true.

Definition writer_out (p : writer_place) : Prop :=
  writer_done p \/ writer_asleep p = true.

#[global] Instance reader_out_dec p : Decision (reader_out p).
Proof. unfold reader_out. apply _. Defined.

#[global] Instance writer_out_dec p : Decision (writer_out p).
Proof. unfold writer_out. apply _. Defined.

Lemma stocks_small y :
  sound y ->
  Forall (fun p => 0 <= Catalog.stock p <= INT_MAX - 6)
         (Catalog.products (gate y)).
Proof.
  intros Hy. pose proof (updates_bounds _ (s_writer_ok y Hy)) as Hu.
  rewrite (s_writers y Hy) in Hu.
  eapply Forall_impl; [apply (k_stock y (s_stocked y Hy)) |].
  intros p Hp. simpl in Hp. unfold INT_MAX, NUM_WRITERS, NUM_WRITES in *. lia.
Qed.

Lemma product_read y r :
  sound y -> 0 <= r ->
  exists p, read_at (Catalog.products (gate y)) (Z.rem r Catalog.MAX_PRODUCTS)
            = Returns p.
Proof.
  intros Hy Hr. pose proof (k_length y (s_stocked y Hy)) as Hlen.
  assert (Hidx : 0 <= Z.rem r Catalog.MAX_PRODUCTS < Catalog.MAX_PRODUCTS).
  { split; [apply Z.rem_nonneg; [discriminate | lia] |].
    apply Z.rem_bound_pos; [lia | reflexivity]. }
  destruct (lookup_lt_is_Some_2 (Catalog.products (gate y))
              (Z.to_nat (Z.rem r Catalog.MAX_PRODUCTS))) as [p Hp]; [lia |].
  exists p. apply read_at_Returns. split; [lia | done].
Qed.

(** A thread that is awake and has not returned can run. *)
Lemma reader_awake_steps y j p :
  sound y -> readers y !! j = Some p -> ~ reader_out p -> exists y', step y y'.
Proof.
  intros Hy Hj Hp.
  pose proof (counters_small y Hy) as (Hr & Hw & Hq).
  pose proof (Forall_lookup_1 _ _ _ _ (s_reader_ok y Hy) Hj) as Hok.
  destruct p as [i | i | i | i | i | i]; simpl in Hok.
  - destruct (decide (i < NUM_READS
                      /\ truthy (Catalog.should_stop (gate y)) = false))
      as [[Hi Hs] | Hno].
    + eexists. by apply (reader_goes_on y j i).
    + eexists. by apply (reader_leaves_loop y j i).
  - destruct (start_read_cases y Hy) as [[Hwt _] | [Hret _]].
    + eexists. by apply (reader_sleeps y j i).
    + eexists. by apply (reader_enters y j i _ Hj Hret).
  - exfalso. apply Hp. by right.
  - destruct (product_read y 0 Hy) as [q Hq0]; [lia |].
    eexists. apply (reader_reads y j i 0 q Hj); [unfold INT_MAX; lia | done].
  - eexists.
    apply (reader_ends y j i
             (Catalog.set_num_readers (Catalog.num_readers (gate y) - 1) (gate y))
             (i + 1)
             (if Catalog.num_readers (gate y) - 1 =? 0
              then signal_first writer_asleep wake_writer (writers y)
              else writers y) Hj).
    + unfold Catalog.end_read. rewrite int_sub_small; [done |].
      unfold int_range, INT_MIN, INT_MAX, NUM_READERS in *. lia.
    + apply int_add_small.
      unfold int_range, INT_MIN, INT_MAX, NUM_READS in *. lia.
    + simpl. destruct (_ =? 0); [apply signal_first_signalled | done].
  - exfalso. apply Hp. by left.
Qed.

Lemma writer_awake_steps y j p :
  sound y -> writers y !! j = Some p -> ~ writer_out p -> exists y', step y y'.
Proof.
  intros Hy Hj Hp.
  pose proof (counters_small y Hy) as (Hr & Hw & Hq).
  pose proof (Forall_lookup_1 _ _ _ _ (s_writer_ok y Hy) Hj) as Hok.
  destruct p as [i | i | i | i | i | i | i]; simpl in Hok.
  - destruct (decide (i < NUM_WRITES
                      /\ truthy (Catalog.should_stop (gate y)) = false))
      as [[Hi Hs] | Hno].
    + eexists. by apply (writer_goes_on y j i).
    + eexists. by apply (writer_leaves_loop y j i).
  - eexists. eapply (writer_enters y j i _ Hj).
    unfold Catalog.start_write_enter. rewrite int_add_small; [done |].
    unfold int_range, INT_MIN, INT_MAX, NUM_WRITERS in *. lia.
  - pose proof (queueing_lookup _ _ _ Hj) as Hin. simpl in Hin.
    rewrite <- (s_queueing y Hy) in Hin.
    destruct (start_write_resume_cases y Hy) as [[Hwt _] | [g Hret]]; [lia | |].
    + eexists. by apply (writer_sleeps y j i).
    + eexists. by apply (writer_resumes y j i g).
  - exfalso. apply Hp. by right.
  - destruct (Catalog.writer_update_returns scaled_price 0 0 0 (gate y))
      as [g Hg]; [lia | lia | apply (k_length y (s_stocked y Hy))
                  | by apply stocks_small |].
    eexists. apply (writer_updates y j i 0 0 0 g Hj); try done;
      unfold INT_MAX; lia.
  - set (g := Catalog.set_num_writers (Catalog.num_writers (gate y) - 1) (gate y)).
    eexists.
    apply (writer_ends y j i g (i + 1)
             (if 0 <? Catalog.writer_waiting g then readers y
              else broadcast reader_asleep wake_reader (readers y))
             (if 0 <? Catalog.writer_waiting g
              then signal_first writer_asleep wake_writer
                     (<[j := WriterTest (i + 1)]> (writers y))
              else <[j := WriterTest (i + 1)]> (writers y)) Hj).
    + unfold Catalog.end_write. rewrite int_sub_small; [done |].
      unfold int_range, INT_MIN, INT_MAX, NUM_WRITERS in *. lia.
    + apply int_add_small.
      unfold int_range, INT_MIN, INT_MAX, NUM_WRITES in *. lia.
    + destruct (0 <? Catalog.writer_waiting g);
        [split; [done | apply signal_first_signalled] | done].
  - exfalso. apply Hp. by left.
Qed.

(** The threads that have not returned are never all asleep. *)
Lemma shop_somebody_awake y :
  sound y -> alert y -> ~ finished y ->
  ~ (Forall reader_out (readers y) /\ Forall writer_out (writers y)).
Proof.
  intros Hy [Ar Aw] Hnot [Hrs Hws].
  assert (Hnr : Catalog.num_readers (gate y) = 0).
  { rewrite (s_reading y Hy). apply total_zero.
    eapply Forall_impl; [exact Hrs |].
    intros p [Hd | Hs]; destruct p; (done || discriminate). }
  assert (Hnw : Catalog.num_writers (gate y) = 0).
  { rewrite (s_writing y Hy). apply total_zero.
    eapply Forall_impl; [exact Hws |].
    intros p [Hd | Hs]; destruct p; (done || discriminate). }
  assert (Hres : total at_resume (writers y) = 0).
  { apply total_zero. eapply Forall_impl; [exact Hws |].
    intros p [Hd | Hs]; destruct p; (done || discriminate). }
  destruct (decide (Exists (fun p => writer_asleep p = true) (writers y)))
    as [Hwa | Hwa].
  - specialize (Aw Hwa). lia.
  - pose proof (out_not_asleep writer_done writer_asleep _ Hws Hwa) as Hwd.
    assert (Hq : Catalog.writer_waiting (gate y) = 0).
    { rewrite (s_queueing y Hy). apply total_zero.
      eapply Forall_impl; [exact Hwd |]. intros p Hd. by destruct p. }
    destruct (decide (Exists (fun p => reader_asleep p = true) (readers y)))
      as [Hra | Hra].
    + specialize (Ar Hra). lia.
    + apply Hnot. split; [| done].
      by apply (out_not_asleep reader_done reader_asleep).
Qed.

Lemma shop_sound_can_step y :
  sound y -> alert y -> ~ finished y -> exists y', step y y'.
Proof.
  intros Hy Ha Hnot.
  pose proof (shop_somebody_awake y Hy Ha Hnot) as Hawake.
  destruct (decide (Forall reader_out (readers y))) as [Hrs | Hrs].
  - assert (Hws : ~ Forall writer_out (writers y)) by tauto.
    apply unfinished_thread in Hws as (j & p & Hj & Hp); [| apply _].
    by apply (writer_awake_steps y j p).
  - apply unfinished_thread in Hrs as (j & p & Hj & Hp); [| apply _].
    by apply (reader_awake_steps y j p).
Qed.

(** While a reader or a writer has not returned, some thread is awake and
    can run: no thread sleeps through the signal or the broadcast it waits
    for. *)
Theorem readers_writers_never_stuck y :
  reachable y -> ~ finished y -> exists y', step y y'.
Proof.
  intros Hr. destruct (shop_reachable_sound y Hr) as [Hy Ha].
  by apply shop_sound_can_step.
Qed.

(** *** The program stops *)

Lemma reader_steps_nonneg p : reader_ok p -> 0 <= reader_steps p.
Proof. destruct p; simpl; unfold NUM_READS; lia. Qed.

Lemma writer_steps_nonneg p : writer_ok p -> 0 <= writer_steps p.
Proof. destruct p; simpl; unfold NUM_WRITES; lia. Qed.

Lemma shop_steps_left_nonneg y : sound y -> 0 <= steps_left y.
Proof.
  intros Hy. unfold steps_left.
  assert (0 <= total reader_steps (readers y)).
  { apply total_nonneg. eapply Forall_impl; [apply (s_reader_ok y Hy) |].
    apply reader_steps_nonneg. }
  assert (0 <= total writer_steps (writers y)).
  { apply total_nonneg. eapply Forall_impl; [apply (s_writer_ok y Hy) |].
    apply writer_steps_nonneg. }
  lia.
Qed.

Lemma signalled_writer_steps ws ws' :
  signalled writer_asleep wake_writer ws ws' ->
  total writer_steps ws' <= total writer_steps ws + 1.
Proof.
  intros [l _ | l j p Hj Hp]; [lia |].
  rewrite (total_insert _ _ _ _ _ Hj). destruct p; try discriminate.
  simpl. lia.
Qed.

Lemma broadcast_reader_steps rs :
  total reader_steps (broadcast reader_asleep wake_reader rs)
  <= total reader_steps rs + Z.of_nat (length rs).
Proof.
  pose proof (woken_total_le reader_asleep wake_reader reader_steps 1
                rs (broadcast reader_asleep wake_reader rs)) as H.
  rewrite Z.mul_1_l in H. apply H; [lia | | apply broadcast_woken].
  intros p Hp. destruct p; simpl in *; first [discriminate Hp | lia].
Qed.

Lemma shop_step_decreases y y' :
  sound y -> step y y' -> steps_left y' < steps_left y.
Proof.
  intros Hy Hstep. unfold steps_left.
  destruct Hstep as [y j i Hj Hi Hs | y j i Hj Hno | y j i g Hj Hg
                     | y j i Hj Hwt | y j i r p Hj Hrd Hp
                     | y j i g i' ws Hj Hg Hi' Hsig
                     | y j i Hj Hi Hs | y j i Hj Hno | y j i g Hj Hg
                     | y j i g Hj Hg | y j i Hj Hwt
                     | y j i r1 r2 r3 g Hj Hr1 Hr2 Hr3 Hg
                     | y j i g i' rs ws Hj Hg Hi' Hsig];
    cbn [gate readers writers set_reader set_writer];
    try (pose proof (Forall_lookup_1 _ _ _ _ (s_reader_ok y Hy) Hj) as Hok);
    try (pose proof (Forall_lookup_1 _ _ _ _ (s_writer_ok y Hy) Hj) as Hok);
    simpl in Hok;
    try (rewrite (total_insert _ _ _ _ _ Hj); simpl; lia).
  - apply int_add_Returns in Hi' as [-> _].
    rewrite (total_insert _ _ _ _ _ Hj). simpl.
    destruct (Catalog.num_readers g =? 0).
    + pose proof (signalled_writer_steps _ _ Hsig). lia.
    + subst ws. lia.
  - apply int_add_Returns in Hi' as [-> _].
    destruct (0 <? Catalog.writer_waiting g); destruct Hsig as [-> Hws].
    + pose proof (signalled_writer_steps _ _ Hws) as H1.
      rewrite (total_insert _ _ _ _ _ Hj) in H1. simpl in H1. lia.
    + subst ws. pose proof (broadcast_reader_steps (readers y)) as H1.
      rewrite (s_readers y Hy) in H1.
      rewrite (total_insert _ _ _ _ _ Hj). simpl.
      unfold NUM_READERS in *. lia.
Qed.

Lemma shop_wakes_steps_left y y' : wakes y y' -> steps_left y' = steps_left y + 1.
Proof.
  intros [y0 j i Hj | y0 j i Hj]; unfold steps_left;
    cbn [gate readers writers set_reader set_writer];
    rewrite (total_insert _ _ _ _ _ Hj); simpl; lia.
Qed.

Lemma shop_run_sound n w y y' : run n w y y' -> sound y -> sound y'.
Proof.
  induction 1 as [| n w y y1 y2 Hstep _ IH | n w y y1 y2 Hw _ IH]; [done | |];
    intros Hy; apply IH.
  - by apply (shop_step_sound y y1).
  - by apply (shop_wakes_sound y y1).
Qed.

Lemma shop_run_steps_left n w y y' :
  run n w y y' -> sound y ->
  Z.of_nat n + steps_left y' <= steps_left y + Z.of_nat w.
Proof.
  induction 1 as [| n w y y1 y2 Hstep _ IH | n w y y1 y2 Hw _ IH];
    intros Hy; [lia | |].
  - pose proof (shop_step_decreases y y1 Hy Hstep).
    specialize (IH (shop_step_sound y y1 Hstep Hy)). lia.
  - pose proof (shop_wakes_steps_left y y1 Hw).
    specialize (IH (shop_wakes_sound y y1 Hw Hy)). lia.
Qed.

(** Whatever the order in which the threads run, the program takes at most
    223 steps besides one for each spurious wake-up. *)
Theorem readers_writers_runs_end n w y :
  run n w start y -> (n <= 223 + w)%nat.
Proof.
  intros Hrun.
  pose proof (shop_run_steps_left n w start y Hrun shop_sound_start) as Hle.
  pose proof (shop_steps_left_nonneg y (shop_run_sound n w start y Hrun shop_sound_start)).
  assert (steps_left start = 223) by reflexivity. lia.
Qed.

Lemma shop_finished_no_step y y' : finished y -> ~ step y y'.
Proof.
  intros [Hrs Hws] Hstep.
  destruct Hstep as [y j i Hj _ _ | y j i Hj _ | y j i g Hj _
                     | y j i Hj _ | y j i r p Hj _ _
                     | y j i g i' ws Hj _ _ _
                     | y j i Hj _ _ | y j i Hj _ | y j i g Hj _
                     | y j i g Hj _ | y j i Hj _
                     | y j i r1 r2 r3 g Hj _ _ _ _
                     | y j i g i' rs ws Hj _ _ _];
    first [ exact (Forall_lookup_1 _ _ _ _ Hrs Hj)
          | exact (Forall_lookup_1 _ _ _ _ Hws Hj) ].
Qed.

(** When no thread can run any more, every reader has returned after its
    five reads and every writer after its three updates, the three counters
    of the gate are 0, and the catalogue still holds its hundred products,
    product [k] with the identifier [k + 1] and a stock that is not
    negative. *)
Theorem halts_with_gate_free y :
  reachable y -> (forall y', ~ step y y') ->
  readers y = replicate (Z.to_nat NUM_READERS) (ReaderDone NUM_READS) /\
  writers y = replicate (Z.to_nat NUM_WRITERS) (WriterDone NUM_WRITES) /\
  Catalog.num_readers (gate y) = 0 /\ Catalog.num_writers (gate y) = 0 /\
  Catalog.writer_waiting (gate y) = 0 /\
  Z.of_nat (length (Catalog.products (gate y))) = Catalog.MAX_PRODUCTS /\
  forall (k : nat) p, Catalog.products (gate y) !! k = Some p ->
    Catalog.id p = Z.of_nat k + 1 /\ 0 <= Catalog.stock p.
Proof.
  intros Hr Hhalt. destruct (shop_reachable_sound y Hr) as [Hy Ha].
  assert (Hfin : finished y).
  { destruct (decide (finished y)) as [Hfin | Hnot]; [done |].
    destruct (shop_sound_can_step y Hy Ha Hnot) as [y' Hstep].
    destruct (Hhalt y' Hstep). }
  destruct Hfin as [Hrs Hws].
  assert (Hrd : readers y = replicate (Z.to_nat NUM_READERS) (ReaderDone NUM_READS)).
  { rewrite <- (s_readers y Hy). apply Forall_eq_replicate.
    pose proof (s_reader_ok y Hy) as Hok.
    apply Forall_forall. intros p Hp. rewrite Forall_forall in Hrs, Hok.
    specialize (Hrs p Hp). specialize (Hok p Hp).
    destruct p; try contradiction. simpl in Hok. by subst. }
  assert (Hwd : writers y = replicate (Z.to_nat NUM_WRITERS) (WriterDone NUM_WRITES)).
  { rewrite <- (s_writers y Hy). apply Forall_eq_replicate.
    pose proof (s_writer_ok y Hy) as Hok.
    apply Forall_forall. intros p Hp. rewrite Forall_forall in Hws, Hok.
    specialize (Hws p Hp). specialize (Hok p Hp).
    destruct p; try contradiction. simpl in Hok. by subst. }
  split; [exact Hrd |]. split; [exact Hwd |].
  rewrite (s_reading y Hy), (s_writing y Hy), (s_queueing y Hy), Hrd, Hwd.
  split; [reflexivity |]. split; [reflexivity |]. split; [reflexivity |].
  destruct (s_stocked y Hy) as [Hl Hi Hs].
  split; [exact Hl |]. intros k p Hk. split; [by apply Hi |].
  by apply (Forall_lookup_1 _ _ _ _ Hs Hk).
Qed.

(** No call of a thread that is awake has undefined behaviour, whatever the
    interleaving: the counters of the gate and the loop counters stay
    within [int], a reader and a writer index [products] within its hundred
    entries, and the new stock stays within [int]. *)
Theorem gate_calls_are_defined y :
  reachable y ->
  (forall j i, readers y !! j = Some (ReaderStarts i) ->
     defined (Catalog.start_read (gate y))) /\
  (forall j i r, readers y !! j = Some (ReaderReads i) -> 0 <= r ->
     defined (read_at (Catalog.products (gate y))
                (Z.rem r Catalog.MAX_PRODUCTS))) /\
  (forall j i, readers y !! j = Some (ReaderEnds i) ->
     defined (Catalog.end_read (gate y)) /\ defined (int_add i 1)) /\
  (forall j i, writers y !! j = Some (WriterCalls i) ->
     defined (Catalog.start_write_enter (gate y))) /\
  (forall j i, writers y !! j = Some (WriterWaits i) ->
     defined (Catalog.start_write_resume (gate y))) /\
  (forall j i r1 r2 r3, writers y !! j = Some (WriterWrites i) ->
     0 <= r1 -> 0 <= r3 ->
     defined (Catalog.writer_update scaled_price r1 r2 r3 (gate y))) /\
  (forall j i, writers y !! j = Some (WriterWrote i) ->
     defined (Catalog.end_write (gate y)) /\ defined (int_add i 1)).
Proof.
  intros Hr. destruct (shop_reachable_sound y Hr) as [Hy _].
  pose proof (counters_small y Hy) as (Hnr & Hnw & Hq).
  unfold defined. repeat split.
  - intros j i Hj. destruct (start_read_cases y Hy) as [[-> _] | [-> _]]; done.
  - intros j i r Hj Hr0. by destruct (product_read y r Hy Hr0) as [p ->].
  - unfold Catalog.end_read. rewrite int_sub_small; [done |].
    unfold int_range, INT_MIN, INT_MAX, NUM_READERS in *. lia.
  - pose proof (Forall_lookup_1 _ _ _ _ (s_reader_ok y Hy) H) as Hok.
    simpl in Hok. rewrite int_add_small; [done |].
    unfold int_range, INT_MIN, INT_MAX, NUM_READS in *. lia.
  - intros j i Hj. unfold Catalog.start_write_enter.
    rewrite int_add_small; [done |].
    unfold int_range, INT_MIN, INT_MAX, NUM_WRITERS in *. lia.
  - intros j i Hj.
    pose proof (queueing_lookup _ _ _ Hj) as Hin. simpl in Hin.
    rewrite <- (s_queueing y Hy) in Hin.
    destruct (start_write_resume_cases y Hy) as [[-> _] | [g ->]];
      [lia | done | done].
  - intros j i r1 r2 r3 Hj Hr1 Hr3.
    destruct (Catalog.writer_update_returns scaled_price r1 r2 r3 (gate y))
      as [g ->]; [done | done | apply (k_length y (s_stocked y Hy))
                  | by apply stocks_small | done].
  - unfold Catalog.end_write. rewrite int_sub_small; [done |].
    unfold int_range, INT_MIN, INT_MAX, NUM_WRITERS in *. lia.
  - pose proof (Forall_lookup_1 _ _ _ _ (s_writer_ok y Hy) H) as Hok.
    simpl in Hok. rewrite int_add_small; [done |].
    unfold int_range, INT_MIN, INT_MAX, NUM_WRITES in *. lia.
Qed.

(** The catalogue keeps its hundred products: product [k] keeps the
    identifier [k + 1], and with two writers of three updates each no stock
    leaves 0 .. 85. *)
Theorem products_keep_their_ids y :
  reachable y ->
  Z.of_nat (length (Catalog.products (gate y))) = Catalog.MAX_PRODUCTS /\
  forall (k : nat) p, Catalog.products (gate y) !! k = Some p ->
    Catalog.id p = Z.of_nat k + 1 /\ 0 <= Catalog.stock p <= 85.
Proof.
  intros Hr. destruct (shop_reachable_sound y Hr) as [Hy _].
  destruct (s_stocked y Hy) as [Hl Hi Hs]. split; [exact Hl |].
  intros k p Hk. split; [by apply Hi |].
  pose proof (Forall_lookup_1 _ _ _ _ Hs Hk) as Hp. simpl in Hp.
  pose proof (updates_bounds _ (s_writer_ok y Hy)) as Hu.
  rewrite (s_writers y Hy) in Hu. unfold NUM_WRITERS, NUM_WRITES in *. lia.
Qed.

(** *** Running a schedule *)

Lemma advance_reader_step y j r y' :
  advance_reader y j r = Some y' -> step y y'.
Proof.
  unfold advance_reader. intros H.
  destruct (readers y !! j) as [[i | i | i | i | i | i] |] eqn:Hj;
    try discriminate.
  - destruct (decide _) as [[Hi Hs] | Hno]; injection H as <-.
    + by apply (reader_goes_on y j i).
    + by apply (reader_leaves_loop y j i).
  - destruct (Catalog.start_read (gate y)) as [g | |] eqn:Hg; try discriminate;
      injection H as <-.
    + by apply (reader_enters y j i g).
    + by apply (reader_sleeps y j i).
  - destruct (decide _) as [Hr |]; [| discriminate].
    destruct (read_at _ _) as [p | |] eqn:Hp; try discriminate.
    injection H as <-. by apply (reader_reads y j i r p).
  - destruct (Catalog.end_read (gate y)) as [g | |] eqn:Hg; try discriminate.
    destruct (int_add i 1) as [i' | |] eqn:Hi; try discriminate.
    injection H as <-. apply (reader_ends y j i g i'); try done.
    destruct (_ =? 0); [apply signal_first_signalled | done].
Qed.

Lemma advance_writer_step y j r y' :
  advance_writer y j r = Some y' -> step y y'.
Proof.
  unfold advance_writer. intros H.
  destruct (writers y !! j) as [[i | i | i | i | i | i | i] |] eqn:Hj;
    try discriminate.
  - destruct (decide _) as [[Hi Hs] | Hno]; injection H as <-.
    + by apply (writer_goes_on y j i).
    + by apply (writer_leaves_loop y j i).
  - destruct (Catalog.start_write_enter (gate y)) as [g | |] eqn:Hg;
      try discriminate.
    injection H as <-. by apply (writer_enters y j i g).
  - destruct (Catalog.start_write_resume (gate y)) as [g | |] eqn:Hg;
      try discriminate; injection H as <-.
    + by apply (writer_resumes y j i g).
    + by apply (writer_sleeps y j i).
  - destruct (decide _) as [Hr |]; [| discriminate].
    destruct (Catalog.writer_update _ _ _ _ _) as [g | |] eqn:Hg;
      try discriminate.
    injection H as <-. by apply (writer_updates y j i r r r g).
  - destruct (Catalog.end_write (gate y)) as [g | |] eqn:Hg; try discriminate.
    destruct (int_add i 1) as [i' | |] eqn:Hi; try discriminate.
    destruct (0 <? Catalog.writer_waiting g) eqn:Hq; injection H as <-.
    + apply (writer_ends y j i g i'); try done. rewrite Hq.
      split; [done | apply signal_first_signalled].
    + apply (writer_ends y j i g i'); try done. by rewrite Hq.
Qed.

Lemma shop_schedule_reachable r ids : forall y y',
  reachable y -> schedule r ids y = Some y' -> reachable y'.
Proof.
  induction ids as [| [j | j] ids IH]; intros y y' Hy H; simpl in H.
  - by injection H as <-.
  - destruct (advance_reader y j r) as [y1 |] eqn:H1; [| discriminate].
    apply (IH y1 y'); [| done].
    apply (reach_step y y1 Hy). by apply (advance_reader_step y j r).
  - destruct (advance_writer y j r) as [y1 |] eqn:H1; [| discriminate].
    apply (IH y1 y'); [| done].
    apply (reach_step y y1 Hy). by apply (advance_writer_step y j r).
Qed.

Lemma shop_schedule_run r ids : forall y y',
  schedule r ids y = Some y' -> run (length ids) 0 y y'.
Proof.
  induction ids as [| [j | j] ids IH]; intros y y' H; simpl in H.
  - injection H as <-. constructor.
  - destruct (advance_reader y j r) as [y1 |] eqn:H1; [| discriminate].
    apply (run_step _ _ y y1); [by apply (advance_reader_step y j r) |].
    by apply IH.
  - destruct (advance_writer y j r) as [y1 |] eqn:H1; [| discriminate].
    apply (run_step _ _ y y1); [by apply (advance_writer_step y j r) |].
    by apply IH.
Qed.

(** *** What the update leaves alone *)

(** [writer]'s update touches one product, the one at [rand() % 100], and
    there the price and the stock only: every other product, the
    identifier of the product, the number of products and the counters of
    the gate are as before; the stock moves by -3 .. 6 and stops at 0. *)
Theorem writer_update_frame r1 r2 r3 (c c' : Catalog.CatalogMonitor float) :
  0 <= r3 ->
  Catalog.writer_update scaled_price r1 r2 r3 c = Returns c' ->
  let k := Z.to_nat (Z.rem r1 Catalog.MAX_PRODUCTS) in
  length (Catalog.products c') = length (Catalog.products c) /\
  (forall j, j <> k -> Catalog.products c' !! j = Catalog.products c !! j) /\
  (exists p p', Catalog.products c !! k = Some p /\
                Catalog.products c' !! k = Some p' /\
                Catalog.id p' = Catalog.id p /\
                Catalog.stock p' = Z.max 0 (Catalog.stock p + (Z.rem r3 10 - 3)) /\
                (0 <= Catalog.stock p ->
                 Catalog.stock p - 3 <= Catalog.stock p' <= Catalog.stock p + 6)) /\
  Catalog.num_readers c' = Catalog.num_readers c /\
  Catalog.num_writers c' = Catalog.num_writers c /\
  Catalog.writer_waiting c' = Catalog.writer_waiting c /\
  Catalog.should_stop c' = Catalog.should_stop c.
Proof.
  intros Hr3 Hup k.
  apply Catalog.writer_update_inv in Hup as (p & Hp & ->).
  pose proof (lookup_lt_Some _ _ _ Hp) as Hlt.
  assert (Hch : 0 <= Z.rem r3 10 < 10).
  { split; [apply Z.rem_nonneg; lia | apply Z.rem_bound_pos; lia]. }
  simpl. split; [by rewrite length_insert |]. split.
  - intros j Hj. by apply list_lookup_insert_ne.
  - split; [| done]. eexists p, _. split; [exact Hp |].
    split; [by apply list_lookup_insert_eq |]. simpl.
    split; [done |]. split; [done |]. lia.
Qed.

End Threads.

Arguments shop : clear implicits.

(** *** The properties on two runs, with prices left out *)

Definition quiet_start : shop unit :=
  start tt Catalog.no_price Catalog.sample_rand.

Definition after (ids : list (nat + nat)) : shop unit :=
  default quiet_start (schedule Catalog.same_price 7 ids quiet_start).

(** Reader [j] makes its five reads and returns. *)
Definition reader_turn (j : nat) : list (nat + nat) :=
  replicate (4 * Z.to_nat NUM_READS + 1) (inl j).

(** Writer [j] makes its three updates and returns. *)
Definition writer_turn (j : nat) : list (nat + nat) :=
  replicate (5 * Z.to_nat NUM_WRITES + 1) (inr j).

(** The threads one after the other. *)
Definition whole_run : list (nat + nat) :=
  reader_turn 0 ++ writer_turn 0 ++ reader_turn 1 ++ reader_turn 2
  ++ writer_turn 1 ++ reader_turn 3 ++ reader_turn 4.

(** Writer 0 is inside; reader 0 and writer 1 have found it there and
    sleep. *)
Definition busy_run : list (nat + nat) :=
  [inr 0%nat; inr 0%nat; inr 0%nat; inl 0%nat; inl 0%nat;
   inr 1%nat; inr 1%nat; inr 1%nat].

Lemma sample_rand_nonneg k : 0 <= Catalog.sample_rand k.
Proof. unfold Catalog.sample_rand. lia. Qed.

Lemma shop_whole_run_runs :
  schedule Catalog.same_price 7 whole_run quiet_start = Some (after whole_run).
Proof. vm_compute. reflexivity. Qed.

Lemma shop_busy_run_runs :
  schedule Catalog.same_price 7 busy_run quiet_start = Some (after busy_run).
Proof. vm_compute. reflexivity. Qed.

Lemma shop_reachable_after_whole_run :
  reachable tt Catalog.no_price Catalog.same_price Catalog.sample_rand
    (after whole_run).
Proof.
  exact (shop_schedule_reachable _ _ _ _ 7 whole_run _ _
           (reach_start _ _ _ _) shop_whole_run_runs).
Qed.

Lemma shop_reachable_after_busy_run :
  reachable tt Catalog.no_price Catalog.same_price Catalog.sample_rand
    (after busy_run).
Proof.
  exact (shop_schedule_reachable _ _ _ _ 7 busy_run _ _
           (reach_start _ _ _ _) shop_busy_run_runs).
Qed.

Lemma busy_run_threads :
  readers (after busy_run)
  = [ReaderAsleep 0; ReaderTest 0; ReaderTest 0; ReaderTest 0; ReaderTest 0] /\
  writers (after busy_run) = [WriterWrites 0; WriterAsleep 0].
Proof. vm_compute. split; reflexivity. Qed.

Lemma shop_whole_run_threads :
  readers (after whole_run) = replicate 5 (ReaderDone 5) /\
  writers (after whole_run) = replicate 2 (WriterDone 3).
Proof. vm_compute. split; reflexivity. Qed.

Lemma busy_run_unfinished : ~ finished (after busy_run).
Proof.
  intros [Hr _]. rewrite (proj1 busy_run_threads) in Hr.
  exact (Forall_lookup_1 _ _ 0%nat (ReaderAsleep 0) Hr eq_refl).
Qed.

Lemma busy_run_writer :
  writers (after busy_run) !! 0%nat = Some (WriterWrites 0).
Proof. by rewrite (proj2 busy_run_threads). Qed.

Lemma shop_whole_run_finished : finished (after whole_run).
Proof.
  unfold finished.
  rewrite (proj1 shop_whole_run_threads), (proj2 shop_whole_run_threads).
  split; repeat constructor.
Qed.

Lemma shop_whole_run_halts y' : ~ step Catalog.same_price (after whole_run) y'.
Proof. apply shop_finished_no_step, shop_whole_run_finished. Qed.

Lemma shop_whole_run_length :
  run Catalog.same_price 137 0 quiet_start (after whole_run).
Proof. exact (shop_schedule_run _ 7 whole_run _ _ shop_whole_run_runs). Qed.

Lemma readers_writers_never_stuck_witness :
  (forall k, 0 <= Catalog.sample_rand k) /\
  reachable tt Catalog.no_price Catalog.same_price Catalog.sample_rand
    (after busy_run) /\
  ~ finished (after busy_run) /\
  exists y', step Catalog.same_price (after busy_run) y'.
Proof.
  split; [exact sample_rand_nonneg |].
  split; [exact shop_reachable_after_busy_run |].
  split; [exact busy_run_unfinished |].
  exact (readers_writers_never_stuck tt Catalog.no_price Catalog.same_price
           Catalog.sample_rand sample_rand_nonneg _
           shop_reachable_after_busy_run busy_run_unfinished).
Defined.

Lemma readers_writers_runs_end_witness :
  run Catalog.same_price 137 0 quiet_start (after whole_run) /\
  (137 <= 223 + 0)%nat.
Proof.
  split; [exact shop_whole_run_length |].
  exact (readers_writers_runs_end tt Catalog.no_price Catalog.same_price
           Catalog.sample_rand sample_rand_nonneg 137 0 _ shop_whole_run_length).
Defined.

Lemma halts_with_gate_free_witness :
  reachable tt Catalog.no_price Catalog.same_price Catalog.sample_rand
    (after whole_run) /\
  (forall y', ~ step Catalog.same_price (after whole_run) y') /\
  Catalog.num_readers (gate (after whole_run)) = 0 /\
  Catalog.num_writers (gate (after whole_run)) = 0 /\
  Catalog.writer_waiting (gate (after whole_run)) = 0.
Proof.
  split; [exact shop_reachable_after_whole_run |].
  split; [exact shop_whole_run_halts |].
  pose proof (halts_with_gate_free tt Catalog.no_price Catalog.same_price
                Catalog.sample_rand sample_rand_nonneg _
                shop_reachable_after_whole_run shop_whole_run_halts)
    as (_ & _ & H1 & H2 & H3 & _).
  exact (conj H1 (conj H2 H3)).
Defined.

Lemma gate_calls_are_defined_witness :
  reachable tt Catalog.no_price Catalog.same_price Catalog.sample_rand
    (after busy_run) /\
  writers (after busy_run) !! 0%nat = Some (WriterWrites 0) /\
  defined (Catalog.writer_update Catalog.same_price 7 7 7
             (gate (after busy_run))).
Proof.
  split; [exact shop_reachable_after_busy_run |].
  split; [exact busy_run_writer |].
  apply (proj1 (proj2 (proj2 (proj2 (proj2 (proj2
           (gate_calls_are_defined tt Catalog.no_price Catalog.same_price
              Catalog.sample_rand sample_rand_nonneg _
              shop_reachable_after_busy_run)))))) 0%nat 0 7 7 7
           busy_run_writer); lia.
Defined.

Lemma products_keep_their_ids_witness :
  reachable tt Catalog.no_price Catalog.same_price Catalog.sample_rand
    (after whole_run) /\
  Z.of_nat (length (Catalog.products (gate (after whole_run))))
  = Catalog.MAX_PRODUCTS.
Proof.
  split; [exact shop_reachable_after_whole_run |].
  exact (proj1 (products_keep_their_ids tt Catalog.no_price Catalog.same_price
                  Catalog.sample_rand sample_rand_nonneg _
                  shop_reachable_after_whole_run)).
Defined.

Lemma writer_update_frame_witness :
  exists c',
    Catalog.writer_update Catalog.same_price 7 7 7 (gate quiet_start)
    = Returns c' /\
    length (Catalog.products c') = length (Catalog.products (gate quiet_start)).
Proof.
  eexists. split; [vm_compute; reflexivity |].
  apply (writer_update_frame Catalog.same_price 7 7 7 (gate quiet_start));
    [lia | vm_compute; reflexivity].
Defined.

End CatalogThreads.
(** * The editor threads of the semaphore studio
      (dining-philosophers/video_studio_sem.c)

    [editor] and the part of [main] that starts the five threads, over the
    stretches of [get_boards] and [put_boards] of [StudioSem]. *)

Module StudioSemThreads.

Import StudioSem.

Local Open Scope nat_scope.

Definition NUM_EDITS : Z := 3.

(** The stretch a thread runs from each place of the loop body, and the
    place it reaches. *)
Definition stretch (p : position) : StudioControl -> nat -> outcome StudioControl :=
  match p with
  | Planning => get_boards_enter
  | Entered => get_boards_permit
  | Permitted => get_boards_first
  | HasFirst => get_boards_second
  | HasBoth => put_boards
  end.

Definition next_position (p : position) : position :=
  match p with
  | Planning => Entered
  | Entered => Permitted
  | Permitted => HasFirst
  | HasFirst => HasBoth
  | HasBoth => Planning
  end.

(** Where an [editor] stands, with its loop counter [i]. *)
Inductive editor_at : Type :=
| AtTest (i : Z)                 (* at the loop test *)
| Inside (i : Z) (p : position)  (* in the loop body *)
| Returned (i : Z).              (* past the loop *)

(** The shared structure and the five threads. *)
Record crew : Type := mkCrew {
  studio : StudioControl;
  editors : list editor_at
}.

(** [main] has called [init_studio] and started every thread. *)
Definition start : crew :=
  {| studio := init_studio; editors := replicate NUM_EDITORS (AtTest 0) |}.

Definition set_editor (y : crew) (e : nat) (p : editor_at) : crew :=
  {| studio := studio y; editors := <[e := p]> (editors y) |}.

(** One thread runs up to its next test, wait or return. A thread at a
    [sem_wait] whose counter is 0 has no step. *)
Inductive step : crew -> crew -> Prop :=
| loop_goes_on y e i :
    editors y !! e = Some (AtTest i) -> (i < NUM_EDITS)%Z ->
    step y (set_editor y e (Inside i Planning))
| loop_ends y e i :
    editors y !! e = Some (AtTest i) -> ~ (i < NUM_EDITS)%Z ->
    step y (set_editor y e (Returned i))
| body_goes_on y e i p c :
    editors y !! e = Some (Inside i p) -> p <> HasBoth ->
    stretch p (studio y) e = Returns c ->
    step y {| studio := c;
              editors := <[e := Inside i (next_position p)]> (editors y) |}
| body_ends y e i i' c :
    editors y !! e = Some (Inside i HasBoth) ->
    put_boards (studio y) e = Returns c ->
    int_add i 1 = Returns i' ->
    step y {| studio := c; editors := <[e := AtTest i']> (editors y) |}.

Inductive reachable : crew -> Prop :=
| reach_start : reachable start
| reach_step y y' : reachable y -> step y y' -> reachable y'.

(** [n] steps lead from one state to another. *)
Inductive run : nat -> crew -> crew -> Prop :=
| run_nil y : run 0 y y
| run_step n y y1 y2 : step y y1 -> run n y1 y2 -> run (S n) y y2.

(** The same steps as a function: the next step of editor [e]. *)
Definition advance (y : crew) (e : nat) : option crew :=
  match editors y !! e with
  | Some (AtTest i) =>
      if decide (i < NUM_EDITS)%Z
      then Some (set_editor y e (Inside i Planning))
      else Some (set_editor y e (Returned i))
  | Some (Inside i HasBoth) =>
      match put_boards (studio y) e, int_add i 1 with
      | Returns c, Returns i' =>
          Some {| studio := c; editors := <[e := AtTest i']> (editors y) |}
      | _, _ => None
      end
  | Some (Inside i p) =>
      match stretch p (studio y) e with
      | Returns c =>
          Some {| studio := c;
                  editors := <[e := Inside i (next_position p)]> (editors y) |}
      | _ => None
      end
  | _ => None
  end.

(** A schedule names the editor that runs next. *)
Fixpoint schedule (ids : list nat) (y : crew) : option crew :=
  match ids with
  | [] => Some y
  | e :: ids' =>
      match advance y e with
      | Some y' => schedule ids' y'
      | None => None
      end
  end.

Definition after (ids : list nat) : crew := default start (schedule ids start).

(** Editor [e] makes its three edits and returns. *)
Definition editor_turn (e : nat) : list nat :=
  replicate (6 * Z.to_nat NUM_EDITS + 1) e.

(** The five editors one after the other. *)
Definition whole_run : list nat :=
  editor_turn 0 ++ editor_turn 1 ++ editor_turn 2 ++ editor_turn 3
  ++ editor_turn 4.

(** Editors 0, 1, 2 and 3 are let in one after the other and each takes
    its first board; editor 4 asks and is kept out by editor 0. *)
Definition chain_run : list nat :=
  [0; 0; 1; 1; 2; 2; 3; 3; 4; 4; 0; 0; 1; 1; 2; 2; 3; 3].

Definition editor_returned (p : editor_at) : Prop :=
  match p with Returned _ => True | _ => False end.

#[global] Instance editor_returned_dec p : Decision (editor_returned p).
Proof. destruct p; simpl; apply _. Defined.

Definition finished (y : crew) : Prop := Forall editor_returned (editors y).

(** The place of a thread in the view of [StudioSem.system], which has no
    loop counter. *)
Definition position_of (p : editor_at) : position :=
  match p with
  | Inside _ q => q
  | _ => Planning
  end.

Definition system_of (y : crew) : system :=
  {| control := studio y; positions := position_of <$> editors y |}.

(** The counters stay within the loop bound. *)
Definition editor_ok (p : editor_at) : Prop :=
  match p with
  | AtTest i => (0 <= i <= NUM_EDITS)%Z
  | Inside i _ => (0 <= i < NUM_EDITS)%Z
  | Returned i => i = NUM_EDITS
  end.

Definition counted (y : crew) : Prop := Forall editor_ok (editors y).

(** The steps an editor still takes. *)
Definition rank (p : position) : Z :=
  match p with
  | Planning => 0
  | Entered => 1
  | Permitted => 2
  | HasFirst => 3
  | HasBoth => 4
  end.

Definition editor_steps (p : editor_at) : Z :=
  match p with
  | AtTest i => 6 * (NUM_EDITS - i) + 1
  | Inside i q => 6 * (NUM_EDITS - i) - rank q
  | Returned _ => 0
  end%Z.

Definition steps_left (y : crew) : Z := total editor_steps (editors y).

(** ** What the semaphores count *)

(** The boards a thread holds at each place: its own from the first
    [sem_wait] on, the next one from the second on. *)
Definition has_own (p : position) : Z :=
  match p with HasFirst | HasBoth => 1 | _ => 0 end.

Definition has_next (p : position) : Z :=
  match p with HasBoth => 1 | _ => 0 end.

(** The state and the private semaphore of an editor at each place. *)
Definition place_ok (p : position) (st : option EditorState) (sem : option Z)
  : Prop :=
  match p with
  | Planning => st = Some THINKING /\ sem = Some 0%Z
  | Entered =>
      (st = Some HUNGRY /\ sem = Some 0%Z) \/
      (st = Some EDITING /\ sem = Some 1%Z)
  | Permitted | HasFirst | HasBoth => st = Some EDITING /\ sem = Some 0%Z
  end.

Record settled (c : StudioControl) (l : list position) : Prop := mkSettled {
  s_length : length l = NUM_EDITORS;
  s_sizes :
    length (state c) = NUM_EDITORS /\ length (sem_editors c) = NUM_EDITORS /\
    length (boards c) = NUM_BOARDS;
  s_places : forall i p,
    l !! i = Some p -> place_ok p (state c !! i) (sem_editors c !! i);
  s_boards : forall b p q,
    l !! b = Some p -> l !! Studio.left_of b = Some q ->
    boards c !! b = Some (1 - has_own p - has_next q)%Z /\
    (has_own p + has_next q <= 1)%Z;
  s_gap : exists i, i < NUM_EDITORS /\ state c !! i <> Some EDITING
}.

(** Every [HUNGRY] editor outside [skip] has its right neighbour
    [EDITING]. *)
Definition eager_but (skip : nat -> Prop) (c : StudioControl) : Prop :=
  forall k, k < NUM_EDITORS -> ~ skip k -> state c !! k = Some HUNGRY ->
    state c !! Studio.right_of k = Some EDITING.

Definition eager (c : StudioControl) : Prop := eager_but (fun _ => False) c.

Record sound (z : system) : Prop := mkSound {
  z_mutex : mutex (control z) = 1%Z;
  z_settled : settled (control z) (positions z);
  z_eager : eager (control z)
}.

(** ** The stretches *)

Lemma advance_stretch z e p :
  positions z !! e = Some p ->
  StudioSem.advance z e
  = (c ← stretch p (control z) e;
     Returns {| control := c;
                positions := <[e := next_position p]> (positions z) |}).
Proof. intros Hp. unfold StudioSem.advance. rewrite Hp. by destruct p. Qed.

Lemma sem_wait_Returns v v' :
  sem_wait v = Returns v' <-> (0 < v)%Z /\ v' = (v - 1)%Z.
Proof.
  unfold sem_wait. destruct (decide _); split.
  - intros H. injection H as <-. auto.
  - intros [_ ->]. reflexivity.
  - discriminate.
  - intros [H _]. contradiction.
Qed.

Lemma sem_wait_at_Returns sems i sems' :
  sem_wait_at sems i = Returns sems' <->
  exists v, sems !! i = Some v /\ (0 < v)%Z /\ sems' = <[i := (v - 1)%Z]> sems.
Proof.
  unfold sem_wait_at. destruct (sems !! i) as [v |] eqn:E.
  - rewrite bind_Returns. split.
    + intros (v' & Hw & H). apply sem_wait_Returns in Hw as [Hv ->].
      injection H as <-. eauto.
    + intros (v0 & E0 & Hv & ->). injection E0 as <-.
      exists (v - 1)%Z. split; [by apply sem_wait_Returns | done].
  - split; [discriminate | intros (v & E0 & _); discriminate].
Qed.

Lemma sem_post_at_lookup sems i v :
  sems !! i = Some v -> sem_post_at sems i !! i = Some (v + 1)%Z.
Proof.
  intros H. unfold sem_post_at. rewrite list_lookup_alter_eq, H. done.
Qed.

Lemma sem_post_at_lookup_ne sems i j :
  i <> j -> sem_post_at sems i !! j = sems !! j.
Proof. intros H. unfold sem_post_at. by rewrite list_lookup_alter_ne. Qed.

(** [test_editor] lets the editor in, or changes nothing. *)
Lemma test_editor_cases c j :
  (state c !! j = Some HUNGRY /\
   state c !! Studio.right_of j <> Some EDITING /\
   test_editor c j
   = {| state := <[j := EDITING]> (state c);
        sem_editors := sem_post_at (sem_editors c) j;
        mutex := mutex c;
        boards := boards c |}) \/
  (~ (state c !! j = Some HUNGRY /\
      state c !! Studio.right_of j <> Some EDITING) /\
   test_editor c j = c).
Proof.
  unfold test_editor.
  change ((j + 1) mod NUM_EDITORS) with (Studio.right_of j).
  destruct (decide (state c !! j = Some HUNGRY)) as [Hh | Hh].
  - destruct (decide (state c !! Studio.right_of j <> Some EDITING)) as [Hr | Hr].
    + left. split; [done |]. split; [done |].
      assert (Hl : state c !! j <> Some EDITING) by (rewrite Hh; discriminate).
      by rewrite (bool_decide_eq_true_2 _ Hh), (bool_decide_eq_true_2 _ Hl),
        (bool_decide_eq_true_2 _ Hr).
    + right. split; [tauto |].
      rewrite (bool_decide_eq_false_2 _ Hr). by rewrite andb_false_r.
  - right. split; [tauto |]. by rewrite (bool_decide_eq_false_2 _ Hh).
Qed.

Lemma test_editor_mutex c j : mutex (test_editor c j) = mutex c.
Proof.
  destruct (test_editor_cases c j) as [(_ & _ & ->) | (_ & ->)]; done.
Qed.

Lemma settled_mutex c l m :
  settled c l ->
  settled {| state := state c; sem_editors := sem_editors c; mutex := m;
             boards := boards c |} l.
Proof. intros [H1 H2 H3 H4 H5]. by constructor. Qed.

Lemma eager_but_mutex skip c m :
  eager_but skip c ->
  eager_but skip {| state := state c; sem_editors := sem_editors c;
                    mutex := m; boards := boards c |}.
Proof. intros H. exact H. Qed.

Lemma hungry_entered c l j p :
  settled c l -> l !! j = Some p -> state c !! j = Some HUNGRY ->
  p = Entered /\ sem_editors c !! j = Some 0%Z.
Proof.
  intros Hs Hp Hh. pose proof (s_places c l Hs j p Hp) as Hok.
  rewrite Hh in Hok.
  destruct p; simpl in Hok;
    try (destruct Hok as [Hst _]; discriminate).
  destruct Hok as [[_ H0] | [Hst _]]; [done | discriminate].
Qed.

Lemma test_editor_settled c l j :
  j < NUM_EDITORS -> settled c l -> settled (test_editor c j) l.
Proof.
  intros Hj Hs.
  destruct (test_editor_cases c j) as [(Hh & Hr & ->) | (_ & ->)]; [| done].
  pose proof (Studio.ring_facts j Hj) as (Hrlt & Hllt & Hrne & Hlne & Hlr & Hrl).
  assert (Hlen : j < length l) by (rewrite (s_length c l Hs); done).
  destruct (lookup_lt_is_Some_2 l j Hlen) as [p Hp].
  destruct (hungry_entered c l j p Hs Hp Hh) as [-> H0].
  constructor; simpl.
  - apply (s_length c l Hs).
  - unfold sem_post_at. rewrite length_insert, length_alter.
    apply (s_sizes c l Hs).
  - intros i p Hi. destruct (decide (i = j)) as [-> | Hne].
    + rewrite Hp in Hi. injection Hi as <-. simpl. right.
      rewrite list_lookup_insert_eq by (by apply lookup_lt_Some in Hh).
      by rewrite (sem_post_at_lookup _ _ _ H0).
    + rewrite list_lookup_insert_ne by done.
      rewrite sem_post_at_lookup_ne by done.
      by apply (s_places c l Hs).
  - apply (s_boards c l Hs).
  - exists (Studio.right_of j). split; [done |].
    by rewrite list_lookup_insert_ne.
Qed.

(** [test_editor j] settles editor [j] and unsettles nobody. *)
Lemma test_editor_eager c j (skip : nat -> Prop) :
  j < NUM_EDITORS -> eager_but skip c ->
  eager_but (fun k => skip k /\ k <> j) (test_editor c j).
Proof.
  intros Hj He k Hk Hskip.
  destruct (test_editor_cases c j) as [(Hh & Hr & ->) | (Hno & ->)]; simpl.
  - intros Hk'. apply lookup_lt_Some in Hh as Hlen.
    destruct (decide (k = j)) as [-> | Hne].
    { rewrite list_lookup_insert_eq in Hk' by done. discriminate. }
    rewrite list_lookup_insert_ne in Hk' by done.
    assert (Hold : state c !! Studio.right_of k = Some EDITING).
    { apply (He k Hk); [tauto | done]. }
    destruct (decide (Studio.right_of k = j)) as [-> | Hne'].
    + by rewrite list_lookup_insert_eq.
    + by rewrite list_lookup_insert_ne.
  - intros Hk'. destruct (decide (k = j)) as [-> | Hne].
    + destruct (decide (state c !! Studio.right_of j = Some EDITING));
        [done | tauto].
    + apply (He k Hk); [tauto | done].
Qed.

Lemma eager_but_weaken (skip skip' : nat -> Prop) c :
  (forall k, skip' k -> skip k) -> eager_but skip' c -> eager_but skip c.
Proof. intros Hsub He k Hk Hskip. apply (He k Hk). auto. Qed.

(** A place changed for one of the same weight changes no count. *)
Lemma lookup_insert_weight (f : position -> Z) (l : list position) e p0 p1 b p :
  l !! e = Some p0 -> f p0 = f p1 -> <[e := p1]> l !! b = Some p ->
  exists p', l !! b = Some p' /\ f p' = f p.
Proof.
  intros H0 Hf Hb. destruct (decide (b = e)) as [-> | Hne].
  - rewrite list_lookup_insert_eq in Hb by (by apply lookup_lt_Some in H0).
    injection Hb as <-. eauto.
  - rewrite list_lookup_insert_ne in Hb by done. eauto.
Qed.

Lemma settled_boards_same c l e p0 p1 b p q :
  settled c l -> l !! e = Some p0 ->
  has_own p0 = has_own p1 -> has_next p0 = has_next p1 ->
  <[e := p1]> l !! b = Some p -> <[e := p1]> l !! Studio.left_of b = Some q ->
  boards c !! b = Some (1 - has_own p - has_next q)%Z /\
  (has_own p + has_next q <= 1)%Z.
Proof.
  intros Hs H0 Ho Hn Hp Hq.
  destruct (lookup_insert_weight has_own l e p0 p1 b p H0 Ho Hp) as (p' & Hp' & <-).
  destruct (lookup_insert_weight has_next l e p0 p1 _ q H0 Hn Hq) as (q' & Hq' & <-).
  by apply (s_boards c l Hs).
Qed.

Lemma get_boards_enter_sound z e c :
  sound z -> e < NUM_EDITORS -> positions z !! e = Some Planning ->
  get_boards_enter (control z) e = Returns c ->
  sound {| control := c; positions := <[e := Entered]> (positions z) |}.
Proof.
  intros [Hm Hs He] Hlt Hp Hc. unfold get_boards_enter in Hc.
  rewrite Hm in Hc. simpl in Hc. injection Hc as <-.
  set (l := positions z) in *. set (c0 := control z) in *.
  set (c1 := {| state := <[e := HUNGRY]> (state c0);
                sem_editors := sem_editors c0; mutex := 0%Z;
                boards := boards c0 |}).
  pose proof (Studio.ring_facts e Hlt) as (Hrlt & Hllt & Hrne & Hlne & Hlr & Hrl).
  destruct (s_places c0 l Hs e Planning Hp) as [Hst Hsem].
  apply lookup_lt_Some in Hst as Hlen.
  assert (Hs1 : settled c1 (<[e := Entered]> l)).
  { constructor; simpl.
    - rewrite length_insert. apply (s_length c0 l Hs).
    - rewrite length_insert. apply (s_sizes c0 l Hs).
    - intros i p Hi. destruct (decide (i = e)) as [-> | Hne].
      + rewrite list_lookup_insert_eq in Hi by (by apply lookup_lt_Some in Hp).
        injection Hi as <-. simpl. left.
        by rewrite list_lookup_insert_eq.
      + rewrite list_lookup_insert_ne in Hi by done.
        rewrite list_lookup_insert_ne by done.
        by apply (s_places c0 l Hs).
    - intros b p q Hb Hq.
      by apply (settled_boards_same c0 l e Planning Entered b p q).
    - exists e. split; [done |]. rewrite list_lookup_insert_eq by done.
      discriminate. }
  assert (He1 : eager_but (fun k => k = e) c1).
  { intros k Hk Hne Hh. simpl in *.
    rewrite list_lookup_insert_ne in Hh by done.
    assert (Hold : state c0 !! Studio.right_of k = Some EDITING).
    { apply (He k Hk); [tauto | done]. }
    destruct (decide (Studio.right_of k = e)) as [E | Hne'].
    - rewrite E, Hst in Hold. discriminate.
    - by rewrite list_lookup_insert_ne. }
  constructor; simpl.
  - rewrite test_editor_mutex. reflexivity.
  - apply settled_mutex. by apply test_editor_settled.
  - apply eager_but_mutex.
    apply (eager_but_weaken _ (fun k => k = e /\ k <> e)); [tauto |].
    by apply test_editor_eager.
Qed.

Lemma get_boards_permit_sound z e c :
  sound z -> e < NUM_EDITORS -> positions z !! e = Some Entered ->
  get_boards_permit (control z) e = Returns c ->
  sound {| control := c; positions := <[e := Permitted]> (positions z) |}.
Proof.
  intros [Hm Hs He] Hlt Hp Hc. unfold get_boards_permit in Hc.
  apply bind_Returns in Hc as (es & Hw & Hc). injection Hc as <-.
  apply sem_wait_at_Returns in Hw as (v & Hv & Hpos & ->).
  set (l := positions z) in *. set (c0 := control z) in *.
  pose proof (s_places c0 l Hs e Entered Hp) as Hok. simpl in Hok.
  rewrite Hv in Hok.
  assert (Hst : state c0 !! e = Some EDITING /\ v = 1%Z).
  { destruct Hok as [[_ H0] | [Hst H1]].
    - injection H0 as ->. lia.
    - injection H1 as ->. done. }
  destruct Hst as [Hst ->].
  constructor; simpl; [done | | done].
  constructor; simpl.
  - rewrite length_insert. apply (s_length c0 l Hs).
  - rewrite length_insert. apply (s_sizes c0 l Hs).
  - intros i p Hi. destruct (decide (i = e)) as [-> | Hne].
    + rewrite list_lookup_insert_eq in Hi by (by apply lookup_lt_Some in Hp).
      injection Hi as <-. simpl.
      rewrite list_lookup_insert_eq by (by apply lookup_lt_Some in Hv).
      done.
    + rewrite list_lookup_insert_ne in Hi by done.
      rewrite list_lookup_insert_ne by done.
      by apply (s_places c0 l Hs).
  - intros b p q Hb Hq.
    by apply (settled_boards_same c0 l e Entered Permitted b p q).
  - apply (s_gap c0 l Hs).
Qed.

Lemma get_boards_first_sound z e c :
  sound z -> e < NUM_EDITORS -> positions z !! e = Some Permitted ->
  get_boards_first (control z) e = Returns c ->
  sound {| control := c; positions := <[e := HasFirst]> (positions z) |}.
Proof.
  intros [Hm Hs He] Hlt Hp Hc. unfold get_boards_first in Hc.
  apply bind_Returns in Hc as (bs & Hw & Hc). injection Hc as <-.
  apply sem_wait_at_Returns in Hw as (v & Hv & Hpos & ->).
  set (l := positions z) in *. set (c0 := control z) in *.
  pose proof (Studio.ring_facts e Hlt) as (Hrlt & Hllt & Hrne & Hlne & Hlr & Hrl).
  assert (Hlen : length l = NUM_EDITORS) by apply (s_length c0 l Hs).
  destruct (lookup_lt_is_Some_2 l (Studio.left_of e)) as [q0 Hq0];
    [by rewrite Hlen |].
  destruct (s_boards c0 l Hs e Permitted q0 Hp Hq0) as [Hb0 Hle0].
  rewrite Hv in Hb0. injection Hb0 as ->. simpl in Hpos, Hle0.
  constructor; simpl; [done | | done].
  constructor; simpl.
  - rewrite length_insert. exact Hlen.
  - rewrite length_insert. apply (s_sizes c0 l Hs).
  - intros i p Hi. destruct (decide (i = e)) as [-> | Hne].
    + rewrite list_lookup_insert_eq in Hi by (by apply lookup_lt_Some in Hp).
      injection Hi as <-. by apply (s_places c0 l Hs e Permitted).
    + rewrite list_lookup_insert_ne in Hi by done.
      by apply (s_places c0 l Hs).
  - intros b p q Hb Hq. destruct (decide (b = e)) as [-> | Hne].
    + rewrite list_lookup_insert_eq in Hb by (by apply lookup_lt_Some in Hp).
      injection Hb as <-.
      rewrite list_lookup_insert_ne in Hq by done.
      rewrite Hq0 in Hq. injection Hq as <-.
      rewrite list_lookup_insert_eq by (by apply lookup_lt_Some in Hv).
      simpl. split; [f_equal; lia | lia].
    + rewrite list_lookup_insert_ne in Hb by done.
      rewrite list_lookup_insert_ne by done.
      destruct (lookup_insert_weight has_next l e Permitted HasFirst _ q Hp eq_refl Hq)
        as (q' & Hq' & <-).
      by apply (s_boards c0 l Hs).
  - apply (s_gap c0 l Hs).
Qed.

Lemma get_boards_second_sound z e c :
  sound z -> e < NUM_EDITORS -> positions z !! e = Some HasFirst ->
  get_boards_second (control z) e = Returns c ->
  sound {| control := c; positions := <[e := HasBoth]> (positions z) |}.
Proof.
  intros [Hm Hs He] Hlt Hp Hc. unfold get_boards_second in Hc.
  change ((e + 1) mod NUM_BOARDS) with (Studio.right_of e) in Hc.
  apply bind_Returns in Hc as (bs & Hw & Hc). injection Hc as <-.
  apply sem_wait_at_Returns in Hw as (v & Hv & Hpos & ->).
  set (l := positions z) in *. set (c0 := control z) in *.
  pose proof (Studio.ring_facts e Hlt) as (Hrlt & Hllt & Hrne & Hlne & Hlr & Hrl).
  assert (Hlen : length l = NUM_EDITORS) by apply (s_length c0 l Hs).
  destruct (lookup_lt_is_Some_2 l (Studio.right_of e)) as [pr Hpr];
    [by rewrite Hlen |].
  assert (Hp' : l !! Studio.left_of (Studio.right_of e) = Some HasFirst)
    by (by rewrite Hlr).
  destruct (s_boards c0 l Hs (Studio.right_of e) pr HasFirst Hpr Hp')
    as [Hb0 Hle0].
  rewrite Hv in Hb0. injection Hb0 as ->. simpl in Hpos, Hle0.
  constructor; simpl; [done | | done].
  constructor; simpl.
  - rewrite length_insert. exact Hlen.
  - rewrite length_insert. apply (s_sizes c0 l Hs).
  - intros i p Hi. destruct (decide (i = e)) as [-> | Hne].
    + rewrite list_lookup_insert_eq in Hi by (by apply lookup_lt_Some in Hp).
      injection Hi as <-. by apply (s_places c0 l Hs e HasFirst).
    + rewrite list_lookup_insert_ne in Hi by done.
      by apply (s_places c0 l Hs).
  - intros b p q Hb Hq. destruct (decide (b = Studio.right_of e)) as [-> | Hne].
    + rewrite list_lookup_insert_ne in Hb by done.
      rewrite Hpr in Hb. injection Hb as <-.
      rewrite Hlr in Hq.
      rewrite list_lookup_insert_eq in Hq by (by apply lookup_lt_Some in Hp).
      injection Hq as <-.
      rewrite list_lookup_insert_eq by (by apply lookup_lt_Some in Hv).
      simpl. split; [f_equal; lia | lia].
    + rewrite list_lookup_insert_ne by done.
      assert (Hle : Studio.left_of b <> e).
      { intros E. apply Hne. apply Studio.left_of_eq; [| done].
        apply lookup_lt_Some in Hb. rewrite length_insert, Hlen in Hb. done. }
      rewrite list_lookup_insert_ne in Hq by done.
      destruct (lookup_insert_weight has_own l e HasFirst HasBoth _ p Hp eq_refl Hb)
        as (p' & Hp'' & <-).
      by apply (s_boards c0 l Hs).
  - apply (s_gap c0 l Hs).
Qed.

Lemma put_boards_sound z e c :
  sound z -> e < NUM_EDITORS -> positions z !! e = Some HasBoth ->
  put_boards (control z) e = Returns c ->
  sound {| control := c; positions := <[e := Planning]> (positions z) |}.
Proof.
  intros [Hm Hs He] Hlt Hp Hc. unfold put_boards in Hc.
  rewrite Hm in Hc. simpl in Hc. injection Hc as <-.
  change ((e + 1) mod NUM_BOARDS) with (Studio.right_of e).
  change ((e + NUM_EDITORS - 1) mod NUM_EDITORS) with (Studio.left_of e).
  change ((e + 1) mod NUM_EDITORS) with (Studio.right_of e).
  set (l := positions z) in *. set (c0 := control z) in *.
  set (c1 := {| state := <[e := THINKING]> (state c0);
                sem_editors := sem_editors c0; mutex := 0%Z;
                boards := sem_post_at (sem_post_at (boards c0) e)
                            (Studio.right_of e) |}).
  pose proof (Studio.ring_facts e Hlt) as (Hrlt & Hllt & Hrne & Hlne & Hlr & Hrl).
  assert (Hlen : length l = NUM_EDITORS) by apply (s_length c0 l Hs).
  destruct (s_places c0 l Hs e HasBoth Hp) as [Hst Hsem].
  apply lookup_lt_Some in Hst as Hlst.
  assert (Hs1 : settled c1 (<[e := Planning]> l)).
  { constructor; simpl.
    - rewrite length_insert. exact Hlen.
    - unfold sem_post_at. rewrite length_insert, !length_alter.
      apply (s_sizes c0 l Hs).
    - intros i p Hi. destruct (decide (i = e)) as [-> | Hne].
      + rewrite list_lookup_insert_eq in Hi by (by apply lookup_lt_Some in Hp).
        injection Hi as <-. simpl.
        by rewrite list_lookup_insert_eq.
      + rewrite list_lookup_insert_ne in Hi by done.
        rewrite list_lookup_insert_ne by done.
        by apply (s_places c0 l Hs).
    - intros b p q Hb Hq.
      assert (Hblt : b < NUM_EDITORS).
      { apply lookup_lt_Some in Hb. by rewrite length_insert, Hlen in Hb. }
      destruct (decide (b = e)) as [-> | Hne].
      + rewrite list_lookup_insert_eq in Hb by (by apply lookup_lt_Some in Hp).
        injection Hb as <-.
        rewrite list_lookup_insert_ne in Hq by done.
        destruct (s_boards c0 l Hs e HasBoth q Hp Hq) as [Hb0 Hle0].
        rewrite sem_post_at_lookup_ne by done.
        rewrite (sem_post_at_lookup _ _ _ Hb0).
        simpl in *. split; [f_equal; lia | lia].
      + rewrite list_lookup_insert_ne in Hb by done.
        destruct (decide (b = Studio.right_of e)) as [-> | Hne'].
        * rewrite Hlr in Hq.
          rewrite list_lookup_insert_eq in Hq by (by apply lookup_lt_Some in Hp).
          injection Hq as <-.
          assert (Hp' : l !! Studio.left_of (Studio.right_of e) = Some HasBoth)
            by (by rewrite Hlr).
          destruct (s_boards c0 l Hs _ p HasBoth Hb Hp') as [Hb0 Hle0].
          assert (Hb1 : sem_post_at (boards c0) e !! Studio.right_of e
                        = Some (1 - has_own p - has_next HasBoth)%Z)
            by (by rewrite sem_post_at_lookup_ne).
          rewrite (sem_post_at_lookup _ _ _ Hb1).
          simpl in *. split; [f_equal; lia | lia].
        * assert (Hle : Studio.left_of b <> e).
          { intros E. apply Hne'. by apply Studio.left_of_eq. }
          rewrite list_lookup_insert_ne in Hq by done.
          rewrite !sem_post_at_lookup_ne by done.
          by apply (s_boards c0 l Hs).
    - exists e. split; [done |]. rewrite list_lookup_insert_eq by done.
      discriminate. }
  assert (He1 : eager_but (fun k => k = Studio.left_of e) c1).
  { intros k Hk Hne Hh. simpl in *.
    destruct (decide (k = e)) as [-> | Hke].
    { rewrite list_lookup_insert_eq in Hh by done. discriminate. }
    rewrite list_lookup_insert_ne in Hh by done.
    assert (Hold : state c0 !! Studio.right_of k = Some EDITING).
    { apply (He k Hk); [tauto | done]. }
    rewrite list_lookup_insert_ne; [done |].
    intros E. apply Hne. by apply Studio.right_of_eq. }
  constructor; cbn [control positions mutex state sem_editors boards].
  - rewrite !test_editor_mutex. reflexivity.
  - apply settled_mutex.
    apply test_editor_settled; [done |]. by apply test_editor_settled.
  - apply eager_but_mutex.
    apply (eager_but_weaken _
             (fun k => (k = Studio.left_of e /\ k <> Studio.left_of e)
                       /\ k <> Studio.right_of e)); [tauto |].
    apply test_editor_eager; [done |]. by apply test_editor_eager.
Qed.

Lemma sem_sound_start : sound StudioSem.start.
Proof.
  constructor; [reflexivity | |].
  - constructor.
    + reflexivity.
    + done.
    + intros i p Hi. apply lookup_lt_Some in Hi as Hlt. simpl in Hlt.
      do 5 (destruct i as [| i]; [injection Hi as <-; by split |]).
      simpl in Hlt. lia.
    + intros b p q Hb Hq. apply lookup_lt_Some in Hb as Hlt. simpl in Hlt.
      do 5 (destruct b as [| b];
            [injection Hb as <-; injection Hq as <-; by split |]).
      simpl in Hlt. lia.
    + exists 0. split; [unfold NUM_EDITORS; lia | discriminate].
  - intros k Hk _ Hh. unfold NUM_EDITORS in Hk.
    do 5 (destruct k as [| k]; [discriminate |]). lia.
Qed.

Lemma advance_sound z e z' :
  sound z -> e < NUM_EDITORS -> StudioSem.advance z e = Returns z' -> sound z'.
Proof.
  intros Hs He Ha.
  destruct (positions z !! e) as [p |] eqn:Hp.
  - rewrite (advance_stretch z e p Hp) in Ha.
    apply bind_Returns in Ha as (c & Hc & Ha). injection Ha as <-.
    destruct p; simpl in Hc.
    + by apply get_boards_enter_sound.
    + by apply get_boards_permit_sound.
    + by apply get_boards_first_sound.
    + by apply get_boards_second_sound.
    + by apply put_boards_sound.
  - unfold StudioSem.advance in Ha. rewrite Hp in Ha. discriminate.
Qed.

Lemma sem_reachable_sound z : StudioSem.reachable z -> sound z.
Proof.
  induction 1 as [| z i z' Hr IH Hi Ha].
  - apply sem_sound_start.
  - by apply (advance_sound z i z').
Qed.

(** Boards are never shared: two editors that hold the same board are the
    same editor. The private semaphores and the [state] array let
    neighbours in together, the semaphore of each board does not. *)
Theorem sem_boards_exclusive z i j b :
  StudioSem.reachable z -> holds z i b -> holds z j b -> i = j.
Proof.
  intros Hr Hi Hj. pose proof (sem_reachable_sound z Hr) as [_ Hs _].
  assert (Hlen : length (positions z) = NUM_EDITORS) by apply (s_length _ _ Hs).
  assert (Hown : forall k p, positions z !! k = Some p ->
            (p = HasFirst \/ p = HasBoth) -> has_own p = 1%Z).
  { intros k p _ [-> | ->]; reflexivity. }
  assert (Hone : forall k p q, positions z !! k = Some p ->
            positions z !! Studio.left_of k = Some q ->
            (has_own p + has_next q <= 1)%Z).
  { intros k p q Hp Hq. by apply (s_boards _ _ Hs k p q). }
  assert (Hlt : forall k p, positions z !! k = Some p -> k < NUM_EDITORS).
  { intros k p Hp. apply lookup_lt_Some in Hp. by rewrite Hlen in Hp. }
  change NUM_BOARDS with Studio.NUM_EDITORS in *.
  destruct Hi as [[-> Hi] | [-> Hi]], Hj as [[Ej Hj] | [Ej Hj]].
  - done.
  - (* [i] holds its own board, [j] holds it as its next one *)
    exfalso.
    assert (Hjlt : j < NUM_EDITORS) by apply (Hlt j _ Hj).
    pose proof (Studio.ring_facts j Hjlt) as (_ & _ & _ & _ & Hlr & _).
    change (i = Studio.right_of j) in Ej. subst i.
    destruct (positions z !! Studio.right_of j) as [p |] eqn:Hp;
      [| destruct Hi; discriminate].
    assert (Hq : positions z !! Studio.left_of (Studio.right_of j) = Some HasBoth)
      by (by rewrite Hlr).
    pose proof (Hone _ p HasBoth Hp Hq) as Hle.
    assert (has_own p = 1%Z) by (destruct Hi as [Hi | Hi]; by injection Hi as ->).
    simpl in Hle. lia.
  - exfalso.
    assert (Hilt : i < NUM_EDITORS) by apply (Hlt i _ Hi).
    pose proof (Studio.ring_facts i Hilt) as (_ & _ & _ & _ & Hlr & _).
    change (Studio.right_of i = j) in Ej. subst j.
    destruct (positions z !! Studio.right_of i) as [p |] eqn:Hp;
      [| destruct Hj; discriminate].
    assert (Hq : positions z !! Studio.left_of (Studio.right_of i) = Some HasBoth)
      by (by rewrite Hlr).
    pose proof (Hone _ p HasBoth Hp Hq) as Hle.
    assert (has_own p = 1%Z) by (destruct Hj as [Hj | Hj]; by injection Hj as ->).
    simpl in Hle. lia.
  - assert (Hilt : i < NUM_EDITORS) by apply (Hlt i _ Hi).
    assert (Hjlt : j < NUM_EDITORS) by apply (Hlt j _ Hj).
    change (Studio.right_of i = Studio.right_of j) in Ej.
    pose proof (Studio.ring_facts i Hilt) as (_ & _ & _ & _ & Hlri & _).
    pose proof (Studio.ring_facts j Hjlt) as (_ & _ & _ & _ & Hlrj & _).
    congruence.
Qed.

Lemma sem_boards_exclusive_witness :
  StudioSem.reachable one_board /\ holds one_board 0 0 /\ 0 = 0.
Proof.
  split; [apply reachable_one_board |].
  assert (H : holds one_board 0 0).
  { left. split; [reflexivity | left; reflexivity]. }
  split; [exact H |].
  exact (sem_boards_exclusive one_board 0 0 0 reachable_one_board H H).
Defined.

(** In every reachable state some editor is not [EDITING]: the five are
    never [EDITING] all at once. And an editor is [HUNGRY] only while its
    right neighbour is [EDITING]. *)
Theorem sem_waits_for_right_neighbour z :
  StudioSem.reachable z ->
  (exists i, i < NUM_EDITORS /\ ~ editing z i) /\
  (forall e, e < NUM_EDITORS ->
     state (control z) !! e = Some HUNGRY ->
     editing z (Studio.right_of e)).
Proof.
  intros Hr. pose proof (sem_reachable_sound z Hr) as [_ Hs Hg].
  split.
  - apply (s_gap _ _ Hs).
  - intros e He Hh. apply (Hg e He); [tauto | exact Hh].
Qed.

(** ** The threads *)

Lemma sem_advance_step y e y' : advance y e = Some y' -> step y y'.
Proof.
  unfold advance. intros H.
  destruct (editors y !! e) as [[i | i p | i] |] eqn:He; try discriminate.
  - destruct (decide _) as [Hi | Hno]; injection H as <-.
    + by apply (loop_goes_on y e i).
    + by apply (loop_ends y e i).
  - destruct p;
      try (match type of H with
           | context [stretch ?p _ _] =>
               destruct (stretch p (studio y) e) as [c | |] eqn:Hc;
               [| discriminate | discriminate]; injection H as <-;
               by apply (body_goes_on y e i p c)
           end).
    destruct (put_boards (studio y) e) as [c | |] eqn:Hc; try discriminate.
    destruct (int_add i 1) as [i' | |] eqn:Hi; try discriminate.
    injection H as <-. by apply (body_ends y e i i' c).
Qed.

Lemma sem_step_advance y y' : step y y' -> exists e, advance y e = Some y'.
Proof.
  intros [y0 e i He Hi | y0 e i He Hno | y0 e i p c He Hp Hc
          | y0 e i i' c He Hc Hi'];
    exists e; unfold advance; rewrite He.
  - by rewrite decide_True.
  - by rewrite decide_False.
  - destruct p; try contradiction; by rewrite Hc.
  - by rewrite Hc, Hi'.
Qed.

Lemma sem_schedule_reachable ids : forall y y',
  reachable y -> schedule ids y = Some y' -> reachable y'.
Proof.
  induction ids as [| e ids IH]; intros y y' Hy H; simpl in H.
  - by injection H as <-.
  - destruct (advance y e) as [y1 |] eqn:H1; [| discriminate].
    apply (IH y1 y'); [| done].
    apply (reach_step y y1 Hy). by apply (sem_advance_step y e).
Qed.

Lemma sem_schedule_run ids : forall y y',
  schedule ids y = Some y' -> run (length ids) y y'.
Proof.
  induction ids as [| e ids IH]; intros y y' H; simpl in H.
  - injection H as <-. constructor.
  - destruct (advance y e) as [y1 |] eqn:H1; [| discriminate].
    apply (run_step _ y y1); [by apply (sem_advance_step y e) |].
    by apply IH.
Qed.

Lemma sem_run_reachable n y y' : run n y y' -> reachable y -> reachable y'.
Proof.
  induction 1 as [| n y y1 y2 Hstep _ IH]; [done |].
  intros Hy. apply IH. by apply (reach_step y y1).
Qed.

(** The loop test changes nothing in the view without counters; every
    other step is a stretch of [StudioSem.advance]. *)
Lemma system_of_stays y e p p' :
  editors y !! e = Some p -> position_of p' = position_of p ->
  system_of (set_editor y e p') = system_of y.
Proof.
  intros Hp Hpos. unfold system_of, set_editor; simpl.
  rewrite list_fmap_insert, Hpos. f_equal.
  apply list_insert_id. by rewrite list_lookup_fmap, Hp.
Qed.

Lemma step_system y y' :
  length (editors y) = NUM_EDITORS -> step y y' ->
  system_of y' = system_of y \/
  exists e, e < NUM_EDITORS /\
            StudioSem.advance (system_of y) e = Returns (system_of y').
Proof.
  intros Hlen Hstep.
  destruct Hstep as [y e i He Hi | y e i He Hno | y e i p c He Hp Hc
                     | y e i i' c He Hc Hi'].
  - left. by apply (system_of_stays y e (AtTest i)).
  - left. by apply (system_of_stays y e (AtTest i)).
  - right. exists e. split.
    { apply lookup_lt_Some in He. by rewrite Hlen in He. }
    rewrite (advance_stretch _ e p)
      by (unfold system_of; simpl; by rewrite list_lookup_fmap, He).
    unfold system_of; simpl. rewrite Hc. simpl.
    by rewrite list_fmap_insert.
  - right. exists e. split.
    { apply lookup_lt_Some in He. by rewrite Hlen in He. }
    rewrite (advance_stretch _ e HasBoth)
      by (unfold system_of; simpl; by rewrite list_lookup_fmap, He).
    unfold system_of; simpl. rewrite Hc. simpl.
    by rewrite list_fmap_insert.
Qed.

Lemma step_length y y' :
  step y y' -> length (editors y') = length (editors y).
Proof. intros []; simpl; by rewrite length_insert. Qed.

Lemma sem_step_counted y y' : step y y' -> counted y -> counted y'.
Proof.
  unfold counted.
  intros [y0 e i He Hi | y0 e i He Hno | y0 e i p c He Hp Hc
          | y0 e i i' c He Hc Hi'] Hall; simpl;
    pose proof (Forall_lookup_1 _ _ _ _ Hall He) as Hok; simpl in Hok;
    apply Forall_insert; try done; simpl; unfold NUM_EDITS in *; try lia.
  apply int_add_Returns in Hi' as [-> _]. lia.
Qed.

Lemma sem_crew_reachable y :
  reachable y ->
  length (editors y) = NUM_EDITORS /\ counted y /\
  StudioSem.reachable (system_of y).
Proof.
  induction 1 as [| y y' Hr (Hlen & Hc & Hz) Hstep].
  - split; [done |]. split.
    + unfold counted, start; simpl. repeat constructor; done.
    + apply StudioSem.reach_start.
  - split; [by rewrite (step_length y y' Hstep) |].
    split; [by apply (sem_step_counted y y') |].
    destruct (step_system y y' Hlen Hstep) as [-> | (e & He & Ha)]; [done |].
    by apply (StudioSem.reach_advance (system_of y) e).
Qed.

Lemma sem_crew_sound y : reachable y -> sound (system_of y).
Proof.
  intros Hr. apply sem_reachable_sound. by apply sem_crew_reachable.
Qed.

(** ** Every step is one step nearer the end *)

Lemma rank_next p : p <> HasBoth -> rank (next_position p) = (rank p + 1)%Z.
Proof. destruct p; simpl; (done || lia). Qed.

Lemma sem_step_decreases y y' :
  counted y -> step y y' -> steps_left y' = (steps_left y - 1)%Z.
Proof.
  unfold counted, steps_left.
  intros Hall Hstep.
  destruct Hstep as [y e i He Hi | y e i He Hno | y e i p c He Hp Hc
                     | y e i i' c He Hc Hi']; simpl;
    pose proof (Forall_lookup_1 _ _ _ _ Hall He) as Hok; simpl in Hok;
    rewrite (total_insert editor_steps _ _ _ _ He);
    cbn [editor_steps]; unfold NUM_EDITS in *.
  - simpl. lia.
  - lia.
  - rewrite (rank_next p Hp). lia.
  - apply int_add_Returns in Hi' as [-> _]. simpl. lia.
Qed.

Lemma sem_editor_steps_nonneg p : editor_ok p -> (0 <= editor_steps p)%Z.
Proof.
  destruct p as [i | i q | i]; simpl; unfold NUM_EDITS; [lia | | lia].
  destruct q; simpl; lia.
Qed.

Lemma editor_steps_zero p :
  editor_ok p -> editor_steps p = 0%Z -> editor_returned p.
Proof.
  destruct p as [i | i q | i]; simpl; unfold NUM_EDITS; [lia | | done].
  destruct q; simpl; lia.
Qed.

Lemma sem_steps_left_nonneg y : counted y -> (0 <= steps_left y)%Z.
Proof.
  intros Hall. apply total_nonneg.
  apply (Forall_impl _ _ _ Hall). apply sem_editor_steps_nonneg.
Qed.

Lemma steps_left_zero y :
  counted y -> steps_left y = 0%Z -> finished y.
Proof.
  unfold counted, steps_left, finished. intros Hall H0.
  apply Forall_lookup_2. intros e p Hp.
  pose proof (Forall_lookup_1 _ _ _ _ Hall Hp) as Hok.
  apply (editor_steps_zero p Hok).
  assert (Hnn : Forall (fun x => (0 <= editor_steps x)%Z) (editors y)).
  { apply (Forall_impl _ _ _ Hall). apply sem_editor_steps_nonneg. }
  pose proof (total_lookup_le editor_steps _ _ _ Hnn Hp) as Hle.
  pose proof (Forall_lookup_1 _ _ _ _ Hnn Hp) as H0le. simpl in H0le. lia.
Qed.

Lemma finished_steps_left y : finished y -> steps_left y = 0%Z.
Proof.
  intros Hf. apply total_zero. apply (Forall_impl _ _ _ Hf).
  by intros [].
Qed.

Lemma sem_run_counts n y y' :
  run n y y' -> counted y ->
  counted y' /\ steps_left y' = (steps_left y - Z.of_nat n)%Z.
Proof.
  induction 1 as [y | n y y1 y2 Hstep _ IH]; intros Hc.
  - split; [done | lia].
  - destruct (IH (sem_step_counted y y1 Hstep Hc)) as [Hc2 E].
    split; [done |]. rewrite E, (sem_step_decreases y y1 Hc Hstep). lia.
Qed.

Lemma steps_left_start : steps_left start = 95%Z.
Proof. reflexivity. Qed.

Lemma sem_counted_start : counted start.
Proof. unfold counted, start; simpl. repeat constructor; done. Qed.

(** ** Somebody can always go on *)

Lemma inside_of (l : list editor_at) (e : nat) p :
  position_of <$> l !! e = Some p -> p <> Planning ->
  exists i, l !! e = Some (Inside i p).
Proof.
  destruct (l !! e) as [[i | i q | i] |]; simpl; intros H Hp;
    try (injection H as <-; contradiction); [| discriminate].
  injection H as <-. by exists i.
Qed.

Lemma iter_right_reaches e g :
  e < NUM_EDITORS -> g < NUM_EDITORS ->
  exists n, Nat.iter n Studio.right_of e = g.
Proof.
  unfold NUM_EDITORS. intros He Hg. exists ((g + 5 - e) mod 5).
  do 5 (destruct e as [| e];
        [do 5 (destruct g as [| g]; [reflexivity |]); lia |]).
  lia.
Qed.

Lemma iter_right_lt n e :
  e < NUM_EDITORS -> Nat.iter n Studio.right_of e < NUM_EDITORS.
Proof.
  intros He. induction n as [| n IH]; simpl; [done |].
  by apply Studio.right_of_lt.
Qed.

Section Progress.

Variable y : crew.
Hypothesis Hsound : sound (system_of y).
Hypothesis Hcounted : counted y.

Lemma at_test_steps e i :
  editors y !! e = Some (AtTest i) -> exists y', step y y'.
Proof.
  intros He. destruct (decide (i < NUM_EDITS)%Z).
  - eexists. by apply (loop_goes_on y e i).
  - eexists. by apply (loop_ends y e i).
Qed.

Lemma planning_steps e i :
  editors y !! e = Some (Inside i Planning) -> exists y', step y y'.
Proof.
  intros He. pose proof (z_mutex _ Hsound) as Hm. simpl in Hm.
  eexists. apply (body_goes_on y e i Planning); [done | done |].
  simpl. unfold get_boards_enter. rewrite Hm. reflexivity.
Qed.

Lemma has_both_steps e i :
  editors y !! e = Some (Inside i HasBoth) -> exists y', step y y'.
Proof.
  intros He. pose proof (z_mutex _ Hsound) as Hm. simpl in Hm.
  pose proof (Forall_lookup_1 _ _ _ _ Hcounted He) as Hok. simpl in Hok.
  eexists. apply (body_ends y e i (i + 1)%Z); [done | |].
  - unfold put_boards. rewrite Hm. reflexivity.
  - apply int_add_small.
    unfold int_range, INT_MIN, INT_MAX, NUM_EDITS in *. lia.
Qed.

Lemma let_in_steps e i :
  editors y !! e = Some (Inside i Entered) ->
  state (studio y) !! e = Some EDITING -> exists y', step y y'.
Proof.
  intros He Hst.
  pose proof (s_places _ _ (z_settled _ Hsound) e Entered) as Hok.
  simpl in Hok. rewrite list_lookup_fmap, He in Hok.
  destruct (Hok eq_refl) as [[Hh _] | [_ Hsem]].
  { rewrite Hst in Hh. discriminate. }
  eexists. apply (body_goes_on y e i Entered); [done | done |].
  simpl. unfold get_boards_permit, sem_wait_at. rewrite Hsem. reflexivity.
Qed.

Lemma permitted_steps e i :
  editors y !! e = Some (Inside i Permitted) -> exists y', step y y'.
Proof.
  intros He. pose proof (z_settled _ Hsound) as Hs. simpl in Hs.
  assert (Hlt : e < NUM_EDITORS).
  { apply lookup_lt_Some in He.
    rewrite <- (s_length _ _ Hs), length_fmap. done. }
  pose proof (Studio.ring_facts e Hlt) as (Hrlt & Hllt & _).
  destruct (lookup_lt_is_Some_2 (position_of <$> editors y) (Studio.left_of e))
    as [q Hq]; [by rewrite (s_length _ _ Hs) |].
  assert (Hp : (position_of <$> editors y) !! e = Some Permitted)
    by (by rewrite list_lookup_fmap, He).
  destruct (s_boards _ _ Hs e Permitted q Hp Hq) as [Hb _].
  destruct (decide (q = HasBoth)) as [-> | Hne].
  - rewrite list_lookup_fmap in Hq.
    destruct (inside_of _ _ _ Hq) as [i' Hi']; [done |].
    by apply (has_both_steps (Studio.left_of e) i').
  - assert (H1 : boards (studio y) !! e = Some 1%Z).
    { rewrite Hb. by destruct q. }
    eexists. apply (body_goes_on y e i Permitted); [done | done |].
    simpl. unfold get_boards_first, sem_wait_at. rewrite H1. reflexivity.
Qed.

(** An editor with its first board goes on, or the editor to its right has
    its first board too. *)
Lemma has_first_next e i :
  editors y !! e = Some (Inside i HasFirst) ->
  (exists y', step y y') \/
  exists i', editors y !! Studio.right_of e = Some (Inside i' HasFirst).
Proof.
  intros He. pose proof (z_settled _ Hsound) as Hs. simpl in Hs.
  assert (Hlt : e < NUM_EDITORS).
  { apply lookup_lt_Some in He.
    rewrite <- (s_length _ _ Hs), length_fmap. done. }
  pose proof (Studio.ring_facts e Hlt) as (Hrlt & Hllt & _ & _ & Hlr & _).
  destruct (lookup_lt_is_Some_2 (position_of <$> editors y) (Studio.right_of e))
    as [p Hp]; [by rewrite (s_length _ _ Hs) |].
  assert (Hq : (position_of <$> editors y) !! Studio.left_of (Studio.right_of e)
               = Some HasFirst)
    by (by rewrite Hlr, list_lookup_fmap, He).
  destruct (s_boards _ _ Hs _ p HasFirst Hp Hq) as [Hb _].
  rewrite list_lookup_fmap in Hp.
  destruct (decide (p = HasBoth)) as [-> | Hnb].
  { left. destruct (inside_of _ _ _ Hp) as [i' Hi']; [done |].
    by apply (has_both_steps (Studio.right_of e) i'). }
  destruct (decide (p = HasFirst)) as [-> | Hnf].
  { right. apply (inside_of _ _ _ Hp). done. }
  left.
  assert (H1 : boards (studio y) !! Studio.right_of e = Some 1%Z).
  { rewrite Hb. by destruct p. }
  eexists. apply (body_goes_on y e i HasFirst); [done | done |].
  simpl. unfold get_boards_second, sem_wait_at.
  change ((e + 1) mod NUM_BOARDS) with (Studio.right_of e).
  rewrite H1. reflexivity.
Qed.

Lemma has_first_chain e i n :
  editors y !! e = Some (Inside i HasFirst) ->
  (exists y', step y y') \/
  exists i', editors y !! Nat.iter n Studio.right_of e = Some (Inside i' HasFirst).
Proof.
  intros He. induction n as [| n [Hstep | [i' Hi']]]; simpl.
  - right. by exists i.
  - by left.
  - apply (has_first_next _ i' Hi').
Qed.

Lemma has_first_steps e i :
  editors y !! e = Some (Inside i HasFirst) -> exists y', step y y'.
Proof.
  intros He. pose proof (z_settled _ Hsound) as Hs. simpl in Hs.
  assert (Hlt : e < NUM_EDITORS).
  { apply lookup_lt_Some in He.
    rewrite <- (s_length _ _ Hs), length_fmap. done. }
  destruct (s_gap _ _ Hs) as (g & Hg & Hne).
  destruct (iter_right_reaches e g Hlt Hg) as [n Hn].
  destruct (has_first_chain e i n He) as [Hstep | [i' Hi']]; [done |].
  exfalso. apply Hne. rewrite Hn in Hi'.
  assert (Hp : (position_of <$> editors y) !! g = Some HasFirst)
    by (by rewrite list_lookup_fmap, Hi').
  by destruct (s_places _ _ Hs g HasFirst Hp).
Qed.

Lemma entered_steps e i :
  editors y !! e = Some (Inside i Entered) -> exists y', step y y'.
Proof.
  intros He. pose proof (z_settled _ Hsound) as Hs. simpl in Hs.
  assert (Hlt : e < NUM_EDITORS).
  { apply lookup_lt_Some in He.
    rewrite <- (s_length _ _ Hs), length_fmap. done. }
  pose proof (Studio.ring_facts e Hlt) as (Hrlt & _).
  assert (Hp : (position_of <$> editors y) !! e = Some Entered)
    by (by rewrite list_lookup_fmap, He).
  destruct (s_places _ _ Hs e Entered Hp) as [[Hh _] | [Hst _]];
    [| by apply (let_in_steps e i)].
  pose proof (z_eager _ Hsound e Hlt (fun F => F) Hh) as Hr. simpl in Hr.
  destruct (lookup_lt_is_Some_2 (position_of <$> editors y) (Studio.right_of e))
    as [p Hpr]; [by rewrite (s_length _ _ Hs) |].
  pose proof (s_places _ _ Hs _ p Hpr) as Hok.
  rewrite list_lookup_fmap in Hpr.
  destruct p.
  - destruct Hok as [Hth _]. rewrite Hr in Hth. discriminate.
  - destruct (inside_of _ _ _ Hpr) as [i' Hi']; [done |].
    by apply (let_in_steps (Studio.right_of e) i').
  - destruct (inside_of _ _ _ Hpr) as [i' Hi']; [done |].
    by apply (permitted_steps (Studio.right_of e) i').
  - destruct (inside_of _ _ _ Hpr) as [i' Hi']; [done |].
    by apply (has_first_steps (Studio.right_of e) i').
  - destruct (inside_of _ _ _ Hpr) as [i' Hi']; [done |].
    by apply (has_both_steps (Studio.right_of e) i').
Qed.

Lemma sem_sound_can_step : ~ finished y -> exists y', step y y'.
Proof.
  intros Hn.
  destruct (unfinished_thread editor_returned (editors y) Hn)
    as (e & p & He & Hp).
  destruct p as [i | i q | i]; [| | by destruct Hp].
  - by apply (at_test_steps e i).
  - destruct q.
    + by apply (planning_steps e i).
    + by apply (entered_steps e i).
    + by apply (permitted_steps e i).
    + by apply (has_first_steps e i).
    + by apply (has_both_steps e i).
Qed.

End Progress.

Lemma sem_finished_no_step y y' : finished y -> step y y' -> False.
Proof.
  intros Hf Hstep.
  destruct Hstep as [y e i He Hi | y e i He Hno | y e i p c He Hp Hc
                     | y e i i' c He Hc Hi'];
    by pose proof (Forall_lookup_1 _ _ _ _ Hf He).
Qed.

(** ** Concrete runs *)

Lemma sem_whole_run_runs : schedule whole_run start = Some (after whole_run).
Proof. vm_compute. reflexivity. Qed.

Lemma chain_run_runs : schedule chain_run start = Some (after chain_run).
Proof. vm_compute. reflexivity. Qed.

Lemma sem_reachable_after_whole_run : reachable (after whole_run).
Proof. exact (sem_schedule_reachable whole_run _ _ reach_start sem_whole_run_runs). Qed.

Lemma reachable_after_chain_run : reachable (after chain_run).
Proof. exact (sem_schedule_reachable chain_run _ _ reach_start chain_run_runs). Qed.

Lemma chain_run_state :
  state (studio (after chain_run))
  = [EDITING; EDITING; EDITING; EDITING; HUNGRY] /\
  boards (studio (after chain_run)) = [0; 0; 0; 0; 1]%Z /\
  editors (after chain_run)
  = [Inside 0 HasFirst; Inside 0 HasFirst; Inside 0 HasFirst;
     Inside 0 HasFirst; Inside 0 Entered].
Proof. vm_compute. done. Qed.

Lemma chain_run_unfinished : ~ finished (after chain_run).
Proof.
  destruct chain_run_state as (_ & _ & E). unfold finished. rewrite E.
  intros H. apply Forall_cons in H as [H _]. exact H.
Qed.

Lemma sem_whole_run_finished : finished (after whole_run).
Proof.
  assert (E : editors (after whole_run) = replicate NUM_EDITORS (Returned 3))
    by (vm_compute; reflexivity).
  unfold finished. rewrite E. repeat constructor.
Qed.

Lemma sem_whole_run_length : length whole_run = 95.
Proof. reflexivity. Qed.

Lemma sem_run_whole : run 95 start (after whole_run).
Proof.
  rewrite <- sem_whole_run_length. apply sem_schedule_run, sem_whole_run_runs.
Qed.

Lemma hungry_run_reachable :
  StudioSem.reachable (system_of (after chain_run)).
Proof. apply sem_crew_reachable, reachable_after_chain_run. Qed.

Lemma hungry_run_state :
  state (control (system_of (after chain_run))) !! 4 = Some HUNGRY.
Proof.
  change (state (studio (after chain_run)) !! 4 = Some HUNGRY).
  destruct chain_run_state as (E & _). by rewrite E.
Qed.

Lemma lookups_replicate {A : Type} (l : list A) n x :
  length l = n -> (forall i, i < n -> l !! i = Some x) -> l = replicate n x.
Proof.
  intros Hlen Hall. apply list_eq. intros i.
  destruct (decide (i < n)) as [Hi | Hi].
  - rewrite (Hall i Hi). symmetry. by apply lookup_replicate_2.
  - rewrite lookup_ge_None_2 by lia. symmetry.
    apply lookup_ge_None_2. rewrite length_replicate. lia.
Qed.

(** When every editor has returned the studio is as [init_studio] left
    it. *)
Lemma finished_studio y :
  sound (system_of y) -> finished y -> studio y = init_studio.
Proof.
  intros [Hm Hs _] Hf. simpl in Hm, Hs.
  destruct (s_sizes _ _ Hs) as (L1 & L2 & L3).
  assert (Hpl : forall i, i < NUM_EDITORS ->
            (position_of <$> editors y) !! i = Some Planning).
  { intros i Hi.
    destruct (lookup_lt_is_Some_2 (editors y) i) as [p Hp].
    { rewrite <- (length_fmap position_of), (s_length _ _ Hs). done. }
    rewrite list_lookup_fmap, Hp.
    pose proof (Forall_lookup_1 _ _ _ _ Hf Hp) as Hr. by destruct p. }
  destruct (studio y) as [st se mu bo] eqn:E. simpl in *.
  unfold init_studio. f_equal.
  - apply lookups_replicate; [done |]. intros i Hi.
    by destruct (s_places _ _ Hs i Planning (Hpl i Hi)).
  - apply lookups_replicate; [done |]. intros i Hi.
    by destruct (s_places _ _ Hs i Planning (Hpl i Hi)).
  - exact Hm.
  - apply lookups_replicate; [done |]. intros b Hb.
    pose proof (Studio.ring_facts b Hb) as (_ & Hllt & _).
    by destruct (s_boards _ _ Hs b Planning Planning (Hpl b Hb)
                   (Hpl _ Hllt)).
Qed.

Lemma finished_counters y :
  length (editors y) = NUM_EDITORS -> counted y -> finished y ->
  editors y = replicate NUM_EDITORS (Returned NUM_EDITS).
Proof.
  intros Hlen Hc Hf. apply lookups_replicate; [done |]. intros i Hi.
  destruct (lookup_lt_is_Some_2 (editors y) i) as [p Hp]; [by rewrite Hlen |].
  pose proof (Forall_lookup_1 _ _ _ _ Hf Hp) as Hr.
  pose proof (Forall_lookup_1 _ _ _ _ Hc Hp) as Hok.
  destruct p; try done. simpl in Hok. by subst.
Qed.

(** ** The properties *)

(** No deadlock: as long as an editor has not returned, some editor can
    take its next step. The test that ignores the left neighbour and the
    boards taken one at a time leave no state in which every remaining
    editor waits on a semaphore. *)
Theorem sem_editors_never_stuck y :
  reachable y -> ~ finished y -> exists y', step y y'.
Proof.
  intros Hr Hn. apply sem_sound_can_step; [| | done].
  - by apply sem_crew_sound.
  - by apply sem_crew_reachable.
Qed.

Lemma sem_editors_never_stuck_witness :
  exists y', step (after chain_run) y'.
Proof.
  exact (sem_editors_never_stuck (after chain_run)
           reachable_after_chain_run chain_run_unfinished).
Defined.

(** Every run from the start has at most 95 steps, and it has 95 steps
    exactly when every editor has returned: each editor takes nineteen
    steps whatever the interleaving. *)
Theorem sem_runs_take_95_steps n y :
  run n start y -> n <= 95 /\ (finished y <-> n = 95).
Proof.
  intros Hrun.
  destruct (sem_run_counts n start y Hrun sem_counted_start) as [Hc E].
  rewrite steps_left_start in E.
  pose proof (sem_steps_left_nonneg y Hc) as H0.
  split; [lia |]. split.
  - intros Hf. rewrite (finished_steps_left y Hf) in E. lia.
  - intros ->. apply (steps_left_zero y Hc). lia.
Qed.

Lemma sem_runs_take_95_steps_witness :
  95 <= 95 /\ (finished (after whole_run) <-> 95 = 95).
Proof. exact (sem_runs_take_95_steps 95 (after whole_run) sem_run_whole). Defined.

(** A run that can go no further has every editor returned after its
    three edits, and the studio is as [init_studio] left it: every editor
    [THINKING], every private semaphore 0, every board semaphore and the
    mutex 1. *)
Theorem sem_halts_as_initialised n y :
  run n start y -> (forall y', ~ step y y') ->
  finished y /\ studio y = init_studio /\
  editors y = replicate NUM_EDITORS (Returned NUM_EDITS).
Proof.
  intros Hrun Hhalt.
  pose proof (sem_run_reachable n start y Hrun reach_start) as Hr.
  destruct (sem_crew_reachable y Hr) as (Hlen & Hc & _).
  pose proof (sem_crew_sound y Hr) as Hs.
  assert (Hf : finished y).
  { destruct (decide (finished y)) as [Hf | Hn]; [done |].
    destruct (sem_sound_can_step y Hs Hc Hn) as [y' Hstep].
    by destruct (Hhalt y'). }
  split; [done |]. split.
  - by apply finished_studio.
  - by apply finished_counters.
Qed.

Lemma sem_halts_as_initialised_witness :
  finished (after whole_run) /\ studio (after whole_run) = init_studio /\
  editors (after whole_run) = replicate NUM_EDITORS (Returned NUM_EDITS).
Proof.
  apply (sem_halts_as_initialised 95 (after whole_run) sem_run_whole).
  intros y' Hstep.
  exact (sem_finished_no_step _ _ sem_whole_run_finished Hstep).
Defined.

Lemma sem_waits_for_right_neighbour_witness :
  (exists i, i < NUM_EDITORS /\ ~ editing (system_of (after chain_run)) i) /\
  editing (system_of (after chain_run)) (Studio.right_of 4).
Proof.
  destruct (sem_waits_for_right_neighbour (system_of (after chain_run))
              hungry_run_reachable) as [Hgap Hright].
  split; [exact Hgap |].
  apply (Hright 4).
  - unfold NUM_EDITORS. lia.
  - exact hungry_run_state.
Defined.

End StudioSemThreads.

Lemma total_positive_lookup {A : Type} (f : A -> Z) l :
  Forall (fun x => 0 <= f x) l -> 0 < total f l ->
  exists i x, l !! i = Some x /\ 0 < f x.
Proof.
  induction 1 as [| a l Ha _ IH]; simpl; [lia |]. intros Hpos.
  destruct (decide (0 < f a)) as [Hfa | Hfa].
  - by exists 0%nat, a.
  - destruct IH as (i & x & Hx & Hfx); [lia |]. by exists (S i), x.
Qed.

Lemma total_two_le {A : Type} (f : A -> Z) l : forall j k x x',
  Forall (fun x => 0 <= f x) l ->
  l !! j = Some x -> l !! k = Some x' -> j <> k -> f x + f x' <= total f l.
Proof.
  induction l as [| a l IH]; intros j k x x' Hall Hj Hk Hne; [discriminate |].
  apply Forall_cons in Hall as [Ha Hall].
  destruct j as [| j], k as [| k]; simpl in *.
  - contradiction.
  - injection Hj as ->. pose proof (total_lookup_le f l k x' Hall Hk). lia.
  - injection Hk as ->. pose proof (total_lookup_le f l j x Hall Hj). lia.
  - assert (j <> k) by congruence.
    pose proof (IH j k x x' Hall Hj Hk H). lia.
Qed.

(** * The catalogue on semaphores (readers-writers/ecommerce_sem.c)

    The entry and exit protocols written inside [reader] and [writer], and
    the threads that [main] starts. The accesses to [catalog.products] are
    the places [ReaderReads] and [WriterWrites] of the threads; the
    products are those of [Catalog] and are left out here. *)

Module CatalogSem.

Definition NUM_READERS : Z := 5.
Definition NUM_WRITERS : Z := 2.
Definition NUM_READS : Z := 5.
Definition NUM_WRITES : Z := 3.

(** A semaphore is its counter, as in [StudioSem]. *)
Record Catalog : Type := mkCatalog {
  num_readers : Z;
  mutex : Z;
  write_mutex : Z;
  read_mutex : Z
}.

Definition init_catalog : Catalog :=
  {| num_readers := 0; mutex := 1; write_mutex := 1; read_mutex := 1 |}.

(** Where a reader stands when the first stretch of its entry protocol
    ends: past the protocol, or at [sem_wait(&catalog.write_mutex)] with
    [read_mutex] in hand. *)
Inductive entry : Type :=
| Entered (c : Catalog)
| AtWriteMutex (c : Catalog).

(** The entry protocol of [reader] from [sem_wait(&catalog.read_mutex)]
    on. *)
Definition reader_entry (c : Catalog) : outcome entry :=
  m ← StudioSem.sem_wait (read_mutex c);
  n ← int_add (num_readers c) 1;
  if n =? 1 then
    Returns (AtWriteMutex {| num_readers := n; mutex := mutex c;
                             write_mutex := write_mutex c; read_mutex := m |})
  else
    Returns (Entered {| num_readers := n; mutex := mutex c;
                        write_mutex := write_mutex c;
                        read_mutex := StudioSem.sem_post m |}).

(** The entry protocol of [reader] from [sem_wait(&catalog.write_mutex)]
    on. *)
Definition reader_entry_resume (c : Catalog) : outcome Catalog :=
  w ← StudioSem.sem_wait (write_mutex c);
  Returns {| num_readers := num_readers c; mutex := mutex c;
             write_mutex := w;
             read_mutex := StudioSem.sem_post (read_mutex c) |}.

(** The exit protocol of [reader]. *)
Definition reader_exit (c : Catalog) : outcome Catalog :=
  m ← StudioSem.sem_wait (read_mutex c);
  n ← int_sub (num_readers c) 1;
  Returns {| num_readers := n; mutex := mutex c;
             write_mutex :=
               if n =? 0 then StudioSem.sem_post (write_mutex c)
               else write_mutex c;
             read_mutex := StudioSem.sem_post m |}.

(** The entry and exit protocols of [writer]. *)
Definition writer_entry (c : Catalog) : outcome Catalog :=
  w ← StudioSem.sem_wait (write_mutex c);
  Returns {| num_readers := num_readers c; mutex := mutex c;
             write_mutex := w; read_mutex := read_mutex c |}.

Definition writer_exit (c : Catalog) : Catalog :=
  {| num_readers := num_readers c; mutex := mutex c;
     write_mutex := StudioSem.sem_post (write_mutex c);
     read_mutex := read_mutex c |}.

(** Where a [reader] stands, with its loop counter [i]. *)
Inductive reader_place : Type :=
| ReaderTest (i : Z)    (* at the loop test *)
| ReaderEnters (i : Z)  (* at the first [sem_wait(&catalog.read_mutex)] *)
| ReaderFirst (i : Z)   (* at [sem_wait(&catalog.write_mutex)] *)
| ReaderReads (i : Z)   (* past the entry protocol, up to the second
                           [sem_wait(&catalog.read_mutex)] *)
| ReaderDone (i : Z).   (* returned *)

(** Where a [writer] stands, with its loop counter [i]. *)
Inductive writer_place : Type :=
| WriterTest (i : Z)    (* at the loop test *)
| WriterWaits (i : Z)   (* at [sem_wait(&catalog.write_mutex)] *)
| WriterWrites (i : Z)  (* past it, up to [sem_post(&catalog.write_mutex)] *)
| WriterDone (i : Z).   (* returned *)

Definition reader_done (p : reader_place) : Prop :=
  match p with ReaderDone _ => True | _ => False end.

Definition writer_done (p : writer_place) : Prop :=
  match p with WriterDone _ => True | _ => False end.

#[global] Instance reader_done_dec p : Decision (reader_done p).
Proof. destruct p; simpl; apply _. Defined.

#[global] Instance writer_done_dec p : Decision (writer_done p).
Proof. destruct p; simpl; apply _. Defined.

(** The catalogue and the threads. *)
Record shop : Type := mkShop {
  catalog : Catalog;
  readers : list reader_place;
  writers : list writer_place
}.

(** [main] has called [init_catalog] and started every thread. *)
Definition start : shop :=
  {| catalog := init_catalog;
     readers := replicate (Z.to_nat NUM_READERS) (ReaderTest 0);
     writers := replicate (Z.to_nat NUM_WRITERS) (WriterTest 0) |}.

Definition set_reader (y : shop) (j : nat) (p : reader_place) : shop :=
  {| catalog := catalog y; readers := <[j := p]> (readers y);
     writers := writers y |}.

Definition set_writer (y : shop) (j : nat) (p : writer_place) : shop :=
  {| catalog := catalog y; readers := readers y;
     writers := <[j := p]> (writers y) |}.

(** One thread runs up to its next test, wait or return. A thread at a
    [sem_wait] whose counter is 0 has no step. *)
Inductive step : shop -> shop -> Prop :=
| reader_goes_on y j i :
    readers y !! j = Some (ReaderTest i) -> i < NUM_READS ->
    step y (set_reader y j (ReaderEnters i))
| reader_leaves_loop y j i :
    readers y !! j = Some (ReaderTest i) -> ~ i < NUM_READS ->
    step y (set_reader y j (ReaderDone i))
| reader_comes_first y j i c :
    readers y !! j = Some (ReaderEnters i) ->
    reader_entry (catalog y) = Returns (AtWriteMutex c) ->
    step y {| catalog := c; readers := <[j := ReaderFirst i]> (readers y);
              writers := writers y |}
| reader_joins y j i c :
    readers y !! j = Some (ReaderEnters i) ->
    reader_entry (catalog y) = Returns (Entered c) ->
    step y {| catalog := c; readers := <[j := ReaderReads i]> (readers y);
              writers := writers y |}
| reader_shuts_writers_out y j i c :
    readers y !! j = Some (ReaderFirst i) ->
    reader_entry_resume (catalog y) = Returns c ->
    step y {| catalog := c; readers := <[j := ReaderReads i]> (readers y);
              writers := writers y |}
| reader_leaves y j i c i' :
    readers y !! j = Some (ReaderReads i) ->
    reader_exit (catalog y) = Returns c ->
    int_add i 1 = Returns i' ->
    step y {| catalog := c; readers := <[j := ReaderTest i']> (readers y);
              writers := writers y |}
| writer_goes_on y j i :
    writers y !! j = Some (WriterTest i) -> i < NUM_WRITES ->
    step y (set_writer y j (WriterWaits i))
| writer_leaves_loop y j i :
    writers y !! j = Some (WriterTest i) -> ~ i < NUM_WRITES ->
    step y (set_writer y j (WriterDone i))
| writer_enters y j i c :
    writers y !! j = Some (WriterWaits i) ->
    writer_entry (catalog y) = Returns c ->
    step y {| catalog := c; readers := readers y;
              writers := <[j := WriterWrites i]> (writers y) |}
| writer_leaves y j i i' :
    writers y !! j = Some (WriterWrites i) ->
    int_add i 1 = Returns i' ->
    step y {| catalog := writer_exit (catalog y); readers := readers y;
              writers := <[j := WriterTest i']> (writers y) |}.

Inductive reachable : shop -> Prop :=
| reach_start : reachable start
| reach_step y y' : reachable y -> step y y' -> reachable y'.

(** [n] steps lead from one state to another. *)
Inductive run : nat -> shop -> shop -> Prop :=
| run_nil y : run 0 y y
| run_step n y y1 y2 : step y y1 -> run n y1 y2 -> run (S n) y y2.

(** The same steps as functions, to run a schedule. *)
Definition advance_reader (y : shop) (j : nat) : option shop :=
  match readers y !! j with
  | Some (ReaderTest i) =>
      if decide (i < NUM_READS) then Some (set_reader y j (ReaderEnters i))
      else Some (set_reader y j (ReaderDone i))
  | Some (ReaderEnters i) =>
      match reader_entry (catalog y) with
      | Returns (AtWriteMutex c) =>
          Some {| catalog := c; readers := <[j := ReaderFirst i]> (readers y);
                  writers := writers y |}
      | Returns (Entered c) =>
          Some {| catalog := c; readers := <[j := ReaderReads i]> (readers y);
                  writers := writers y |}
      | _ => None
      end
  | Some (ReaderFirst i) =>
      match reader_entry_resume (catalog y) with
      | Returns c =>
          Some {| catalog := c; readers := <[j := ReaderReads i]> (readers y);
                  writers := writers y |}
      | _ => None
      end
  | Some (ReaderReads i) =>
      match reader_exit (catalog y), int_add i 1 with
      | Returns c, Returns i' =>
          Some {| catalog := c; readers := <[j := ReaderTest i']> (readers y);
                  writers := writers y |}
      | _, _ => None
      end
  | _ => None
  end.

Definition advance_writer (y : shop) (j : nat) : option shop :=
  match writers y !! j with
  | Some (WriterTest i) =>
      if decide (i < NUM_WRITES) then Some (set_writer y j (WriterWaits i))
      else Some (set_writer y j (WriterDone i))
  | Some (WriterWaits i) =>
      match writer_entry (catalog y) with
      | Returns c =>
          Some {| catalog := c; readers := readers y;
                  writers := <[j := WriterWrites i]> (writers y) |}
      | _ => None
      end
  | Some (WriterWrites i) =>
      match int_add i 1 with
      | Returns i' =>
          Some {| catalog := writer_exit (catalog y); readers := readers y;
                  writers := <[j := WriterTest i']> (writers y) |}
      | _ => None
      end
  | _ => None
  end.

(** A schedule names the thread that runs next: [inl j] for reader [j],
    [inr j] for writer [j]. *)
Fixpoint schedule (ids : list (nat + nat)) (y : shop) : option shop :=
  match ids with
  | [] => Some y
  | inl j :: ids' =>
      match advance_reader y j with
      | Some y' => schedule ids' y'
      | None => None
      end
  | inr j :: ids' =>
      match advance_writer y j with
      | Some y' => schedule ids' y'
      | None => None
      end
  end.

Definition after (ids : list (nat + nat)) : shop :=
  default start (schedule ids start).

(** Reader [j] alone makes its five reads and returns; writer [j] alone
    makes its three updates and returns. *)
Definition reader_turn (j : nat) : list (nat + nat) :=
  replicate (4 * Z.to_nat NUM_READS + 1) (inl j).

Definition writer_turn (j : nat) : list (nat + nat) :=
  replicate (3 * Z.to_nat NUM_WRITES + 1) (inr j).

Definition whole_run : list (nat + nat) :=
  reader_turn 0 ++ reader_turn 1 ++ reader_turn 2 ++ reader_turn 3
  ++ reader_turn 4 ++ writer_turn 0 ++ writer_turn 1.

(** Readers 0 and 1 read; both writers and reader 2 have come to their
    [sem_wait]. *)
Definition busy_run : list (nat + nat) :=
  [inl 0; inl 0; inl 0; inl 1; inl 1; inr 0; inr 1; inl 2]%nat.

Definition finished (y : shop) : Prop :=
  Forall reader_done (readers y) /\ Forall writer_done (writers y).

#[global] Instance finished_dec y : Decision (finished y).
Proof. unfold finished. apply _. Defined.

(** ** What the counters count *)

(** 1 for the reader that holds [read_mutex] across its wait. *)
Definition at_first (p : reader_place) : Z :=
  match p with ReaderFirst _ => 1 | _ => 0 end.

(** 1 for a reader past its entry protocol. *)
Definition reading (p : reader_place) : Z :=
  match p with ReaderReads _ => 1 | _ => 0 end.

(** 1 for a writer that holds [write_mutex]. *)
Definition writing (p : writer_place) : Z :=
  match p with WriterWrites _ => 1 | _ => 0 end.

Definition reader_ok (p : reader_place) : Prop :=
  match p with
  | ReaderTest i => 0 <= i <= NUM_READS
  | ReaderEnters i | ReaderFirst i | ReaderReads i => 0 <= i < NUM_READS
  | ReaderDone i => i = NUM_READS
  end.

Definition writer_ok (p : writer_place) : Prop :=
  match p with
  | WriterTest i => 0 <= i <= NUM_WRITES
  | WriterWaits i | WriterWrites i => 0 <= i < NUM_WRITES
  | WriterDone i => i = NUM_WRITES
  end.

(** A bound on the steps a thread still takes. *)
Definition reader_steps (p : reader_place) : Z :=
  match p with
  | ReaderTest i => 4 * (NUM_READS - i) + 1
  | ReaderEnters i => 4 * (NUM_READS - i)
  | ReaderFirst i => 4 * (NUM_READS - i) - 1
  | ReaderReads i => 4 * (NUM_READS - i) - 2
  | ReaderDone _ => 0
  end.

Definition writer_steps (p : writer_place) : Z :=
  match p with
  | WriterTest i => 3 * (NUM_WRITES - i) + 1
  | WriterWaits i => 3 * (NUM_WRITES - i)
  | WriterWrites i => 3 * (NUM_WRITES - i) - 1
  | WriterDone _ => 0
  end.

Definition steps_left (y : shop) : Z :=
  total reader_steps (readers y) + total writer_steps (writers y).

Record sound (y : shop) : Prop := mkSound {
  s_readers : length (readers y) = Z.to_nat NUM_READERS;
  s_writers : length (writers y) = Z.to_nat NUM_WRITERS;
  s_reader_ok : Forall reader_ok (readers y);
  s_writer_ok : Forall writer_ok (writers y);
  s_mutex : mutex (catalog y) = 1;
  s_read_mutex : read_mutex (catalog y) = 1 - total at_first (readers y);
  s_one_first : total at_first (readers y) <= 1;
  s_num_readers :
    num_readers (catalog y)
    = total at_first (readers y) + total reading (readers y);
  s_first_alone :
    total at_first (readers y) = 1 -> total reading (readers y) = 0;
  s_write_mutex :
    write_mutex (catalog y)
    = 1 - total writing (writers y)
      - (if 0 <? total reading (readers y) then 1 else 0);
  s_write_nonneg : 0 <= write_mutex (catalog y)
}.

Lemma at_first_nonneg rs : Forall (fun p => 0 <= at_first p) rs.
Proof. apply Forall_forall. intros p _. destruct p; simpl; lia. Qed.

Lemma reading_some_nonneg rs : Forall (fun p => 0 <= reading p) rs.
Proof. apply Forall_forall. intros p _. destruct p; simpl; lia. Qed.

Lemma writing_some_nonneg ws : Forall (fun p => 0 <= writing p) ws.
Proof. apply Forall_forall. intros p _. destruct p; simpl; lia. Qed.

Lemma reading_le_length rs : total reading rs <= Z.of_nat (length rs).
Proof.
  assert (H : Forall (fun p => 0 <= reading p <= 1) rs).
  { apply Forall_forall. intros p _. destruct p; simpl; lia. }
  pose proof (total_bounds reading 0 1 rs H). lia.
Qed.

(** ** The stretches *)

Lemma reader_entry_Returns c e :
  reader_entry c = Returns e <->
  0 < read_mutex c /\ int_range (num_readers c + 1) /\
  e = (if num_readers c + 1 =? 1
       then AtWriteMutex {| num_readers := num_readers c + 1;
                            mutex := mutex c; write_mutex := write_mutex c;
                            read_mutex := read_mutex c - 1 |}
       else Entered {| num_readers := num_readers c + 1; mutex := mutex c;
                       write_mutex := write_mutex c;
                       read_mutex := read_mutex c - 1 + 1 |}).
Proof.
  unfold reader_entry. rewrite bind_Returns. split.
  - intros (m & Hm & H). apply StudioSemThreads.sem_wait_Returns in Hm as [Hpos ->].
    apply bind_Returns in H as (n & Hn & H).
    apply int_add_Returns in Hn as [-> Hr].
    split; [done |]. split; [done |].
    destruct (_ =? 1); by injection H as <-.
  - intros (Hpos & Hr & ->). exists (read_mutex c - 1). split.
    + by apply StudioSemThreads.sem_wait_Returns.
    + rewrite (int_add_small _ _ Hr). cbn [mbind outcome_bind bind].
      by destruct (_ =? 1).
Qed.

Lemma reader_entry_resume_Returns c c' :
  reader_entry_resume c = Returns c' <->
  0 < write_mutex c /\
  c' = {| num_readers := num_readers c; mutex := mutex c;
          write_mutex := write_mutex c - 1;
          read_mutex := read_mutex c + 1 |}.
Proof.
  unfold reader_entry_resume. rewrite bind_Returns. split.
  - intros (w & Hw & H). apply StudioSemThreads.sem_wait_Returns in Hw as [Hpos ->].
    by injection H as <-.
  - intros (Hpos & ->). exists (write_mutex c - 1). split; [| done].
    by apply StudioSemThreads.sem_wait_Returns.
Qed.

Lemma reader_exit_Returns c c' :
  reader_exit c = Returns c' <->
  0 < read_mutex c /\ int_range (num_readers c - 1) /\
  c' = {| num_readers := num_readers c - 1; mutex := mutex c;
          write_mutex :=
            if num_readers c - 1 =? 0 then write_mutex c + 1
            else write_mutex c;
          read_mutex := read_mutex c - 1 + 1 |}.
Proof.
  unfold reader_exit. rewrite bind_Returns. split.
  - intros (m & Hm & H). apply StudioSemThreads.sem_wait_Returns in Hm as [Hpos ->].
    apply bind_Returns in H as (n & Hn & H).
    apply int_sub_Returns in Hn as [-> Hr]. by injection H as <-.
  - intros (Hpos & Hr & ->). exists (read_mutex c - 1). split.
    + by apply StudioSemThreads.sem_wait_Returns.
    + by rewrite (int_sub_small _ _ Hr).
Qed.

Lemma writer_entry_Returns c c' :
  writer_entry c = Returns c' <->
  0 < write_mutex c /\
  c' = {| num_readers := num_readers c; mutex := mutex c;
          write_mutex := write_mutex c - 1; read_mutex := read_mutex c |}.
Proof.
  unfold writer_entry. rewrite bind_Returns. split.
  - intros (w & Hw & H). apply StudioSemThreads.sem_wait_Returns in Hw as [Hpos ->].
    by injection H as <-.
  - intros (Hpos & ->). exists (write_mutex c - 1). split; [| done].
    by apply StudioSemThreads.sem_wait_Returns.
Qed.

(** ** The invariant *)

Lemma gate_sound_start : sound start.
Proof. constructor; try done; simpl; repeat constructor; done. Qed.

Ltac gate_cases :=
  repeat match goal with
         | |- context [?a <? ?b] => destruct (Z.ltb_spec a b)
         | |- context [?a =? ?b] => destruct (Z.eqb_spec a b)
         end.

Ltac gate_solve :=
  first
    [ done
    | lia
    | apply Forall_insert;
      [done | simpl; unfold NUM_READS, NUM_WRITES in *; lia]
    | unfold StudioSem.sem_post; gate_cases; lia ].

Lemma gate_step_sound y y' : sound y -> step y y' -> sound y'.
Proof.
  intros [L1 L2 R1 R2 Hm Hrm H1 Hn Hfa Hwm Hw0] Hstep.
  pose proof (total_nonneg _ _ (at_first_nonneg (readers y))) as F0.
  pose proof (total_nonneg _ _ (reading_some_nonneg (readers y))) as Rd0.
  pose proof (total_nonneg _ _ (writing_some_nonneg (writers y))) as W0.
  destruct Hstep as [y j i Hj Hi | y j i Hj Hi | y j i c Hj Hc | y j i c Hj Hc
                     | y j i c Hj Hc | y j i c i' Hj Hc Hi'
                     | y j i Hj Hi | y j i Hj Hi | y j i c Hj Hc
                     | y j i i' Hj Hi'];
    try (pose proof (Forall_lookup_1 _ _ _ _ R1 Hj) as Hok);
    try (pose proof (Forall_lookup_1 _ _ _ _ R2 Hj) as Hok);
    simpl in Hok.
  - constructor; simpl; rewrite ?length_insert,
      ?(total_insert at_first _ _ _ _ Hj), ?(total_insert reading _ _ _ _ Hj);
      simpl; rewrite ?Z.sub_0_r, ?Z.add_0_r; gate_solve.
  - constructor; simpl; rewrite ?length_insert,
      ?(total_insert at_first _ _ _ _ Hj), ?(total_insert reading _ _ _ _ Hj);
      simpl; rewrite ?Z.sub_0_r, ?Z.add_0_r; gate_solve.
  - apply reader_entry_Returns in Hc as (Hpos & Hr & Hc).
    destruct (Z.eqb_spec (num_readers (catalog y) + 1) 1) as [E | E];
      [| discriminate].
    injection Hc as ->.
    assert (HR : total reading (readers y) = 0) by lia.
    rewrite HR in Hwm.
    constructor; simpl; rewrite ?length_insert,
      ?(total_insert at_first _ _ _ _ Hj), ?(total_insert reading _ _ _ _ Hj);
      simpl; rewrite ?HR; gate_solve.
  - apply reader_entry_Returns in Hc as (Hpos & Hr & Hc).
    destruct (Z.eqb_spec (num_readers (catalog y) + 1) 1) as [E | E];
      [discriminate |].
    injection Hc as ->.
    assert (HR : (0 <? total reading (readers y)) = true)
      by (apply Z.ltb_lt; lia).
    rewrite HR in Hwm.
    constructor; simpl; rewrite ?length_insert,
      ?(total_insert at_first _ _ _ _ Hj), ?(total_insert reading _ _ _ _ Hj);
      simpl; gate_solve.
  - apply reader_entry_resume_Returns in Hc as (Hpos & ->).
    assert (HF : 1 <= total at_first (readers y)).
    { pose proof (total_lookup_le at_first _ _ _
                    (at_first_nonneg (readers y)) Hj) as H. simpl in H. lia. }
    assert (HR : total reading (readers y) = 0) by (apply Hfa; lia).
    rewrite HR in Hwm. simpl in Hwm.
    constructor; simpl; rewrite ?length_insert,
      ?(total_insert at_first _ _ _ _ Hj), ?(total_insert reading _ _ _ _ Hj);
      simpl; rewrite ?HR; gate_solve.
  - apply reader_exit_Returns in Hc as (Hpos & Hr & ->).
    apply int_add_Returns in Hi' as [-> _].
    assert (HR : 1 <= total reading (readers y)).
    { pose proof (total_lookup_le reading _ _ _
                    (reading_some_nonneg (readers y)) Hj) as H. simpl in H. lia. }
    assert (Hlt : (0 <? total reading (readers y)) = true)
      by (apply Z.ltb_lt; lia).
    rewrite Hlt in Hwm.
    constructor; simpl; rewrite ?length_insert,
      ?(total_insert at_first _ _ _ _ Hj), ?(total_insert reading _ _ _ _ Hj);
      simpl; gate_solve.
  - constructor; simpl; rewrite ?length_insert,
      ?(total_insert writing _ _ _ _ Hj); simpl;
      rewrite ?Z.sub_0_r, ?Z.add_0_r; gate_solve.
  - constructor; simpl; rewrite ?length_insert,
      ?(total_insert writing _ _ _ _ Hj); simpl;
      rewrite ?Z.sub_0_r, ?Z.add_0_r; gate_solve.
  - apply writer_entry_Returns in Hc as (Hpos & ->).
    assert (HR : total reading (readers y) = 0).
    { destruct (Z.ltb_spec 0 (total reading (readers y))); lia. }
    rewrite HR in Hwm. simpl in Hwm.
    constructor; simpl; rewrite ?length_insert,
      ?(total_insert writing _ _ _ _ Hj); simpl; rewrite ?HR; gate_solve.
  - apply int_add_Returns in Hi' as [-> _].
    assert (HW : 1 <= total writing (writers y)).
    { pose proof (total_lookup_le writing _ _ _
                    (writing_some_nonneg (writers y)) Hj) as H. simpl in H. lia. }
    assert (HR : total reading (readers y) = 0).
    { destruct (Z.ltb_spec 0 (total reading (readers y))); lia. }
    rewrite HR in Hwm. simpl in Hwm.
    constructor; simpl; rewrite ?length_insert,
      ?(total_insert writing _ _ _ _ Hj); simpl; rewrite ?HR; gate_solve.
Qed.

Lemma gate_reachable_sound y : reachable y -> sound y.
Proof.
  induction 1 as [| y y' _ IH Hstep]; [apply gate_sound_start |].
  by apply (gate_step_sound y y').
Qed.

(** ** Schedules *)

Lemma gate_advance_reader_step y j y' : advance_reader y j = Some y' -> step y y'.
Proof.
  unfold advance_reader. intros H.
  destruct (readers y !! j) as [[i | i | i | i | i] |] eqn:Hj; try discriminate.
  - destruct (decide _) as [Hi | Hno]; injection H as <-.
    + by apply (reader_goes_on y j i).
    + by apply (reader_leaves_loop y j i).
  - destruct (reader_entry (catalog y)) as [[c | c] | |] eqn:Hc;
      try discriminate; injection H as <-.
    + by apply (reader_joins y j i c).
    + by apply (reader_comes_first y j i c).
  - destruct (reader_entry_resume (catalog y)) as [c | |] eqn:Hc;
      try discriminate; injection H as <-.
    by apply (reader_shuts_writers_out y j i c).
  - destruct (reader_exit (catalog y)) as [c | |] eqn:Hc; try discriminate.
    destruct (int_add i 1) as [i' | |] eqn:Hi; try discriminate.
    injection H as <-. by apply (reader_leaves y j i c i').
Qed.

Lemma gate_advance_writer_step y j y' : advance_writer y j = Some y' -> step y y'.
Proof.
  unfold advance_writer. intros H.
  destruct (writers y !! j) as [[i | i | i | i] |] eqn:Hj; try discriminate.
  - destruct (decide _) as [Hi | Hno]; injection H as <-.
    + by apply (writer_goes_on y j i).
    + by apply (writer_leaves_loop y j i).
  - destruct (writer_entry (catalog y)) as [c | |] eqn:Hc;
      try discriminate; injection H as <-.
    by apply (writer_enters y j i c).
  - destruct (int_add i 1) as [i' | |] eqn:Hi; try discriminate.
    injection H as <-. by apply (writer_leaves y j i i').
Qed.

Lemma gate_schedule_reachable ids : forall y y',
  reachable y -> schedule ids y = Some y' -> reachable y'.
Proof.
  induction ids as [| [j | j] ids IH]; intros y y' Hy H; simpl in H.
  - by injection H as <-.
  - destruct (advance_reader y j) as [y1 |] eqn:H1; [| discriminate].
    apply (IH y1 y'); [| done].
    apply (reach_step y y1 Hy). by apply (gate_advance_reader_step y j).
  - destruct (advance_writer y j) as [y1 |] eqn:H1; [| discriminate].
    apply (IH y1 y'); [| done].
    apply (reach_step y y1 Hy). by apply (gate_advance_writer_step y j).
Qed.

Lemma gate_schedule_run ids : forall y y',
  schedule ids y = Some y' -> run (length ids) y y'.
Proof.
  induction ids as [| [j | j] ids IH]; intros y y' H; simpl in H.
  - injection H as <-. constructor.
  - destruct (advance_reader y j) as [y1 |] eqn:H1; [| discriminate].
    apply (run_step _ y y1); [by apply (gate_advance_reader_step y j) |].
    by apply IH.
  - destruct (advance_writer y j) as [y1 |] eqn:H1; [| discriminate].
    apply (run_step _ y y1); [by apply (gate_advance_writer_step y j) |].
    by apply IH.
Qed.

Lemma gate_run_reachable n y y' : run n y y' -> reachable y -> reachable y'.
Proof.
  induction 1 as [| n y y1 y2 Hstep _ IH]; [done |].
  intros Hy. apply IH. by apply (reach_step y y1).
Qed.

(** ** Every step is at least one step nearer the end *)

Lemma gate_step_decreases y y' :
  sound y -> step y y' -> steps_left y' <= steps_left y - 1.
Proof.
  intros Hs Hstep. unfold steps_left.
  pose proof (s_reader_ok y Hs) as R1. pose proof (s_writer_ok y Hs) as R2.
  destruct Hstep as [y j i Hj Hi | y j i Hj Hi | y j i c Hj Hc | y j i c Hj Hc
                     | y j i c Hj Hc | y j i c i' Hj Hc Hi'
                     | y j i Hj Hi | y j i Hj Hi | y j i c Hj Hc
                     | y j i i' Hj Hi'];
    try (pose proof (Forall_lookup_1 _ _ _ _ R1 Hj) as Hok);
    try (pose proof (Forall_lookup_1 _ _ _ _ R2 Hj) as Hok);
    simpl in Hok; simpl;
    rewrite ?(total_insert reader_steps _ _ _ _ Hj),
      ?(total_insert writer_steps _ _ _ _ Hj);
    cbn [reader_steps writer_steps]; unfold NUM_READS, NUM_WRITES in *;
    try lia.
  - apply int_add_Returns in Hi' as [-> _]. lia.
  - apply int_add_Returns in Hi' as [-> _]. lia.
Qed.

Lemma gate_steps_nonneg y : sound y -> 0 <= steps_left y.
Proof.
  intros Hs. unfold steps_left.
  assert (0 <= total reader_steps (readers y)).
  { apply total_nonneg. apply (Forall_impl _ _ _ (s_reader_ok y Hs)).
    intros p. destruct p; simpl; unfold NUM_READS; lia. }
  assert (0 <= total writer_steps (writers y)).
  { apply total_nonneg. apply (Forall_impl _ _ _ (s_writer_ok y Hs)).
    intros p. destruct p; simpl; unfold NUM_WRITES; lia. }
  lia.
Qed.

Lemma gate_run_counts n y y' :
  run n y y' -> sound y ->
  sound y' /\ steps_left y' <= steps_left y - Z.of_nat n.
Proof.
  induction 1 as [y | n y y1 y2 Hstep _ IH]; intros Hs.
  - split; [done | lia].
  - destruct (IH (gate_step_sound y y1 Hs Hstep)) as [Hs2 E].
    split; [done |]. pose proof (gate_step_decreases y y1 Hs Hstep). lia.
Qed.

Lemma gate_steps_start : steps_left start = 125.
Proof. reflexivity. Qed.

(** ** Somebody can always go on *)

Section Progress.

Variable y : shop.
Hypothesis Hsound : sound y.

Lemma reader_test_steps j i :
  readers y !! j = Some (ReaderTest i) -> exists y', step y y'.
Proof.
  intros Hj. destruct (decide (i < NUM_READS)).
  - eexists. by apply (reader_goes_on y j i).
  - eexists. by apply (reader_leaves_loop y j i).
Qed.

Lemma writer_test_steps j i :
  writers y !! j = Some (WriterTest i) -> exists y', step y y'.
Proof.
  intros Hj. destruct (decide (i < NUM_WRITES)).
  - eexists. by apply (writer_goes_on y j i).
  - eexists. by apply (writer_leaves_loop y j i).
Qed.

Lemma writer_writes_steps j i :
  writers y !! j = Some (WriterWrites i) -> exists y', step y y'.
Proof.
  intros Hj.
  pose proof (Forall_lookup_1 _ _ _ _ (s_writer_ok y Hsound) Hj) as Hok.
  simpl in Hok.
  eexists. apply (writer_leaves y j i (i + 1)); [done |].
  apply int_add_small. unfold int_range, INT_MIN, INT_MAX, NUM_WRITES in *. lia.
Qed.

(** The reader that waits for [write_mutex] goes on, or the writer that
    holds it does. *)
Lemma reader_first_steps j i :
  readers y !! j = Some (ReaderFirst i) -> exists y', step y y'.
Proof.
  intros Hj.
  pose proof (total_nonneg _ _ (at_first_nonneg (readers y))) as F0.
  pose proof (total_nonneg _ _ (writing_some_nonneg (writers y))) as W0.
  assert (HF : total at_first (readers y) = 1).
  { pose proof (total_lookup_le at_first _ _ _
                  (at_first_nonneg (readers y)) Hj) as H. simpl in H.
    pose proof (s_one_first y Hsound). lia. }
  pose proof (s_first_alone y Hsound HF) as HR.
  pose proof (s_write_mutex y Hsound) as Hwm. rewrite HR in Hwm. simpl in Hwm.
  destruct (decide (0 < total writing (writers y))) as [HW | HW].
  - destruct (total_positive_lookup writing _
                (writing_some_nonneg (writers y)) HW) as (k & p & Hk & Hp).
    destruct p as [i' | i' | i' | i']; simpl in Hp; try lia.
    by apply (writer_writes_steps k i').
  - eexists. apply (reader_shuts_writers_out y j i); [done |].
    apply reader_entry_resume_Returns. split; [lia | reflexivity].
Qed.

(** With [read_mutex] taken, the reader that holds it is at
    [sem_wait(&catalog.write_mutex)]. *)
Lemma read_mutex_taken_steps :
  ~ 0 < read_mutex (catalog y) -> exists y', step y y'.
Proof.
  intros Hno. pose proof (s_read_mutex y Hsound) as Hrm.
  assert (HF : 0 < total at_first (readers y)) by lia.
  destruct (total_positive_lookup at_first _
              (at_first_nonneg (readers y)) HF) as (k & p & Hk & Hp).
  destruct p as [i' | i' | i' | i' | i']; simpl in Hp; try lia.
  by apply (reader_first_steps k i').
Qed.

Lemma reader_enters_steps j i :
  readers y !! j = Some (ReaderEnters i) -> exists y', step y y'.
Proof.
  intros Hj.
  destruct (decide (0 < read_mutex (catalog y))) as [Hpos | Hno];
    [| by apply read_mutex_taken_steps].
  pose proof (total_nonneg _ _ (at_first_nonneg (readers y))) as F0.
  pose proof (total_nonneg _ _ (reading_some_nonneg (readers y))) as Rd0.
  pose proof (reading_le_length (readers y)) as Rle.
  rewrite (s_readers y Hsound) in Rle.
  pose proof (s_num_readers y Hsound) as Hn.
  pose proof (s_one_first y Hsound) as H1.
  assert (Hr : int_range (num_readers (catalog y) + 1)).
  { unfold int_range, INT_MIN, INT_MAX, NUM_READERS in *. lia. }
  destruct (Z.eqb_spec (num_readers (catalog y) + 1) 1) as [E | E].
  - eexists. apply (reader_comes_first y j i); [done |].
    apply reader_entry_Returns. split; [done |]. split; [done |].
    destruct (Z.eqb_spec (num_readers (catalog y) + 1) 1); [reflexivity | lia].
  - eexists. apply (reader_joins y j i); [done |].
    apply reader_entry_Returns. split; [done |]. split; [done |].
    destruct (Z.eqb_spec (num_readers (catalog y) + 1) 1); [lia | reflexivity].
Qed.

Lemma reader_reads_steps j i :
  readers y !! j = Some (ReaderReads i) -> exists y', step y y'.
Proof.
  intros Hj.
  destruct (decide (0 < read_mutex (catalog y))) as [Hpos | Hno];
    [| by apply read_mutex_taken_steps].
  pose proof (Forall_lookup_1 _ _ _ _ (s_reader_ok y Hsound) Hj) as Hok.
  simpl in Hok.
  pose proof (total_nonneg _ _ (at_first_nonneg (readers y))) as F0.
  pose proof (total_nonneg _ _ (reading_some_nonneg (readers y))) as Rd0.
  pose proof (reading_le_length (readers y)) as Rle.
  rewrite (s_readers y Hsound) in Rle.
  pose proof (s_num_readers y Hsound) as Hn.
  pose proof (s_one_first y Hsound) as H1.
  eexists. eapply (reader_leaves y j i); [done | |].
  - apply reader_exit_Returns. split; [done |]. split; [| reflexivity].
    unfold int_range, INT_MIN, INT_MAX, NUM_READERS in *. lia.
  - apply int_add_small. unfold int_range, INT_MIN, INT_MAX, NUM_READS in *. lia.
Qed.

Lemma writer_waits_steps j i :
  writers y !! j = Some (WriterWaits i) -> exists y', step y y'.
Proof.
  intros Hj.
  destruct (decide (0 < write_mutex (catalog y))) as [Hpos | Hno].
  { eexists. apply (writer_enters y j i); [done |].
    apply writer_entry_Returns. split; [done | reflexivity]. }
  pose proof (total_nonneg _ _ (reading_some_nonneg (readers y))) as Rd0.
  pose proof (s_write_mutex y Hsound) as Hwm.
  destruct (decide (0 < total writing (writers y))) as [HW | HW].
  - destruct (total_positive_lookup writing _
                (writing_some_nonneg (writers y)) HW) as (k & p & Hk & Hp).
    destruct p as [i' | i' | i' | i']; simpl in Hp; try lia.
    by apply (writer_writes_steps k i').
  - assert (HR : 0 < total reading (readers y)).
    { destruct (Z.ltb_spec 0 (total reading (readers y))); lia. }
    destruct (total_positive_lookup reading _
                (reading_some_nonneg (readers y)) HR) as (k & p & Hk & Hp).
    destruct p as [i' | i' | i' | i' | i']; simpl in Hp; try lia.
    by apply (reader_reads_steps k i').
Qed.

Lemma gate_sound_can_step : ~ finished y -> exists y', step y y'.
Proof.
  intros Hn. unfold finished in Hn.
  destruct (decide (Forall reader_done (readers y))) as [Hr | Hr].
  - assert (Hw : ~ Forall writer_done (writers y)) by tauto.
    destruct (unfinished_thread writer_done (writers y) Hw)
      as (j & p & Hj & Hp).
    destruct p as [i | i | i | i]; [| | | by destruct Hp].
    + by apply (writer_test_steps j i).
    + by apply (writer_waits_steps j i).
    + by apply (writer_writes_steps j i).
  - destruct (unfinished_thread reader_done (readers y) Hr)
      as (j & p & Hj & Hp).
    destruct p as [i | i | i | i | i]; [| | | | by destruct Hp].
    + by apply (reader_test_steps j i).
    + by apply (reader_enters_steps j i).
    + by apply (reader_first_steps j i).
    + by apply (reader_reads_steps j i).
Qed.

End Progress.

Lemma gate_finished_no_step y y' : finished y -> step y y' -> False.
Proof.
  intros [Hr Hw] Hstep.
  destruct Hstep as [y j i Hj Hi | y j i Hj Hi | y j i c Hj Hc | y j i c Hj Hc
                     | y j i c Hj Hc | y j i c i' Hj Hc Hi'
                     | y j i Hj Hi | y j i Hj Hi | y j i c Hj Hc
                     | y j i i' Hj Hi'];
    first [ by pose proof (Forall_lookup_1 _ _ _ _ Hr Hj)
          | by pose proof (Forall_lookup_1 _ _ _ _ Hw Hj) ].
Qed.

Lemma gate_finished_catalog y :
  sound y -> finished y ->
  catalog y = init_catalog /\
  readers y = replicate (Z.to_nat NUM_READERS) (ReaderDone NUM_READS) /\
  writers y = replicate (Z.to_nat NUM_WRITERS) (WriterDone NUM_WRITES).
Proof.
  intros Hs [Hr Hw].
  assert (HF : total at_first (readers y) = 0).
  { apply total_zero. apply (Forall_impl _ _ _ Hr). by intros []. }
  assert (HR : total reading (readers y) = 0).
  { apply total_zero. apply (Forall_impl _ _ _ Hr). by intros []. }
  assert (HW : total writing (writers y) = 0).
  { apply total_zero. apply (Forall_impl _ _ _ Hw). by intros []. }
  pose proof (s_mutex y Hs) as Hm. pose proof (s_read_mutex y Hs) as Hrm.
  pose proof (s_num_readers y Hs) as Hn. pose proof (s_write_mutex y Hs) as Hwm.
  rewrite HF in Hrm, Hn. rewrite HR in Hn, Hwm. rewrite HW in Hwm.
  simpl in Hwm, Hn, Hrm.
  split; [| split].
  - destruct (catalog y) as [n m w r]. simpl in *. unfold init_catalog.
    by subst.
  - rewrite <- (s_readers y Hs). apply Forall_eq_replicate.
    apply Forall_lookup_2. intros j p Hj.
    pose proof (Forall_lookup_1 _ _ _ _ Hr Hj) as Hd.
    pose proof (Forall_lookup_1 _ _ _ _ (s_reader_ok y Hs) Hj) as Hok.
    destruct p; try done. simpl in Hok. by subst.
  - rewrite <- (s_writers y Hs). apply Forall_eq_replicate.
    apply Forall_lookup_2. intros j p Hj.
    pose proof (Forall_lookup_1 _ _ _ _ Hw Hj) as Hd.
    pose proof (Forall_lookup_1 _ _ _ _ (s_writer_ok y Hs) Hj) as Hok.
    destruct p; try done. simpl in Hok. by subst.
Qed.

(** ** Concrete runs *)

Lemma gate_whole_run_runs : schedule whole_run start = Some (after whole_run).
Proof. vm_compute. reflexivity. Qed.

Lemma gate_busy_run_runs : schedule busy_run start = Some (after busy_run).
Proof. vm_compute. reflexivity. Qed.

Lemma gate_reachable_after_whole_run : reachable (after whole_run).
Proof.
  exact (gate_schedule_reachable whole_run _ _ reach_start gate_whole_run_runs).
Qed.

Lemma gate_reachable_after_busy_run : reachable (after busy_run).
Proof.
  exact (gate_schedule_reachable busy_run _ _ reach_start gate_busy_run_runs).
Qed.

Lemma gate_busy_run_state :
  catalog (after busy_run)
  = {| num_readers := 2; mutex := 1; write_mutex := 0; read_mutex := 1 |} /\
  readers (after busy_run)
  = [ReaderReads 0; ReaderReads 0; ReaderEnters 0; ReaderTest 0; ReaderTest 0] /\
  writers (after busy_run) = [WriterWaits 0; WriterWaits 0].
Proof. vm_compute. done. Qed.

Lemma gate_busy_run_unfinished : ~ finished (after busy_run).
Proof.
  destruct gate_busy_run_state as (_ & E & _). unfold finished. rewrite E.
  intros [H _]. apply Forall_cons in H as [H _]. exact H.
Qed.

Lemma gate_whole_run_state :
  readers (after whole_run)
  = replicate (Z.to_nat NUM_READERS) (ReaderDone NUM_READS) /\
  writers (after whole_run)
  = replicate (Z.to_nat NUM_WRITERS) (WriterDone NUM_WRITES).
Proof. vm_compute. done. Qed.

Lemma gate_whole_run_finished : finished (after whole_run).
Proof.
  destruct gate_whole_run_state as (E1 & E2). unfold finished.
  rewrite E1, E2. split; repeat constructor.
Qed.

Lemma gate_whole_run_length : length whole_run = 125%nat.
Proof. reflexivity. Qed.

Lemma gate_run_whole : run 125 start (after whole_run).
Proof.
  rewrite <- gate_whole_run_length.
  apply gate_schedule_run, gate_whole_run_runs.
Qed.

(** ** The properties *)

(** Writers are alone: in every state the threads reach, at most one
    writer is between its [sem_wait] and its [sem_post] on [write_mutex],
    and while one is there no reader is past its entry protocol;
    [num_readers] is the number of readers between the increment and the
    decrement, and the three semaphores are 0 or 1. *)
Theorem semaphore_gate_exclusive y :
  reachable y ->
  (forall j k i i', writers y !! j = Some (WriterWrites i) ->
     writers y !! k = Some (WriterWrites i') -> j = k) /\
  (forall j k i i', writers y !! j = Some (WriterWrites i) ->
     readers y !! k = Some (ReaderReads i') -> False) /\
  num_readers (catalog y)
  = total at_first (readers y) + total reading (readers y) /\
  (read_mutex (catalog y) = 0 \/ read_mutex (catalog y) = 1) /\
  (write_mutex (catalog y) = 0 \/ write_mutex (catalog y) = 1) /\
  mutex (catalog y) = 1.
Proof.
  intros Hr. pose proof (gate_reachable_sound y Hr) as Hs.
  pose proof (total_nonneg _ _ (at_first_nonneg (readers y))) as F0.
  pose proof (total_nonneg _ _ (reading_some_nonneg (readers y))) as Rd0.
  pose proof (total_nonneg _ _ (writing_some_nonneg (writers y))) as W0.
  pose proof (s_write_mutex y Hs) as Hwm.
  pose proof (s_write_nonneg y Hs) as Hw0.
  pose proof (s_read_mutex y Hs) as Hrm.
  pose proof (s_one_first y Hs) as H1.
  repeat split.
  - intros j k i i' Hj Hk. destruct (decide (j = k)) as [| Hne]; [done |].
    pose proof (total_two_le writing _ j k _ _
                  (writing_some_nonneg (writers y)) Hj Hk Hne) as H2.
    simpl in H2. destruct (Z.ltb_spec 0 (total reading (readers y))); lia.
  - intros j k i i' Hj Hk.
    pose proof (total_lookup_le writing _ _ _
                  (writing_some_nonneg (writers y)) Hj) as H2.
    pose proof (total_lookup_le reading _ _ _
                  (reading_some_nonneg (readers y)) Hk) as H3.
    simpl in H2, H3. destruct (Z.ltb_spec 0 (total reading (readers y))); lia.
  - apply (s_num_readers y Hs).
  - lia.
  - destruct (Z.ltb_spec 0 (total reading (readers y))); lia.
  - apply (s_mutex y Hs).
Qed.

Lemma semaphore_gate_exclusive_witness :
  (forall j k i i', writers (after busy_run) !! j = Some (WriterWrites i) ->
     writers (after busy_run) !! k = Some (WriterWrites i') -> j = k) /\
  (forall j k i i', writers (after busy_run) !! j = Some (WriterWrites i) ->
     readers (after busy_run) !! k = Some (ReaderReads i') -> False) /\
  num_readers (catalog (after busy_run))
  = total at_first (readers (after busy_run))
    + total reading (readers (after busy_run)) /\
  (read_mutex (catalog (after busy_run)) = 0 \/
   read_mutex (catalog (after busy_run)) = 1) /\
  (write_mutex (catalog (after busy_run)) = 0 \/
   write_mutex (catalog (after busy_run)) = 1) /\
  mutex (catalog (after busy_run)) = 1.
Proof.
  exact (semaphore_gate_exclusive (after busy_run) gate_reachable_after_busy_run).
Defined.

(** No deadlock: as long as a reader or a writer has not returned, some
    thread can take its next step. *)
Theorem semaphore_gate_never_stuck y :
  reachable y -> ~ finished y -> exists y', step y y'.
Proof.
  intros Hr Hn. apply gate_sound_can_step; [| done].
  by apply gate_reachable_sound.
Qed.

Lemma semaphore_gate_never_stuck_witness :
  exists y', step (after busy_run) y'.
Proof.
  exact (semaphore_gate_never_stuck (after busy_run)
           gate_reachable_after_busy_run gate_busy_run_unfinished).
Defined.

(** Every run from the start has at most 125 steps, and a run that can go
    no further has every reader returned after its five reads and every
    writer after its three updates, with [num_readers] 0 and the three
    semaphores 1, as [init_catalog] left them. *)
Theorem semaphore_gate_halts_free n y :
  run n start y ->
  (n <= 125)%nat /\
  ((forall y', ~ step y y') ->
   catalog y = init_catalog /\
   readers y = replicate (Z.to_nat NUM_READERS) (ReaderDone NUM_READS) /\
   writers y = replicate (Z.to_nat NUM_WRITERS) (WriterDone NUM_WRITES)).
Proof.
  intros Hrun.
  destruct (gate_run_counts n start y Hrun gate_sound_start) as [Hs E].
  rewrite gate_steps_start in E.
  pose proof (gate_steps_nonneg y Hs) as H0.
  split; [lia |]. intros Hhalt.
  apply (gate_finished_catalog y Hs).
  destruct (decide (finished y)) as [Hf | Hn]; [done |].
  destruct (gate_sound_can_step y Hs Hn) as [y' Hstep].
  by destruct (Hhalt y').
Qed.

Lemma semaphore_gate_halts_free_witness :
  (125 <= 125)%nat /\
  catalog (after whole_run) = init_catalog /\
  readers (after whole_run)
  = replicate (Z.to_nat NUM_READERS) (ReaderDone NUM_READS) /\
  writers (after whole_run)
  = replicate (Z.to_nat NUM_WRITERS) (WriterDone NUM_WRITES).
Proof.
  destruct (semaphore_gate_halts_free 125 (after whole_run) gate_run_whole)
    as [Hle Hhalt].
  split; [exact Hle |]. apply Hhalt. intros y' Hstep.
  exact (gate_finished_no_step _ _ gate_whole_run_finished Hstep).
Defined.

End CatalogSem.

(** * The ring and the gate across their variants, with the mutex studio
      and the semaphore catalogue *)

(** Editor [i] holds board [b] in the mutex variant: [b] is one of its two
    boards, it is [EDITING] and the board is flagged in [has_board]. *)
Definition mutex_holds (s : StudioMutex.StudioControl) (i b : nat) : Prop :=
  StudioMutex.editing s i /\
  (b = i \/ b = ((i + 1) mod StudioMutex.NUM_BOARDS)%nat) /\
  StudioMutex.has_board s !! b = Some 1.

(** In the mutex variant the flags agree with the states when they do so
    in the monitor's terms. *)
Definition mutex_consistent (s : StudioMutex.StudioControl) : Prop :=
  Studio.consistent (StudioMutex.to_monitor s).

Lemma mutex_holds_to_monitor s i b :
  Studio.holds (StudioMutex.to_monitor s) i b <-> mutex_holds s i b.
Proof.
  unfold Studio.holds, mutex_holds. split.
  - intros (H1 & H2 & H3). split; [by apply StudioMutex.editing_to_monitor |].
    split; [exact H2 | exact H3].
  - intros (H1 & H2 & H3). split; [by apply StudioMutex.editing_to_monitor |].
    split; [exact H2 | exact H3].
Qed.

Lemma mutex_reachable_consistent y :
  StudioMutex.reachable y -> mutex_consistent (StudioMutex.shared y).
Proof.
  intros Hr.
  pose proof (StudioThreads.crew_reachable_sound _
                (StudioMutex.reachable_to_monitor y Hr)) as Hy.
  exact (StudioThreads.s_consistent _ Hy).
Qed.

Lemma mutex_test_editor_atomic s i :
  (i < StudioMutex.NUM_EDITORS)%nat -> mutex_consistent s ->
  (StudioMutex.can_edit s i = false /\ StudioMutex.test_editor s i = s) \/
  (StudioMutex.can_edit s i = true /\
   StudioMutex.has_board s !! i = Some 0 /\
   StudioMutex.has_board s !! ((i + 1) mod StudioMutex.NUM_BOARDS)%nat = Some 0 /\
   mutex_holds (StudioMutex.test_editor s i) i i /\
   mutex_holds (StudioMutex.test_editor s i) i
     ((i + 1) mod StudioMutex.NUM_BOARDS)%nat).
Proof.
  intros Hi Hc. destruct (StudioMutex.can_edit s i) eqn:Hcan.
  - right. split; [reflexivity |].
    destruct (Studio.try_to_edit_atomic (StudioMutex.to_monitor s) i Hi Hc)
      as [[Hno _] | (_ & H0 & H1 & Hl & Hr)].
    { rewrite StudioMutex.can_edit_to_monitor, Hcan in Hno. discriminate. }
    rewrite <- StudioMutex.test_editor_to_monitor in Hl, Hr.
    split; [exact H0 |]. split; [exact H1 |].
    split; by apply mutex_holds_to_monitor.
  - left. split; [reflexivity |]. unfold StudioMutex.test_editor.
    by rewrite Hcan.
Qed.

(** C6, amended: in the monitor variant and in the mutex variant
    [try_to_edit] ([test_editor]), wherever the flags agree with the
    states, tests and claims the two boards of an editor in one step under
    the lock, and in every reachable state an editor holds both of its
    boards or none; in the semaphore variant the two boards are taken one
    after the other and a state in which an editor holds exactly one is
    reachable. *)
Theorem pair_atomic_under_monitor :
  (forall s i,
     Studio.consistent s -> (i < Studio.NUM_EDITORS)%nat ->
     (Studio.can_edit s i = false /\ Studio.try_to_edit s i = s) \/
     (Studio.can_edit s i = true /\
      Studio.board_in_use s !! i = Some 0 /\
      Studio.board_in_use s !! Studio.right_of i = Some 0 /\
      Studio.holds (Studio.try_to_edit s i) i i /\
      Studio.holds (Studio.try_to_edit s i) i (Studio.right_of i))) /\
  (forall s i,
     Studio.reachable s -> (i < Studio.NUM_EDITORS)%nat ->
     (Studio.holds s i i /\ Studio.holds s i (Studio.right_of i)) \/
     (forall b, ~ Studio.holds s i b)) /\
  (forall s i,
     mutex_consistent s -> (i < StudioMutex.NUM_EDITORS)%nat ->
     (StudioMutex.can_edit s i = false /\ StudioMutex.test_editor s i = s) \/
     (StudioMutex.can_edit s i = true /\
      StudioMutex.has_board s !! i = Some 0 /\
      StudioMutex.has_board s !! ((i + 1) mod StudioMutex.NUM_BOARDS)%nat
      = Some 0 /\
      mutex_holds (StudioMutex.test_editor s i) i i /\
      mutex_holds (StudioMutex.test_editor s i) i
        ((i + 1) mod StudioMutex.NUM_BOARDS)%nat)) /\
  (forall y i,
     StudioMutex.reachable y -> (i < StudioMutex.NUM_EDITORS)%nat ->
     (mutex_holds (StudioMutex.shared y) i i /\
      mutex_holds (StudioMutex.shared y) i
        ((i + 1) mod StudioMutex.NUM_BOARDS)%nat) \/
     (forall b, ~ mutex_holds (StudioMutex.shared y) i b)) /\
  (exists y,
     StudioSem.reachable y /\ StudioSem.holds y 0%nat 0%nat /\
     ~ StudioSem.holds y 0%nat ((0 + 1) mod StudioSem.NUM_BOARDS)%nat).
Proof.
  split; [| split; [| split; [| split]]].
  - intros s i Hc Hi. by apply Studio.try_to_edit_atomic.
  - intros s i Hr Hi. apply Studio.consistent_zero_or_both; [| exact Hi].
    by apply Studio.reachable_consistent.
  - intros s i Hc Hi. by apply mutex_test_editor_atomic.
  - intros y i Hr Hi.
    destruct (Studio.consistent_zero_or_both
                (StudioMutex.to_monitor (StudioMutex.shared y)) i
                (mutex_reachable_consistent y Hr) Hi) as [[Hl Hrt] | Hnone].
    + left. split; by apply mutex_holds_to_monitor.
    + right. intros b Hb. apply (Hnone b). by apply mutex_holds_to_monitor.
  - exists StudioSem.one_board. split; [exact StudioSem.reachable_one_board |].
    exact StudioSem.one_board_holds_one.
Qed.

Lemma mutex_crowded_run_holds :
  mutex_holds (StudioMutex.shared (StudioMutex.after StudioMutex.crowded_run))
    0 0.
Proof.
  destruct StudioMutex.mutex_crowded_run_state as (Es & Eb & _).
  unfold mutex_holds, StudioMutex.editing. rewrite Es, Eb.
  split; [reflexivity |]. split; [by left | reflexivity].
Qed.

Lemma pair_atomic_under_monitor_witness :
  (Studio.reachable Studio.editor0_editing /\
   (0 < Studio.NUM_EDITORS)%nat /\
   ((Studio.holds Studio.editor0_editing 0 0 /\
     Studio.holds Studio.editor0_editing 0 (Studio.right_of 0)) \/
    (forall b, ~ Studio.holds Studio.editor0_editing 0 b))) /\
  (StudioMutex.reachable (StudioMutex.after StudioMutex.crowded_run) /\
   (0 < StudioMutex.NUM_EDITORS)%nat /\
   mutex_holds (StudioMutex.shared (StudioMutex.after StudioMutex.crowded_run))
     0 0 /\
   mutex_holds (StudioMutex.shared (StudioMutex.after StudioMutex.crowded_run))
     0 ((0 + 1) mod StudioMutex.NUM_BOARDS)%nat).
Proof.
  assert (H0 : (0 < Studio.NUM_EDITORS)%nat) by (unfold Studio.NUM_EDITORS; lia).
  destruct pair_atomic_under_monitor as (_ & Hmon & _ & Hmut & _).
  split.
  - split; [exact Studio.reachable_editor0_editing |]. split; [exact H0 |].
    exact (Hmon Studio.editor0_editing 0%nat Studio.reachable_editor0_editing H0).
  - split; [exact StudioMutex.mutex_reachable_after_crowded_run |].
    split; [exact H0 |].
    destruct (Hmut _ 0%nat StudioMutex.mutex_reachable_after_crowded_run H0)
      as [Hboth | Hnone].
    + exact Hboth.
    + destruct (Hnone 0%nat mutex_crowded_run_holds).
Defined.



